(** * auth-service: the products cache and pagination core

    A shallow embedding of the TypeScript sources of the products
    subsystem and of the circuit breaker around external API A, with the
    properties of the specification proved over it.

    - [Products]           : src/repositories/products/productRepository.ts
    - [StableStringify]    : src/utils/stableStringify.ts
    - [Cache]              : src/services/cache.ts
    - [ProductsCache]      : src/services/productsCache.ts
    - [ExternalApiA]       : src/services/externalApiA.ts, with its retry helper
    - [ProductsController] : src/controllers/productsController.ts, with
                             src/utils/dedupeInFlight.ts and the error handler

    and, over the same definitions, further properties of the code:

    - [ProductsPages], [StableStringifyFacts], [CacheFacts],
      [ProductsCacheFacts], [ExternalApiAFacts], [ProductsControllerFacts]
    - [CacheAdminController] : src/controllers/cacheAdminController.ts
    - [Metrics]              : src/services/metrics.ts
    - [RateLimit]            : src/middlewares/rateLimit.ts
    - [Auth0M2MToken]        : src/services/auth0M2MToken.ts
    - [CacheClock]           : src/services/cache.ts against the clock

    The SQL text built by [listProducts] is interpreted over a table held
    as a list of rows: WHERE is a filter, ORDER BY a sort under the
    collation of the column, LIMIT a prefix; the ids of the items are the
    JavaScript numbers that [Number] makes of the BIGINT keys.
    Asynchronous code runs in a state and exception monad over a world that
    holds the Redis store, the clock and a log of the commands sent. In
    [Cache] a command takes no time and a key does not expire, which is
    enough for what a call sends and returns along each path; [CacheClock]
    runs the same code with the time every wait takes, the expiry of keys,
    and the other clients and the connection changing meanwhile, for what
    depends on them: the waiting budget, the lock under a long [compute],
    the life of an entry. *)

From Stdlib Require Import ZArith QArith String Ascii List Lia Bool.
From Stdlib Require Import DecimalString DecimalZ.
From stdpp Require Import base tactics option list sorting strings gmap.

(** ** Comparison results

    SQL's [<], [=], [>] on one column and the lexicographic pair
    [(sortColumn, id)] are written over [comparison]. *)

Definition lexCompare (c1 c2 : comparison) : comparison :=
  match c1 with
  | Eq => c2
  | _ => c1
  end.

(** JavaScript truthiness of an optional string: [undefined] and [""] are
    falsy. *)
Definition truthy (s : option string) : option string :=
  match s with
  | Some EmptyString => None
  | other => other
  end.

Arguments truthy : simpl never.

Lemma truthy_nonempty (s : string) : s <> ""%string -> truthy (Some s) = Some s.
Proof. by destruct s. Qed.

Module Products.

Local Open Scope Z_scope.

(** src/types/products.ts *)

Inductive ProductSortBy := ByCreatedAt | ByPrice | ByName.
Inductive SortOrder := Asc | Desc.

(** A row of the [products] table. [id] is the BIGINT UNSIGNED key; [price]
    is the DECIMAL(10,2) column held as an exact integer (only its order is
    used); [createdAt] is the TIMESTAMP in epoch milliseconds. An item of a
    page has the same fields, its [id] being a JavaScript number. *)
Record ProductRow := {
  id : Z;
  name : string;
  description : option string;
  price : Z;
  category : string;
  createdAt : Z
}.

(** The value of a sort column. A cursor's [v] carries the sort-column
    value of the row it was minted from ([toISOString] of the date, the
    DECIMAL's text, the name); its rendering and MySQL's reading of it back
    are the runtime's business, so [v] is held here as the column value. *)
Inductive SortValue :=
| SvDate (t : Z)
| SvDecimal (p : Z)
| SvText (s : string).

Record Cursor := { v : SortValue; cursorId : Z }.

Record ProductListQuery := {
  limit : Z;
  sortBy : ProductSortBy;
  sortOrder : SortOrder;
  q : option string;
  categoryFilter : option string;
  minPrice : option Z;
  maxPrice : option Z;
  createdFrom : option Z;
  createdTo : option Z;
  cursor : option Cursor
}.

Record Page := {
  items : list ProductRow;
  hasMore : bool;
  nextCursor : option Cursor
}.

(** ** [Number(r.id)]

    A JavaScript number is an IEEE 754 double: [Number] of a BIGINT is the
    double nearest to it, the even one of two that are equally near. Up to
    2^53 every integer is a double; from there on only every second, then
    every fourth, and so on. *)
Definition toDouble (z : Z) : Z :=
  let a := Z.abs z in
  if a <? 2 ^ 53 then z
  else
    let ulp := 2 ^ (Z.log2 a - 52) in
    let q := a / ulp in
    let r := a mod ulp in
    let q' := if (2 * r <? ulp) || ((2 * r =? ulp) && Z.even q) then q else q + 1 in
    Z.sgn z * (q' * ulp).

(** The object [listProducts] makes of a row. *)
Definition toItem (r : ProductRow) : ProductRow :=
  {| id := toDouble (id r); name := name r; description := description r;
     price := price r; category := category r; createdAt := createdAt r |}.

#[global] Instance SortValue_eq_dec : EqDecision SortValue.
Proof. solve_decision. Defined.

#[global] Instance ProductRow_eq_dec : EqDecision ProductRow.
Proof. solve_decision. Defined.

#[global] Instance Cursor_eq_dec : EqDecision Cursor.
Proof. solve_decision. Defined.

(** ** SQL comparisons *)

Definition tagRank (a : SortValue) : Z :=
  match a with
  | SvDate _ => 0
  | SvDecimal _ => 1
  | SvText _ => 2
  end.

(** [sortColumn] of listProducts, read off a row. *)
Definition sortColumn (sb : ProductSortBy) (r : ProductRow) : SortValue :=
  match sb with
  | ByCreatedAt => SvDate (createdAt r)
  | ByPrice => SvDecimal (price r)
  | ByName => SvText (name r)
  end.

(** [opForCursor]: ['>'] for asc, ['<'] for desc; [holds op c] reads the
    operator against the outcome of comparing column with parameter. *)
Definition opForCursor (order : SortOrder) : comparison :=
  match order with
  | Asc => Gt
  | Desc => Lt
  end.

Definition holds (op c : comparison) : bool :=
  match op, c with
  | Gt, Gt | Lt, Lt | Eq, Eq => true
  | _, _ => false
  end.

(** [Array.prototype.slice(0, n)] for an integer [n]: a negative end counts
    from the end of the array. *)
Definition slice0 {A} (l : list A) (n : Z) : list A :=
  if 0 <=? n then take (Z.to_nat n) l
  else take (Z.to_nat (Z.of_nat (length l) + n)) l.

Section Collation.

(** MySQL sorts and compares the VARCHAR columns [name] and [category] by
    the collation of the column, not byte by byte: the collation gives
    every string a weight string (SQL's WEIGHT_STRING), and two strings
    compare as their weight strings do. Under a case-insensitive collation
    two names that differ in case are equal. *)
Variable weightString : string -> string.

(** Values of one column type compare by that type's order; values of two
    different types (never produced by a cursor used with the pairing it was
    minted under) compare by type. *)
Definition compareSV (a b : SortValue) : comparison :=
  match a, b with
  | SvDate x, SvDate y => x ?= y
  | SvDecimal x, SvDecimal y => x ?= y
  | SvText s, SvText t => String.compare (weightString s) (weightString t)
  | _, _ => tagRank a ?= tagRank b
  end.

(** [(sortColumn OP ? OR (sortColumn = ? AND id OP ?))] *)
Definition seekPredicate (sb : ProductSortBy) (order : SortOrder)
    (c : Cursor) (r : ProductRow) : bool :=
  let cursorOp := opForCursor order in
  holds cursorOp (compareSV (sortColumn sb r) (v c))
  || (holds Eq (compareSV (sortColumn sb r) (v c))
      && holds cursorOp (id r ?= cursorId c)).

(** [ORDER BY sortColumn order, id order] *)
Definition rowCompare (sb : ProductSortBy) (r1 r2 : ProductRow) : comparison :=
  lexCompare (compareSV (sortColumn sb r1) (sortColumn sb r2)) (id r1 ?= id r2).

Definition orderLeb (sb : ProductSortBy) (order : SortOrder)
    (r1 r2 : ProductRow) : bool :=
  match order with
  | Asc => negb (holds Gt (rowCompare sb r1 r2))
  | Desc => negb (holds Lt (rowCompare sb r1 r2))
  end.

Definition orderBy (sb : ProductSortBy) (order : SortOrder) : relation ProductRow :=
  fun r1 r2 => Is_true (orderLeb sb order r1 r2).

#[local] Instance orderBy_dec sb order : RelDecision (orderBy sb order).
Proof. intros r1 r2. unfold orderBy. apply _. Defined.

Section ListProducts.

(** [MATCH(name, description) AGAINST (? IN NATURAL LANGUAGE MODE)]: the
    storage engine's full-text predicate. *)
Variable matchAgainst : string -> ProductRow -> bool.

(** The [where] array with the filter clauses pushed in source order. *)
Definition filterClauses (query : ProductListQuery) : list (ProductRow -> bool) :=
  match truthy (q query) with
  | Some s => [matchAgainst s]
  | None => []
  end
  ++ match truthy (categoryFilter query) with
     | Some c => [fun r => bool_decide (weightString (category r) = weightString c)]
     | None => []
     end
  ++ match minPrice query with
     | Some p => [fun r => p <=? price r]
     | None => []
     end
  ++ match maxPrice query with
     | Some p => [fun r => price r <=? p]
     | None => []
     end
  ++ match createdFrom query with
     | Some t => [fun r => t <=? createdAt r]
     | None => []
     end
  ++ match createdTo query with
     | Some t => [fun r => createdAt r <=? t]
     | None => []
     end.

Definition whereClauses (query : ProductListQuery) : list (ProductRow -> bool) :=
  filterClauses query
  ++ match cursor query with
     | Some c => [seekPredicate (sortBy query) (sortOrder query) c]
     | None => []
     end.

(** [where.join(' AND ')]; the empty list is no WHERE at all. *)
Definition whereSql (clauses : list (ProductRow -> bool)) (r : ProductRow) : bool :=
  forallb (fun p => p r) clauses.

(** [pool.query(sql, params)] over the table [table]. *)
Definition selectRows (table : list ProductRow) (query : ProductListQuery)
    (limitPlusOne : Z) : list ProductRow :=
  take (Z.to_nat limitPlusOne)
    (merge_sort (orderBy (sortBy query) (sortOrder query))
       (filter (whereSql (whereClauses query)) table)).

Definition listProducts (table : list ProductRow) (query : ProductListQuery) : Page :=
  let limitPlusOne := Z.min 101 (Z.max 1 (limit query + 1)) in
  let rows := selectRows table query limitPlusOne in
  let items := map toItem (slice0 rows (limit query)) in
  let hasMore := limit query <? Z.of_nat (length rows) in
  let last := last items in
  {| items := items;
     hasMore := hasMore;
     nextCursor :=
       match hasMore, last with
       | true, Some l => Some {| v := sortColumn (sortBy query) l; cursorId := id l |}
       | _, _ => None
       end |}.

(** ** Walking the pages

    The client's loop: call, collect the items, and feed [nextCursor] back
    while [hasMore] holds. [None] means the walk did not finish: out of fuel,
    or a page with [hasMore] and no cursor to continue from. *)
Definition withCursor (query : ProductListQuery) (c : option Cursor) : ProductListQuery :=
  {| limit := limit query; sortBy := sortBy query; sortOrder := sortOrder query;
     q := q query; categoryFilter := categoryFilter query;
     minPrice := minPrice query; maxPrice := maxPrice query;
     createdFrom := createdFrom query; createdTo := createdTo query;
     cursor := c |}.

Fixpoint walkPages (fuel : nat) (table : list ProductRow)
    (query : ProductListQuery) : option (list ProductRow) :=
  match fuel with
  | O => None
  | S fuel' =>
      let page := listProducts table query in
      if hasMore page then
        match nextCursor page with
        | Some c =>
            match walkPages fuel' table (withCursor query (Some c)) with
            | Some rest => Some (items page ++ rest)
            | None => None
            end
        | None => None
        end
      else Some (items page)
  end.

(** The filters of the WHERE clause, without any seek predicate. *)
Definition matching (query : ProductListQuery) (r : ProductRow) : bool :=
  whereSql (filterClauses query) r.

(** ** What the specification asks of a page walk *)

Definition given {A} (filter : option A) (test : A -> bool) : bool :=
  match filter with
  | Some a => test a
  | None => true
  end.

(** Modelled from the spec: the filter predicate is built from the optional
    equality condition on the category, the range conditions on the price
    and on createdAt, and the full-text search for q, all combined with
    AND. Text is equal as the storage compares it. *)
Definition matchesFilters (query : ProductListQuery) (r : ProductRow) : bool :=
  given (categoryFilter query)
    (fun c => bool_decide (weightString (category r) = weightString c))
  && given (minPrice query) (fun p => p <=? price r)
  && given (maxPrice query) (fun p => price r <=? p)
  && given (createdFrom query) (fun t => t <=? createdAt r)
  && given (createdTo query) (fun t => createdAt r <=? t)
  && given (q query) (fun s => matchAgainst s r).

(** Modelled from the spec: the (sortColumn, id) order. Ascending, [r1] is
    not after [r2] when its sort column is smaller, or is equal and its id
    is not larger; descending, the other way round. *)
Definition inSortOrder (sb : ProductSortBy) (order : SortOrder)
    (r1 r2 : ProductRow) : Prop :=
  let c := compareSV (sortColumn sb r1) (sortColumn sb r2) in
  match order with
  | Asc => c = Lt \/ (c = Eq /\ id r1 <= id r2)
  | Desc => c = Gt \/ (c = Eq /\ id r2 <= id r1)
  end.

(** A text filter that is given is not empty: the controller's schema asks
    for one character at least. *)
Definition validFilters (query : ProductListQuery) : Prop :=
  q query <> Some ""%string /\ categoryFilter query <> Some ""%string.

(** The WHERE clause built by [listProducts] is the filter predicate of the
    specification. *)
Lemma matching_matchesFilters (query : ProductListQuery) (r : ProductRow) :
  validFilters query -> matching query r = matchesFilters query r.
Proof.
  intros [Hq Hcategory]. unfold matching, whereSql, filterClauses, matchesFilters.
  assert (Hq' : truthy (q query) = q query).
  { destruct (q query) as [s|]; [|done]. apply truthy_nonempty. congruence. }
  assert (Hc' : truthy (categoryFilter query) = categoryFilter query).
  { destruct (categoryFilter query) as [s|]; [|done]. apply truthy_nonempty.
    congruence. }
  rewrite Hq', Hc'.
  destruct (q query), (categoryFilter query), (minPrice query), (maxPrice query),
    (createdFrom query), (createdTo query); simpl;
    repeat match goal with
           | |- context [bool_decide ?P] => destruct (bool_decide P)
           | |- context [matchAgainst ?s r] => destruct (matchAgainst s r)
           | |- context [?a <=? ?b] => destruct (a <=? b)
           end; reflexivity.
Qed.

End ListProducts.

(** ** The order on rows *)

Lemma string_compare_refl (s : string) : String.compare s s = Eq.
Proof.
  pose proof (String.compare_antisym s s) as H.
  by destruct (String.compare s s).
Qed.

Lemma string_compare_lt_trans (s1 s2 s3 : string) :
  String.compare s1 s2 = Lt -> String.compare s2 s3 = Lt ->
  String.compare s1 s3 = Lt.
Proof.
  intros H12 H23.
  assert (Hle : String.le s1 s3).
  { transitivity s2; unfold String.le, String.leb; [by rewrite H12 | by rewrite H23]. }
  unfold String.le, String.leb in Hle.
  destruct (String.compare s1 s3) eqn:E; [|done|done].
  apply String.compare_eq_iff in E. subst s3.
  rewrite String.compare_antisym, H12 in H23. discriminate.
Qed.

(** What a comparison sees of a value: of a text, its weight string. *)
Definition sortKey (a : SortValue) : SortValue :=
  match a with
  | SvText s => SvText (weightString s)
  | other => other
  end.

Lemma compareSV_eq (a b : SortValue) : compareSV a b = Eq <-> sortKey a = sortKey b.
Proof.
  destruct a, b; simpl; try (split; [discriminate | congruence]).
  - rewrite Z.compare_eq_iff. split; congruence.
  - rewrite Z.compare_eq_iff. split; congruence.
  - split; [intros H; f_equal; by apply String.compare_eq_iff|].
    intros [= ->]. apply string_compare_refl.
Qed.

Lemma compareSV_sortKey_l (a b c : SortValue) :
  sortKey a = sortKey b -> compareSV a c = compareSV b c.
Proof. destruct a, b, c; simpl; try done; by intros [= ->]. Qed.

Lemma compareSV_sortKey_r (a b c : SortValue) :
  sortKey b = sortKey c -> compareSV a b = compareSV a c.
Proof. destruct a, b, c; simpl; try done; by intros [= ->]. Qed.

Lemma compareSV_refl (a : SortValue) : compareSV a a = Eq.
Proof. by apply compareSV_eq. Qed.

Lemma compareSV_antisym (a b : SortValue) : compareSV b a = CompOpp (compareSV a b).
Proof.
  destruct a, b; simpl; try reflexivity;
    try apply Z.compare_antisym.
  rewrite (String.compare_antisym (weightString s) (weightString s0)).
  by destruct (String.compare (weightString s0) (weightString s)).
Qed.

Lemma compareSV_lt_trans (a b c : SortValue) :
  compareSV a b = Lt -> compareSV b c = Lt -> compareSV a c = Lt.
Proof.
  destruct a, b, c; simpl; try discriminate; try reflexivity;
    try (rewrite !Z.compare_lt_iff; lia).
  apply string_compare_lt_trans.
Qed.

Lemma rowCompare_antisym sb (r1 r2 : ProductRow) :
  rowCompare sb r2 r1 = CompOpp (rowCompare sb r1 r2).
Proof.
  unfold rowCompare. rewrite (compareSV_antisym (sortColumn sb r1)).
  rewrite (Z.compare_antisym (id r1)).
  by destruct (compareSV _ _), (id r1 ?= id r2).
Qed.

Lemma rowCompare_lt_trans sb (r1 r2 r3 : ProductRow) :
  rowCompare sb r1 r2 = Lt -> rowCompare sb r2 r3 = Lt -> rowCompare sb r1 r3 = Lt.
Proof.
  unfold rowCompare, lexCompare.
  destruct (compareSV (sortColumn sb r1) (sortColumn sb r2)) eqn:E12; try discriminate;
    destruct (compareSV (sortColumn sb r2) (sortColumn sb r3)) eqn:E23; try discriminate;
    intros H12 H23.
  - apply compareSV_eq in E12.
    rewrite (compareSV_sortKey_l _ _ _ E12), E23.
    rewrite Z.compare_lt_iff in *. lia.
  - apply compareSV_eq in E12. by rewrite (compareSV_sortKey_l _ _ _ E12), E23.
  - apply compareSV_eq in E23. by rewrite <- (compareSV_sortKey_r _ _ _ E23), E12.
  - by rewrite (compareSV_lt_trans _ _ _ E12 E23).
Qed.

Lemma rowCompare_eq_id sb (r1 r2 : ProductRow) :
  rowCompare sb r1 r2 = Eq -> id r1 = id r2.
Proof.
  unfold rowCompare, lexCompare.
  destruct (compareSV _ _); try discriminate. apply Z.compare_eq_iff.
Qed.

Lemma rowCompare_refl sb (r : ProductRow) : rowCompare sb r r = Eq.
Proof.
  unfold rowCompare. rewrite compareSV_refl. simpl.
  apply Z.compare_refl.
Qed.

Lemma orderBy_flip sb (r1 r2 : ProductRow) :
  orderBy sb Desc r1 r2 <-> orderBy sb Asc r2 r1.
Proof.
  unfold orderBy, orderLeb. rewrite (rowCompare_antisym sb r1 r2).
  by destruct (rowCompare sb r1 r2).
Qed.

#[local] Instance orderBy_total sb order : Total (orderBy sb order).
Proof.
  intros r1 r2. unfold orderBy, orderLeb.
  rewrite (rowCompare_antisym sb r1 r2).
  destruct order, (rowCompare sb r1 r2); simpl; auto.
Qed.

Lemma orderBy_asc_trans sb : Transitive (orderBy sb Asc).
Proof.
  intros r1 r2 r3. unfold orderBy, orderLeb.
  destruct (rowCompare sb r1 r2) eqn:E12; simpl; [| |done];
    destruct (rowCompare sb r2 r3) eqn:E23; simpl; try done; intros _ _.
  - unfold rowCompare, lexCompare in *.
    destruct (compareSV (sortColumn sb r1) (sortColumn sb r2)) eqn:C12; try discriminate.
    destruct (compareSV (sortColumn sb r2) (sortColumn sb r3)) eqn:C23; try discriminate.
    apply compareSV_eq in C12.
    rewrite (compareSV_sortKey_l _ _ _ C12), C23.
    apply Z.compare_eq_iff in E12, E23. rewrite E12, E23, Z.compare_refl. done.
  - assert (rowCompare sb r1 r3 = Lt) as ->; [|done].
    unfold rowCompare, lexCompare in *.
    destruct (compareSV (sortColumn sb r1) (sortColumn sb r2)) eqn:C12; try discriminate.
    apply compareSV_eq in C12. apply Z.compare_eq_iff in E12.
    by rewrite (compareSV_sortKey_l _ _ _ C12), E12.
  - assert (rowCompare sb r1 r3 = Lt) as ->; [|done].
    unfold rowCompare, lexCompare in *.
    destruct (compareSV (sortColumn sb r2) (sortColumn sb r3)) eqn:C23; try discriminate.
    apply compareSV_eq in C23. apply Z.compare_eq_iff in E23.
    by rewrite <- (compareSV_sortKey_r _ _ _ C23), <- E23.
  - by rewrite (rowCompare_lt_trans sb _ _ _ E12 E23).
Qed.

#[local] Instance orderBy_trans sb order : Transitive (orderBy sb order).
Proof.
  destruct order; [apply orderBy_asc_trans|].
  intros r1 r2 r3 H12 H23. apply orderBy_flip. apply orderBy_flip in H12, H23.
  by apply (orderBy_asc_trans sb r3 r2 r1).
Qed.

Lemma orderBy_antisym_id sb order (r1 r2 : ProductRow) :
  orderBy sb order r1 r2 -> orderBy sb order r2 r1 -> id r1 = id r2.
Proof.
  unfold orderBy, orderLeb. rewrite (rowCompare_antisym sb r1 r2).
  destruct (rowCompare sb r1 r2) eqn:E; destruct order; simpl; try done;
    intros _ _; by apply (rowCompare_eq_id sb).
Qed.

(** The seek predicate is "strictly after the cursor's row" in the order of
    the query. *)
Lemma seekPredicate_spec sb order (r0 r : ProductRow) :
  seekPredicate sb order {| v := sortColumn sb r0; cursorId := id r0 |} r
  = holds (opForCursor order) (rowCompare sb r r0).
Proof.
  unfold seekPredicate, rowCompare, lexCompare. simpl.
  by destruct (compareSV (sortColumn sb r) (sortColumn sb r0)),
    (id r ?= id r0), order.
Qed.

Lemma seekPredicate_not_before sb order (r0 r : ProductRow) :
  orderBy sb order r r0 ->
  seekPredicate sb order {| v := sortColumn sb r0; cursorId := id r0 |} r = false.
Proof.
  rewrite seekPredicate_spec. unfold orderBy, orderLeb.
  by destruct order, (rowCompare sb r r0).
Qed.

Lemma seekPredicate_after sb order (r0 r : ProductRow) :
  orderBy sb order r0 r -> id r <> id r0 ->
  seekPredicate sb order {| v := sortColumn sb r0; cursorId := id r0 |} r = true.
Proof.
  rewrite seekPredicate_spec. unfold orderBy, orderLeb.
  rewrite (rowCompare_antisym sb r r0).
  destruct (rowCompare sb r r0) eqn:E; destruct order; simpl; try done.
  all: intros _ Hne; by apply rowCompare_eq_id in E.
Qed.

(** The ORDER BY of the query is the order the specification asks for. *)
Lemma orderBy_inSortOrder sb order (r1 r2 : ProductRow) :
  orderBy sb order r1 r2 <-> inSortOrder sb order r1 r2.
Proof.
  unfold orderBy, orderLeb, rowCompare, lexCompare, inSortOrder.
  destruct order, (compareSV (sortColumn sb r1) (sortColumn sb r2)); simpl;
    try (split; [by auto | done]);
    try (split; [done | by intros [?|[? _]]]);
    destruct (Z.compare_spec (id r1) (id r2)); simpl;
    (split; [intros ?; right; split; [done|lia] | intros [?|[_ ?]]; [done|lia]]).
Qed.

(** ** Ids that [Number] keeps *)

Lemma toDouble_small (z : Z) : Z.abs z < 2 ^ 53 -> toDouble z = z.
Proof. intros Hz. unfold toDouble. apply Z.ltb_lt in Hz. by rewrite Hz. Qed.

Lemma toItem_exact (r : ProductRow) : toDouble (id r) = id r -> toItem r = r.
Proof. destruct r. unfold toItem. simpl. by intros ->. Qed.

Lemma map_toItem_exact (l : list ProductRow) :
  Forall (fun r => toDouble (id r) = id r) l -> map toItem l = l.
Proof.
  induction 1 as [|r l Hr _ IH]; [done|]. simpl. by rewrite IH, toItem_exact.
Qed.

(** ** Lists: filters over sorted lists *)

Lemma StronglySorted_weaken {A} (R S : relation A) (l : list A) :
  (forall x y, R x y -> S x y) -> StronglySorted R l -> StronglySorted S l.
Proof.
  intros HRS. induction 1 as [|x l _ IH Hx]; constructor; [done|].
  eapply Forall_impl; [done|]. intros y. apply HRS.
Qed.

Lemma filter_all {A} (P : A -> Prop) `{!forall x, Decision (P x)} (l : list A) :
  Forall P l -> filter P l = l.
Proof.
  induction 1 as [|x l Hx _ IH]; [done|].
  rewrite filter_cons, IH. by destruct (decide (P x)).
Qed.

Lemma filter_none {A} (P : A -> Prop) `{!forall x, Decision (P x)} (l : list A) :
  Forall (fun x => ~ P x) l -> filter P l = [].
Proof.
  induction 1 as [|x l Hx _ IH]; [done|].
  rewrite filter_cons, IH. by destruct (decide (P x)).
Qed.

Lemma StronglySorted_filter {A} (R : relation A) (P : A -> Prop)
    `{!forall x, Decision (P x)} (l : list A) :
  StronglySorted R l -> StronglySorted R (filter P l).
Proof.
  induction 1 as [|x l _ IH Hx]; [constructor|].
  rewrite filter_cons. destruct (decide (P x)); [|done].
  constructor; [done|].
  apply Forall_forall. intros y [_ Hy]%list_elem_of_filter.
  by eapply Forall_forall in Hx.
Qed.

Lemma merge_sort_filter {A} (R : relation A) `{!forall x y, Decision (R x y)}
    `{!Transitive R, !Total R} (P : A -> Prop) `{!forall x, Decision (P x)}
    (l : list A) :
  (forall x y, x ∈ l -> y ∈ l -> R x y -> R y x -> x = y) ->
  merge_sort R (filter P l) = filter P (merge_sort R l).
Proof.
  intros Hanti. apply (StronglySorted_unique_strong R).
  - intros x y Hx Hy. apply Hanti.
    + rewrite merge_sort_Permutation in Hx.
      by apply list_elem_of_filter in Hx as [_ ?].
    + apply list_elem_of_filter in Hy as [_ Hy].
      by rewrite merge_sort_Permutation in Hy.
  - by apply StronglySorted_merge_sort.
  - apply StronglySorted_filter. by apply StronglySorted_merge_sort.
  - rewrite merge_sort_Permutation. by rewrite (merge_sort_Permutation R l).
Qed.

Lemma withCursor_withCursor (query : ProductListQuery) (c c' : option Cursor) :
  withCursor (withCursor query c) c' = withCursor query c'.
Proof. reflexivity. Qed.

(** ** The walk covers the sorted matches *)

Section Walk.

Variable matchAgainst : string -> ProductRow -> bool.
Variable table : list ProductRow.
Hypothesis table_ids : NoDup (id <$> table).
Variable query : ProductListQuery.

(** The rows that pass the filters of the query, in its ORDER BY order. *)
Definition sortedMatches : list ProductRow :=
  merge_sort (orderBy (sortBy query) (sortOrder query))
    (filter (matching matchAgainst query) table).

Definition cursorOf (r : ProductRow) : Cursor :=
  {| v := sortColumn (sortBy query) r; cursorId := id r |}.

Lemma same_id_same_row (r1 r2 : ProductRow) :
  r1 ∈ table -> r2 ∈ table -> id r1 = id r2 -> r1 = r2.
Proof using table_ids.
  revert table_ids.
  induction table as [|x l IH]; [by intros _ ?%elem_of_nil|].
  rewrite fmap_cons, NoDup_cons. intros [Hx Hl] H1 H2 Hid.
  apply elem_of_cons in H1 as [->|H1]; apply elem_of_cons in H2 as [->|H2]; auto.
  - destruct Hx. rewrite Hid. by apply list_elem_of_fmap_2.
  - destruct Hx. rewrite <- Hid. by apply list_elem_of_fmap_2.
Qed.

Lemma sortedMatches_elem (r : ProductRow) :
  r ∈ sortedMatches <-> matching matchAgainst query r /\ r ∈ table.
Proof.
  unfold sortedMatches. rewrite merge_sort_Permutation.
  by rewrite list_elem_of_filter.
Qed.

Lemma sortedMatches_sorted :
  StronglySorted (orderBy (sortBy query) (sortOrder query)) sortedMatches.
Proof. apply StronglySorted_merge_sort; apply _. Qed.

Lemma table_NoDup : NoDup table.
Proof using table_ids. by eapply NoDup_fmap_1. Qed.

Lemma sortedMatches_NoDup : NoDup sortedMatches.
Proof using table_ids.
  unfold sortedMatches. rewrite merge_sort_Permutation.
  apply NoDup_filter, table_NoDup.
Qed.

(** The rows selected under a cursor are the sorted matches that pass the
    seek predicate. *)
Lemma select_with_cursor (c : Cursor) :
  merge_sort (orderBy (sortBy query) (sortOrder query))
    (filter (whereSql (whereClauses matchAgainst (withCursor query (Some c)))) table)
  = filter (seekPredicate (sortBy query) (sortOrder query) c) sortedMatches.
Proof using table_ids.
  unfold sortedMatches.
  rewrite <- merge_sort_filter.
  - f_equal. rewrite list_filter_filter. apply list_filter_iff. intros r.
    unfold whereSql, whereClauses, matching, whereSql. simpl.
    rewrite forallb_app. simpl. rewrite andb_true_r.
    rewrite andb_True. tauto.
  - apply _.
  - apply _.
  - intros x y [_ Hx]%list_elem_of_filter [_ Hy]%list_elem_of_filter Hxy Hyx.
    apply same_id_same_row; [done..|]. by eapply orderBy_antisym_id.
Qed.

Lemma select_without_cursor :
  merge_sort (orderBy (sortBy query) (sortOrder query))
    (filter (whereSql (whereClauses matchAgainst (withCursor query None))) table)
  = sortedMatches.
Proof.
  unfold sortedMatches. f_equal. apply list_filter_iff. intros r.
  unfold whereClauses, matching. simpl. by rewrite app_nil_r.
Qed.

(** Past the row a cursor was minted from, exactly the rest remains. *)
Lemma seek_rest (A B : list ProductRow) (r0 : ProductRow) :
  sortedMatches = (A ++ [r0]) ++ B ->
  filter (seekPredicate (sortBy query) (sortOrder query) (cursorOf r0)) sortedMatches = B.
Proof using table_ids.
  intros HL. pose proof sortedMatches_sorted as Hs.
  pose proof sortedMatches_NoDup as Hnd.
  assert (Hin : forall x, x ∈ sortedMatches -> x ∈ table).
  { intros x Hx. by apply sortedMatches_elem in Hx as [_ ?]. }
  rewrite HL in *. rewrite filter_app. unfold cursorOf.
  rewrite (filter_none _ (A ++ [r0])), (filter_all _ B); [done| |].
  - apply Forall_forall. intros x Hx.
    apply Is_true_true. apply seekPredicate_after.
    + eapply (StronglySorted_app_1_elem_of _ (A ++ [r0]) B); [done| |done].
      apply elem_of_app. right. by apply list_elem_of_singleton.
    + intros Hid.
      assert (x = r0) as ->.
      { apply same_id_same_row; [| |done]; apply Hin; set_solver. }
      apply NoDup_app in Hnd as (_ & Hdisj & _).
      apply (Hdisj r0); [set_solver | done].
  - apply Forall_forall. intros x Hx Hseek. apply Is_true_true in Hseek.
    rewrite seekPredicate_not_before in Hseek; [done|].
    apply elem_of_app in Hx as [Hx| ->%list_elem_of_singleton].
    + apply StronglySorted_app_1_l in Hs.
      eapply (StronglySorted_app_1_elem_of _ A [r0]); [done..|].
      by apply list_elem_of_singleton.
    + destruct (total (orderBy (sortBy query) (sortOrder query)) r0 r0); done.
Qed.

Hypothesis limit_range : 1 <= limit query <= 100.

(** Every id of the table is a JavaScript number as it stands. *)
Hypothesis table_exact : Forall (fun r => toDouble (id r) = id r) table.

Lemma exact_in_sortedMatches (r : ProductRow) :
  r ∈ sortedMatches -> toDouble (id r) = id r.
Proof using table_exact.
  intros [_ Hr]%sortedMatches_elem. by eapply Forall_forall in table_exact.
Qed.

(** One call, given the rows its SELECT ranges over. *)
Lemma listProducts_page (c : option Cursor) (B : list ProductRow) :
  merge_sort (orderBy (sortBy query) (sortOrder query))
    (filter (whereSql (whereClauses matchAgainst (withCursor query c))) table) = B ->
  let n := Z.to_nat (limit query) in
  listProducts matchAgainst table (withCursor query c)
  = {| items := map toItem (take n B);
       hasMore := bool_decide (n < length B)%nat;
       nextCursor :=
         if bool_decide (n < length B)%nat
         then cursorOf <$> last (map toItem (take n B))
         else None |}.
Proof using limit_range.
  intros HB n. unfold listProducts, selectRows. simpl. rewrite HB.
  replace (Z.min 101 (Z.max 1 (limit query + 1))) with (limit query + 1) by lia.
  replace (Z.to_nat (limit query + 1)) with (S n) by lia.
  assert (Hslice : slice0 (take (S n) B) (limit query) = take n B).
  { unfold slice0. destruct (0 <=? limit query) eqn:E; [|lia].
    rewrite take_take. f_equal. lia. }
  rewrite Hslice.
  assert (Hmore : (limit query <? Z.of_nat (length (take (S n) B)))
                  = bool_decide (n < length B)%nat).
  { rewrite length_take.
    destruct (bool_decide_reflect (n < length B)%nat);
      [apply Z.ltb_lt | apply Z.ltb_ge]; lia. }
  rewrite Hmore. reflexivity.
Qed.

Lemma walkPages_suffix (fuel : nat) :
  forall (A B : list ProductRow) (c : option Cursor),
    sortedMatches = A ++ B ->
    match c with
    | None => A = []
    | Some c' => exists A' r0, A = A' ++ [r0] /\ c' = cursorOf r0
    end ->
    (length B < fuel)%nat ->
    walkPages matchAgainst fuel table (withCursor query c) = Some B.
Proof using limit_range table_ids table_exact.
  induction fuel as [|fuel IH]; intros A B c HL Hc Hfuel; [lia|].
  assert (HB : merge_sort (orderBy (sortBy query) (sortOrder query))
      (filter (whereSql (whereClauses matchAgainst (withCursor query c))) table) = B).
  { destruct c as [c'|].
    - destruct Hc as (A' & r0 & -> & ->).
      rewrite select_with_cursor. by apply (seek_rest A').
    - subst A. by rewrite select_without_cursor. }
  cbn [walkPages]. rewrite (listProducts_page c B HB).
  cbn [hasMore nextCursor items].
  set (n := Z.to_nat (limit query)).
  rewrite (map_toItem_exact (take n B)).
  2:{ apply Forall_forall. intros r Hr. eapply exact_in_sortedMatches.
      rewrite HL. apply elem_of_app. right. by eapply (subseteq_take n). }
  destruct (bool_decide_reflect (n < length B)%nat) as [Hlt|Hge].
  - assert (Hn : (0 < n)%nat) by lia.
    destruct (last (take n B)) as [r1|] eqn:Hlast.
    + simpl. apply last_Some in Hlast as [A1 HA1].
      rewrite withCursor_withCursor.
      rewrite (IH (A ++ take n B) (drop n B) (Some (cursorOf r1))).
      * by rewrite take_drop.
      * by rewrite <- app_assoc, take_drop.
      * exists (A ++ A1), r1. by rewrite HA1, app_assoc.
      * rewrite length_drop. lia.
    + apply last_None in Hlast.
      assert (length (take n B) = 0%nat) as Hz by by rewrite Hlast.
      rewrite length_take in Hz. lia.
  - f_equal. apply take_ge. lia.
Qed.

End Walk.

End Collation.

#[global] Existing Instance orderBy_dec.
#[global] Existing Instance orderBy_total.
#[global] Existing Instance orderBy_trans.


(** ** The example data set of the specification *)

Section Example.

Variable matchAgainst : string -> ProductRow -> bool.

(** Only [id] and [price] are given by the scenario; the other columns are
    arbitrary functions of the id. *)
Variables (nameOf categoryOf : Z -> string) (descriptionOf : Z -> option string)
  (createdAtOf : Z -> Z).

Definition exampleRow (i p : Z) : ProductRow :=
  {| id := i; name := nameOf i; description := descriptionOf i; price := p;
     category := categoryOf i; createdAt := createdAtOf i |}.

Definition exampleTable : list ProductRow :=
  [exampleRow 1 10; exampleRow 2 10; exampleRow 3 20; exampleRow 4 5].

Definition exampleQuery (c : option Cursor) : ProductListQuery :=
  {| limit := 2; sortBy := ByPrice; sortOrder := Asc;
     q := None; categoryFilter := None; minPrice := None; maxPrice := None;
     createdFrom := None; createdTo := None; cursor := c |}.

End Example.

(** The collation that compares text byte by byte. *)
Definition binaryCollation (s : string) : string := s.



(** ** Ids above 2^53

    Two rows of the same price whose ids are 2^53 + 1 and 2^53 + 2, read one
    row a page. [Number] makes 2^53 of the first id, so the cursor of the
    first page is (price, 2^53): both rows sort after it, and the page
    fetched with it is the first page again. *)
Definition largeIdRow (i : Z) : ProductRow :=
  {| id := i; name := "item"; description := None; price := 10;
     category := "tools"; createdAt := 0 |}.

Definition largeIdTable : list ProductRow :=
  [largeIdRow (2 ^ 53 + 1); largeIdRow (2 ^ 53 + 2)].

Definition largeIdQuery (c : option Cursor) : ProductListQuery :=
  {| limit := 1; sortBy := ByPrice; sortOrder := Asc;
     q := None; categoryFilter := None; minPrice := None; maxPrice := None;
     createdFrom := None; createdTo := None; cursor := c |}.

Definition largeIdPage : Page :=
  {| items := [largeIdRow (2 ^ 53)];
     hasMore := true;
     nextCursor := Some {| v := SvDecimal 10; cursorId := 2 ^ 53 |} |}.

Lemma largeId_page (c : option Cursor) :
  c = None \/ c = Some {| v := SvDecimal 10; cursorId := 2 ^ 53 |} ->
  listProducts binaryCollation (fun _ _ => true) largeIdTable (largeIdQuery c)
  = largeIdPage.
Proof. intros [->| ->]; by vm_compute. Qed.

Lemma largeId_walk (fuel : nat) :
  walkPages binaryCollation (fun _ _ => true) fuel largeIdTable
    (largeIdQuery (Some {| v := SvDecimal 10; cursorId := 2 ^ 53 |}))
  = None.
Proof.
  induction fuel as [|fuel IH]; [done|]. cbn [walkPages].
  rewrite largeId_page by by right. cbn [hasMore nextCursor largeIdPage].
  change (withCursor (largeIdQuery _) ?c) with (largeIdQuery c). by rewrite IH.
Qed.


(** C2. Rows (id, price) = (1,10), (2,10), (3,20), (4,5), limit 2, sort by
    price ascending, no filters: the first page is [(4,5); (1,10)] with
    hasMore and nextCursor {v: 10, id: 1}; the page fetched with that cursor
    is [(2,10); (3,20)] with hasMore false and no nextCursor. *)
Theorem listProducts_example_pages
    (weightString : string -> string)
    (matchAgainst : string -> ProductRow -> bool)
    (nameOf categoryOf : Z -> string) (descriptionOf : Z -> option string)
    (createdAtOf : Z -> Z) :
  let row := exampleRow nameOf categoryOf descriptionOf createdAtOf in
  let table := exampleTable nameOf categoryOf descriptionOf createdAtOf in
  listProducts weightString matchAgainst table (exampleQuery None)
  = {| items := [row 4 5; row 1 10];
       hasMore := true;
       nextCursor := Some {| v := SvDecimal 10; cursorId := 1 |} |}
  /\ listProducts weightString matchAgainst table
       (exampleQuery (Some {| v := SvDecimal 10; cursorId := 1 |}))
     = {| items := [row 2 10; row 3 20];
          hasMore := false;
          nextCursor := None |}.
Proof. split; reflexivity. Qed.

End Products.

(** * JavaScript values

    The values [JSON.stringify], [JSON.parse] and [stableStringify] range
    over. An object is its list of own properties in insertion order, as
    [Object.keys] and [JSON.stringify] enumerate them (the engine's special
    ordering of integer-like keys is left out: no key of this program is
    one). A finite number is the rational it denotes. *)

Inductive JsNumber :=
| JsNaN
| JsInfinity (negative : bool)
| JsFinite (x : Q).

#[warnings="-register-all"]
Inductive JsValue :=
| JUndefined
| JNull
| JBool (b : bool)
| JNumber (n : JsNumber)
| JString (s : string)
| JDate (t : Z)
| JArray (elements : list JsValue)
| JObject (props : list (string * JsValue)).

(** [rec[key]]: the value of the first property called [key], [undefined]
    when there is none. *)
Fixpoint objGet (props : list (string * JsValue)) (key : string) : JsValue :=
  match props with
  | [] => JUndefined
  | (k, x) :: rest => if decide (k = key) then x else objGet rest key
  end.

(** [out[key] = x]: overwrite in place, or add as the last property. This is
    what JavaScript does for a key that is neither an array index (those
    are enumerated before the other keys, in numeric order) nor [__proto__]
    (which sets the prototype instead of a property). *)
Fixpoint objSet (props : list (string * JsValue)) (key : string) (x : JsValue)
    : list (string * JsValue) :=
  match props with
  | [] => [(key, x)]
  | (k, y) :: rest =>
      if decide (k = key) then (k, x) :: rest else (k, y) :: objSet rest key x
  end.

Definition objectKeys (props : list (string * JsValue)) : list string :=
  map fst props.

(** [Array.prototype.sort()] without a comparator, on strings: ascending
    by code units. *)
Definition sortStrings (keys : list string) : list string :=
  merge_sort String.le keys.

Module StableStringify.

Section Runtime.

(** [Date.prototype.toISOString] and [JSON.stringify] are the runtime's. *)
Variable toISOString : Z -> string.
Variable JSON_stringify : JsValue -> string.

(** src/utils/stableStringify.ts. The loop [out[key] = sortRec(rec[key])]
    reads from [rec] with [sortRec] already applied to each property value,
    which is the same value and is structurally recursive. *)
Fixpoint sortRec (value : JsValue) : JsValue :=
  match value with
  | JDate t => JString (toISOString t)
  | JArray elements => JArray (map sortRec elements)
  | JObject props =>
      let rec := map (fun kv => (fst kv, sortRec (snd kv))) props in
      JObject
        (foldl (fun out key => objSet out key (objGet rec key)) []
           (sortStrings (objectKeys props)))
  | other => other
  end.

Definition stableStringify (value : JsValue) : string :=
  JSON_stringify (sortRec value).

End Runtime.

(** ** Logically identical values

    [reordered u v]: [v] is [u] with the properties of some of its objects,
    at any depth, written in another order. Arrays keep their order. *)
Inductive reordered : JsValue -> JsValue -> Prop :=
| reordered_refl (u : JsValue) : reordered u u
| reordered_trans (u v w : JsValue) :
    reordered u v -> reordered v w -> reordered u w
| reordered_props (ps qs : list (string * JsValue)) :
    ps ≡ₚ qs -> reordered (JObject ps) (JObject qs)
| reordered_in_prop (ps qs : list (string * JsValue)) (k : string) (u v : JsValue) :
    reordered u v ->
    reordered (JObject (ps ++ (k, u) :: qs)) (JObject (ps ++ (k, v) :: qs))
| reordered_in_array (xs ys : list JsValue) (u v : JsValue) :
    reordered u v ->
    reordered (JArray (xs ++ u :: ys)) (JArray (xs ++ v :: ys)).

(** A JavaScript object has each key once; [uniqueKeys] says so of the
    objects of a value, at every depth. *)
Fixpoint uniqueKeys (value : JsValue) : Prop :=
  match value with
  | JArray elements => fold_right (fun x acc => uniqueKeys x /\ acc) True elements
  | JObject props =>
      NoDup (objectKeys props)
      /\ fold_right (fun kv acc => uniqueKeys (snd kv) /\ acc) True props
  | _ => True
  end.

(** ** Properties are found by key, whatever their order *)

Lemma objGet_Permutation (ps qs : list (string * JsValue)) (key : string) :
  ps ≡ₚ qs -> NoDup (objectKeys ps) -> objGet ps key = objGet qs key.
Proof.
  unfold objectKeys. induction 1 as [|[k x] ps qs Hperm IH|[k1 x1] [k2 x2] ps|ps qs rs H1 IH1 H2 IH2];
    intros Hnd.
  - done.
  - simpl in *. apply NoDup_cons in Hnd as [_ Hnd]. by rewrite IH.
  - simpl in *. apply NoDup_cons in Hnd as [Hne _].
    repeat case_decide; subst; try done.
    destruct Hne. by left.
  - rewrite IH1; [|done]. apply IH2.
    by rewrite <- (Permutation_map fst H1).
Qed.

Lemma foldl_objSet_ext (g1 g2 : string -> JsValue) (keys : list string)
    (out : list (string * JsValue)) :
  (forall key, key ∈ keys -> g1 key = g2 key) ->
  foldl (fun out key => objSet out key (g1 key)) out keys
  = foldl (fun out key => objSet out key (g2 key)) out keys.
Proof.
  revert out. induction keys as [|key keys IH]; intros out Hg; [done|].
  simpl. rewrite (Hg key); [|by left].
  apply IH. intros key' Hkey'. apply Hg. by right.
Qed.

Lemma sortStrings_Permutation (ks1 ks2 : list string) :
  ks1 ≡ₚ ks2 -> sortStrings ks1 = sortStrings ks2.
Proof.
  intros Hperm. unfold sortStrings.
  apply (StronglySorted_unique String.le).
  - apply StronglySorted_merge_sort; apply _.
  - apply StronglySorted_merge_sort; apply _.
  - by rewrite !merge_sort_Permutation.
Qed.

Lemma uniqueKeys_props (props : list (string * JsValue)) :
  fold_right (fun kv acc => uniqueKeys (snd kv) /\ acc) True props
  <-> Forall (fun kv => uniqueKeys (snd kv)) props.
Proof.
  induction props as [|kv props IH]; simpl.
  - split; [constructor | done].
  - rewrite Forall_cons. tauto.
Qed.

Lemma uniqueKeys_elements (elements : list JsValue) :
  fold_right (fun x acc => uniqueKeys x /\ acc) True elements
  <-> Forall uniqueKeys elements.
Proof.
  induction elements as [|x elements IH]; simpl.
  - split; [constructor | done].
  - rewrite Forall_cons. tauto.
Qed.

Section Invariance.

Variable toISOString : Z -> string.

Lemma objectKeys_sortRec (props : list (string * JsValue)) :
  objectKeys (map (fun kv => (fst kv, sortRec toISOString (snd kv))) props)
  = objectKeys props.
Proof. unfold objectKeys. rewrite map_map. by apply map_ext. Qed.

(** Reordering keeps keys unique and does not change what [sortRec] builds. *)
Lemma sortRec_reordered (u v : JsValue) :
  reordered u v -> uniqueKeys u ->
  uniqueKeys v /\ sortRec toISOString u = sortRec toISOString v.
Proof.
  induction 1 as [u|u v w _ IH1 _ IH2|ps qs Hperm|ps qs k u v _ IH|xs ys u v _ IH];
    intros Hu.
  - done.
  - destruct (IH1 Hu) as [Hv ->]. by apply IH2.
  - destruct Hu as [Hnd Hvals]. apply uniqueKeys_props in Hvals. split.
    + split.
      * unfold objectKeys. by rewrite <- (Permutation_map fst Hperm).
      * apply uniqueKeys_props. by rewrite <- Hperm.
    + simpl. f_equal.
      rewrite (sortStrings_Permutation (objectKeys ps) (objectKeys qs))
        by by apply Permutation_map.
      apply foldl_objSet_ext. intros key _.
      apply objGet_Permutation.
      * by apply Permutation_map.
      * by rewrite objectKeys_sortRec.
  - destruct Hu as [Hnd Hvals]. apply uniqueKeys_props in Hvals.
    apply Forall_app in Hvals as [Hps Hqs]. apply Forall_cons in Hqs as [Hu Hqs].
    destruct (IH Hu) as [Hv Heq]. split.
    + split.
      * revert Hnd. unfold objectKeys. by rewrite !map_app.
      * apply uniqueKeys_props, Forall_app. split; [done|]. by apply Forall_cons.
    + simpl. unfold objectKeys. rewrite !map_app. simpl. by rewrite Heq.
  - simpl in Hu. apply uniqueKeys_elements in Hu.
    apply Forall_app in Hu as [Hxs Hys]. apply Forall_cons in Hys as [Hu Hys].
    destruct (IH Hu) as [Hv Heq]. split.
    + simpl. apply uniqueKeys_elements, Forall_app. split; [done|].
      by apply Forall_cons.
    + simpl. rewrite !map_app. simpl. by rewrite Heq.
Qed.

End Invariance.

End StableStringify.

(** * The process and its Redis store

    Asynchronous code is run to completion, one call at a time, over an
    explicit [World]: the Redis store, the ready flag of the client, the
    clock, the UUIDs drawn so far, the log of what was sent to Redis and
    slept, and whatever the [compute] callbacks act on ([external]).
    A call yields an [Outcome] and the next world. *)

Inductive Exn :=
| AppError (message : string) (statusCode : Z)
| ZodError
| TypeError
| SyntaxError
| ReplyError
| Error (message : string).

(** [Diverged] is a loop still running when the fuel given to the model ran
    out; the source has no such outcome. *)
Inductive Outcome (A : Type) :=
| Return (a : A)
| Throw (e : Exn)
| Diverged.

Arguments Return {A} a.
Arguments Throw {A} e.
Arguments Diverged {A}.

Inductive RedisCommand :=
| GET (key : string)
| SET_EX (key value : string) (ttlSeconds : Z)
| SET_PX_NX (key value : string) (ttlMs : Z)
| SET_NX (key value : string)
| INCR (key : string)
| EVAL_compare_and_delete (key token : string).

Inductive RedisReply :=
| ReplyNil
| ReplyBulk (value : string)
| ReplyOK
| ReplyInteger (n : Z)
| ReplyErr.

Inductive Event :=
| Redis (command : RedisCommand) (reply : RedisReply)
| Sleep (ms : Z).

Record World (X : Type) := {
  redisStatusUp : bool;
  redis : gmap string string;
  clock : Z;
  uuidsDrawn : nat;
  events : list Event;
  external : X
}.

Arguments redisStatusUp {X} w.
Arguments redis {X} w.
Arguments clock {X} w.
Arguments uuidsDrawn {X} w.
Arguments events {X} w.
Arguments external {X} w.

Definition M (X A : Type) : Type := World X -> Outcome A * World X.

Definition ret {X A} (a : A) : M X A := fun w => (Return a, w).

Definition throw {X A} (e : Exn) : M X A := fun w => (Throw e, w).

Definition bind {X A B} (m : M X A) (k : A -> M X B) : M X B :=
  fun w =>
    match m w with
    | (Return a, w') => k a w'
    | (Throw e, w') => (Throw e, w')
    | (Diverged, w') => (Diverged, w')
    end.

(** [try { m } finally { cleanup }]: the cleanup runs on both exits and, when
    it completes normally, leaves the outcome of [m] as it is. *)
Definition finally {X A} (m : M X A) (cleanup : M X unit) : M X A :=
  fun w =>
    match m w with
    | (Diverged, w') => (Diverged, w')
    | (r, w') =>
        match cleanup w' with
        | (Return _, w'') => (r, w'')
        | (Throw e, w'') => (Throw e, w'')
        | (Diverged, w'') => (Diverged, w'')
        end
    end.

(** [p.catch(() => undefined)] *)
Definition catchUndefined {X} (m : M X unit) : M X unit :=
  fun w =>
    match m w with
    | (Throw _, w') => (Return tt, w')
    | other => other
    end.

Declare Scope async_scope.
Delimit Scope async_scope with async.
Notation "'let*' x ':=' m 'in' k" := (bind m (fun x => k))
  (at level 10, x name, m at level 100, k at level 200) : async_scope.

Local Open Scope Z_scope.
Local Open Scope async_scope.

Definition setRedis {X} (store : gmap string string) (w : World X) : World X :=
  {| redisStatusUp := redisStatusUp w; redis := store; clock := clock w;
     uuidsDrawn := uuidsDrawn w; events := events w; external := external w |}.

Definition logEvent {X} (e : Event) (w : World X) : World X :=
  {| redisStatusUp := redisStatusUp w; redis := redis w; clock := clock w;
     uuidsDrawn := uuidsDrawn w; events := events w ++ [e];
     external := external w |}.

Definition setExternal {X} (x : X) (w : World X) : World X :=
  {| redisStatusUp := redisStatusUp w; redis := redis w; clock := clock w;
     uuidsDrawn := uuidsDrawn w; events := events w; external := x |}.

(** ** Redis commands *)

(** Redis reads a counter as a 64-bit signed integer written in canonical
    decimal. *)
Definition showInt (z : Z) : string := NilZero.string_of_int (Z.to_int z).

Definition readInt (s : string) : option Z :=
  match NilZero.int_of_string s with
  | Some d =>
      let z := Z.of_int d in
      if decide (showInt z = s) then
        if (- 2 ^ 63 <=? z) && (z <? 2 ^ 63) then Some z else None
      else None
  | None => None
  end.

Definition redisGet {X} (key : string) : M X (option string) :=
  fun w =>
    let found := redis w !! key in
    (Return found,
     logEvent (Redis (GET key)
                 match found with Some s => ReplyBulk s | None => ReplyNil end) w).

(** [SET key value EX ttlSeconds] *)
Definition redisSetEx {X} (key value : string) (ttlSeconds : Z) : M X unit :=
  fun w =>
    (Return tt,
     logEvent (Redis (SET_EX key value ttlSeconds) ReplyOK)
       (setRedis (<[key := value]> (redis w)) w)).

(** [SET key value PX ttlMs NX]: ['OK'] when the key was free, [null] when
    it was taken. *)
Definition redisSetPxNx {X} (key value : string) (ttlMs : Z) : M X bool :=
  fun w =>
    match redis w !! key with
    | None =>
        (Return true,
         logEvent (Redis (SET_PX_NX key value ttlMs) ReplyOK)
           (setRedis (<[key := value]> (redis w)) w))
    | Some _ =>
        (Return false, logEvent (Redis (SET_PX_NX key value ttlMs) ReplyNil) w)
    end.

(** [SET key value NX] *)
Definition redisSetNx {X} (key value : string) : M X bool :=
  fun w =>
    match redis w !! key with
    | None =>
        (Return true,
         logEvent (Redis (SET_NX key value) ReplyOK)
           (setRedis (<[key := value]> (redis w)) w))
    | Some _ => (Return false, logEvent (Redis (SET_NX key value) ReplyNil) w)
    end.

(** [INCR key]: a missing key counts as 0; a value that is not an integer,
    or an increment past the 64-bit range, is an error reply, which the
    client throws. *)
Definition redisIncr {X} (key : string) : M X Z :=
  fun w =>
    let current :=
      match redis w !! key with
      | None => Some 0
      | Some s => readInt s
      end in
    match current with
    | Some n =>
        if n + 1 <? 2 ^ 63 then
          (Return (n + 1),
           logEvent (Redis (INCR key) (ReplyInteger (n + 1)))
             (setRedis (<[key := showInt (n + 1)]> (redis w)) w))
        else (Throw ReplyError, logEvent (Redis (INCR key) ReplyErr) w)
    | None => (Throw ReplyError, logEvent (Redis (INCR key) ReplyErr) w)
    end.

(** The script of [releaseLock]:
    [if GET KEYS[1] == ARGV[1] then return DEL KEYS[1] else return 0]. *)
Definition redisCompareAndDelete {X} (key token : string) : M X Z :=
  fun w =>
    if decide (redis w !! key = Some token) then
      (Return 1,
       logEvent (Redis (EVAL_compare_and_delete key token) (ReplyInteger 1))
         (setRedis (delete key (redis w)) w))
    else
      (Return 0,
       logEvent (Redis (EVAL_compare_and_delete key token) (ReplyInteger 0)) w).

(** [Date.now()] *)
Definition dateNow {X} : M X Z := fun w => (Return (clock w), w).

(** Configuration read from the environment (config/env.ts). *)
Record Env := {
  CACHE_ENABLED : bool;
  REDIS_ENABLED : bool;
  CACHE_LOCK_TTL_MS : Z;
  MYSQL_ENABLED : bool;
  PRODUCTS_LIST_CACHE_TTL_SECONDS : Z
}.

(** ** Counters as strings *)

Lemma int_of_string_showInt (z : Z) :
  exists d, NilZero.int_of_string (showInt z) = Some d /\ Z.of_int d = z.
Proof.
  unfold showInt. destruct (Z.to_int z) as [u|u] eqn:E.
  - destruct u eqn:Eu.
    1: { exists (Decimal.Pos (Decimal.D0 Decimal.Nil)).
         split; [apply NilZero.isi_posnil|].
         rewrite <- (DecimalZ.of_to z), E. reflexivity. }
    all: eexists; (split; [apply NilZero.isi; discriminate|]);
      rewrite <- E; apply DecimalZ.of_to.
  - destruct u eqn:Eu.
    1: { exists (Decimal.Neg (Decimal.D0 Decimal.Nil)).
         split; [apply NilZero.isi_negnil|].
         rewrite <- (DecimalZ.of_to z), E. reflexivity. }
    all: eexists; (split; [apply NilZero.isi; discriminate|]);
      rewrite <- E; apply DecimalZ.of_to.
Qed.

Lemma readInt_showInt (z : Z) :
  - 2 ^ 63 <= z < 2 ^ 63 -> readInt (showInt z) = Some z.
Proof.
  intros Hz. unfold readInt.
  destruct (int_of_string_showInt z) as (d & -> & ->).
  rewrite decide_True by done.
  destruct (- 2 ^ 63 <=? z) eqn:E1; [|apply Z.leb_gt in E1; lia].
  destruct (z <? 2 ^ 63) eqn:E2; [done|apply Z.ltb_ge in E2; lia].
Qed.

Lemma readInt_Some (s : string) (z : Z) :
  readInt s = Some z -> s = showInt z /\ - 2 ^ 63 <= z < 2 ^ 63.
Proof.
  unfold readInt. destruct (NilZero.int_of_string s) as [d|]; [|done].
  case_decide as Hs; [|done].
  destruct (- 2 ^ 63 <=? Z.of_int d) eqn:E1; [|done].
  destruct (Z.of_int d <? 2 ^ 63) eqn:E2; [|done].
  intros [= <-]. apply Z.leb_le in E1. apply Z.ltb_lt in E2. done.
Qed.

Lemma showInt_inj (z1 z2 : Z) : showInt z1 = showInt z2 -> z1 = z2.
Proof.
  intros H.
  destruct (int_of_string_showInt z1) as (d1 & H1 & <-).
  destruct (int_of_string_showInt z2) as (d2 & H2 & <-).
  rewrite H in H1. congruence.
Qed.

Lemma string_length_app (s1 s2 : string) :
  String.length (s1 ++ s2) = (String.length s1 + String.length s2)%nat.
Proof. induction s1 as [|a s1 IH]; [done|]. cbn. by rewrite <- IH. Qed.

Lemma string_app_cancel_r (s1 s2 t : string) :
  (s1 ++ t)%string = (s2 ++ t)%string -> s1 = s2.
Proof.
  revert s2. induction s1 as [|a s1 IH]; intros [|b s2] H.
  - done.
  - apply (f_equal String.length) in H.
    rewrite !string_length_app in H. simpl in H. lia.
  - apply (f_equal String.length) in H.
    rewrite !string_length_app in H. simpl in H. lia.
  - injection H as -> H. f_equal. by apply IH.
Qed.

(** * src/services/cache.ts *)

Module Cache.

Inductive CacheStatus := BYPASS | HIT | MISS | WAIT.

Section WithCache.

Context {X T : Type}.

Variable env : Env.

(** [randomUUID()]: the n-th UUID the process draws. *)
Variable randomUUID : nat -> string.

(** What the other clients of the store have done to it by the time the
    caller wakes from a sleep, given the wake-up time. *)
Variable peers : Z -> gmap string string -> gmap string string.

(** [JSON.stringify] and [JSON.parse] at the type of the cached value;
    [None] is a SyntaxError. *)
Variable JSON_stringify : T -> string.
Variable JSON_parse : string -> option T.

Definition redisReady (w : World X) : bool :=
  CACHE_ENABLED env && REDIS_ENABLED env && redisStatusUp w.

(** Modelled from the spec: utils/sleep.ts is not among the sources. The
    backoff and poll waits suspend the caller for the given number of
    milliseconds; the model lets the clock advance by exactly that much and
    the other clients act on the store meanwhile. *)
Definition sleep (ms : Z) : M X unit :=
  fun w =>
    (Return tt,
     {| redisStatusUp := redisStatusUp w;
        redis := peers (clock w + ms) (redis w);
        clock := clock w + ms;
        uuidsDrawn := uuidsDrawn w;
        events := events w ++ [Sleep ms];
        external := external w |}).

(** [Some value] is [{ hit: true, value }], [None] is a miss. *)
Definition cacheGetJson (key : string) : M X (option T) :=
  fun w =>
    if negb (redisReady w) then (Return None, w)
    else
      (let* raw := redisGet key in
       match truthy raw with
       | None => ret None
       | Some s =>
           match JSON_parse s with
           | Some value => ret (Some value)
           | None => throw SyntaxError
           end
       end) w.

Definition cacheSetJson (key : string) (value : T) (ttlSeconds : Z) : M X unit :=
  fun w =>
    if negb (redisReady w) then (Return tt, w)
    else redisSetEx key (JSON_stringify value) ttlSeconds w.

Definition acquireLock (lockKey : string) (ttlMs : Z) : M X (option string) :=
  fun w =>
    if negb (redisReady w) then (Return None, w)
    else
      let lockValue := randomUUID (uuidsDrawn w) in
      let w1 :=
        {| redisStatusUp := redisStatusUp w; redis := redis w; clock := clock w;
           uuidsDrawn := S (uuidsDrawn w); events := events w;
           external := external w |} in
      (let* ok := redisSetPxNx lockKey lockValue ttlMs in
       ret (if ok then Some lockValue else None)) w1.

Definition releaseLock (lockKey lockValue : string) : M X unit :=
  fun w =>
    if negb (redisReady w) then (Return tt, w)
    else (let* _ := redisCompareAndDelete lockKey lockValue in ret tt) w.

(** The [while (Date.now() - start < maxWaitMs)] loop of [withCache]:
    [Some value] when a poll hits, [None] when the loop falls through. *)
Fixpoint pollLoop (fuel : nat) (key : string) (start maxWaitMs delay : Z)
    : M X (option T) :=
  match fuel with
  | O => fun w => (Diverged, w)
  | S fuel' =>
      let* now := dateNow in
      if now - start <? maxWaitMs then
        let* _ := sleep delay in
        let* next := cacheGetJson key in
        match next with
        | Some value => ret (Some value)
        | None => pollLoop fuel' key start maxWaitMs (Z.min 250 (delay * 2))
        end
      else ret None
  end.

(** [compute] acts on what is outside the cache. *)
Definition runCompute (compute : X -> Outcome T * X) : M X T :=
  fun w =>
    let (r, x) := compute (external w) in
    (r, setExternal x w).

Definition withCache (fuel : nat) (key : string) (ttlSeconds : Z)
    (compute : X -> Outcome T * X) : M X (T * CacheStatus) :=
  fun w =>
    if negb (redisReady w) then
      (let* value := runCompute compute in ret (value, BYPASS)) w
    else
      (let* first := cacheGetJson key in
       match first with
       | Some value => ret (value, HIT)
       | None =>
           let lockKey := (key ++ ":lock")%string in
           let* lockValue := acquireLock lockKey (CACHE_LOCK_TTL_MS env) in
           match truthy lockValue with
           | Some token =>
               finally
                 (let* value := runCompute compute in
                  let* _ := cacheSetJson key value ttlSeconds in
                  ret (value, MISS))
                 (catchUndefined (releaseLock lockKey token))
           | None =>
               let delay := 50 in
               let maxWaitMs := Z.min 1000 (CACHE_LOCK_TTL_MS env) in
               let* start := dateNow in
               let* polled := pollLoop fuel key start maxWaitMs delay in
               match polled with
               | Some value => ret (value, WAIT)
               | None =>
                   let* value := runCompute compute in ret (value, BYPASS)
               end
           end
       end) w.

End WithCache.

Lemma lockKey_ne (key : string) : (key ++ ":lock")%string <> key.
Proof. induction key as [|a key IH]; simpl; [done|]. intros [= H]. by apply IH. Qed.

Section WithCacheFacts.

Context {X T : Type}.
Variable env : Env.
Variable randomUUID : nat -> string.
Variable peers : Z -> gmap string string -> gmap string string.
Variable JSON_stringify : T -> string.
Variable JSON_parse : string -> option T.

(** The initial read of [key] misses: nothing stored, or the empty string. *)
Definition cacheMiss (w : World X) (key : string) : Prop :=
  truthy (redis w !! key) = None.

Definition getReply (w : World X) (key : string) : RedisReply :=
  match redis w !! key with
  | Some s => ReplyBulk s
  | None => ReplyNil
  end.

(** An event that writes nothing to the store: a sleep, a GET, a SET NX
    that was refused, a compare-and-delete that deleted nothing. *)
Definition readOnly (e : Event) : Prop :=
  match e with
  | Sleep _ => True
  | Redis (GET _) _ => True
  | Redis (SET_PX_NX _ _ _) ReplyNil => True
  | Redis (SET_NX _ _) ReplyNil => True
  | Redis (EVAL_compare_and_delete _ _) (ReplyInteger 0) => True
  | _ => False
  end.

End WithCacheFacts.

(** ** A concrete process

    The defaults of config/env.ts, a store holding only what an example puts
    in it, no other client acting, and strings cached as they are. *)

Definition defaultEnv : Env :=
  {| CACHE_ENABLED := true; REDIS_ENABLED := true; CACHE_LOCK_TTL_MS := 2000;
     MYSQL_ENABLED := true; PRODUCTS_LIST_CACHE_TTL_SECONDS := 30 |}.

Definition worldWith (store : gmap string string) : World unit :=
  {| redisStatusUp := true; redis := store; clock := 1700000000000;
     uuidsDrawn := 0; events := []; external := tt |}.

Definition uuidExample (n : nat) : string := "3f0c6a1e-uuid".

Definition noPeers (t : Z) (store : gmap string string) : gmap string string := store.

Definition withCacheExample (fuel : nat) (compute : unit -> Outcome string * unit)
    : M unit (string * CacheStatus) :=
  withCache defaultEnv uuidExample noPeers (fun s => s) Some
    fuel "products:list:v1:abc" 30 compute.

(** A store in which another caller holds the lock of the key. *)
Definition lockedStore : gmap string string :=
  {[ "products:list:v1:abc:lock"%string := "another-uuid"%string ]}.

End Cache.

(** * src/services/productsCache.ts *)

Module ProductsCache.

Import StableStringify.

Definition VERSION_KEY : string := "products:cache_version".

Section ProductsCache.

Context {X : Type}.

Variable env : Env.

(** The runtime's [toISOString], [JSON.stringify] and SHA-1 hex digest. *)
Variable toISOString : Z -> string.
Variable JSON_stringify : JsValue -> string.
Variable sha1Hex : string -> string.

Definition canUseCache (w : World X) : bool :=
  CACHE_ENABLED env && REDIS_ENABLED env && redisStatusUp w.

Definition getVersion : M X (option string) :=
  fun w =>
    if negb (canUseCache w) then (Return None, w)
    else
      (let* _ := redisSetNx VERSION_KEY "1" in
       let* stored := redisGet VERSION_KEY in
       ret (Some (default "1"%string stored))) w.

Definition hashKey (obj : JsValue) : string :=
  sha1Hex (stableStringify toISOString JSON_stringify obj).

Definition getProductsListCacheKey (input : JsValue) : M X (option string) :=
  let* version := getVersion in
  match truthy version with
  | None => ret None
  | Some version =>
      ret (Some ("products:list:v" ++ version ++ ":" ++ hashKey input)%string)
  end.

Definition getProductsStatsCacheKey (input : JsValue) : M X (option string) :=
  let* version := getVersion in
  match truthy version with
  | None => ret None
  | Some version =>
      ret (Some ("products:stats:v" ++ version ++ ":" ++ hashKey input)%string)
  end.

Definition bumpProductsCacheVersion : M X unit :=
  fun w =>
    if negb (canUseCache w) then (Return tt, w)
    else (let* _ := redisIncr VERSION_KEY in ret tt) w.

(** ** Runs of the module

    What the rest of the program can ask of this module, and the Redis
    client coming up or going down in between. A run logs each operation
    with its outcome; an operation that throws fails its own request and the
    process goes on. *)
Inductive Operation :=
| ListCacheKey (input : JsValue)
| StatsCacheKey (input : JsValue)
| BumpVersion
| RedisStatus (up : bool).

Definition setStatus (up : bool) (w : World X) : World X :=
  {| redisStatusUp := up; redis := redis w; clock := clock w;
     uuidsDrawn := uuidsDrawn w; events := events w; external := external w |}.

Definition step (op : Operation) : M X (option string) :=
  match op with
  | ListCacheKey input => getProductsListCacheKey input
  | StatsCacheKey input => getProductsStatsCacheKey input
  | BumpVersion => let* _ := bumpProductsCacheVersion in ret None
  | RedisStatus up => fun w => (Return None, setStatus up w)
  end.

Fixpoint run (ops : list Operation) (w : World X)
    : list (Operation * Outcome (option string)) * World X :=
  match ops with
  | [] => ([], w)
  | op :: rest =>
      let (r, w1) := step op w in
      let (log, w2) := run rest w1 in
      ((op, r) :: log, w2)
  end.

(** The counter as Redis reads it: a missing key, or a value INCR rejects,
    counts as 0. *)
Definition storedVersion (w : World X) : Z :=
  match redis w !! VERSION_KEY with
  | Some s => default 0 (readInt s)
  | None => 0
  end.

Definition listKey (version : Z) (input : JsValue) : string :=
  ("products:list:v" ++ showInt version ++ ":" ++ hashKey input)%string.

Definition statsKey (version : Z) (input : JsValue) : string :=
  ("products:stats:v" ++ showInt version ++ ":" ++ hashKey input)%string.

(** ** The counter never goes back *)

(** [versionLe a b]: the counter read as [b] is not behind the counter read
    as [a]. A value INCR rejects stays as it is. *)
Definition versionLe (a b : option string) : Prop :=
  match a with
  | None =>
      match b with
      | None => True
      | Some s' => exists n', readInt s' = Some n' /\ 0 <= n'
      end
  | Some s =>
      match readInt s with
      | None => b = Some s
      | Some n => exists s' n', b = Some s' /\ readInt s' = Some n' /\ n <= n'
      end
  end.

Lemma versionLe_refl (a : option string) : versionLe a a.
Proof.
  destruct a as [s|]; simpl; [|done].
  destruct (readInt s) as [n|] eqn:E; [|done]. exists s, n. repeat split; [done|lia].
Qed.

Lemma versionLe_trans (a b c : option string) :
  versionLe a b -> versionLe b c -> versionLe a c.
Proof.
  unfold versionLe. destruct a as [s|].
  - destruct (readInt s) as [n|] eqn:E.
    + intros (s' & n' & -> & E' & Hle). rewrite E'.
      intros (s'' & n'' & -> & E'' & Hle'). exists s'', n''. repeat split; [done|lia].
    + intros ->. by rewrite E.
  - destruct b as [s'|]; [|done].
    intros (n' & E' & Hle). rewrite E'.
    intros (s'' & n'' & -> & E'' & Hle'). exists n''. split; [done|lia].
Qed.

Lemma versionLe_stored (w w' : World X) :
  versionLe (redis w !! VERSION_KEY) (redis w' !! VERSION_KEY) ->
  storedVersion w <= storedVersion w'.
Proof.
  unfold versionLe, storedVersion.
  destruct (redis w !! VERSION_KEY) as [s|].
  - destruct (readInt s) as [n|] eqn:E.
    + intros (s' & n' & -> & -> & Hle). done.
    + intros ->. by rewrite E.
  - destruct (redis w' !! VERSION_KEY) as [s'|]; [|done].
    intros (n' & -> & Hle). done.
Qed.

(** [getVersion] with the cache usable: SET NX, then GET. *)
Lemma getVersion_usable (w : World X) :
  canUseCache w = true ->
  exists (version : string) (w' : World X),
    getVersion w = (Return (Some version), w')
    /\ redis w' !! VERSION_KEY = Some version
    /\ versionLe (redis w !! VERSION_KEY) (redis w' !! VERSION_KEY)
    /\ (forall key, key <> VERSION_KEY -> redis w' !! key = redis w !! key).
Proof.
  intros Huse. unfold getVersion. rewrite Huse. cbn [negb].
  unfold bind, redisSetNx, redisGet, ret.
  destruct (redis w !! VERSION_KEY) as [s|] eqn:E; simpl.
  - rewrite E. simpl. exists s. eexists. split; [reflexivity|]. simpl.
    rewrite E. split; [done|]. split; [apply (versionLe_refl (Some s))|done].
  - rewrite lookup_insert_eq. simpl. exists "1"%string. eexists.
    split; [reflexivity|]. simpl. rewrite lookup_insert_eq.
    split; [done|]. split.
    + exists 1. split; [done|lia].
    + intros key Hkey. by rewrite lookup_insert_ne.
Qed.

Lemma getVersion_unusable (w : World X) :
  canUseCache w = false -> getVersion w = (Return None, w).
Proof. intros Huse. unfold getVersion. by rewrite Huse. Qed.

(** [bumpProductsCacheVersion] with the cache usable: one INCR. *)
Lemma bump_usable (w : World X) :
  canUseCache w = true ->
  (exists n,
     bumpProductsCacheVersion w
     = (Return tt,
        logEvent (Redis (INCR VERSION_KEY) (ReplyInteger (n + 1)))
          (setRedis (<[VERSION_KEY := showInt (n + 1)]> (redis w)) w))
     /\ - 2 ^ 63 <= n /\ n + 1 < 2 ^ 63
     /\ match redis w !! VERSION_KEY with
        | Some s => readInt s = Some n
        | None => n = 0
        end)
  \/ (bumpProductsCacheVersion w
      = (Throw ReplyError, logEvent (Redis (INCR VERSION_KEY) ReplyErr) w)).
Proof.
  intros Huse. unfold bumpProductsCacheVersion. rewrite Huse. cbn [negb].
  unfold bind, redisIncr, ret.
  destruct (redis w !! VERSION_KEY) as [s|] eqn:E.
  - destruct (readInt s) as [n|] eqn:En; [|by right].
    destruct (n + 1 <? 2 ^ 63) eqn:Hn; [|by right].
    left. exists n. apply Z.ltb_lt in Hn. apply readInt_Some in En as Hr.
    repeat split; [lia|done].
  - left. exists 0. rewrite Z.add_0_l. repeat split; try done; lia.
Qed.

Lemma step_versionLe (op : Operation) (w w' : World X) (r : Outcome (option string)) :
  step op w = (r, w') ->
  versionLe (redis w !! VERSION_KEY) (redis w' !! VERSION_KEY).
Proof.
  destruct op as [input|input| |up]; simpl.
  - unfold getProductsListCacheKey, bind.
    destruct (canUseCache w) eqn:Huse.
    + destruct (getVersion_usable w Huse) as (version & w1 & -> & _ & Hle & _).
      destruct (truthy (Some version)); intros [= _ <-]; done.
    + rewrite (getVersion_unusable w Huse). intros [= _ <-]. apply versionLe_refl.
  - unfold getProductsStatsCacheKey, bind.
    destruct (canUseCache w) eqn:Huse.
    + destruct (getVersion_usable w Huse) as (version & w1 & -> & _ & Hle & _).
      destruct (truthy (Some version)); intros [= _ <-]; done.
    + rewrite (getVersion_unusable w Huse). intros [= _ <-]. apply versionLe_refl.
  - unfold bind. destruct (canUseCache w) eqn:Huse.
    + destruct (bump_usable w Huse) as [(n & -> & Hlo & Hhi & Hn)| ->].
      * intros [= _ <-]. simpl. rewrite lookup_insert_eq.
        assert (Hread : readInt (showInt (n + 1)) = Some (n + 1))
          by (apply readInt_showInt; lia).
        unfold versionLe. destruct (redis w !! VERSION_KEY) as [s|].
        -- rewrite Hn. exists (showInt (n + 1)), (n + 1). repeat split; [done|lia].
        -- exists (n + 1). split; [done|lia].
      * intros [= _ <-]. apply versionLe_refl.
    + unfold bumpProductsCacheVersion. rewrite Huse. intros [= _ <-].
      apply versionLe_refl.
  - intros [= _ <-]. apply versionLe_refl.
Qed.

Lemma run_versionLe (ops : list Operation) :
  forall (w w' : World X) log,
    run ops w = (log, w') ->
    versionLe (redis w !! VERSION_KEY) (redis w' !! VERSION_KEY).
Proof.
  induction ops as [|op ops IH]; intros w w' log; simpl.
  - intros [= _ <-]. apply versionLe_refl.
  - destruct (step op w) as [r w1] eqn:Hstep.
    destruct (run ops w1) as [log1 w2] eqn:Hrun. intros [= _ <-].
    eapply versionLe_trans; [by eapply step_versionLe | by eapply IH].
Qed.

(** ** Keys before and after a bump *)

(** The key an operation returns when the counter reads [version]. *)
Definition keyFor (op : Operation) (version : Z) : option string :=
  match op with
  | ListCacheKey input => Some (listKey version input)
  | StatsCacheKey input => Some (statsKey version input)
  | _ => None
  end.

Lemma keyFor_inj (op : Operation) (n0 n1 : Z) (k : string) :
  keyFor op n0 = Some k -> keyFor op n1 = Some k -> n0 = n1.
Proof.
  destruct op as [input|input| |up]; simpl; try done;
    intros [= <-] [= H]; unfold listKey, statsKey in H;
    apply (inj (String.app _)) in H;
    apply string_app_cancel_r in H;
    by apply showInt_inj in H.
Qed.

Lemma step_key (op : Operation) (w w' : World X) (k : string) :
  step op w = (Return (Some k), w') ->
  exists s, redis w' !! VERSION_KEY = Some s
            /\ forall n, s = showInt n -> keyFor op n = Some k.
Proof.
  destruct op as [input|input| |up]; simpl.
  - unfold getProductsListCacheKey, bind.
    destruct (canUseCache w) eqn:Huse.
    + destruct (getVersion_usable w Huse) as (version & w1 & -> & Hv & _ & _).
      destruct (truthy (Some version)) as [s|] eqn:Ht; [|done].
      assert (s = version) as -> by (destruct version; by inversion Ht).
      intros [= <- <-]. exists version. split; [done|]. intros n ->. done.
    + rewrite (getVersion_unusable w Huse). done.
  - unfold getProductsStatsCacheKey, bind.
    destruct (canUseCache w) eqn:Huse.
    + destruct (getVersion_usable w Huse) as (version & w1 & -> & Hv & _ & _).
      destruct (truthy (Some version)) as [s|] eqn:Ht; [|done].
      assert (s = version) as -> by (destruct version; by inversion Ht).
      intros [= <- <-]. exists version. split; [done|]. intros n ->. done.
    + rewrite (getVersion_unusable w Huse). done.
  - unfold bind. by destruct (bumpProductsCacheVersion w) as [[| |] ?].
  - done.
Qed.

(** An entry of the log was produced by a step of the run. *)
Lemma run_entry (ops : list Operation) :
  forall (w w' : World X) log op r,
    run ops w = (log, w') -> (op, r) ∈ log ->
    exists wa wb, versionLe (redis w !! VERSION_KEY) (redis wa !! VERSION_KEY)
                  /\ step op wa = (r, wb)
                  /\ versionLe (redis wb !! VERSION_KEY) (redis w' !! VERSION_KEY).
Proof.
  induction ops as [|op0 ops IH]; intros w w' log op r; simpl.
  - intros [= <- _] Hin. by apply elem_of_nil in Hin.
  - destruct (step op0 w) as [r0 w1] eqn:Hstep.
    destruct (run ops w1) as [log1 w2] eqn:Hrun. intros [= <- <-] Hin.
    apply elem_of_cons in Hin as [[= -> ->]|Hin].
    + exists w, w1. split; [apply versionLe_refl|]. split; [done|].
      by eapply run_versionLe.
    + destruct (IH w1 w2 log1 op r Hrun Hin) as (wa & wb & Hle & Hs & Hle').
      exists wa, wb. split; [|done].
      eapply versionLe_trans; [by eapply step_versionLe | done].
Qed.

Lemma readInt_nonempty (s : string) (n : Z) : readInt s = Some n -> s <> ""%string.
Proof. intros H ->. by vm_compute in H. Qed.

(** With the cache usable and the counter readable, a key is produced, under
    the version the counter reads. *)
Lemma step_produces (op : Operation) (input : JsValue) (w : World X) (n : Z) :
  op ∈ [ListCacheKey input; StatsCacheKey input] ->
  canUseCache w = true ->
  versionLe (Some (showInt n)) (redis w !! VERSION_KEY) ->
  - 2 ^ 63 <= n < 2 ^ 63 ->
  exists k w' n',
    step op w = (Return (Some k), w') /\ keyFor op n' = Some k /\ n <= n'.
Proof.
  intros Hop Huse Hle Hn. simpl in Hle. rewrite (readInt_showInt n Hn) in Hle.
  destruct Hle as (s' & n' & Hs' & Hr' & Hnn').
  destruct (getVersion_usable w Huse) as (version & w1 & Hget & Hv & _ & _).
  assert (version = s') as ->.
  { revert Hget. unfold getVersion. rewrite Huse. cbn [negb].
    unfold bind, redisSetNx, redisGet, ret. rewrite Hs'. simpl. rewrite Hs'.
    simpl. by intros [= -> _]. }
  pose proof (truthy_nonempty s' (readInt_nonempty s' n' Hr')) as Ht.
  apply readInt_Some in Hr' as [-> _].
  rewrite !elem_of_cons in Hop. destruct Hop as [->|[->|Hop]].
  - eexists _, w1, n'. simpl. unfold getProductsListCacheKey, bind.
    rewrite Hget, Ht. done.
  - eexists _, w1, n'. simpl. unfold getProductsStatsCacheKey, bind.
    rewrite Hget, Ht. done.
  - by apply elem_of_nil in Hop.
Qed.

(** C7. Once [bumpProductsCacheVersion] has run with the cache usable, the
    key produced for a parameter object differs from every key produced for
    it before the bump, its version segment being strictly larger; from then
    on, whenever the cache is usable, a key is produced for every parameter
    object, with a version segment above the counter before the bump and
    different from every key produced for the object before the bump; the
    counter never decreases over any run of the module's operations; and the
    bump is one INCR of the counter: no other key of the store is touched,
    so old entries stay until their own TTL removes them. *)
Theorem bumpVersion_moves_keys_forward
    (before after : list Operation) (w0 w1 w2 w3 : World X)
    (log1 log2 : list (Operation * Outcome (option string))) :
  run before w0 = (log1, w1) ->
  canUseCache w1 = true ->
  bumpProductsCacheVersion w1 = (Return tt, w2) ->
  run after w2 = (log2, w3) ->
  (forall op k0 k1,
     (op, Return (Some k0)) ∈ log1 -> (op, Return (Some k1)) ∈ log2 ->
     exists n0 n1, keyFor op n0 = Some k0 /\ keyFor op n1 = Some k1
                   /\ n0 < n1 /\ k0 <> k1)
  /\ (forall input op w,
        op ∈ [ListCacheKey input; StatsCacheKey input] ->
        canUseCache w = true ->
        versionLe (redis w2 !! VERSION_KEY) (redis w !! VERSION_KEY) ->
        exists k w' n1,
          step op w = (Return (Some k), w')
          /\ keyFor op n1 = Some k
          /\ storedVersion w1 < n1
          /\ forall k0, (op, Return (Some k0)) ∈ log1 -> k0 <> k)
  /\ (storedVersion w0 <= storedVersion w1
      /\ storedVersion w1 < storedVersion w2
      /\ storedVersion w2 <= storedVersion w3)
  /\ events w2
     = events w1 ++ [Redis (INCR VERSION_KEY) (ReplyInteger (storedVersion w2))]
  /\ (forall key, key <> VERSION_KEY -> redis w2 !! key = redis w1 !! key).
Proof.
  intros Hrun1 Huse Hbump Hrun2.
  destruct (bump_usable w1 Huse) as [(n & Hb & Hlo & Hhi & Hn)|Hb];
    rewrite Hb in Hbump; [|done].
  injection Hbump as <-.
  assert (Hread : readInt (showInt (n + 1)) = Some (n + 1))
    by (apply readInt_showInt; lia).
  assert (Hv2 : redis (logEvent (Redis (INCR VERSION_KEY) (ReplyInteger (n + 1)))
                         (setRedis (<[VERSION_KEY := showInt (n + 1)]> (redis w1)) w1))
                !! VERSION_KEY = Some (showInt (n + 1))).
  { simpl. apply lookup_insert_eq. }
  set (w2 := logEvent _ _) in *.
  assert (Hs2 : storedVersion w2 = n + 1).
  { unfold storedVersion. by rewrite Hv2, Hread. }
  assert (Hstored : storedVersion w1 = n).
  { unfold storedVersion. destruct (redis w1 !! VERSION_KEY) as [s|]; [|done].
    by rewrite Hn. }
  assert (Hbefore : forall op k0,
            (op, Return (Some k0)) ∈ log1 ->
            exists n0, keyFor op n0 = Some k0 /\ n0 <= n).
  { intros op k0 Hin1.
    destruct (run_entry before w0 w1 log1 op _ Hrun1 Hin1)
      as (wa & wb & _ & Hstep & Hle).
    destruct (step_key op wa wb k0 Hstep) as (s0 & Hs0 & Hk0).
    rewrite Hs0 in Hle. simpl in Hle.
    destruct (readInt s0) as [n0|] eqn:Hr0.
    - destruct Hle as (s' & n' & Hw1 & Hr' & Hn0).
      rewrite Hw1 in Hn. rewrite Hr' in Hn. injection Hn as ->.
      apply readInt_Some in Hr0 as [-> _]. exists n0. split; [by apply Hk0|lia].
    - rewrite Hle in Hn. congruence. }
  split; [|split; [|split; [|split]]].
  2:{ intros input op w Hop Husable Hle. rewrite Hv2 in Hle.
      destruct (step_produces op input w (n + 1) Hop Husable Hle ltac:(lia))
        as (k & w' & n1 & Hstep & Hk & Hn1).
      exists k, w', n1. split; [done|]. split; [done|]. split; [lia|].
      intros k0 Hin1 ->. destruct (Hbefore op k Hin1) as (n0 & Hk0 & Hn0).
      pose proof (keyFor_inj op n0 n1 k Hk0 Hk). lia. }
  - intros op k0 k1 Hin1 Hin2.
    destruct (run_entry before w0 w1 log1 op _ Hrun1 Hin1) as (wa & wb & _ & Hstep & Hle).
    destruct (step_key op wa wb k0 Hstep) as (s0 & Hs0 & Hk0).
    destruct (run_entry after w2 w3 log2 op _ Hrun2 Hin2) as (wa' & wb' & Hle' & Hstep' & _).
    destruct (step_key op wa' wb' k1 Hstep') as (s1 & Hs1 & Hk1).
    apply step_versionLe in Hstep'.
    pose proof (versionLe_trans _ _ _ Hle' Hstep') as Hle2.
    rewrite Hv2, Hs1 in Hle2. simpl in Hle2. rewrite Hread in Hle2.
    destruct Hle2 as (s' & n1 & [= <-] & Hr1 & Hn1).
    rewrite Hs0 in Hle. simpl in Hle.
    destruct (readInt s0) as [n0|] eqn:Hr0.
    + destruct Hle as (s' & n' & Hw1 & Hr' & Hn0).
      rewrite Hw1 in Hn. rewrite Hr' in Hn. injection Hn as ->.
      apply readInt_Some in Hr0 as [-> _]. apply readInt_Some in Hr1 as [-> _].
      exists n0, n1. split; [by apply Hk0|]. split; [by apply Hk1|].
      split; [lia|]. intros ->.
      assert (n0 = n1); [|lia].
      eapply keyFor_inj; [by apply Hk0 | by apply Hk1].
    + rewrite Hle in Hn. congruence.
  - split; [|split].
    + eapply versionLe_stored, run_versionLe, Hrun1.
    + rewrite Hs2. unfold storedVersion.
      destruct (redis w1 !! VERSION_KEY) as [s|]; [rewrite Hn; simpl|]; lia.
    + eapply versionLe_stored, run_versionLe, Hrun2.
  - rewrite Hs2. done.
  - intros key Hkey. simpl. by rewrite lookup_insert_ne.
Qed.

(** C8. [stableStringify], and with it the hash that goes into the cache
    key, does not depend on the order in which the properties of an object
    were inserted, at any depth: two values that differ only by such
    reordering (arrays in the same order, dates by their ISO string)
    serialize and hash to the same string. *)
Theorem stableStringify_key_order_invariant (u v : JsValue) :
  uniqueKeys u ->
  reordered u v ->
  stableStringify toISOString JSON_stringify u
  = stableStringify toISOString JSON_stringify v
  /\ hashKey u = hashKey v.
Proof.
  intros Hu Huv. unfold hashKey, stableStringify.
  destruct (sortRec_reordered toISOString u v Huv Hu) as [_ ->]. done.
Qed.

End ProductsCache.

(** ** A concrete runtime

    A small serializer standing in for [JSON.stringify] and the identity
    standing in for the digest, to run the module on concrete inputs. *)

Fixpoint renderExample (value : JsValue) : string :=
  match value with
  | JUndefined => "undefined"
  | JNull => "null"
  | JBool b => if b then "true" else "false"
  | JNumber (JsFinite x) => showInt (Qnum x) ++ "/" ++ showInt (Zpos (Qden x))
  | JNumber _ => "null"
  | JString s => "'" ++ s ++ "'"
  | JDate t => showInt t
  | JArray elements =>
      "[" ++ (fix go (xs : list JsValue) : string :=
                match xs with
                | [] => ""
                | x :: rest => renderExample x ++ "," ++ go rest
                end) elements ++ "]"
  | JObject props =>
      "{" ++ (fix go (ps : list (string * JsValue)) : string :=
                match ps with
                | [] => ""
                | (k, x) :: rest => k ++ ":" ++ renderExample x ++ "," ++ go rest
                end) props ++ "}"
  end%string.

Definition one : JsValue := JNumber (JsFinite 1).
Definition two : JsValue := JNumber (JsFinite 2).

(** [{a: 1, b: 2}] and [{b: 2, a: 1}] *)
Definition objectAB : JsValue := JObject [("a"%string, one); ("b"%string, two)].
Definition objectBA : JsValue := JObject [("b"%string, two); ("a"%string, one)].

Lemma stableStringify_key_order_invariant_witness :
  stableStringify showInt renderExample objectAB
  = stableStringify showInt renderExample objectBA
  /\ hashKey showInt renderExample (fun s => s) objectAB
     = hashKey showInt renderExample (fun s => s) objectBA.
Proof.
  refine (stableStringify_key_order_invariant showInt renderExample (fun s => s)
            objectAB objectBA _ _).
  - simpl. split; [|done]. apply (bool_decide_unpack _). by vm_compute.
  - apply reordered_props. apply perm_swap.
Defined.

Definition runExample (ops : list Operation) (w : World unit)
    : list (Operation * Outcome (option string)) * World unit :=
  run Cache.defaultEnv showInt renderExample (fun s => s) ops w.

Lemma bumpVersion_moves_keys_forward_witness :
  let w0 := Cache.worldWith ∅ in
  let r1 := runExample [ListCacheKey objectAB; StatsCacheKey objectAB] w0 in
  let r2 := bumpProductsCacheVersion Cache.defaultEnv (snd r1) in
  let r3 := runExample [ListCacheKey objectBA; ListCacheKey objectAB] (snd r2) in
  (forall op k0 k1,
     (op, Return (Some k0)) ∈ fst r1 -> (op, Return (Some k1)) ∈ fst r3 ->
     exists n0 n1,
       keyFor showInt renderExample (fun s => s) op n0 = Some k0
       /\ keyFor showInt renderExample (fun s => s) op n1 = Some k1
       /\ n0 < n1 /\ k0 <> k1)
  /\ (forall input op (w : World unit),
        op ∈ [ListCacheKey input; StatsCacheKey input] ->
        canUseCache Cache.defaultEnv w = true ->
        versionLe (redis (snd r2) !! VERSION_KEY) (redis w !! VERSION_KEY) ->
        exists k w' n1,
          step Cache.defaultEnv showInt renderExample (fun s => s) op w
          = (Return (Some k), w')
          /\ keyFor showInt renderExample (fun s => s) op n1 = Some k
          /\ storedVersion (snd r1) < n1
          /\ forall k0, (op, Return (Some k0)) ∈ fst r1 -> k0 <> k)
  /\ (storedVersion w0 <= storedVersion (snd r1)
      /\ storedVersion (snd r1) < storedVersion (snd r2)
      /\ storedVersion (snd r2) <= storedVersion (snd r3))
  /\ events (snd r2)
     = events (snd r1)
       ++ [Redis (INCR VERSION_KEY) (ReplyInteger (storedVersion (snd r2)))]
  /\ (forall key, key <> VERSION_KEY ->
        redis (snd r2) !! key = redis (snd r1) !! key).
Proof.
  intros w0 r1 r2 r3.
  refine (bumpVersion_moves_keys_forward Cache.defaultEnv showInt renderExample
            (fun s => s) [ListCacheKey objectAB; StatsCacheKey objectAB]
            [ListCacheKey objectBA; ListCacheKey objectAB]
            w0 (snd r1) (snd r2) (snd r3) (fst r1) (fst r3) _ _ _ _).
  - by vm_compute.
  - reflexivity.
  - by vm_compute.
  - by vm_compute.
Defined.

(** The keys of the run above: version 1 before the bump, version 2 after. *)
Example bumpVersion_example_keys :
  let w0 := Cache.worldWith ∅ in
  let r1 := runExample [ListCacheKey objectAB; StatsCacheKey objectAB] w0 in
  let r2 := bumpProductsCacheVersion Cache.defaultEnv (snd r1) in
  let r3 := runExample [ListCacheKey objectBA; ListCacheKey objectAB] (snd r2) in
  fst r1
  = [(ListCacheKey objectAB,
      Return (Some (listKey showInt renderExample (fun s => s) 1 objectAB)));
     (StatsCacheKey objectAB,
      Return (Some (statsKey showInt renderExample (fun s => s) 1 objectAB)))]
  /\ fst r3
     = [(ListCacheKey objectBA,
         Return (Some (listKey showInt renderExample (fun s => s) 2 objectAB)));
        (ListCacheKey objectAB,
         Return (Some (listKey showInt renderExample (fun s => s) 2 objectAB)))]
  /\ listKey showInt renderExample (fun s => s) 1 objectAB
     <> listKey showInt renderExample (fun s => s) 2 objectAB.
Proof. by vm_compute. Qed.

End ProductsCache.

(** * src/services/externalApiA.ts and utils/withRetry.ts *)

Module ExternalApiA.

Inductive CircuitState := Closed | Open | HalfOpen.

Inductive ExternalAResult :=
| Live (data : JsValue)
| Fallback (data : JsValue) (reason : string).

(** The module-level variables of externalApiA.ts, the clock, and the number
    of requests sent to the dependency so far. [lastSuccessData] is [JNull]
    for [null]. *)
Record State := {
  breakerState : CircuitState;
  consecutiveFailures : Z;
  openedAtMs : option Z;
  lastSuccessData : JsValue;
  clock : Z;
  requests : nat
}.

Record BreakerEnv := {
  EXTERNAL_A_ENABLED : bool;
  EXTERNAL_A_RETRIES : Z;
  EXTERNAL_A_RETRY_BASE_DELAY_MS : Z;
  EXTERNAL_A_RETRY_MAX_DELAY_MS : Z;
  EXTERNAL_A_BREAKER_FAILURE_THRESHOLD : Z;
  EXTERNAL_A_BREAKER_COOLDOWN_MS : Z
}.

(** [msg.includes(part)] *)
Fixpoint includes (msg part : string) : bool :=
  String.prefix part msg
  || match msg with
     | EmptyString => false
     | String _ rest => includes rest part
     end.

(** [value ?? other] *)
Definition nullish (value other : JsValue) : JsValue :=
  match value with
  | JNull | JUndefined => other
  | _ => value
  end.

Definition message (text : string) : JsValue :=
  JObject [("message"%string, JString text)].

Section Breaker.

Variable env : BreakerEnv.

(** The dependency: what the n-th request comes back with (the parsed JSON,
    or the message of the error thrown), how long it takes, and the random
    jitter drawn after it. *)
Variable network : nat -> string + JsValue.
Variable latency : nat -> Z.
Variable jitter : nat -> Z.

Local Open Scope Z_scope.

Definition setBreaker (st : CircuitState) (failures : Z) (opened : option Z)
    (data : JsValue) (s : State) : State :=
  {| breakerState := st; consecutiveFailures := failures; openedAtMs := opened;
     lastSuccessData := data; clock := clock s; requests := requests s |}.

(** Time passing: a timer or a request taking [ms] (a negative delay is no
    delay). *)
Definition elapse (ms : Z) (s : State) : State :=
  {| breakerState := breakerState s; consecutiveFailures := consecutiveFailures s;
     openedAtMs := openedAtMs s; lastSuccessData := lastSuccessData s;
     clock := clock s + Z.max 0 ms; requests := requests s |}.

Definition nowMs (s : State) : Z := clock s.

(** [!openedAtMs] holds of [null] and of 0. *)
Definition isBreakerOpen (s : State) : bool :=
  match breakerState s with
  | Open =>
      match openedAtMs s with
      | None => true
      | Some 0 => true
      | Some opened => nowMs s - opened <? EXTERNAL_A_BREAKER_COOLDOWN_MS env
      end
  | _ => false
  end.

Definition maybeToHalfOpen (s : State) : State :=
  match breakerState s with
  | Open =>
      if isBreakerOpen s then s
      else setBreaker HalfOpen (consecutiveFailures s) (openedAtMs s)
             (lastSuccessData s) s
  | _ => s
  end.

Definition openBreaker (s : State) : State :=
  setBreaker Open (consecutiveFailures s) (Some (nowMs s)) (lastSuccessData s) s.

Definition recordSuccess (data : JsValue) (s : State) : State :=
  setBreaker Closed 0 None data s.

Definition recordFailure (s : State) : State :=
  let s1 := setBreaker (breakerState s) (consecutiveFailures s + 1)
              (openedAtMs s) (lastSuccessData s) s in
  if EXTERNAL_A_BREAKER_FAILURE_THRESHOLD env <=? consecutiveFailures s1
  then openBreaker s1 else s1.

(** [fetchJsonWithTimeout]: one request to the dependency. *)
Definition fetchJsonWithTimeout (s : State) : (string + JsValue) * State :=
  (network (requests s),
   {| breakerState := breakerState s; consecutiveFailures := consecutiveFailures s;
      openedAtMs := openedAtMs s; lastSuccessData := lastSuccessData s;
      clock := clock s + Z.max 0 (latency (requests s));
      requests := S (requests s) |}).

(** The [shouldRetry] that [fetchExternalApiA] passes. *)
Definition shouldRetry (msg : string) : bool :=
  if includes msg "error 400" || includes msg "error 401" || includes msg "error 403"
  then false else true.

(** The loop of [withRetry]. [remaining] bounds the rounds still possible:
    the loop runs while [attempt <= retries] and [attempt] grows by one each
    round. [lastError] is the message thrown when the loop is left. *)
Fixpoint retryLoop (remaining : nat) (attempt : Z) (lastError : string)
    (s : State) : (string + JsValue) * State :=
  match remaining with
  | O => (inl lastError, s)
  | S remaining' =>
      if attempt <=? EXTERNAL_A_RETRIES env then
        match fetchJsonWithTimeout s with
        | (inr data, s1) => (inr data, s1)
        | (inl err, s1) =>
            if attempt =? EXTERNAL_A_RETRIES env then (inl err, s1)
            else if negb (shouldRetry err) then (inl err, s1)
            else
              let expDelay := EXTERNAL_A_RETRY_BASE_DELAY_MS env * 2 ^ attempt in
              let delay :=
                Z.min (EXTERNAL_A_RETRY_MAX_DELAY_MS env)
                  (expDelay + jitter (requests s1)) in
              retryLoop remaining' (attempt + 1) err (elapse delay s1)
        end
      else (inl lastError, s)
  end.

Definition withRetry (s : State) : (string + JsValue) * State :=
  retryLoop (Z.to_nat (EXTERNAL_A_RETRIES env + 1)) 0 "undefined" s.

Definition fetchExternalApiA (s : State) : ExternalAResult * State :=
  if negb (EXTERNAL_A_ENABLED env) then
    (Fallback (message "External API A disabled") "disabled", s)
  else
    let s1 := maybeToHalfOpen s in
    if isBreakerOpen s1 then
      (Fallback
         (nullish (lastSuccessData s1) (message "External API A temporarily unavailable"))
         "circuit_open", s1)
    else
      match withRetry s1 with
      | (inr data, s2) => (Live data, recordSuccess data s2)
      | (inl err, s2) =>
          let s3 := recordFailure s2 in
          (Fallback
             (nullish (lastSuccessData s3) (message "External API A failed; fallback used"))
             err, s3)
      end.

(** ** The states the process goes through

    It starts closed, time passes, and calls are made. *)
Definition initial (now : Z) : State :=
  {| breakerState := Closed; consecutiveFailures := 0; openedAtMs := None;
     lastSuccessData := JNull; clock := now; requests := 0 |}.

Inductive reachable : State -> Prop :=
| reachable_initial (now : Z) : 0 < now -> reachable (initial now)
| reachable_elapse (s : State) (ms : Z) : reachable s -> reachable (elapse ms s)
| reachable_call (s s' : State) (r : ExternalAResult) :
    reachable s -> fetchExternalApiA s = (r, s') -> reachable s'.

(** [n] calls in a row, each sent to the dependency and each failing, with
    time passing in between. *)
Inductive failedCalls : nat -> State -> State -> Prop :=
| failedCalls_none (s : State) : failedCalls 0 s s
| failedCalls_more (n : nat) (s s1 s2 : State) (ms : Z) (data : JsValue) (reason : string) :
    failedCalls n s s1 ->
    fetchExternalApiA (elapse ms s1) = (Fallback data reason, s2) ->
    (requests s1 < requests s2)%nat ->
    failedCalls (S n) s s2.

(** ** What a call to the dependency leaves untouched *)

Definition sameBreaker (s s' : State) : Prop :=
  breakerState s' = breakerState s
  /\ consecutiveFailures s' = consecutiveFailures s
  /\ openedAtMs s' = openedAtMs s
  /\ lastSuccessData s' = lastSuccessData s
  /\ clock s <= clock s'
  /\ (requests s <= requests s')%nat.

Lemma sameBreaker_refl (s : State) : sameBreaker s s.
Proof. unfold sameBreaker. repeat split; lia. Qed.

Lemma sameBreaker_trans (s1 s2 s3 : State) :
  sameBreaker s1 s2 -> sameBreaker s2 s3 -> sameBreaker s1 s3.
Proof.
  unfold sameBreaker. intros (? & ? & ? & ? & ? & ?) (? & ? & ? & ? & ? & ?).
  repeat split; try congruence; lia.
Qed.

Lemma elapse_sameBreaker (ms : Z) (s : State) : sameBreaker s (elapse ms s).
Proof. unfold sameBreaker, elapse. simpl. repeat split; lia. Qed.

Lemma fetchJson_sameBreaker (s s' : State) (r : string + JsValue) :
  fetchJsonWithTimeout s = (r, s') ->
  sameBreaker s s' /\ requests s' = S (requests s).
Proof.
  unfold fetchJsonWithTimeout. intros [= _ <-]. unfold sameBreaker. simpl.
  repeat split; lia.
Qed.

Lemma retryLoop_sameBreaker (remaining : nat) :
  forall (attempt : Z) (lastError : string) (s s' : State) (r : string + JsValue),
    retryLoop remaining attempt lastError s = (r, s') -> sameBreaker s s'.
Proof.
  induction remaining as [|remaining IH]; intros attempt lastError s s' r;
    cbn [retryLoop].
  - intros [= _ <-]. apply sameBreaker_refl.
  - destruct (attempt <=? EXTERNAL_A_RETRIES env); [|intros [= _ <-]; apply sameBreaker_refl].
    destruct (fetchJsonWithTimeout s) as [[err|data] s1] eqn:Hfetch.
    + apply fetchJson_sameBreaker in Hfetch as [Hsame _].
      destruct (attempt =? EXTERNAL_A_RETRIES env); [by intros [= _ <-]|].
      destruct (negb (shouldRetry err)); [by intros [= _ <-]|].
      intros Hloop. apply IH in Hloop.
      eapply sameBreaker_trans; [done|].
      eapply sameBreaker_trans; [apply elapse_sameBreaker | done].
    + apply fetchJson_sameBreaker in Hfetch as [Hsame _]. by intros [= _ <-].
Qed.

Lemma withRetry_sameBreaker (s s' : State) (r : string + JsValue) :
  withRetry s = (r, s') -> sameBreaker s s'.
Proof. apply retryLoop_sameBreaker. Qed.

(** With a non-negative number of retries at least one request goes out. *)
Lemma withRetry_requests (s s' : State) (r : string + JsValue) :
  0 <= EXTERNAL_A_RETRIES env ->
  withRetry s = (r, s') -> (requests s < requests s')%nat.
Proof.
  intros Hretries. unfold withRetry.
  destruct (Z.to_nat (EXTERNAL_A_RETRIES env + 1)) as [|remaining] eqn:Hn; [lia|].
  cbn [retryLoop]. destruct (0 <=? EXTERNAL_A_RETRIES env) eqn:Hle; [|apply Z.leb_gt in Hle; lia].
  destruct (fetchJsonWithTimeout s) as [[err|data] s1] eqn:Hfetch;
    apply fetchJson_sameBreaker in Hfetch as [Hsame Hreq].
  - destruct (0 =? EXTERNAL_A_RETRIES env); [intros [= _ <-]; lia|].
    destruct (negb (shouldRetry err)); [intros [= _ <-]; lia|].
    intros Hloop. apply retryLoop_sameBreaker in Hloop as (_ & _ & _ & _ & _ & Hr).
    simpl in Hr. lia.
  - intros [= _ <-]. lia.
Qed.

(** ** The invariant of the breaker between calls *)

Definition breakerInv (s : State) : Prop :=
  0 < clock s
  /\ match breakerState s with
     | Closed =>
         0 <= consecutiveFailures s < EXTERNAL_A_BREAKER_FAILURE_THRESHOLD env
     | Open =>
         EXTERNAL_A_BREAKER_FAILURE_THRESHOLD env <= consecutiveFailures s
         /\ exists opened, openedAtMs s = Some opened /\ 0 < opened
     | HalfOpen => False
     end.

Hypothesis enabled : EXTERNAL_A_ENABLED env = true.
Hypothesis threshold_positive : 0 < EXTERNAL_A_BREAKER_FAILURE_THRESHOLD env.
Hypothesis retries_nonnegative : 0 <= EXTERNAL_A_RETRIES env.

Lemma elapse_inv (ms : Z) (s : State) : breakerInv s -> breakerInv (elapse ms s).
Proof. unfold breakerInv, elapse. simpl. intros [Hclock Hst]. split; [lia|done]. Qed.

(** A call that goes to the dependency: from closed or half-open. *)
Lemma attempt_outcome (s : State) (r : ExternalAResult) (s' : State) :
  0 < clock s ->
  isBreakerOpen s = false ->
  match withRetry s with
  | (inr data, s2) => (Live data, recordSuccess data s2)
  | (inl err, s2) =>
      let s3 := recordFailure s2 in
      (Fallback
         (nullish (lastSuccessData s3) (message "External API A failed; fallback used"))
         err, s3)
  end = (r, s') ->
  (requests s < requests s')%nat
  /\ 0 < clock s'
  /\ match r with
     | Live data =>
         breakerState s' = Closed /\ consecutiveFailures s' = 0
         /\ openedAtMs s' = None /\ lastSuccessData s' = data
     | Fallback data reason =>
         consecutiveFailures s' = consecutiveFailures s + 1
         /\ lastSuccessData s' = lastSuccessData s
         /\ if EXTERNAL_A_BREAKER_FAILURE_THRESHOLD env <=? consecutiveFailures s + 1
            then breakerState s' = Open /\ openedAtMs s' = Some (clock s')
            else breakerState s' = breakerState s /\ openedAtMs s' = openedAtMs s
     end.
Proof using retries_nonnegative.
  intros Hclock Hopen.
  destruct (withRetry s) as [[err|data] s2] eqn:Hretry;
    pose proof (withRetry_requests s s2 _ retries_nonnegative Hretry) as Hreq;
    apply withRetry_sameBreaker in Hretry as (Hst & Hf & Ho & Hd & Hc & _);
    intros [= <- <-].
  - split; [by unfold recordFailure; simpl; destruct (_ <=? _)|].
    split; [unfold recordFailure; simpl; destruct (_ <=? _); simpl; lia|].
    unfold recordFailure. simpl. rewrite Hf.
    destruct (EXTERNAL_A_BREAKER_FAILURE_THRESHOLD env <=? consecutiveFailures s + 1);
      simpl; repeat split; congruence.
  - simpl. repeat split; [done|lia].
Qed.

Lemma call_closed (s s' : State) (r : ExternalAResult) :
  breakerInv s -> breakerState s = Closed ->
  fetchExternalApiA s = (r, s') ->
  (requests s < requests s')%nat
  /\ breakerInv s'
  /\ match r with
     | Live data => breakerState s' = Closed /\ consecutiveFailures s' = 0
     | Fallback data reason =>
         consecutiveFailures s' = consecutiveFailures s + 1
         /\ if EXTERNAL_A_BREAKER_FAILURE_THRESHOLD env <=? consecutiveFailures s + 1
            then breakerState s' = Open /\ openedAtMs s' = Some (clock s')
            else breakerState s' = Closed
     end.
Proof using enabled threshold_positive retries_nonnegative.
  intros [Hclock Hinv] Hclosed. rewrite Hclosed in Hinv.
  unfold fetchExternalApiA. rewrite enabled. cbn [negb].
  unfold maybeToHalfOpen. rewrite Hclosed.
  assert (Hopen : isBreakerOpen s = false) by (unfold isBreakerOpen; by rewrite Hclosed).
  rewrite Hopen. intros Hcall.
  destruct (attempt_outcome s r s' Hclock Hopen Hcall) as (Hreq & Hclock' & Hr).
  split; [done|]. unfold breakerInv.
  destruct r as [data|data reason].
  - destruct Hr as (-> & -> & _ & _). repeat split; try done; lia.
  - destruct Hr as (Hf & _ & Hst). rewrite Hf.
    destruct (EXTERNAL_A_BREAKER_FAILURE_THRESHOLD env <=? consecutiveFailures s + 1) eqn:Hth.
    + destruct Hst as [-> Ho]. apply Z.leb_le in Hth.
      repeat split; try done. exists (clock s'). done.
    + destruct Hst as [-> _]. rewrite Hclosed. apply Z.leb_gt in Hth.
      repeat split; try done; lia.
Qed.

Lemma call_open_cooling (s : State) (opened : Z) :
  breakerState s = Open -> openedAtMs s = Some opened ->
  clock s - opened < EXTERNAL_A_BREAKER_COOLDOWN_MS env ->
  fetchExternalApiA s
  = (Fallback
       (nullish (lastSuccessData s) (message "External API A temporarily unavailable"))
       "circuit_open", s).
Proof using enabled.
  intros Hopen Hat Hcool.
  assert (Hisopen : isBreakerOpen s = true).
  { unfold isBreakerOpen, nowMs. rewrite Hopen, Hat.
    destruct opened; try done; by apply Z.ltb_lt. }
  unfold fetchExternalApiA. rewrite enabled. cbn [negb].
  unfold maybeToHalfOpen. rewrite Hopen, Hisopen, Hisopen. done.
Qed.

Lemma call_open_cooled (s s' : State) (opened : Z) (r : ExternalAResult) :
  breakerInv s -> breakerState s = Open -> openedAtMs s = Some opened ->
  EXTERNAL_A_BREAKER_COOLDOWN_MS env <= clock s - opened ->
  fetchExternalApiA s = (r, s') ->
  breakerState (maybeToHalfOpen s) = HalfOpen
  /\ (requests s < requests s')%nat
  /\ breakerInv s'
  /\ match r with
     | Live data =>
         breakerState s' = Closed /\ consecutiveFailures s' = 0
         /\ lastSuccessData s' = data
     | Fallback data reason =>
         breakerState s' = Open /\ openedAtMs s' = Some (clock s')
     end.
Proof using enabled threshold_positive retries_nonnegative.
  intros [Hclock Hinv] Hopen Hat Hcool. rewrite Hopen in Hinv.
  destruct Hinv as (Hth & opened' & Hat' & Hpos).
  rewrite Hat in Hat'. injection Hat' as <-.
  assert (Hisopen : isBreakerOpen s = false).
  { unfold isBreakerOpen, nowMs. rewrite Hopen, Hat.
    destruct opened; try lia; by apply Z.ltb_ge. }
  assert (Hhalf : maybeToHalfOpen s
                  = setBreaker HalfOpen (consecutiveFailures s) (openedAtMs s)
                      (lastSuccessData s) s).
  { unfold maybeToHalfOpen. by rewrite Hopen, Hisopen. }
  intros Hcall. split; [by rewrite Hhalf|].
  unfold fetchExternalApiA in Hcall. rewrite enabled in Hcall.
  cbn [negb] in Hcall. rewrite Hhalf in Hcall.
  set (s1 := setBreaker HalfOpen _ _ _ s) in *.
  assert (Hopen1 : isBreakerOpen s1 = false) by done.
  rewrite Hopen1 in Hcall.
  destruct (attempt_outcome s1 r s' Hclock Hopen1 Hcall) as (Hreq & Hclock' & Hr).
  split; [done|]. unfold breakerInv.
  destruct r as [data|data reason].
  - destruct Hr as (-> & -> & _ & ->). repeat split; try done; lia.
  - destruct Hr as (Hf & _ & Hst). simpl in Hf, Hst.
    destruct (EXTERNAL_A_BREAKER_FAILURE_THRESHOLD env <=? consecutiveFailures s + 1) eqn:E;
      [|apply Z.leb_gt in E; lia].
    destruct Hst as [-> Ho]. rewrite Hf.
    repeat split; try done; try lia. exists (clock s'). done.
Qed.

Lemma reachable_inv (s : State) : reachable s -> breakerInv s.
Proof using enabled threshold_positive retries_nonnegative.
  induction 1 as [now Hnow|s ms _ IH|s s' r _ IH Hcall].
  - unfold breakerInv. simpl. repeat split; [done|lia|done].
  - by apply elapse_inv.
  - destruct (breakerState s) eqn:Hst.
    + by apply (call_closed s s' r IH Hst) in Hcall as (_ & ? & _).
    + pose proof IH as [_ Hinv]. rewrite Hst in Hinv.
      destruct Hinv as (_ & opened & Hat & _).
      destruct (Z.lt_ge_cases (clock s - opened) (EXTERNAL_A_BREAKER_COOLDOWN_MS env)).
      * rewrite (call_open_cooling s opened Hst Hat) in Hcall by done.
        by injection Hcall as _ <-.
      * by apply (call_open_cooled s s' opened r IH Hst Hat) in Hcall as (_ & _ & ? & _).
    + destruct IH as [_ Hinv]. by rewrite Hst in Hinv.
Qed.

Lemma failedCalls_closed (n : nat) (s s' : State) :
  failedCalls n s s' ->
  breakerInv s -> breakerState s = Closed ->
  consecutiveFailures s + Z.of_nat n <= EXTERNAL_A_BREAKER_FAILURE_THRESHOLD env ->
  breakerInv s'
  /\ consecutiveFailures s' = consecutiveFailures s + Z.of_nat n
  /\ (consecutiveFailures s' < EXTERNAL_A_BREAKER_FAILURE_THRESHOLD env ->
      breakerState s' = Closed)
  /\ (consecutiveFailures s' = EXTERNAL_A_BREAKER_FAILURE_THRESHOLD env ->
      breakerState s' = Open /\ openedAtMs s' = Some (clock s')).
Proof using enabled threshold_positive retries_nonnegative.
  induction 1 as [s|n s s1 s2 ms data reason _ IH Hcall Hreq]; intros Hinv Hclosed Hle.
  - split; [done|]. split; [lia|]. split; [done|].
    destruct Hinv as [_ Hinv]. rewrite Hclosed in Hinv. lia.
  - destruct IH as (Hinv1 & Hf1 & Hc1 & _); [done|done|lia|].
    assert (Hclosed1 : breakerState s1 = Closed) by (apply Hc1; lia).
    apply (call_closed (elapse ms s1) s2 _ (elapse_inv ms s1 Hinv1) Hclosed1) in Hcall
      as (_ & Hinv2 & Hf2 & Hst2).
    simpl in Hf2, Hst2. split; [done|]. split; [lia|].
    destruct (EXTERNAL_A_BREAKER_FAILURE_THRESHOLD env <=? consecutiveFailures s1 + 1) eqn:E.
    + apply Z.leb_le in E. split; [lia|done].
    + apply Z.leb_gt in E. split; [done|lia].
Qed.

(** C6. With the dependency enabled, a positive failure threshold and a
    non-negative retry count, in every state the process can be in between
    calls: (1) [failureThreshold] failed calls in a row from closed with no
    failure on record leave the breaker open, the cooldown running from the
    last failure; (2) while open and within the cooldown a call returns the
    last good payload, or the placeholder when there is none, with reason
    [circuit_open], and changes nothing, the request count included;
    (3) once the cooldown has elapsed the next call sets the breaker
    half-open and goes to the dependency: a success closes it with
    [consecutiveFailures] 0, a failure opens it again with the cooldown
    running from that failure. *)
Theorem breaker_follows_state_machine (s : State) :
  reachable s ->
  (forall s',
     breakerState s = Closed -> consecutiveFailures s = 0 ->
     failedCalls (Z.to_nat (EXTERNAL_A_BREAKER_FAILURE_THRESHOLD env)) s s' ->
     breakerState s' = Open
     /\ openedAtMs s' = Some (clock s')
     /\ consecutiveFailures s' = EXTERNAL_A_BREAKER_FAILURE_THRESHOLD env)
  /\ (forall opened,
        breakerState s = Open -> openedAtMs s = Some opened ->
        clock s - opened < EXTERNAL_A_BREAKER_COOLDOWN_MS env ->
        fetchExternalApiA s
        = (Fallback
             (nullish (lastSuccessData s)
                (message "External API A temporarily unavailable"))
             "circuit_open", s))
  /\ (forall opened r s',
        breakerState s = Open -> openedAtMs s = Some opened ->
        EXTERNAL_A_BREAKER_COOLDOWN_MS env <= clock s - opened ->
        fetchExternalApiA s = (r, s') ->
        breakerState (maybeToHalfOpen s) = HalfOpen
        /\ (requests s < requests s')%nat
        /\ match r with
           | Live data =>
               breakerState s' = Closed /\ consecutiveFailures s' = 0
               /\ lastSuccessData s' = data
           | Fallback data reason =>
               breakerState s' = Open /\ openedAtMs s' = Some (clock s')
           end).
Proof using enabled threshold_positive retries_nonnegative.
  intros Hreach. pose proof (reachable_inv s Hreach) as Hinv.
  split; [|split].
  - intros s' Hclosed Hzero Hfailed.
    destruct (failedCalls_closed _ s s' Hfailed Hinv Hclosed) as (_ & Hf & _ & Hopen);
      [lia|].
    assert (Hth : consecutiveFailures s' = EXTERNAL_A_BREAKER_FAILURE_THRESHOLD env) by lia.
    destruct (Hopen Hth). done.
  - intros opened Hopen Hat Hcool. by apply (call_open_cooling s opened).
  - intros opened r s' Hopen Hat Hcool Hcall.
    destruct (call_open_cooled s s' opened r Hinv Hopen Hat Hcool Hcall)
      as (Hhalf & Hreq & _ & Hr).
    done.
Qed.

End Breaker.

(** ** A concrete dependency: always answering 500 *)

Definition defaultBreakerEnv : BreakerEnv :=
  {| EXTERNAL_A_ENABLED := true; EXTERNAL_A_RETRIES := 2;
     EXTERNAL_A_RETRY_BASE_DELAY_MS := 200; EXTERNAL_A_RETRY_MAX_DELAY_MS := 2000;
     EXTERNAL_A_BREAKER_FAILURE_THRESHOLD := 5;
     EXTERNAL_A_BREAKER_COOLDOWN_MS := 15000 |}.

Definition alwaysFailing (n : nat) : string + JsValue :=
  inl "External API A error 500: unavailable"%string.

Definition callExample (s : State) : ExternalAResult * State :=
  fetchExternalApiA defaultBreakerEnv alwaysFailing (fun _ => 120%Z) (fun _ => 7%Z) s.

(** The state after [n] calls made one second apart. *)
Definition afterCalls (n : nat) : State :=
  Nat.iter n (fun s => snd (callExample (elapse 1000 s))) (initial 1700000000000).

Ltac failed_call n :=
  apply (failedCalls_more defaultBreakerEnv alwaysFailing (fun _ => 120%Z) (fun _ => 7%Z)
           n (initial 1700000000000) (afterCalls n) (afterCalls (S n)) 1000%Z
           (message "External API A failed; fallback used")
           "External API A error 500: unavailable");
  [ | vm_compute; reflexivity | vm_compute; lia ].

Lemma afterCalls_failed :
  failedCalls defaultBreakerEnv alwaysFailing (fun _ => 120%Z) (fun _ => 7%Z)
    5 (initial 1700000000000) (afterCalls 5).
Proof.
  failed_call 4%nat. failed_call 3%nat. failed_call 2%nat.
  failed_call 1%nat. failed_call 0%nat.
  apply failedCalls_none.
Qed.

Lemma breaker_follows_state_machine_witness :
  breakerState (afterCalls 5) = Open
  /\ openedAtMs (afterCalls 5) = Some (clock (afterCalls 5))
  /\ consecutiveFailures (afterCalls 5) = 5%Z.
Proof.
  refine (proj1 (breaker_follows_state_machine defaultBreakerEnv alwaysFailing
                   (fun _ => 120%Z) (fun _ => 7%Z) _ _ _
                   (initial 1700000000000) _) (afterCalls 5) _ _ afterCalls_failed).
  - reflexivity.
  - reflexivity.
  - discriminate.
  - by apply reachable_initial.
  - reflexivity.
  - reflexivity.
Defined.

End ExternalApiA.

(** * src/controllers/productsController.ts *)

Module ProductsController.

(** A value of [req.query]: a string, or an array or nested object as the
    query-string parser builds them for repeated and bracketed names. An
    absent name is [None]. *)
Inductive QueryValue := QString (s : string) | QOther.

Record ReqQuery := {
  raw_limit : option QueryValue;
  raw_sortBy : option QueryValue;
  raw_sortOrder : option QueryValue;
  raw_q : option QueryValue;
  raw_category : option QueryValue;
  raw_minPrice : option QueryValue;
  raw_maxPrice : option QueryValue;
  raw_createdFrom : option QueryValue;
  raw_createdTo : option QueryValue;
  raw_cursor : option QueryValue
}.

(** What [querySchema.parse] returns. *)
Record Parsed := {
  limit : Z;
  sortBy : Products.ProductSortBy;
  sortOrder : Products.SortOrder;
  q : option string;
  category : option string;
  minPrice : option JsNumber;
  maxPrice : option JsNumber;
  createdFrom : option string;
  createdTo : option string;
  cursor : option string
}.

(** The database side: the table, whether the pool exists, and the number
    of SELECTs sent. *)
Record Db := {
  table : list Products.ProductRow;
  pool : bool;
  queries : nat
}.

Record Response := {
  body : JsValue;
  cacheStatus : Cache.CacheStatus;
  deduped : bool
}.

(** What the JavaScript runtime, the MySQL driver and the other clients of
    Redis contribute. *)
Record Runtime := {
  (** [Number(x)], as [z.coerce.number()] applies it *)
  toNumber : QueryValue -> JsNumber;
  (** [new Date(s).getTime()]; [None] is NaN *)
  dateParse : string -> option Z;
  toISOString : Z -> string;
  (** [Buffer.from(raw, 'base64url').toString('utf-8')] and its inverse *)
  base64urlDecode : string -> string;
  base64urlEncode : string -> string;
  (** [JSON.parse]; [None] is a SyntaxError *)
  JSON_parse : string -> option JsValue;
  JSON_stringify : JsValue -> string;
  sha1Hex : string -> string;
  randomUUID : nat -> string;
  peers : Z -> gmap string string -> gmap string string;
  (** the collation of the [name] and [category] columns, and the
      full-text predicate of the storage engine *)
  weightString : string -> string;
  matchAgainst : string -> Products.ProductRow -> bool;
  (** MySQL reading a bound number against the DECIMAL and BIGINT columns,
      and a bound cursor value against the sort column *)
  decimalParam : JsNumber -> Z;
  integerParam : JsNumber -> Z;
  cursorParam : Products.ProductSortBy -> JsValue -> Products.SortValue;
  (** the driver's text of a DECIMAL *)
  decimalText : Z -> string
}.

(** [errorHandler] (middlewares/errorHandler.ts): the status of the response
    to a thrown value; only an error carrying a numeric [statusCode] keeps
    it. *)
Definition errorStatus (e : Exn) : Z :=
  match e with
  | AppError _ statusCode => statusCode
  | _ => 500
  end.

Definition sortByName (sb : Products.ProductSortBy) : string :=
  match sb with
  | Products.ByCreatedAt => "createdAt"
  | Products.ByPrice => "price"
  | Products.ByName => "name"
  end.

Definition sortOrderName (order : Products.SortOrder) : string :=
  match order with
  | Products.Asc => "asc"
  | Products.Desc => "desc"
  end.

(** [a > b] on numbers that are not NaN. *)
Definition numberGt (a b : JsNumber) : bool :=
  match a, b with
  | JsFinite x, JsFinite y => negb (Qle_bool x y)
  | JsInfinity false, JsInfinity false => false
  | JsInfinity false, _ => true
  | JsFinite _, JsInfinity true => true
  | _, _ => false
  end.

(** [value === text] for a string [text]. *)
Definition isString (value : JsValue) (text : string) : bool :=
  match value with
  | JString s => bool_decide (s = text)
  | _ => false
  end.

(** [x ?? null] *)
Definition orNull {A} (f : A -> JsValue) (x : option A) : JsValue :=
  match x with
  | Some a => f a
  | None => JNull
  end.

(** [decoded.name] for a value [JSON.parse] returned: a property of an
    object, [undefined] on an array or a primitive. ([null] has no
    properties: reading one throws, see [getProductsController].) *)
Definition property (decoded : JsValue) (name : string) : JsValue :=
  match decoded with
  | JObject props => objGet props name
  | _ => JUndefined
  end.

Section Controller.

Variable env : Env.
Variable rt : Runtime.

Local Open Scope Z_scope.

(** ** querySchema *)

(** [z.coerce.number().int().positive().max(100)]: the number when the
    value passes, [None] when it fails. *)
Definition limitNumber (raw : option QueryValue) : option Z :=
  match raw with
  | None => None
  | Some x =>
      match toNumber rt x with
      | JsFinite n =>
          let n' := Qred n in
          if (Qden n' =? 1)%positive && (0 <? Qnum n') && (Qnum n' <=? 100)
          then Some (Qnum n') else None
      | _ => None
      end
  end.

(** [z.enum(['createdAt', 'price', 'name'])] *)
Definition sortByEnum (raw : option QueryValue) : option Products.ProductSortBy :=
  match raw with
  | Some (QString "createdAt") => Some Products.ByCreatedAt
  | Some (QString "price") => Some Products.ByPrice
  | Some (QString "name") => Some Products.ByName
  | _ => None
  end.

(** [z.enum(['asc', 'desc'])] *)
Definition sortOrderEnum (raw : option QueryValue) : option Products.SortOrder :=
  match raw with
  | Some (QString "asc") => Some Products.Asc
  | Some (QString "desc") => Some Products.Desc
  | _ => None
  end.

(** [schema.catch(fallback)] *)
Definition catch {A} (fallback : A) (result : option A) : A := default fallback result.

Definition limitSchema (raw : option QueryValue) : Z := catch 20 (limitNumber raw).

Definition sortBySchema (raw : option QueryValue) : Products.ProductSortBy :=
  catch Products.ByCreatedAt (sortByEnum raw).

Definition sortOrderSchema (raw : option QueryValue) : Products.SortOrder :=
  catch Products.Desc (sortOrderEnum raw).

(** [z.string().min(1).optional()]; the outer [None] is a failed parse. *)
Definition stringSchema (raw : option QueryValue) : option (option string) :=
  match raw with
  | None => Some None
  | Some (QString EmptyString) => None
  | Some (QString s) => Some (Some s)
  | Some QOther => None
  end.

(** [z.coerce.number().nonnegative().optional()] *)
Definition priceSchema (raw : option QueryValue) : option (option JsNumber) :=
  match raw with
  | None => Some None
  | Some x =>
      match toNumber rt x with
      | JsNaN => None
      | JsInfinity true => None
      | JsInfinity false => Some (Some (JsInfinity false))
      | JsFinite n => if Qle_bool 0 n then Some (Some (JsFinite n)) else None
      end
  end.

(** [querySchema.parse(reqQuery)]; [None] is a ZodError. *)
Definition querySchema (reqQuery : ReqQuery) : option Parsed :=
  match stringSchema (raw_q reqQuery), stringSchema (raw_category reqQuery),
        priceSchema (raw_minPrice reqQuery), priceSchema (raw_maxPrice reqQuery),
        stringSchema (raw_createdFrom reqQuery), stringSchema (raw_createdTo reqQuery),
        stringSchema (raw_cursor reqQuery) with
  | Some q', Some category', Some minPrice', Some maxPrice',
    Some createdFrom', Some createdTo', Some cursor' =>
      Some {| limit := limitSchema (raw_limit reqQuery);
              sortBy := sortBySchema (raw_sortBy reqQuery);
              sortOrder := sortOrderSchema (raw_sortOrder reqQuery);
              q := q'; category := category';
              minPrice := minPrice'; maxPrice := maxPrice';
              createdFrom := createdFrom'; createdTo := createdTo';
              cursor := cursor' |}
  | _, _, _, _, _, _, _ => None
  end.

(** ** Cursors *)

(** The object [{ sortBy, sortOrder, v, id }] a next cursor encodes. *)
Definition cursorPayload (sb : Products.ProductSortBy) (order : Products.SortOrder)
    (v id : JsValue) : JsValue :=
  JObject
    [("sortBy", JString (sortByName sb)); ("sortOrder", JString (sortOrderName order));
     ("v", v); ("id", id)]%string.

Definition encodeCursor (payload : JsValue) : string :=
  base64urlEncode rt (JSON_stringify rt payload).

(** [None] is [JSON.parse] throwing. *)
Definition decodeCursor (raw : string) : option JsValue :=
  JSON_parse rt (base64urlDecode rt raw).

(** The [if (parsed.cursor) { ... }] block: the cursor handed to
    [listProducts], or the error thrown. *)
Definition checkCursor (parsed : Parsed) : Exn + option (JsValue * JsNumber) :=
  match truthy (cursor parsed) with
  | None => inr None
  | Some raw =>
      match decodeCursor raw with
      | None => inl (AppError "Invalid cursor" 400)
      | Some JNull | Some JUndefined => inl TypeError
      | Some decoded =>
          if negb (isString (property decoded "sortBy") (sortByName (sortBy parsed)))
             || negb (isString (property decoded "sortOrder")
                        (sortOrderName (sortOrder parsed)))
          then inl (AppError "Cursor does not match sortBy/sortOrder" 400)
          else
            match property decoded "id" with
            | JNumber (JsFinite n) =>
                let cursorId := JsFinite n in
                match sortBy parsed with
                | Products.ByCreatedAt =>
                    match property decoded "v" with
                    | JString s =>
                        match dateParse rt s with
                        | Some d => inr (Some (JString (toISOString rt d), cursorId))
                        | None => inl (AppError "Invalid cursor value" 400)
                        end
                    | _ => inl (AppError "Invalid cursor value" 400)
                    end
                | Products.ByPrice =>
                    match property decoded "v" with
                    | JString s => inr (Some (JString s, cursorId))
                    | JNumber x => inr (Some (JNumber x, cursorId))
                    | _ => inl (AppError "Invalid cursor value" 400)
                    end
                | Products.ByName =>
                    match property decoded "v" with
                    | JString s => inr (Some (JString s, cursorId))
                    | _ => inl (AppError "Invalid cursor value" 400)
                    end
                end
            | _ => inl (AppError "Invalid cursor id" 400)
            end
      end
  end.

(** ** The request, checked *)

(** What the checks before any I/O leave: the parsed query, the two dates
    and the cursor. *)
Record Checked := {
  parsed : Parsed;
  createdFromDate : option Z;
  createdToDate : option Z;
  cursorChecked : option (JsValue * JsNumber)
}.

(** [new Date(s)] for a truthy [s]; the inner [None] is an invalid date. *)
Definition optionalDate (s : option string) : option (option Z) :=
  match truthy s with
  | None => None
  | Some text => Some (dateParse rt text)
  end.

(** The statements of [getProductsController] from [querySchema.parse] down
    to the end of the cursor block, in source order. *)
Definition checkRequest (reqQuery : ReqQuery) : Exn + Checked :=
  match querySchema reqQuery with
  | None => inl ZodError
  | Some parsed =>
      if match minPrice parsed, maxPrice parsed with
         | Some lo, Some hi => numberGt lo hi
         | _, _ => false
         end
      then inl (AppError "minPrice cannot be greater than maxPrice" 400)
      else
        let createdFrom' := optionalDate (createdFrom parsed) in
        let createdTo' := optionalDate (createdTo parsed) in
        match createdFrom' with
        | Some None => inl (AppError "Invalid createdFrom" 400)
        | _ =>
            match createdTo' with
            | Some None => inl (AppError "Invalid createdTo" 400)
            | _ =>
                match checkCursor parsed with
                | inl e => inl e
                | inr cursor' =>
                    inr {| parsed := parsed;
                           createdFromDate := mjoin createdFrom';
                           createdToDate := mjoin createdTo';
                           cursorChecked := cursor' |}
                end
            end
        end
  end.

(** ** Serving the checked request *)

Definition number (z : Z) : JsValue := JNumber (JsFinite (inject_Z z)).

Definition keyInput (c : Checked) : JsValue :=
  let p := parsed c in
  JObject
    [("limit", number (limit p));
     ("sortBy", JString (sortByName (sortBy p)));
     ("sortOrder", JString (sortOrderName (sortOrder p)));
     ("q", orNull JString (q p));
     ("category", orNull JString (category p));
     ("minPrice", orNull JNumber (minPrice p));
     ("maxPrice", orNull JNumber (maxPrice p));
     ("createdFrom", orNull (fun d => JString (toISOString rt d)) (createdFromDate c));
     ("createdTo", orNull (fun d => JString (toISOString rt d)) (createdToDate c));
     ("cursor", orNull JString (cursor p))]%string.

(** The query object passed to [listProducts]. *)
Definition listQuery (c : Checked) : Products.ProductListQuery :=
  let p := parsed c in
  {| Products.limit := limit p;
     Products.sortBy := sortBy p;
     Products.sortOrder := sortOrder p;
     Products.q := q p;
     Products.categoryFilter := category p;
     Products.minPrice := decimalParam rt <$> minPrice p;
     Products.maxPrice := decimalParam rt <$> maxPrice p;
     Products.createdFrom := createdFromDate c;
     Products.createdTo := createdToDate c;
     Products.cursor :=
       (fun '(v, n) =>
          {| Products.v := cursorParam rt (sortBy p) v;
             Products.cursorId := integerParam rt n |})
       <$> cursorChecked c |}.

(** The [v] of the next cursor: the ISO string of the date, the text of the
    price, the name. *)
Definition cursorValue (v : Products.SortValue) : JsValue :=
  match v with
  | Products.SvDate t => JString (toISOString rt t)
  | Products.SvDecimal p => JString (decimalText rt p)
  | Products.SvText s => JString s
  end.

Definition item (r : Products.ProductRow) : JsValue :=
  JObject
    [("id", number (Products.id r));
     ("name", JString (Products.name r));
     ("description", orNull JString (Products.description r));
     ("price", JString (decimalText rt (Products.price r)));
     ("category", JString (Products.category r));
     ("createdAt", JString (toISOString rt (Products.createdAt r)))]%string.

(** The [compute] callback: one SELECT, and the response body built from
    the page. *)
Definition compute (c : Checked) (db : Db) : Outcome JsValue * Db :=
  let p := parsed c in
  let page := Products.listProducts (weightString rt) (matchAgainst rt) (table db) (listQuery c) in
  let encodedNextCursor :=
    orNull
      (fun next =>
         JString
           (encodeCursor
              (cursorPayload (sortBy p) (sortOrder p)
                 (cursorValue (Products.v next))
                 (number (Products.cursorId next)))))
      (Products.nextCursor page) in
  (Return
     (JObject
        [("items", JArray (map item (Products.items page)));
         ("pageInfo",
          JObject
            [("limit", number (limit p));
             ("hasMore", JBool (Products.hasMore page));
             ("nextCursor", encodedNextCursor)])]%string),
   {| table := table db; pool := pool db; queries := S (queries db) |}).

(** [getDbPool()] *)
Definition getDbPool : M Db unit :=
  fun w =>
    if pool (external w) then (Return tt, w)
    else (Throw (Error "Database pool not initialized"), w).

(** utils/dedupeInFlight.ts, for a call that finds no call in flight under
    its key, as every call does when calls run one at a time: [fn] runs and
    the entry it registered is removed when it settles. *)
Definition dedupeInFlight {A} (key : string) (fn : M Db A) : M Db (A * bool) :=
  let* value := fn in ret (value, false).

Local Open Scope async_scope.

Definition serve (fuel : nat) (c : Checked) : M Db Response :=
  let* _ := getDbPool in
  let* cacheKey :=
    ProductsCache.getProductsListCacheKey env (toISOString rt) (JSON_stringify rt)
      (sha1Hex rt) (keyInput c) in
  let dedupeKey :=
    match cacheKey with
    | Some key => key
    | None =>
        ("products:list:bypass:"
         ++ StableStringify.stableStringify (toISOString rt) (JSON_stringify rt)
              (keyInput c))%string
    end in
  let* result :=
    dedupeInFlight dedupeKey
      match cacheKey with
      | None =>
          let* value := Cache.runCompute (compute c) in ret (value, Cache.BYPASS)
      | Some key =>
          Cache.withCache env (randomUUID rt) (peers rt) (JSON_stringify rt)
            (JSON_parse rt) fuel key (PRODUCTS_LIST_CACHE_TTL_SECONDS env)
            (compute c)
      end in
  ret {| body := fst (fst result); cacheStatus := snd (fst result);
         deduped := snd result |}.

Definition getProductsController (fuel : nat) (reqQuery : ReqQuery) : M Db Response :=
  fun w =>
    if negb (MYSQL_ENABLED env) then
      (Throw (AppError "MySQL is disabled (MYSQL_ENABLED=false)." 503), w)
    else
      match checkRequest reqQuery with
      | inl e => (Throw e, w)
      | inr checked => serve fuel checked w
      end.

(** ** Rejections happen before any I/O *)

Lemma stringSchema_truthy (raw : option QueryValue) (field : option string) :
  stringSchema raw = Some field -> truthy field = field.
Proof.
  destruct raw as [[[|a s0]|]|]; simpl; try done; by intros [= <-].
Qed.

Lemma querySchema_truthy (reqQuery : ReqQuery) (p : Parsed) :
  querySchema reqQuery = Some p ->
  truthy (cursor p) = cursor p
  /\ truthy (createdFrom p) = createdFrom p
  /\ truthy (createdTo p) = createdTo p.
Proof.
  unfold querySchema.
  destruct (stringSchema (raw_q reqQuery)); [|done].
  destruct (stringSchema (raw_category reqQuery)); [|done].
  destruct (priceSchema (raw_minPrice reqQuery)); [|done].
  destruct (priceSchema (raw_maxPrice reqQuery)); [|done].
  destruct (stringSchema (raw_createdFrom reqQuery)) eqn:Hfrom; [|done].
  destruct (stringSchema (raw_createdTo reqQuery)) eqn:Hto; [|done].
  destruct (stringSchema (raw_cursor reqQuery)) eqn:Hcursor; [|done].
  intros [= <-]. simpl. repeat split; by eapply stringSchema_truthy.
Qed.

(** The messages of the client errors the checks throw. *)
Definition clientErrorMessages : list string :=
  ["minPrice cannot be greater than maxPrice"; "Invalid createdFrom";
   "Invalid createdTo"; "Invalid cursor";
   "Cursor does not match sortBy/sortOrder"]%string.

(** The request is malformed in a way the specification names: its cursor
    does not decode, or
    decodes to a value whose sortBy or sortOrder is not the request's, or
    its price range is empty, or one of its dates does not parse. *)
Definition badInput (p : Parsed) : Prop :=
  (exists raw, cursor p = Some raw /\ decodeCursor raw = None)
  \/ (exists raw decoded,
        cursor p = Some raw /\ decodeCursor raw = Some decoded
        /\ decoded <> JNull /\ decoded <> JUndefined
        /\ (isString (property decoded "sortBy") (sortByName (sortBy p)) = false
            \/ isString (property decoded "sortOrder") (sortOrderName (sortOrder p))
               = false))
  \/ (exists lo hi, minPrice p = Some lo /\ maxPrice p = Some hi
                    /\ numberGt lo hi = true)
  \/ (exists text, createdFrom p = Some text /\ dateParse rt text = None)
  \/ (exists text, createdTo p = Some text /\ dateParse rt text = None).

Ltac rejected :=
  eexists; split; [reflexivity|]; apply list_elem_of_In; simpl; tauto.

Lemma checkCursor_bad (p : Parsed) :
  truthy (cursor p) = cursor p ->
  (exists raw, cursor p = Some raw /\ decodeCursor raw = None)
  \/ (exists raw decoded,
        cursor p = Some raw /\ decodeCursor raw = Some decoded
        /\ decoded <> JNull /\ decoded <> JUndefined
        /\ (isString (property decoded "sortBy") (sortByName (sortBy p)) = false
            \/ isString (property decoded "sortOrder") (sortOrderName (sortOrder p))
               = false)) ->
  exists msg, checkCursor p = inl (AppError msg 400) /\ msg ∈ clientErrorMessages.
Proof.
  intros Hcursor [(raw & Hc & Hd)|(raw & decoded & Hc & Hd & Hn & Hu & Hm)];
    unfold checkCursor; rewrite Hcursor, Hc, Hd.
  - rejected.
  - assert (Hif : negb (isString (property decoded "sortBy") (sortByName (sortBy p)))
                  || negb (isString (property decoded "sortOrder")
                             (sortOrderName (sortOrder p))) = true).
    { destruct Hm as [-> | ->]; [done|]. by rewrite orb_true_r. }
    destruct decoded; try done; rewrite Hif; rejected.
Qed.

Lemma checkRequest_badInput (reqQuery : ReqQuery) (p : Parsed) :
  querySchema reqQuery = Some p -> badInput p ->
  exists msg, checkRequest reqQuery = inl (AppError msg 400)
              /\ msg ∈ clientErrorMessages.
Proof.
  intros Hschema Hbad.
  destruct (querySchema_truthy reqQuery p Hschema) as (Hcursor & Hfrom & Hto).
  unfold checkRequest. rewrite Hschema.
  destruct (match minPrice p, maxPrice p with
            | Some lo, Some hi => numberGt lo hi
            | _, _ => false
            end) eqn:Hrange; [rejected|].
  unfold optionalDate. rewrite Hfrom, Hto.
  assert (Hdates :
    (exists text, createdFrom p = Some text /\ dateParse rt text = None)
    \/ (exists text, createdTo p = Some text /\ dateParse rt text = None)
    \/ exists msg, checkCursor p = inl (AppError msg 400) /\ msg ∈ clientErrorMessages).
  { destruct Hbad as [Hc|[Hc|[(lo & hi & Hlo & Hhi & Hgt)|[Hd|Hd]]]]; auto.
    - right. right. apply checkCursor_bad; auto.
    - right. right. apply checkCursor_bad; auto.
    - rewrite Hlo, Hhi, Hgt in Hrange. done. }
  destruct (createdFrom p) as [from|]; [destruct (dateParse rt from) eqn:Dfrom|];
    (destruct (createdTo p) as [to|]; [destruct (dateParse rt to) eqn:Dto|]);
    simpl; try rejected;
    destruct Hdates as [(text & [= <-] & Hd)|[(text & [= <-] & Hd)|(msg & -> & Hmsg)]];
    try congruence; by exists msg.
Qed.

(** X30. With MySQL enabled and a query that passes the
    schema, a request with an undecodable cursor, with a cursor decoding to
    a value whose sortBy or sortOrder differs from the request's, with
    minPrice above maxPrice, or with an unparseable createdFrom or createdTo
    is answered by an AppError of status 400 with one of the five messages,
    and the world is as it was: no Redis command, no SELECT. A cursor minted
    under sortBy price and replayed with sortBy name is such a request. *)
Theorem getProductsController_rejects_bad_input
    (fuel : nat) (reqQuery : ReqQuery) (p : Parsed) (w : World Db) :
  MYSQL_ENABLED env = true ->
  querySchema reqQuery = Some p ->
  (badInput p ->
   exists msg,
     getProductsController fuel reqQuery w = (Throw (AppError msg 400), w)
     /\ errorStatus (AppError msg 400) = 400
     /\ msg ∈ clientErrorMessages)
  /\ (forall raw order v id,
        raw = encodeCursor (cursorPayload Products.ByPrice order v id) ->
        decodeCursor raw = Some (cursorPayload Products.ByPrice order v id) ->
        cursor p = Some raw ->
        sortBy p = Products.ByName ->
        badInput p).
Proof.
  intros Hmysql Hschema. split.
  - intros Hbad.
    destruct (checkRequest_badInput reqQuery p Hschema Hbad) as (msg & Hcheck & Hmsg).
    exists msg. unfold getProductsController. rewrite Hmysql, Hcheck. done.
  - intros raw order v id _ Hdecode Hcursor Hsort.
    right. left. exists raw, (cursorPayload Products.ByPrice order v id).
    repeat split; try done. left. rewrite Hsort. reflexivity.
Qed.

(** ** Defaults for a bad limit, sortBy or sortOrder *)

(** The request with each of [limit], [sortBy], [sortOrder] that fails its
    schema replaced by the default written out. *)
Definition withDefaults (reqQuery : ReqQuery) : ReqQuery :=
  {| raw_limit :=
       match limitNumber (raw_limit reqQuery) with
       | Some _ => raw_limit reqQuery
       | None => Some (QString "20")
       end;
     raw_sortBy :=
       match sortByEnum (raw_sortBy reqQuery) with
       | Some _ => raw_sortBy reqQuery
       | None => Some (QString "createdAt")
       end;
     raw_sortOrder :=
       match sortOrderEnum (raw_sortOrder reqQuery) with
       | Some _ => raw_sortOrder reqQuery
       | None => Some (QString "desc")
       end;
     raw_q := raw_q reqQuery;
     raw_category := raw_category reqQuery;
     raw_minPrice := raw_minPrice reqQuery;
     raw_maxPrice := raw_maxPrice reqQuery;
     raw_createdFrom := raw_createdFrom reqQuery;
     raw_createdTo := raw_createdTo reqQuery;
     raw_cursor := raw_cursor reqQuery |}.

(** The schema reads a request as it reads the request with the defaults
    written out, and so does the controller; what failed is replaced by
    limit 20, sortBy createdAt, sortOrder desc. *)
Lemma withDefaults_same_run
    (fuel : nat) (reqQuery : ReqQuery) (w : World Db) :
  limitNumber (Some (QString "20")) = Some 20 ->
  querySchema reqQuery = querySchema (withDefaults reqQuery)
  /\ getProductsController fuel reqQuery w
     = getProductsController fuel (withDefaults reqQuery) w
  /\ (forall p, querySchema reqQuery = Some p ->
        (limitNumber (raw_limit reqQuery) = None -> limit p = 20)
        /\ (sortByEnum (raw_sortBy reqQuery) = None -> sortBy p = Products.ByCreatedAt)
        /\ (sortOrderEnum (raw_sortOrder reqQuery) = None ->
            sortOrder p = Products.Desc)).
Proof.
  intros Htwenty.
  assert (Hschema : querySchema reqQuery = querySchema (withDefaults reqQuery)).
  { unfold querySchema, withDefaults. simpl.
    assert (limitSchema (raw_limit reqQuery)
            = limitSchema match limitNumber (raw_limit reqQuery) with
                          | Some _ => raw_limit reqQuery
                          | None => Some (QString "20")
                          end) as <-.
    { unfold limitSchema.
      destruct (limitNumber (raw_limit reqQuery)) eqn:E; by rewrite ?E, ?Htwenty. }
    assert (sortBySchema (raw_sortBy reqQuery)
            = sortBySchema match sortByEnum (raw_sortBy reqQuery) with
                           | Some _ => raw_sortBy reqQuery
                           | None => Some (QString "createdAt")
                           end) as <-.
    { unfold sortBySchema.
      destruct (sortByEnum (raw_sortBy reqQuery)) eqn:E; by rewrite ?E. }
    assert (sortOrderSchema (raw_sortOrder reqQuery)
            = sortOrderSchema match sortOrderEnum (raw_sortOrder reqQuery) with
                              | Some _ => raw_sortOrder reqQuery
                              | None => Some (QString "desc")
                              end) as <-.
    { unfold sortOrderSchema.
      destruct (sortOrderEnum (raw_sortOrder reqQuery)) eqn:E; by rewrite ?E. }
    done. }
  split; [done|]. split.
  - unfold getProductsController, checkRequest. by rewrite Hschema.
  - intros p. unfold querySchema.
    destruct (stringSchema (raw_q reqQuery)); [|done].
    destruct (stringSchema (raw_category reqQuery)); [|done].
    destruct (priceSchema (raw_minPrice reqQuery)); [|done].
    destruct (priceSchema (raw_maxPrice reqQuery)); [|done].
    destruct (stringSchema (raw_createdFrom reqQuery)); [|done].
    destruct (stringSchema (raw_createdTo reqQuery)); [|done].
    destruct (stringSchema (raw_cursor reqQuery)); [|done].
    intros [= <-]. simpl. unfold limitSchema, sortBySchema, sortOrderSchema.
    repeat split; by intros ->.
Qed.

End Controller.

(** ** A concrete runtime

    Numbers and dates written as integers, cursors left unencoded, a
    [JSON.parse] that knows only [null], and the serializer and digest of
    the [ProductsCache] example. *)

Definition integerOf (n : JsNumber) : Z :=
  match n with
  | JsFinite x => (Qnum x / Zpos (Qden x))%Z
  | _ => 0%Z
  end.

Definition exampleRuntime : Runtime :=
  {| toNumber := fun x =>
       match x with
       | QString s =>
           match readInt s with
           | Some z => JsFinite (inject_Z z)
           | None => JsNaN
           end
       | QOther => JsNaN
       end;
     dateParse := readInt;
     toISOString := showInt;
     base64urlDecode := fun s => s;
     base64urlEncode := fun s => s;
     JSON_parse := fun s => if decide (s = "null"%string) then Some JNull else None;
     JSON_stringify := ProductsCache.renderExample;
     sha1Hex := fun s => s;
     randomUUID := Cache.uuidExample;
     peers := Cache.noPeers;
     weightString := Products.binaryCollation;
     matchAgainst := fun _ _ => true;
     decimalParam := integerOf;
     integerParam := integerOf;
     cursorParam := fun sb v =>
       match v with
       | JString s => Products.SvText s
       | JNumber n => Products.SvDecimal (integerOf n)
       | _ => Products.SvText ""
       end;
     decimalText := showInt |}.

Definition exampleDb : Db :=
  {| table :=
       Products.exampleTable (fun _ => "item"%string) (fun _ => "tools"%string)
         (fun _ => None) (fun i => (1700000000000 + i)%Z);
     pool := true;
     queries := 0 |}.

Definition exampleWorld : World Db :=
  {| redisStatusUp := true; redis := ∅; clock := 1700000000000;
     uuidsDrawn := 0; events := []; external := exampleDb |}.

Definition emptyQuery : ReqQuery :=
  {| raw_limit := None; raw_sortBy := None; raw_sortOrder := None; raw_q := None;
     raw_category := None; raw_minPrice := None; raw_maxPrice := None;
     raw_createdFrom := None; raw_createdTo := None; raw_cursor := None |}.

(** [?cursor=garbage] *)
Definition garbageCursorQuery : ReqQuery :=
  {| raw_limit := None; raw_sortBy := None; raw_sortOrder := None; raw_q := None;
     raw_category := None; raw_minPrice := None; raw_maxPrice := None;
     raw_createdFrom := None; raw_createdTo := None;
     raw_cursor := Some (QString "garbage") |}.

(** [?cursor=bnVsbA]: the base64url text of [null] *)
Definition nullCursorQuery : ReqQuery :=
  {| raw_limit := None; raw_sortBy := None; raw_sortOrder := None; raw_q := None;
     raw_category := None; raw_minPrice := None; raw_maxPrice := None;
     raw_createdFrom := None; raw_createdTo := None;
     raw_cursor := Some (QString "bnVsbA") |}.

(** [?limit=abc&sortBy=newest] *)
Definition badPagingQuery : ReqQuery :=
  {| raw_limit := Some (QString "abc"); raw_sortBy := Some (QString "newest");
     raw_sortOrder := None; raw_q := None;
     raw_category := None; raw_minPrice := None; raw_maxPrice := None;
     raw_createdFrom := None; raw_createdTo := None; raw_cursor := None |}.

(** The example runtime with the one base64url text the failing input
    needs decoded. *)
Definition nullCursorRuntime : Runtime :=
  {| toNumber := toNumber exampleRuntime;
     dateParse := dateParse exampleRuntime;
     toISOString := toISOString exampleRuntime;
     base64urlDecode := fun s => if decide (s = "bnVsbA"%string) then "null"%string else s;
     base64urlEncode := base64urlEncode exampleRuntime;
     JSON_parse := JSON_parse exampleRuntime;
     JSON_stringify := JSON_stringify exampleRuntime;
     sha1Hex := sha1Hex exampleRuntime;
     randomUUID := randomUUID exampleRuntime;
     peers := peers exampleRuntime;
     weightString := weightString exampleRuntime;
     matchAgainst := matchAgainst exampleRuntime;
     decimalParam := decimalParam exampleRuntime;
     integerParam := integerParam exampleRuntime;
     cursorParam := cursorParam exampleRuntime;
     decimalText := decimalText exampleRuntime |}.

Lemma getProductsController_rejects_bad_input_witness :
  exists msg,
    getProductsController Cache.defaultEnv exampleRuntime 7 garbageCursorQuery
      exampleWorld
    = (Throw (AppError msg 400), exampleWorld)
    /\ errorStatus (AppError msg 400) = 400%Z
    /\ msg ∈ clientErrorMessages.
Proof.
  refine (proj1 (getProductsController_rejects_bad_input Cache.defaultEnv
                   exampleRuntime 7 garbageCursorQuery
                   {| limit := 20; sortBy := Products.ByCreatedAt;
                      sortOrder := Products.Desc; q := None; category := None;
                      minPrice := None; maxPrice := None; createdFrom := None;
                      createdTo := None; cursor := Some "garbage"%string |}
                   exampleWorld _ _) _).
  - reflexivity.
  - reflexivity.
  - left. exists "garbage"%string. split; reflexivity.
Defined.

(** C9, at the input where the code fails it. [?cursor=bnVsbA] passes the
    schema and decodes without an error, to [null]; the [catch] that turns
    an undecodable cursor into [AppError('Invalid cursor', 400)] is not
    taken, reading [decoded.sortBy] throws a TypeError, and the error
    handler, finding no status code on it, answers 500. Nothing was read or
    written. *)
Theorem getProductsController_null_cursor_500 :
  querySchema nullCursorRuntime nullCursorQuery
  = Some {| limit := 20; sortBy := Products.ByCreatedAt; sortOrder := Products.Desc;
            q := None; category := None; minPrice := None; maxPrice := None;
            createdFrom := None; createdTo := None; cursor := Some "bnVsbA"%string |}
  /\ base64urlDecode nullCursorRuntime "bnVsbA" = "null"%string
  /\ decodeCursor nullCursorRuntime "bnVsbA" = Some JNull
  /\ getProductsController Cache.defaultEnv nullCursorRuntime 7 nullCursorQuery
       exampleWorld
     = (Throw TypeError, exampleWorld)
  /\ errorStatus TypeError = 500%Z.
Proof. repeat split; reflexivity. Qed.

End ProductsController.

(** * Pages of listProducts

    More on src/repositories/products/productRepository.ts: when [hasMore]
    is set, what a limit outside 1..100 does, and what a walk resumed from a
    cursor returns. *)

Module ProductsPages.

Import Products.

Section Pages.

Variable weightString : string -> string.
Variable matchAgainst : string -> ProductRow -> bool.
Variable table : list ProductRow.
Variable query : ProductListQuery.

(** The rows the SELECT of [listProducts] ranges over before LIMIT: those
    that pass every WHERE clause, in the ORDER BY order. *)
Definition selected : list ProductRow :=
  merge_sort (orderBy weightString (sortBy query) (sortOrder query))
    (filter (whereSql (whereClauses weightString matchAgainst query)) table).

Lemma selected_elem (r : ProductRow) :
  r ∈ selected <-> whereSql (whereClauses weightString matchAgainst query) r /\ r ∈ table.
Proof. unfold selected. rewrite merge_sort_Permutation. by rewrite list_elem_of_filter. Qed.

Lemma selected_sorted :
  StronglySorted (orderBy weightString (sortBy query) (sortOrder query)) selected.
Proof. apply StronglySorted_merge_sort; apply _. Qed.

Lemma query_withCursor : withCursor query (cursor query) = query.
Proof. by destruct query. Qed.

(** X2. With a limit from 1 to 100: the page is the first [limit] selected rows;
    [hasMore] says exactly that more than [limit] rows are selected, and then
    the page is full and [nextCursor] is minted from its last row; without
    [hasMore] there is no cursor and the page holds every selected row. *)
Theorem listProducts_hasMore_exact :
  1 <= limit query <= 100 ->
  let page := listProducts weightString matchAgainst table query in
  let n := Z.to_nat (limit query) in
  items page = map toItem (take n selected)
  /\ (hasMore page = true <-> (n < length selected)%nat)
  /\ (hasMore page = true ->
      length (items page) = n
      /\ exists l, last (items page) = Some l
                   /\ nextCursor page
                      = Some {| v := sortColumn (sortBy query) l; cursorId := id l |})
  /\ (hasMore page = false ->
      nextCursor page = None /\ items page = map toItem selected).
Proof.
  intros Hlimit page n. subst page.
  pose proof (listProducts_page weightString matchAgainst table query Hlimit
                (cursor query) selected) as Hpage.
  rewrite query_withCursor in Hpage. rewrite (Hpage eq_refl). clear Hpage.
  fold n. cbn [items hasMore nextCursor].
  split; [done|]. split; [by rewrite bool_decide_eq_true|]. split.
  - intros Hmore. rewrite Hmore. apply bool_decide_eq_true in Hmore.
    split; [rewrite length_map, length_take; lia|].
    destruct (last (map toItem (take n selected))) as [l|] eqn:Hlast.
    + by exists l.
    + apply last_None in Hlast.
      assert (length (map toItem (take n selected)) = 0%nat) as Hz
        by by rewrite Hlast.
      rewrite length_map, length_take in Hz. lia.
  - intros Hmore. rewrite Hmore. apply bool_decide_eq_false in Hmore.
    split; [done|]. f_equal. apply take_ge. lia.
Qed.

(** X3. With a limit outside 1..100 a walk cannot go on: there is never a
    [nextCursor]. At 0 or below the page is empty (and below 0 [hasMore] is
    set all the same); above 100 the page is the first 101 selected rows and
    [hasMore] is never set, whatever number of rows is selected. *)
Theorem listProducts_limit_out_of_range :
  limit query <= 0 \/ 100 < limit query ->
  let page := listProducts weightString matchAgainst table query in
  nextCursor page = None
  /\ (limit query <= 0 -> items page = [])
  /\ (limit query < 0 -> hasMore page = true)
  /\ (limit query = 0 -> hasMore page = bool_decide (selected <> []))
  /\ (100 < limit query ->
      hasMore page = false /\ items page = map toItem (take 101 selected)).
Proof.
  intros Hlimit page. subst page. unfold listProducts, selectRows. fold selected.
  cbn [items hasMore nextCursor].
  destruct (Z_le_gt_dec (limit query) 0) as [Hlow|Hpos].
  - replace (Z.min 101 (Z.max 1 (limit query + 1))) with 1 by lia.
    assert (Hitems : slice0 (take (Z.to_nat 1) selected) (limit query) = []).
    { unfold slice0. destruct (0 <=? limit query) eqn:E.
      - apply Z.leb_le in E. replace (limit query) with 0 by lia. done.
      - apply Z.leb_gt in E.
        assert (length (take (Z.to_nat 1) selected) <= 1)%nat
          by (rewrite length_take; lia).
        replace (Z.to_nat (Z.of_nat (length (take (Z.to_nat 1) selected)) + limit query))
          with 0%nat by lia.
        done. }
    rewrite Hitems. simpl.
    split; [by destruct (limit query <? _)|]. split; [done|]. split; [|split].
    + intros Hneg. apply Z.ltb_lt. lia.
    + intros ->. destruct selected as [|r l]; [done|].
      symmetry. by apply bool_decide_eq_true_2.
    + lia.
  - assert (Hhigh : 100 < limit query) by lia.
    replace (Z.min 101 (Z.max 1 (limit query + 1))) with 101 by lia.
    assert (Hmore : (limit query <? Z.of_nat (length (take (Z.to_nat 101) selected)))
                    = false).
    { apply Z.ltb_ge. rewrite length_take. lia. }
    rewrite Hmore. split; [done|]. split; [lia|]. split; [lia|]. split; [lia|].
    intros _. split; [done|]. f_equal.
    unfold slice0. destruct (0 <=? limit query) eqn:E; [|apply Z.leb_gt in E; lia].
    rewrite take_take. f_equal. lia.
Qed.

End Pages.

(** ** Resuming from a cursor *)

(** In a sorted list, the elements passing a test that holds of everything
    after an element it holds of are a suffix of the list. *)
Lemma sorted_filter_suffix {A} (R : relation A) (P : A -> Prop)
    `{!forall x, Decision (P x)} (l : list A) :
  StronglySorted R l ->
  (forall x y, R x y -> P x -> P y) ->
  exists before, l = before ++ filter P l.
Proof.
  intros Hs Hup. induction Hs as [|x l _ IH Hx].
  - by exists [].
  - rewrite filter_cons. destruct (decide (P x)) as [Hpx|Hpx].
    + exists []. simpl. f_equal. symmetry. apply filter_all.
      eapply Forall_impl; [done|]. intros y Hxy. by apply (Hup x).
    + destruct IH as [before Hbefore]. exists (x :: before). simpl. by f_equal.
Qed.

Section Resume.

Variable weightString : string -> string.
Variable matchAgainst : string -> ProductRow -> bool.

(** [r] sorts strictly after [r0] in the order of the query. *)
Definition strictlyAfter (query : ProductListQuery) (r0 r : ProductRow) : bool :=
  holds (opForCursor (sortOrder query)) (rowCompare weightString (sortBy query) r r0).

Lemma strictlyAfter_upward (query : ProductListQuery) (r0 x y : ProductRow) :
  orderBy weightString (sortBy query) (sortOrder query) x y ->
  strictlyAfter query r0 x -> strictlyAfter query r0 y.
Proof.
  unfold strictlyAfter, orderBy, orderLeb.
  assert (Heq : rowCompare weightString (sortBy query) x y = Eq ->
                rowCompare weightString (sortBy query) y r0
                = rowCompare weightString (sortBy query) x r0).
  { unfold rowCompare, lexCompare.
    destruct (compareSV weightString (sortColumn (sortBy query) x)
                (sortColumn (sortBy query) y)) eqn:C; try discriminate.
    apply compareSV_eq in C. intros Hid%Z.compare_eq_iff.
    by rewrite (compareSV_sortKey_l weightString _ _ _ C), Hid. }
  destruct (sortOrder query); simpl.
  - destruct (rowCompare weightString (sortBy query) x y) eqn:Exy; simpl; [| |done];
      intros _.
    + by rewrite Heq.
    + destruct (rowCompare weightString (sortBy query) x r0) eqn:Ex0; simpl;
        try done. intros _.
      assert (H0x : rowCompare weightString (sortBy query) r0 x = Lt)
        by (by rewrite (rowCompare_antisym weightString _ x r0), Ex0).
      pose proof (rowCompare_lt_trans weightString _ _ _ _ H0x Exy) as H0y.
      by rewrite (rowCompare_antisym weightString _ r0 y), H0y.
  - destruct (rowCompare weightString (sortBy query) x y) eqn:Exy; simpl; [|done|];
      intros _.
    + by rewrite Heq.
    + destruct (rowCompare weightString (sortBy query) x r0) eqn:Ex0; simpl;
        try done. intros _.
      assert (Hyx : rowCompare weightString (sortBy query) y x = Lt)
        by (by rewrite (rowCompare_antisym weightString _ x y), Exy).
      by rewrite (rowCompare_lt_trans weightString _ _ _ _ Hyx Ex0).
Qed.

(** Modelled from the spec: [r] is strictly after [r0] in the (sortColumn,
    id) order when it is not at or before it. *)
Definition comesAfter (query : ProductListQuery) (r0 r : ProductRow) : Prop :=
  ~ inSortOrder weightString (sortBy query) (sortOrder query) r r0.

Lemma strictlyAfter_comesAfter (query : ProductListQuery) (r0 r : ProductRow) :
  strictlyAfter query r0 r <-> comesAfter query r0 r.
Proof.
  unfold comesAfter. rewrite <- orderBy_inSortOrder.
  unfold strictlyAfter, orderBy, orderLeb.
  destruct (sortOrder query), (rowCompare weightString (sortBy query) r r0);
    simpl; intuition.
Qed.

#[local] Instance comesAfter_dec query r0 r : Decision (comesAfter query r0 r).
Proof.
  destruct (strictlyAfter query r0 r) eqn:E.
  - left. apply strictlyAfter_comesAfter. by rewrite E.
  - right. intros H%strictlyAfter_comesAfter. by rewrite E in H.
Defined.


End Resume.

(** ** On the example table *)

Definition demoTable : list ProductRow :=
  exampleTable (fun _ => "item"%string) (fun _ => "tools"%string) (fun _ => None)
    (fun i => 1700000000000 + i).

Definition anyText (s : string) (r : ProductRow) : bool := true.

Definition demoQuery (n : Z) : ProductListQuery :=
  {| limit := n; sortBy := ByPrice; sortOrder := Asc;
     q := None; categoryFilter := None; minPrice := None; maxPrice := None;
     createdFrom := None; createdTo := None; cursor := None |}.

Lemma listProducts_hasMore_exact_witness :
  let page := listProducts binaryCollation anyText demoTable (demoQuery 3) in
  items page = map toItem (take 3 (selected binaryCollation anyText demoTable (demoQuery 3)))
  /\ (hasMore page = true
      <-> (3 < length (selected binaryCollation anyText demoTable (demoQuery 3)))%nat)
  /\ (hasMore page = true ->
      length (items page) = 3%nat
      /\ exists l, last (items page) = Some l
                   /\ nextCursor page = Some {| v := SvDecimal (price l); cursorId := id l |})
  /\ (hasMore page = false ->
      nextCursor page = None
      /\ items page = map toItem (selected binaryCollation anyText demoTable (demoQuery 3))).
Proof.
  refine (listProducts_hasMore_exact binaryCollation anyText demoTable (demoQuery 3) _).
  simpl. lia.
Defined.

Lemma listProducts_limit_out_of_range_witness :
  let page := listProducts binaryCollation anyText demoTable (demoQuery 500) in
  nextCursor page = None
  /\ (500 <= 0 -> items page = [])
  /\ (500 < 0 -> hasMore page = true)
  /\ (500 = 0 ->
      hasMore page
      = bool_decide (selected binaryCollation anyText demoTable (demoQuery 500) <> []))
  /\ (100 < 500 ->
      hasMore page = false
      /\ items page
         = map toItem (take 101 (selected binaryCollation anyText demoTable (demoQuery 500)))).
Proof.
  refine (listProducts_limit_out_of_range binaryCollation anyText demoTable
            (demoQuery 500) _).
  right. simpl. lia.
Defined.

(** A row that is no longer in the table: price 10, id 1. *)
Definition goneRow : ProductRow :=
  {| id := 1; name := "gone"; description := None; price := 10;
     category := "tools"; createdAt := 0 |}.


(** The walk resumed after (price 10, id 1) on the example table: the rows
    with ids 2 and 3, whether or not row 1 is still there. *)
Lemma walkPages_resumed_example :
  map id <$> walkPages binaryCollation anyText 5 demoTable
               (withCursor (demoQuery 1) (Some (cursorOf (demoQuery 1) goneRow)))
  = Some [2; 3].
Proof. reflexivity. Qed.

End ProductsPages.

(** * The canonical form built by stableStringify

    More on src/utils/stableStringify.ts: what [sortRec] keeps and what it
    normalizes. *)

Module StableStringifyFacts.

Import StableStringify.

(** Induction on a value through its array elements and property values. *)
Section JsValueInduction.

Variable P : JsValue -> Prop.
Hypothesis Hundefined : P JUndefined.
Hypothesis Hnull : P JNull.
Hypothesis Hbool : forall b, P (JBool b).
Hypothesis Hnumber : forall n, P (JNumber n).
Hypothesis Hstring : forall s, P (JString s).
Hypothesis Hdate : forall t, P (JDate t).
Hypothesis Harray : forall elements, Forall P elements -> P (JArray elements).
Hypothesis Hobject :
  forall props, Forall (fun kv => P (snd kv)) props -> P (JObject props).

Fixpoint JsValue_nested_ind (value : JsValue) : P value :=
  match value with
  | JUndefined => Hundefined
  | JNull => Hnull
  | JBool b => Hbool b
  | JNumber n => Hnumber n
  | JString s => Hstring s
  | JDate t => Hdate t
  | JArray elements =>
      Harray elements
        ((fix go (l : list JsValue) : Forall P l :=
            match l with
            | [] => @List.Forall_nil _ P
            | x :: l' => @List.Forall_cons _ P x l' (JsValue_nested_ind x) (go l')
            end) elements)
  | JObject props =>
      Hobject props
        ((fix go (l : list (string * JsValue)) : Forall (fun kv => P (snd kv)) l :=
            match l with
            | [] => @List.Forall_nil _ (fun kv => P (snd kv))
            | (k, x) :: l' =>
                @List.Forall_cons _ (fun kv => P (snd kv)) (k, x) l'
                  (JsValue_nested_ind x) (go l')
            end) props)
  end.

End JsValueInduction.

(** [canonical value]: no Date is left and the keys of every object, at
    every depth, are in strictly ascending order. *)
Fixpoint canonical (value : JsValue) : Prop :=
  match value with
  | JDate _ => False
  | JArray elements => fold_right (fun x acc => canonical x /\ acc) True elements
  | JObject props =>
      StronglySorted (fun a b => String.le a b /\ a <> b) (objectKeys props)
      /\ fold_right (fun kv acc => canonical (snd kv) /\ acc) True props
  | _ => True
  end.

Lemma canonical_props (props : list (string * JsValue)) :
  fold_right (fun kv acc => canonical (snd kv) /\ acc) True props
  <-> Forall (fun kv => canonical (snd kv)) props.
Proof.
  induction props as [|kv props IH]; simpl.
  - split; [constructor | done].
  - rewrite Forall_cons. tauto.
Qed.

Lemma canonical_elements (elements : list JsValue) :
  fold_right (fun x acc => canonical x /\ acc) True elements
  <-> Forall canonical elements.
Proof.
  induction elements as [|x elements IH]; simpl.
  - split; [constructor | done].
  - rewrite Forall_cons. tauto.
Qed.

(** ** Keys that [out[key] = x] treats alike

    An array index is the decimal text of an integer from 0 to 2^32 - 2: an
    object enumerates such keys first, in numeric order, wherever they were
    added. Assigning to [__proto__] sets the prototype of the object and
    adds no property. Every other key is added after the keys already
    there. *)
Definition isArrayIndex (key : string) : bool :=
  match readInt key with
  | Some n => (0 <=? n) && (n <? 2 ^ 32 - 1)
  | None => false
  end.

Definition ordinaryKey (key : string) : bool :=
  negb (isArrayIndex key) && negb (String.eqb key "__proto__").

(** [ordinaryKeys value]: every key of every object of the value, at every
    depth, is ordinary. *)
Fixpoint ordinaryKeys (value : JsValue) : Prop :=
  match value with
  | JArray elements => fold_right (fun x acc => ordinaryKeys x /\ acc) True elements
  | JObject props =>
      Forall (fun key => ordinaryKey key = true) (objectKeys props)
      /\ fold_right (fun kv acc => ordinaryKeys (snd kv) /\ acc) True props
  | _ => True
  end.

Lemma ordinaryKeys_props (props : list (string * JsValue)) :
  fold_right (fun kv acc => ordinaryKeys (snd kv) /\ acc) True props
  <-> Forall (fun kv => ordinaryKeys (snd kv)) props.
Proof.
  induction props as [|kv props IH]; simpl.
  - split; [constructor | done].
  - rewrite Forall_cons. tauto.
Qed.

Lemma ordinaryKeys_elements (elements : list JsValue) :
  fold_right (fun x acc => ordinaryKeys x /\ acc) True elements
  <-> Forall ordinaryKeys elements.
Proof.
  induction elements as [|x elements IH]; simpl.
  - split; [constructor | done].
  - rewrite Forall_cons. tauto.
Qed.

(** ** Building an object key by key *)

Lemma objGet_absent (props : list (string * JsValue)) (key : string) :
  key ∉ objectKeys props -> objGet props key = JUndefined.
Proof.
  unfold objectKeys. induction props as [|[k x] props IH]; [done|]. simpl.
  rewrite not_elem_of_cons. intros [Hne Hrest]. rewrite decide_False by done. auto.
Qed.

Lemma objSet_fresh (props : list (string * JsValue)) (key : string) (x : JsValue) :
  key ∉ objectKeys props -> objSet props key x = props ++ [(key, x)].
Proof.
  unfold objectKeys. induction props as [|[k y] props IH]; [done|]. simpl.
  rewrite not_elem_of_cons. intros [Hne Hrest]. rewrite decide_False by done.
  by rewrite IH.
Qed.

(** Keys that are distinct and not yet present are added in the order they
    come. *)
Lemma foldl_objSet_fresh (g : string -> JsValue) (keys : list string)
    (out : list (string * JsValue)) :
  NoDup keys ->
  (forall key, key ∈ keys -> key ∉ objectKeys out) ->
  foldl (fun out key => objSet out key (g key)) out keys
  = out ++ map (fun key => (key, g key)) keys.
Proof.
  revert out. induction keys as [|key keys IH]; intros out Hnd Hfresh; simpl.
  - by rewrite app_nil_r.
  - apply NoDup_cons in Hnd as [Hkey Hnd].
    rewrite objSet_fresh by (apply Hfresh; by left).
    rewrite IH; [by rewrite <- app_assoc|done|].
    intros key' Hkey'. unfold objectKeys. rewrite map_app. simpl.
    rewrite not_elem_of_app. split.
    + apply Hfresh. by right.
    + rewrite list_elem_of_singleton. by intros ->.
Qed.

Section Canonical.

Variable toISOString : Z -> string.

Lemma objGet_sortRec (props : list (string * JsValue)) (key : string) :
  objGet (map (fun kv => (fst kv, sortRec toISOString (snd kv))) props) key
  = sortRec toISOString (objGet props key).
Proof.
  induction props as [|[k x] props IH]; [done|]. simpl. by case_decide.
Qed.

(** What [sortRec] makes of an object with distinct keys: the keys sorted,
    each with the sorted form of its value. *)
Lemma sortRec_object (props : list (string * JsValue)) :
  NoDup (objectKeys props) ->
  sortRec toISOString (JObject props)
  = JObject (map (fun key => (key, sortRec toISOString (objGet props key)))
               (sortStrings (objectKeys props))).
Proof.
  intros Hnd. cbn [sortRec]. f_equal.
  rewrite foldl_objSet_fresh.
  - simpl. apply map_ext. intros key. by rewrite objGet_sortRec.
  - unfold sortStrings. by rewrite merge_sort_Permutation.
  - intros key _. apply not_elem_of_nil.
Qed.

Lemma objectKeys_map_keys (g : string -> JsValue) (keys : list string) :
  objectKeys (map (fun key => (key, g key)) keys) = keys.
Proof. unfold objectKeys. rewrite map_map. simpl. apply map_id. Qed.

Lemma objGet_map_keys (g : string -> JsValue) (keys : list string) (key : string) :
  key ∈ keys -> objGet (map (fun key => (key, g key)) keys) key = g key.
Proof.
  induction keys as [|k keys IH]; [by intros ?%elem_of_nil|]. simpl.
  case_decide as Hk; [by subst|].
  intros [->|Hin]%elem_of_cons; [done|]. by apply IH.
Qed.

Lemma objGet_elem (props : list (string * JsValue)) (key : string) :
  key ∈ objectKeys props -> (key, objGet props key) ∈ props.
Proof.
  unfold objectKeys. induction props as [|[k x] props IH]; [by intros ?%elem_of_nil|].
  simpl. case_decide as Hk.
  - subst. intros _. by left.
  - intros [->|Hin]%elem_of_cons; [done|]. right. by apply IH.
Qed.

Lemma String_le_antisym (a b : string) : String.le a b -> String.le b a -> a = b.
Proof. apply (anti_symm String.le). Qed.

Lemma sortStrings_sorted (keys : list string) :
  StronglySorted String.le (sortStrings keys).
Proof. apply StronglySorted_merge_sort; apply _. Qed.

Lemma sortStrings_idemp (keys : list string) :
  sortStrings (sortStrings keys) = sortStrings keys.
Proof.
  apply (StronglySorted_unique String.le).
  - apply sortStrings_sorted.
  - apply sortStrings_sorted.
  - unfold sortStrings. by rewrite merge_sort_Permutation.
Qed.

Lemma sortStrings_strict (keys : list string) :
  NoDup keys ->
  StronglySorted (fun a b => String.le a b /\ a <> b) (sortStrings keys).
Proof.
  intros Hnd.
  assert (Hnd' : NoDup (sortStrings keys)).
  { unfold sortStrings. by rewrite merge_sort_Permutation. }
  pose proof (sortStrings_sorted keys) as Hs.
  induction Hs as [|a l _ IH Ha]; [constructor|].
  apply NoDup_cons in Hnd' as [Hal Hl]. constructor; [by apply IH|].
  apply Forall_forall. intros b Hb. split.
  - by eapply Forall_forall in Ha.
  - by intros ->.
Qed.

Lemma sortRec_object_values (P : JsValue -> Prop) (props : list (string * JsValue)) :
  Forall (fun kv => P (snd kv)) props ->
  forall key, key ∈ sortStrings (objectKeys props) -> P (objGet props key).
Proof.
  intros Hall key Hkey. unfold sortStrings in Hkey.
  rewrite merge_sort_Permutation in Hkey. apply objGet_elem in Hkey.
  by eapply Forall_forall in Hall; [|done].
Qed.

(** [sortRec] adds no key: the keys of the result are ordinary when those of
    the value are. *)
Lemma sortRec_ordinaryKeys (value : JsValue) :
  uniqueKeys value -> ordinaryKeys value -> ordinaryKeys (sortRec toISOString value).
Proof.
  induction value as [| | | | | |elements IH|props IH] using JsValue_nested_ind;
    intros Hu Ho; try done.
  - apply uniqueKeys_elements in Hu. apply ordinaryKeys_elements in Ho.
    cbn [sortRec]. apply ordinaryKeys_elements, Forall_fmap, Forall_forall.
    intros x Hx. simpl. eapply Forall_forall in IH; [|done]. apply IH.
    + by eapply Forall_forall in Hu.
    + by eapply Forall_forall in Ho.
  - destruct Hu as [Hnd Hvals]. apply uniqueKeys_props in Hvals.
    destruct Ho as [Hkeys Hovals]. apply ordinaryKeys_props in Hovals.
    rewrite (sortRec_object props Hnd). split.
    + rewrite objectKeys_map_keys. unfold sortStrings.
      by rewrite merge_sort_Permutation.
    + apply ordinaryKeys_props, Forall_fmap, Forall_forall. intros key Hkey.
      simpl.
      apply (sortRec_object_values
               (fun x => uniqueKeys x -> ordinaryKeys x ->
                         ordinaryKeys (sortRec toISOString x)) props IH key Hkey).
      * by apply (sortRec_object_values uniqueKeys props Hvals key Hkey).
      * by apply (sortRec_object_values ordinaryKeys props Hovals key Hkey).
Qed.

Lemma sortRec_canonical_unique (value : JsValue) :
  uniqueKeys value ->
  canonical (sortRec toISOString value)
  /\ uniqueKeys (sortRec toISOString value)
  /\ sortRec toISOString (sortRec toISOString value) = sortRec toISOString value.
Proof.
  induction value as [| | | | | |elements IH|props IH] using JsValue_nested_ind;
    intros Hu; try done.
  - apply uniqueKeys_elements in Hu. cbn [sortRec].
    assert (Hall : Forall (fun x =>
                    canonical (sortRec toISOString x)
                    /\ uniqueKeys (sortRec toISOString x)
                    /\ sortRec toISOString (sortRec toISOString x)
                       = sortRec toISOString x) elements).
    { apply Forall_forall. intros x Hx.
      eapply Forall_forall in IH; [|done]. apply IH.
      by eapply Forall_forall in Hu. }
    split; [|split].
    + apply canonical_elements, Forall_fmap. eapply Forall_impl; [done|].
      by intros x (? & _).
    + apply uniqueKeys_elements, Forall_fmap. eapply Forall_impl; [done|].
      by intros x (_ & ? & _).
    + f_equal. rewrite map_map. apply map_ext_in. intros x Hx%list_elem_of_In.
      eapply Forall_forall in Hall; [|done]. by destruct Hall as (_ & _ & ?).
  - destruct Hu as [Hnd Hvals]. apply uniqueKeys_props in Hvals.
    rewrite (sortRec_object props Hnd).
    set (keys := sortStrings (objectKeys props)).
    assert (Hkeys : NoDup keys).
    { subst keys. unfold sortStrings. by rewrite merge_sort_Permutation. }
    assert (Hall : forall key, key ∈ keys ->
                    canonical (sortRec toISOString (objGet props key))
                    /\ uniqueKeys (sortRec toISOString (objGet props key))
                    /\ sortRec toISOString (sortRec toISOString (objGet props key))
                       = sortRec toISOString (objGet props key)).
    { intros key Hkey.
      apply (sortRec_object_values
               (fun x => uniqueKeys x ->
                  canonical (sortRec toISOString x)
                  /\ uniqueKeys (sortRec toISOString x)
                  /\ sortRec toISOString (sortRec toISOString x)
                     = sortRec toISOString x) props IH key Hkey).
      by apply (sortRec_object_values uniqueKeys props Hvals key Hkey). }
    split; [|split].
    + split.
      * rewrite objectKeys_map_keys. by apply sortStrings_strict.
      * apply canonical_props, Forall_fmap, Forall_forall. intros key Hkey.
        simpl. by apply Hall.
    + split.
      * by rewrite objectKeys_map_keys.
      * apply uniqueKeys_props, Forall_fmap, Forall_forall. intros key Hkey.
        simpl. by apply Hall.
    + rewrite sortRec_object by by rewrite objectKeys_map_keys.
      rewrite objectKeys_map_keys. subst keys. rewrite sortStrings_idemp.
      f_equal. apply map_ext_in. intros key Hkey%list_elem_of_In.
      rewrite objGet_map_keys by done. f_equal. by apply Hall.
Qed.

(** X5. [sortRec] builds a canonical value and leaves a canonical value as it
    is: on a value whose objects have distinct keys, none of them an array
    index or [__proto__], the result has no Date, has the keys of every
    object in strictly ascending order, has again only such keys, and is a
    fixed point of [sortRec]. *)
Theorem sortRec_canonical (value : JsValue) :
  uniqueKeys value ->
  ordinaryKeys value ->
  canonical (sortRec toISOString value)
  /\ uniqueKeys (sortRec toISOString value)
  /\ ordinaryKeys (sortRec toISOString value)
  /\ sortRec toISOString (sortRec toISOString value) = sortRec toISOString value.
Proof.
  intros Hu Ho.
  destruct (sortRec_canonical_unique value Hu) as (Hc & Hu' & Hfix).
  split; [done|]. split; [done|]. split; [|done].
  by apply sortRec_ordinaryKeys.
Qed.

(** X6. [sortRec] loses nothing of an object with distinct keys, none of them
    an array index or [__proto__], here or deeper: the result is an object
    with the same keys, and under each name, present or not, it holds the
    sorted form of what the original holds. *)
Theorem sortRec_keeps_properties (props : list (string * JsValue)) :
  uniqueKeys (JObject props) ->
  ordinaryKeys (JObject props) ->
  exists props',
    sortRec toISOString (JObject props) = JObject props'
    /\ objectKeys props' ≡ₚ objectKeys props
    /\ Forall (fun key => ordinaryKey key = true) (objectKeys props')
    /\ forall key, objGet props' key = sortRec toISOString (objGet props key).
Proof.
  intros [Hnd _] [Hkeys _].
  rewrite (sortRec_object props Hnd). eexists. split; [reflexivity|].
  rewrite objectKeys_map_keys.
  assert (Hperm : sortStrings (objectKeys props) ≡ₚ objectKeys props).
  { unfold sortStrings. by rewrite merge_sort_Permutation. }
  split; [done|]. split; [by rewrite Hperm|].
  intros key. destruct (decide (key ∈ objectKeys props)) as [Hin|Hout].
  - apply objGet_map_keys. by rewrite Hperm.
  - rewrite (objGet_absent props key Hout). apply objGet_absent.
    rewrite objectKeys_map_keys. by rewrite Hperm.
Qed.

End Canonical.

(** ** An example: [{ to: <Date>, filter: { max: 5, category: "tools" } }] *)

Definition isoExample (t : Z) : string := showInt t.

Definition filterExample : list (string * JsValue) :=
  [("to", JDate 1700000000000);
   ("filter",
    JObject [("max", JNumber (JsFinite 5)); ("category", JString "tools")])]%string.

Lemma sortRec_canonical_witness :
  canonical (sortRec isoExample (JObject filterExample))
  /\ uniqueKeys (sortRec isoExample (JObject filterExample))
  /\ ordinaryKeys (sortRec isoExample (JObject filterExample))
  /\ sortRec isoExample (sortRec isoExample (JObject filterExample))
     = sortRec isoExample (JObject filterExample).
Proof.
  refine (sortRec_canonical isoExample (JObject filterExample) _ _).
  - simpl. repeat split; apply (bool_decide_unpack _); by vm_compute.
  - simpl. repeat split; repeat constructor.
Defined.

Lemma sortRec_keeps_properties_witness :
  exists props',
    sortRec isoExample (JObject filterExample) = JObject props'
    /\ objectKeys props' ≡ₚ objectKeys filterExample
    /\ Forall (fun key => ordinaryKey key = true) (objectKeys props')
    /\ forall key, objGet props' key = sortRec isoExample (objGet filterExample key).
Proof.
  refine (sortRec_keeps_properties isoExample filterExample _ _).
  - simpl. repeat split; apply (bool_decide_unpack _); by vm_compute.
  - simpl. repeat split; repeat constructor.
Defined.

(** Keys the hypothesis leaves out: an object given the keys [b], [10], [2]
    in that order lists them as [2], [10], [b], and [__proto__] is not
    listed at all. *)
Example ordinaryKey_examples :
  map ordinaryKey ["b"; "10"; "2"; "__proto__"; "category"; "01"; "-1";
                   "4294967294"; "4294967295"]%string
  = [true; false; false; false; true; true; true; false; true].
Proof. by vm_compute. Qed.

(** The example sorted: [filter] before [to], [category] before [max], the
    Date as text. *)
Lemma sortRec_filterExample :
  sortRec isoExample (JObject filterExample)
  = JObject
      [("filter",
        JObject [("category", JString "tools"); ("max", JNumber (JsFinite 5))]);
       ("to", JString "1700000000000")]%string.
Proof. reflexivity. Qed.

End StableStringifyFacts.

(** * More on src/services/cache.ts

    The entry round trip, the lock, the paths of [withCache] on an entry
    that is present, and what a call writes. These do not turn on how long
    a command takes or on an entry running out; what does is in
    [CacheClock]. *)

Module CacheFacts.

Import Cache.

Section Facts.

Context {X T : Type}.
Variable env : Env.
Variable randomUUID : nat -> string.
Variable peers : Z -> gmap string string -> gmap string string.
Variable JSON_stringify : T -> string.
Variable JSON_parse : string -> option T.

(** ** Entries *)

(** X7. What [cacheSetJson] stores, [cacheGetJson] reads back, for a value whose
    JSON text is not empty and parses to the value again. With the cache not
    ready both do nothing: the write is dropped and the read is a miss. *)
Theorem cacheSetJson_then_cacheGetJson
    (key : string) (value : T) (ttlSeconds : Z) (w : World X) :
  JSON_stringify value <> ""%string ->
  JSON_parse (JSON_stringify value) = Some value ->
  if redisReady env w then
    exists w1 w2 : World X,
      cacheSetJson env JSON_stringify key value ttlSeconds w = (Return tt, w1)
      /\ cacheGetJson env JSON_parse key w1 = (Return (Some value), w2)
      /\ redis w2 = <[key := JSON_stringify value]> (redis w)
      /\ external w2 = external w
  else
    cacheSetJson env JSON_stringify key value ttlSeconds w = (Return tt, w)
    /\ cacheGetJson env JSON_parse key w = (Return None, w).
Proof.
  intros Hraw Hparse. destruct (redisReady env w) eqn:Hready.
  - unfold cacheSetJson. rewrite Hready. cbn [negb]. unfold redisSetEx.
    eexists. eexists. split; [reflexivity|].
    unfold cacheGetJson.
    assert (Hready1 : redisReady env
              (logEvent (Redis (SET_EX key (JSON_stringify value) ttlSeconds) ReplyOK)
                 (setRedis (<[key := JSON_stringify value]> (redis w)) w)) = true)
      by done.
    rewrite Hready1. cbn [negb]. unfold bind, redisGet. simpl.
    rewrite lookup_insert_eq. rewrite (truthy_nonempty _ Hraw), Hparse.
    split; [reflexivity|]. done.
  - unfold cacheSetJson, cacheGetJson. by rewrite Hready.
Qed.

(** ** The lock *)

(** X8. While a lock taken by [acquireLock] is in the store, no other
    [acquireLock] on the key succeeds or changes the store, a [releaseLock]
    with any other token changes nothing, and a [releaseLock] with the
    holder's token removes the lock and nothing else. *)
Theorem acquireLock_excludes_until_released
    (lockKey : string) (ttlMs : Z) (w : World X) :
  redisReady env w = true ->
  redis w !! lockKey = None ->
  let token := randomUUID (uuidsDrawn w) in
  exists w1 : World X,
    acquireLock env randomUUID lockKey ttlMs w = (Return (Some token), w1)
    /\ redis w1 = <[lockKey := token]> (redis w)
    /\ forall w2 : World X,
         redisReady env w2 = true ->
         redis w2 !! lockKey = Some token ->
         (forall ttlMs', exists w3,
            acquireLock env randomUUID lockKey ttlMs' w2 = (Return None, w3)
            /\ redis w3 = redis w2)
         /\ (forall other, other <> token -> exists w3,
               releaseLock env lockKey other w2 = (Return tt, w3)
               /\ redis w3 = redis w2)
         /\ (exists w3,
               releaseLock env lockKey token w2 = (Return tt, w3)
               /\ redis w3 = delete lockKey (redis w2)).
Proof.
  intros Hready Hfree token.
  unfold acquireLock at 1. rewrite Hready. cbn [negb].
  unfold bind, redisSetPxNx. cbn [redis]. rewrite Hfree. cbn [ret].
  eexists. split; [reflexivity|]. split; [done|].
  intros w2 Hready2 Hheld. split; [|split].
  - intros ttlMs'. unfold acquireLock. rewrite Hready2. cbn [negb].
    unfold bind, redisSetPxNx. cbn [redis]. rewrite Hheld. cbn [ret].
    eexists. split; [reflexivity|]. done.
  - intros other Hother. unfold releaseLock. rewrite Hready2. cbn [negb].
    unfold bind, redisCompareAndDelete. rewrite Hheld.
    rewrite decide_False by congruence. cbn [ret].
    eexists. split; [reflexivity|]. done.
  - unfold releaseLock. rewrite Hready2. cbn [negb].
    unfold bind, redisCompareAndDelete. rewrite Hheld.
    rewrite decide_True by done. cbn [ret].
    eexists. split; [reflexivity|]. done.
Qed.

(** ** An entry that is present *)

Lemma withCache_present
    (fuel : nat) (key : string) (ttlSeconds : Z)
    (compute : X -> Outcome T * X) (w : World X) (raw : string) :
  redisReady env w = true ->
  redis w !! key = Some raw ->
  raw <> ""%string ->
  withCache env randomUUID peers JSON_stringify JSON_parse
    fuel key ttlSeconds compute w
  = (match JSON_parse raw with
     | Some value => Return (value, HIT)
     | None => Throw SyntaxError
     end,
     logEvent (Redis (GET key) (ReplyBulk raw)) w).
Proof.
  intros Hready Hfound Hraw. unfold withCache. rewrite Hready. cbn [negb].
  unfold bind at 1. unfold cacheGetJson. rewrite Hready. cbn [negb].
  unfold bind, redisGet. rewrite Hfound, (truthy_nonempty _ Hraw).
  by destruct (JSON_parse raw).
Qed.

(** X9. With the cache ready and a non-empty text stored under the key,
    [withCache] sends one GET and is done: the parsed value with status HIT,
    or, when the text is not JSON, the SyntaxError of [JSON.parse]. Neither
    way is [compute] called, the lock drawn or anything written. *)
Theorem withCache_entry_present
    (fuel : nat) (key : string) (ttlSeconds : Z)
    (compute : X -> Outcome T * X) (w : World X) (raw : string) :
  redisReady env w = true ->
  redis w !! key = Some raw ->
  raw <> ""%string ->
  withCache env randomUUID peers JSON_stringify JSON_parse
    fuel key ttlSeconds compute w
  = (match JSON_parse raw with
     | Some value => Return (value, HIT)
     | None => Throw SyntaxError
     end,
     logEvent (Redis (GET key) (ReplyBulk raw)) w).
Proof. apply withCache_present. Qed.

(** The world a call that takes the lock and computes leaves behind. *)
Lemma withCache_holder_world
    (fuel : nat) (key : string) (ttlSeconds : Z)
    (compute : X -> Outcome T * X) (w : World X) (value : T) (x' : X) :
  redisReady env w = true ->
  cacheMiss w key ->
  redis w !! (key ++ ":lock")%string = None ->
  randomUUID (uuidsDrawn w) <> ""%string ->
  compute (external w) = (Return value, x') ->
  exists w1 : World X,
    withCache env randomUUID peers JSON_stringify JSON_parse
      fuel key ttlSeconds compute w = (Return (value, MISS), w1)
    /\ redisStatusUp w1 = redisStatusUp w
    /\ redis w1
       = delete (key ++ ":lock")%string
           (<[key := JSON_stringify value]>
              (<[(key ++ ":lock")%string := randomUUID (uuidsDrawn w)]> (redis w)))
    /\ external w1 = x'.
Proof.
  intros Hready Hmiss Hfree Htoken Hcompute.
  assert (Htruthy : truthy (Some (randomUUID (uuidsDrawn w)))
                    = Some (randomUUID (uuidsDrawn w))).
  { by apply truthy_nonempty. }
  assert (Hup := Hready). unfold redisReady in Hup.
  unfold cacheMiss in Hmiss.
  unfold withCache at 1, cacheGetJson, acquireLock, redisReady, bind, redisGet.
  simpl. rewrite Hup. simpl. rewrite Hmiss. simpl.
  rewrite Hup. simpl.
  unfold redisSetPxNx. simpl. rewrite Hfree. simpl. rewrite Htruthy.
  unfold finally, bind, runCompute. simpl. rewrite Hcompute.
  unfold cacheSetJson, redisReady, redisSetEx. simpl. rewrite Hup. simpl.
  unfold catchUndefined, releaseLock, redisReady, bind, redisCompareAndDelete.
  simpl. rewrite Hup. simpl.
  rewrite lookup_insert_ne by (intros E; by apply (lockKey_ne key)).
  rewrite lookup_insert_eq. rewrite decide_True by done. simpl.
  eexists. split; [reflexivity|]. done.
Qed.

(** ** What a call writes *)

Lemma pollLoop_readOnly (key : string) (start maxWaitMs : Z) (fuel : nat) :
  forall (delay : Z) (w w' : World X) (r : Outcome (option T)),
    pollLoop env peers JSON_parse fuel key start maxWaitMs delay w = (r, w') ->
    external w' = external w
    /\ exists evs, events w' = events w ++ evs /\ Forall readOnly evs.
Proof.
  induction fuel as [|fuel IH]; intros delay w w' r; cbn [pollLoop].
  - intros [= _ <-]. split; [done|]. exists []. by rewrite app_nil_r.
  - unfold bind at 1. unfold dateNow at 1.
    destruct (clock w - start <? maxWaitMs).
    + unfold bind at 1. unfold sleep at 1.
      set (w1 := {| redisStatusUp := redisStatusUp w;
                    redis := peers (clock w + delay) (redis w);
                    clock := clock w + delay;
                    uuidsDrawn := uuidsDrawn w;
                    events := events w ++ [Sleep delay];
                    external := external w |}).
      unfold bind at 1.
      destruct (cacheGetJson env JSON_parse key w1) as [rg w2] eqn:Hget.
      assert (Hw2 : external w2 = external w
                    /\ exists evs, events w2 = events w ++ evs /\ Forall readOnly evs).
      { unfold cacheGetJson in Hget. destruct (negb (redisReady env w1)).
        - injection Hget as _ <-. split; [done|]. exists [Sleep delay].
          split; [done|]. by repeat constructor.
        - unfold bind, redisGet in Hget.
          assert (Hlog : w2 = logEvent
                           (Redis (GET key)
                              match redis w1 !! key with
                              | Some s => ReplyBulk s
                              | None => ReplyNil
                              end) w1).
          { destruct (truthy (redis w1 !! key)) as [s|];
              [destruct (JSON_parse s)|]; by injection Hget as _ <-. }
          subst w2. split; [done|]. eexists. split.
          + simpl. rewrite <- app_assoc. reflexivity.
          + by repeat constructor. }
      destruct Hw2 as (Hext2 & evs2 & Hevs2 & Hro2).
      destruct rg as [[value|]|e|].
      * intros [= _ <-]. split; [done|]. by exists evs2.
      * intros Hrest. apply IH in Hrest as (Hext & evs & Hevs & Hro).
        split; [congruence|]. exists (evs2 ++ evs). split.
        -- rewrite Hevs, Hevs2. by rewrite <- app_assoc.
        -- by apply Forall_app.
      * intros [= _ <-]. split; [done|]. by exists evs2.
      * intros [= _ <-]. split; [done|]. by exists evs2.
    + intros [= _ <-]. split; [done|]. exists []. by rewrite app_nil_r.
Qed.

Lemma bind_Return {A B} (m : M X A) (k : A -> M X B) (w w' : World X) (b : B) :
  bind m k w = (Return b, w') ->
  exists a w1, m w = (Return a, w1) /\ k a w1 = (Return b, w').
Proof.
  unfold bind. destruct (m w) as [[a| |] w1]; [|done..]. intros H. by exists a, w1.
Qed.

Lemma finally_Return {A} (m : M X A) (cleanup : M X unit) (w w' : World X) (a : A) :
  finally m cleanup w = (Return a, w') -> exists w1, m w = (Return a, w1).
Proof.
  unfold finally. destruct (m w) as [[a1| |] w1]; [| |done].
  - destruct (cleanup w1) as [[[]| |] w2]; [|done..]. intros [= -> _]. by exists w1.
  - by destruct (cleanup w1) as [[[]| |] w2].
Qed.

(** X11. Only a call that returns MISS has written anything: a call returning
    HIT, WAIT or BYPASS has sent Redis nothing but reads and a refused
    SET NX. And a call returning HIT or WAIT has not called [compute]. *)
Theorem withCache_writes_only_on_miss
    (fuel : nat) (key : string) (ttlSeconds : Z)
    (compute : X -> Outcome T * X) (w w' : World X)
    (value : T) (status : CacheStatus) :
  (forall n, randomUUID n <> ""%string) ->
  withCache env randomUUID peers JSON_stringify JSON_parse
    fuel key ttlSeconds compute w = (Return (value, status), w') ->
  (status <> MISS ->
   exists evs, events w' = events w ++ evs /\ Forall readOnly evs)
  /\ (status = HIT \/ status = WAIT -> external w' = external w).
Proof.
  intros Huuid. unfold withCache. destruct (redisReady env w) eqn:Hready; cbn [negb].
  - intros Hrun. apply bind_Return in Hrun as (first & w1 & Hget & Hrun).
    assert (Hw1 : w1 = logEvent (Redis (GET key) (getReply w key)) w).
    { unfold cacheGetJson in Hget. rewrite Hready in Hget. cbn [negb] in Hget.
      unfold bind, redisGet in Hget. unfold getReply.
      destruct (truthy (redis w !! key)) as [s|];
        [destruct (JSON_parse s)|]; by injection Hget as _ <-. }
    destruct first as [hit|].
    + injection Hrun as <- <- <-. subst w1. split; [|done]. intros _.
      exists [Redis (GET key) (getReply w key)]. split; [done|].
      by repeat constructor.
    + apply bind_Return in Hrun as (lockValue & w2 & Hlock & Hrun).
      unfold acquireLock in Hlock.
      assert (Hready1 : redisReady env w1 = true) by by subst w1.
      rewrite Hready1 in Hlock. cbn [negb] in Hlock.
      unfold bind, redisSetPxNx in Hlock. cbn [redis] in Hlock.
      destruct (redis w1 !! (key ++ ":lock")%string) eqn:Hheld; cbn [ret] in Hlock.
      * injection Hlock as <- <-.
        change (truthy None) with (@None string) in Hrun. cbv beta iota in Hrun.
        apply bind_Return in Hrun as (start & w3 & Hnow & Hrun).
        injection Hnow as <- <-.
        apply bind_Return in Hrun as (polled & w4 & Hpoll & Hrun).
        apply pollLoop_readOnly in Hpoll as (Hext & evs & Hevs & Hro).
        assert (Hall : exists evs', events w4 = events w ++ evs' /\ Forall readOnly evs').
        { exists ([Redis (GET key) (getReply w key);
                   Redis (SET_PX_NX (key ++ ":lock") (randomUUID (uuidsDrawn w1))
                            (CACHE_LOCK_TTL_MS env)) ReplyNil] ++ evs).
          split.
          - rewrite Hevs. subst w1. simpl. by rewrite <- !app_assoc.
          - apply Forall_app. split; [|done]. by repeat constructor. }
        destruct polled as [found|].
        -- injection Hrun as <- <- <-. split; [done|]. intros _.
           rewrite Hext. by subst w1.
        -- apply bind_Return in Hrun as (computed & w5 & Hcompute & Hrun).
           injection Hrun as <- <- <-. split; [|by intros [|]].
           intros _. unfold runCompute in Hcompute.
           destruct (compute (external w4)) as [rc x]. by injection Hcompute as _ <-.
      * injection Hlock as <- <-.
        rewrite (truthy_nonempty _ (Huuid _)) in Hrun.
        apply finally_Return in Hrun as (w3 & Hrun).
        apply bind_Return in Hrun as (computed & w4 & _ & Hrun).
        apply bind_Return in Hrun as ([] & w5 & _ & Hrun).
        injection Hrun as _ <- _. split; [done|]. by intros [|].
  - intros Hrun. apply bind_Return in Hrun as (computed & w1 & Hcompute & Hrun).
    injection Hrun as <- <- <-. split; [|by intros [|]].
    intros _. exists []. rewrite app_nil_r. split; [|constructor].
    unfold runCompute in Hcompute.
    destruct (compute (external w)) as [rc x]. by injection Hcompute as _ <-.
Qed.

(** ** What a call can throw *)

Lemma cacheGetJson_throws (key : string) (w w' : World X) (e : Exn) :
  cacheGetJson env JSON_parse key w = (Throw e, w') -> e = SyntaxError.
Proof.
  unfold cacheGetJson. destruct (negb (redisReady env w)); [done|].
  unfold bind, redisGet, ret, throw.
  destruct (truthy (redis w !! key)) as [s|]; [|done].
  destruct (JSON_parse s); [done|]. by intros [= <- _].
Qed.

Lemma pollLoop_throws (key : string) (start maxWaitMs : Z) (fuel : nat) :
  forall (delay : Z) (w w' : World X) (e : Exn),
    pollLoop env peers JSON_parse fuel key start maxWaitMs delay w = (Throw e, w') ->
    e = SyntaxError.
Proof.
  induction fuel as [|fuel IH]; intros delay w w' e; [done|].
  cbn [pollLoop]. unfold bind at 1, dateNow at 1.
  destruct (clock w - start <? maxWaitMs); [|done].
  unfold bind at 1, sleep at 1. unfold bind at 1.
  match goal with
  | |- context [cacheGetJson env JSON_parse key ?w1] =>
      destruct (cacheGetJson env JSON_parse key w1) as [[[value|]|e1|] w2] eqn:Hget
  end.
  - done.
  - apply IH.
  - intros [= <- _]. by eapply cacheGetJson_throws.
  - done.
Qed.

Lemma catchUndefined_throws (m : M X unit) (w w' : World X) (e : Exn) :
  catchUndefined m w = (Throw e, w') -> False.
Proof. unfold catchUndefined. by destruct (m w) as [[[]|e1|] w1]. Qed.

Lemma acquireLock_throws (lockKey : string) (ttlMs : Z) (w w' : World X) (e : Exn) :
  acquireLock env randomUUID lockKey ttlMs w = (Throw e, w') -> False.
Proof.
  unfold acquireLock. destruct (negb (redisReady env w)); [done|].
  unfold bind, redisSetPxNx, ret. cbn [redis].
  by destruct (redis w !! lockKey).
Qed.

Lemma runCompute_outcome (compute : X -> Outcome T * X) (w w' : World X)
    (r : Outcome T) :
  runCompute compute w = (r, w') -> r = fst (compute (external w)).
Proof.
  unfold runCompute. destruct (compute (external w)) as [r1 x1]. by intros [= <- _].
Qed.

(** An error out of [withCache] is the SyntaxError of a cached text that is
    not JSON, or an error [compute] has thrown. *)
Lemma withCache_throws (fuel : nat) (key : string) (ttlSeconds : Z)
    (compute : X -> Outcome T * X) (w w' : World X) (e : Exn) :
  withCache env randomUUID peers JSON_stringify JSON_parse
    fuel key ttlSeconds compute w = (Throw e, w') ->
  e = SyntaxError \/ exists x, fst (compute x) = Throw e.
Proof.
  unfold withCache. destruct (negb (redisReady env w)).
  { unfold bind at 1.
    destruct (runCompute compute w) as [[value|e1|] w1] eqn:Hrun; [done| |done].
    intros [= <- _]. right. exists (external w).
    by rewrite <- (runCompute_outcome _ _ _ _ Hrun). }
  unfold bind at 1.
  destruct (cacheGetJson env JSON_parse key w) as [[[value|]|e1|] w1] eqn:Hget;
    [done| |intros [= <- _]; left; by eapply cacheGetJson_throws|done].
  unfold bind at 1.
  destruct (acquireLock env randomUUID (key ++ ":lock") (CACHE_LOCK_TTL_MS env) w1)
    as [[lockValue|e2|] w2] eqn:Hlock;
    [|by apply acquireLock_throws in Hlock|done].
  destruct (truthy lockValue) as [token|].
  - unfold finally.
    match goal with
    | |- context [bind (runCompute compute) ?k w2] =>
        destruct (bind (runCompute compute) k w2) as [[value|e3|] w3] eqn:Hbody
    end; [| |done].
    + destruct (catchUndefined (releaseLock env (key ++ ":lock") token) w3)
        as [[[]|e4|] w4] eqn:Hrelease; [done| |done].
      by apply catchUndefined_throws in Hrelease.
    + assert (exists x, fst (compute x) = Throw e3) as Hthrown.
      { unfold bind at 1 in Hbody.
        destruct (runCompute compute w2) as [[value|e5|] w5] eqn:Hrun.
        - unfold bind at 1 in Hbody. unfold cacheSetJson in Hbody.
          destruct (negb (redisReady env w5)); [done|].
          by unfold redisSetEx in Hbody.
        - injection Hbody as <- _. exists (external w2).
          by rewrite <- (runCompute_outcome _ _ _ _ Hrun).
        - done. }
      destruct (catchUndefined (releaseLock env (key ++ ":lock") token) w3)
        as [[[]|e4|] w4] eqn:Hrelease; [|by apply catchUndefined_throws in Hrelease|done].
      intros [= <- _]. by right.
  - unfold bind at 1, dateNow at 1. unfold bind at 1.
    match goal with
    | |- context [pollLoop env peers JSON_parse fuel key ?a ?b ?c w2] =>
        destruct (pollLoop env peers JSON_parse fuel key a b c w2)
          as [[[value|]|e6|] w6] eqn:Hpoll
    end; [done| |intros [= <- _]; left; by eapply pollLoop_throws|done].
    unfold bind at 1.
    destruct (runCompute compute w6) as [[value|e7|] w7] eqn:Hrun; [done| |done].
    intros [= <- _]. right. exists (external w6).
    by rewrite <- (runCompute_outcome _ _ _ _ Hrun).
Qed.

End Facts.

(** ** On the example process *)

Definition exampleKey : string := "products:list:v1:abc".

Definition cachedStore : gmap string string := {[ exampleKey := "page"%string ]}.

Definition pageCompute (x : unit) : Outcome string * unit := (Return "page"%string, x).

Lemma cacheSetJson_then_cacheGetJson_witness :
  if redisReady defaultEnv (worldWith ∅) then
    exists w1 w2 : World unit,
      cacheSetJson defaultEnv (fun s => s) exampleKey "page"%string 30 (worldWith ∅)
      = (Return tt, w1)
      /\ cacheGetJson defaultEnv Some exampleKey w1 = (Return (Some "page"%string), w2)
      /\ redis w2 = <[exampleKey := "page"%string]> (redis (worldWith ∅))
      /\ external w2 = external (worldWith ∅)
  else
    cacheSetJson defaultEnv (fun s => s) exampleKey "page"%string 30 (worldWith ∅)
    = (Return tt, worldWith ∅)
    /\ cacheGetJson defaultEnv Some exampleKey (worldWith ∅) = (Return None, worldWith ∅).
Proof.
  refine (cacheSetJson_then_cacheGetJson defaultEnv (fun s => s) Some
            exampleKey "page"%string 30 (worldWith ∅) _ _).
  - discriminate.
  - reflexivity.
Defined.

Lemma acquireLock_excludes_until_released_witness :
  exists w1 : World unit,
    acquireLock defaultEnv uuidExample "k:lock" 2000 (worldWith ∅)
    = (Return (Some (uuidExample 0)), w1)
    /\ redis w1 = <["k:lock"%string := uuidExample 0]> (redis (worldWith ∅))
    /\ forall w2 : World unit,
         redisReady defaultEnv w2 = true ->
         redis w2 !! "k:lock"%string = Some (uuidExample 0) ->
         (forall ttlMs', exists w3,
            acquireLock defaultEnv uuidExample "k:lock" ttlMs' w2 = (Return None, w3)
            /\ redis w3 = redis w2)
         /\ (forall other, other <> uuidExample 0 -> exists w3,
               releaseLock defaultEnv "k:lock" other w2 = (Return tt, w3)
               /\ redis w3 = redis w2)
         /\ (exists w3,
               releaseLock defaultEnv "k:lock" (uuidExample 0) w2 = (Return tt, w3)
               /\ redis w3 = delete "k:lock"%string (redis w2)).
Proof.
  refine (acquireLock_excludes_until_released defaultEnv uuidExample
            "k:lock" 2000 (worldWith ∅) _ _).
  - reflexivity.
  - reflexivity.
Defined.

Lemma withCache_entry_present_witness :
  withCacheExample 7 pageCompute (worldWith cachedStore)
  = (Return ("page"%string, HIT),
     logEvent (Redis (GET exampleKey) (ReplyBulk "page")) (worldWith cachedStore)).
Proof.
  refine (withCache_entry_present defaultEnv uuidExample noPeers (fun s => s) Some
            7 exampleKey 30 pageCompute (worldWith cachedStore) "page" _ _ _).
  - reflexivity.
  - reflexivity.
  - discriminate.
Defined.

Lemma withCache_writes_only_on_miss_witness :
  (BYPASS <> MISS ->
   exists evs,
     events (snd (withCacheExample 7 pageCompute (worldWith lockedStore)))
     = events (worldWith lockedStore) ++ evs
     /\ Forall readOnly evs)
  /\ (BYPASS = HIT \/ BYPASS = WAIT ->
      external (snd (withCacheExample 7 pageCompute (worldWith lockedStore)))
      = external (worldWith lockedStore)).
Proof.
  refine (withCache_writes_only_on_miss defaultEnv uuidExample noPeers (fun s => s) Some
            7 exampleKey 30 pageCompute (worldWith lockedStore)
            (snd (withCacheExample 7 pageCompute (worldWith lockedStore)))
            "page"%string BYPASS _ _).
  - intros n. discriminate.
  - vm_compute. reflexivity.
Defined.

End CacheFacts.

(** * More on src/services/productsCache.ts *)

Module ProductsCacheFacts.

Import StableStringify ProductsCache.

(** ** The key spaces *)

Lemma listKey_not_version (version hash : string) :
  ("products:list:v" ++ version ++ ":" ++ hash)%string <> VERSION_KEY.
Proof. discriminate. Qed.

Lemma listLock_not_version (version hash : string) :
  (("products:list:v" ++ version ++ ":" ++ hash) ++ ":lock")%string <> VERSION_KEY.
Proof. discriminate. Qed.

Lemma statsKey_not_version (version hash : string) :
  ("products:stats:v" ++ version ++ ":" ++ hash)%string <> VERSION_KEY.
Proof. discriminate. Qed.

Section Facts.

Context {X : Type}.
Variable env : Env.
Variable toISOString : Z -> string.
Variable JSON_stringify : JsValue -> string.
Variable sha1Hex : string -> string.

Local Abbreviation getVersion := (getVersion (X := X) env).
Local Abbreviation step := (step (X := X) env toISOString JSON_stringify sha1Hex).
Local Abbreviation run := (run (X := X) env toISOString JSON_stringify sha1Hex).
Local Abbreviation hashKey := (hashKey toISOString JSON_stringify sha1Hex).

(** The version [getVersion] answers with: the stored text, ['1'] when the
    counter is not there yet. *)
Definition currentVersion (w : World X) : string :=
  default "1"%string (redis w !! VERSION_KEY).

(** The key of an operation under the version text [version]. *)
Definition keyUnder (op : Operation) (version : string) : option string :=
  match op with
  | ListCacheKey input =>
      Some ("products:list:v" ++ version ++ ":" ++ hashKey input)%string
  | StatsCacheKey input =>
      Some ("products:stats:v" ++ version ++ ":" ++ hashKey input)%string
  | _ => None
  end.

Lemma getVersion_current (w : World X) :
  canUseCache env w = true ->
  exists w' : World X,
    getVersion w = (Return (Some (currentVersion w)), w')
    /\ redis w' = <[VERSION_KEY := currentVersion w]> (redis w)
    /\ redisStatusUp w' = redisStatusUp w
    /\ external w' = external w
    /\ clock w' = clock w
    /\ uuidsDrawn w' = uuidsDrawn w
    /\ exists evs, events w' = events w ++ evs /\ length evs = 2%nat.
Proof.
  intros Huse. unfold ProductsCache.getVersion. rewrite Huse. cbn [negb].
  unfold bind, redisSetNx, redisGet, ret, currentVersion.
  destruct (redis w !! VERSION_KEY) as [s|] eqn:E; simpl.
  - rewrite E. simpl. eexists. split; [reflexivity|]. simpl.
    split; [by rewrite insert_id|]. repeat split.
    eexists. split; [by rewrite <- app_assoc|done].
  - rewrite lookup_insert_eq. simpl. eexists. split; [reflexivity|]. simpl.
    repeat split. eexists. split; [by rewrite <- app_assoc|done].
Qed.

Lemma currentVersion_insert (w w' : World X) :
  redis w' = <[VERSION_KEY := currentVersion w]> (redis w) ->
  currentVersion w' = currentVersion w.
Proof. intros H. unfold currentVersion at 1. by rewrite H, lookup_insert_eq. Qed.

Lemma step_without_bump (op : Operation) (w w' : World X) (r : Outcome (option string)) :
  op <> BumpVersion ->
  step op w = (r, w') ->
  currentVersion w' = currentVersion w
  /\ forall k, r = Return (Some k) -> keyUnder op (currentVersion w) = Some k.
Proof.
  intros Hop. destruct op as [input|input| |up]; [| |done|]; simpl.
  - unfold getProductsListCacheKey, bind.
    destruct (canUseCache env w) eqn:Huse.
    + destruct (getVersion_current w Huse) as (w1 & -> & Hredis & _).
      apply currentVersion_insert in Hredis.
      destruct (truthy (Some (currentVersion w))) as [s|] eqn:Ht.
      * assert (s = currentVersion w) as ->
          by (destruct (currentVersion w); by inversion Ht).
        intros [= <- <-]. split; [done|]. by intros k [= <-].
      * intros [= <- <-]. split; [done|]. by intros k.
    + rewrite (getVersion_unusable env w Huse). intros [= <- <-]. split; [done|].
      by intros k.
  - unfold getProductsStatsCacheKey, bind.
    destruct (canUseCache env w) eqn:Huse.
    + destruct (getVersion_current w Huse) as (w1 & -> & Hredis & _).
      apply currentVersion_insert in Hredis.
      destruct (truthy (Some (currentVersion w))) as [s|] eqn:Ht.
      * assert (s = currentVersion w) as ->
          by (destruct (currentVersion w); by inversion Ht).
        intros [= <- <-]. split; [done|]. by intros k [= <-].
      * intros [= <- <-]. split; [done|]. by intros k.
    + rewrite (getVersion_unusable env w Huse). intros [= <- <-]. split; [done|].
      by intros k.
  - intros [= <- <-]. split; [done|]. by intros k.
Qed.

(** X12. Between two bumps the keys stand still: over any run of key
    computations and of the Redis client going down and coming back, with
    no bump in it, every key produced for an operation is the key under the
    version the run started with, so the same input always gets the same
    key. *)
Theorem keys_stable_without_bump
    (ops : list Operation) (w w' : World X)
    (log : list (Operation * Outcome (option string))) :
  Forall (fun op => op <> BumpVersion) ops ->
  run ops w = (log, w') ->
  currentVersion w' = currentVersion w
  /\ forall op k0 k1,
       (op, Return (Some k0)) ∈ log -> (op, Return (Some k1)) ∈ log ->
       keyUnder op (currentVersion w) = Some k0 /\ k0 = k1.
Proof.
  intros Hops Hrun.
  assert (Hall : currentVersion w' = currentVersion w
                 /\ forall op k, (op, Return (Some k)) ∈ log ->
                                 keyUnder op (currentVersion w) = Some k).
  { revert w w' log Hrun.
    induction Hops as [|op ops Hop _ IH]; intros w w' log; simpl.
    - intros [= <- <-]. split; [done|]. by intros op k ?%elem_of_nil.
    - destruct (ProductsCache.step env toISOString JSON_stringify sha1Hex op w)
        as [r w1] eqn:Hstep.
      destruct (ProductsCache.run env toISOString JSON_stringify sha1Hex ops w1)
        as [log1 w2] eqn:Hrest.
      intros [= <- <-].
      destruct (step_without_bump op w w1 r Hop Hstep) as [Hv1 Hk1].
      destruct (IH w1 w2 log1 Hrest) as [Hv2 Hk2].
      split; [congruence|].
      intros op' k [[= -> <-]|Hin]%elem_of_cons; [by apply Hk1|].
      rewrite <- Hv1. by apply Hk2. }
  destruct Hall as [Hv Hk]. split; [done|].
  intros op k0 k1 H0 H1. split; [by apply Hk|].
  apply Hk in H0, H1. congruence.
Qed.

End Facts.

(** ** On the example runtime *)

Lemma keys_stable_without_bump_witness :
  let ops := [ListCacheKey objectAB; RedisStatus false; ListCacheKey objectAB;
              RedisStatus true; StatsCacheKey one; ListCacheKey objectBA] in
  let result := runExample ops (Cache.worldWith ∅) in
  currentVersion (snd result) = currentVersion (Cache.worldWith ∅)
  /\ forall op k0 k1,
       (op, Return (Some k0)) ∈ fst result -> (op, Return (Some k1)) ∈ fst result ->
       keyUnder showInt renderExample (fun s => s) op
         (currentVersion (Cache.worldWith ∅)) = Some k0
       /\ k0 = k1.
Proof.
  intros ops result.
  refine (keys_stable_without_bump Cache.defaultEnv showInt renderExample (fun s => s)
            ops (Cache.worldWith ∅) (snd result) (fst result) _ _).
  - repeat constructor; discriminate.
  - by vm_compute.
Defined.

End ProductsCacheFacts.

(** * src/controllers/cacheAdminController.ts *)

Module CacheAdminController.

Import ProductsCache.

Inductive NodeEnv := Development | Test | Production.

(** The configuration the controller reads, over that of the cache. *)
Record AdminEnv := {
  cacheEnv : Env;
  CACHE_ADMIN_ENABLED : bool;
  NODE_ENV : NodeEnv
}.

Record AdminResponse := {
  httpStatus : Z;
  body : JsValue
}.

Definition errorBody (text : string) : JsValue :=
  JObject [("error"%string, JObject [("message"%string, JString text)])].

Definition invalidateProductsCacheController {X} (env : AdminEnv) : M X AdminResponse :=
  fun w =>
    if negb (CACHE_ADMIN_ENABLED env) then
      (Return {| httpStatus := 404; body := errorBody "Cache admin disabled" |}, w)
    else
      match NODE_ENV env with
      | Production =>
          (Return {| httpStatus := 403; body := errorBody "Not allowed in production" |},
           w)
      | _ =>
          (let* _ := bumpProductsCacheVersion (cacheEnv env) in
           ret {| httpStatus := 200; body := JObject [("ok"%string, JBool true)] |}) w
      end.

(** X13. What a call of the invalidation endpoint can have done. A response other
    than 200 (404 when the admin switch is off, else 403 in production)
    leaves the world as it was. A 200 with the cache usable means the
    counter went up by exactly one through one INCR, every other key being
    left alone; a 200 with the cache not usable means nothing was done. The
    only error is the reply of an INCR that Redis refuses, and then the
    store is as it was. *)
Theorem invalidateProductsCacheController_outcomes {X} (env : AdminEnv) (w : World X) :
  match invalidateProductsCacheController env w with
  | (Return response, w') =>
      (httpStatus response = 404
       /\ CACHE_ADMIN_ENABLED env = false /\ w' = w)
      \/ (httpStatus response = 403
          /\ CACHE_ADMIN_ENABLED env = true /\ NODE_ENV env = Production /\ w' = w)
      \/ (httpStatus response = 200
          /\ CACHE_ADMIN_ENABLED env = true /\ NODE_ENV env <> Production
          /\ if canUseCache (cacheEnv env) w then
               storedVersion w' = storedVersion w + 1
               /\ events w'
                  = events w ++ [Redis (INCR VERSION_KEY) (ReplyInteger (storedVersion w'))]
               /\ forall key, key <> VERSION_KEY -> redis w' !! key = redis w !! key
             else w' = w)
  | (Throw e, w') =>
      e = ReplyError
      /\ CACHE_ADMIN_ENABLED env = true /\ NODE_ENV env <> Production
      /\ canUseCache (cacheEnv env) w = true
      /\ redis w' = redis w
      /\ events w' = events w ++ [Redis (INCR VERSION_KEY) ReplyErr]
  | (Diverged, _) => False
  end.
Proof.
  unfold invalidateProductsCacheController.
  destruct (CACHE_ADMIN_ENABLED env) eqn:Hadmin; cbn [negb]; [|by left].
  assert (Hallowed :
    match (let* _ := bumpProductsCacheVersion (cacheEnv env) in
           ret {| httpStatus := 200; body := JObject [("ok"%string, JBool true)] |}) w with
    | (Return response, w') =>
        httpStatus response = 200
        /\ if canUseCache (cacheEnv env) w then
             storedVersion w' = storedVersion w + 1
             /\ events w'
                = events w ++ [Redis (INCR VERSION_KEY) (ReplyInteger (storedVersion w'))]
             /\ forall key, key <> VERSION_KEY -> redis w' !! key = redis w !! key
           else w' = w
    | (Throw e, w') =>
        e = ReplyError /\ canUseCache (cacheEnv env) w = true
        /\ redis w' = redis w
        /\ events w' = events w ++ [Redis (INCR VERSION_KEY) ReplyErr]
    | (Diverged, _) => False
    end).
  { unfold bind. destruct (canUseCache (cacheEnv env) w) eqn:Huse.
    - destruct (bump_usable (cacheEnv env) w Huse) as [(n & -> & Hlo & Hhi & Hn)| ->].
      + cbn [ret]. split; [done|].
        assert (Hread : readInt (showInt (n + 1)) = Some (n + 1))
          by (apply readInt_showInt; lia).
        assert (Hnew : storedVersion
                         (logEvent (Redis (INCR VERSION_KEY) (ReplyInteger (n + 1)))
                            (setRedis (<[VERSION_KEY := showInt (n + 1)]> (redis w)) w))
                       = n + 1).
        { unfold storedVersion. simpl. by rewrite lookup_insert_eq, Hread. }
        rewrite Hnew. split; [|split].
        * unfold storedVersion.
          destruct (redis w !! VERSION_KEY) as [s|]; [by rewrite Hn|by subst].
        * done.
        * intros key Hkey. simpl. by rewrite lookup_insert_ne.
      + done.
    - unfold bumpProductsCacheVersion. rewrite Huse. cbn [negb ret]. done. }
  destruct (NODE_ENV env) eqn:Hnode.
  - destruct ((let* _ := _ in _) w) as [[response| e|] w']; [| |done].
    + right. right. by destruct Hallowed.
    + by destruct Hallowed as (-> & ? & ? & ?).
  - destruct ((let* _ := _ in _) w) as [[response| e|] w']; [| |done].
    + right. right. by destruct Hallowed.
    + by destruct Hallowed as (-> & ? & ? & ?).
  - right. left. done.
Qed.

End CacheAdminController.

(** * More on src/services/externalApiA.ts and utils/withRetry.ts *)

Module ExternalApiAFacts.

Import ExternalApiA.

(** What [getExternalAHealth] returns. *)
Record Health := {
  enabled : bool;
  state : CircuitState;
  failures : Z;
  cooldownRemainingMs : Z;
  hasFallbackCache : bool
}.

Section Facts.

Variable env : BreakerEnv.
Variable network : nat -> string + JsValue.
Variable latency : nat -> Z.
Variable jitter : nat -> Z.

Local Abbreviation fetchExternalApiA := (fetchExternalApiA env network latency jitter).
Local Abbreviation withRetry := (withRetry env network latency jitter).
Local Abbreviation retryLoop := (retryLoop env network latency jitter).
Local Abbreviation reachable := (reachable env network latency jitter).

(** [breakerState === 'open' && openedAtMs ? ... : 0]: an [openedAtMs] of
    [null] or 0 is falsy. *)
Definition getExternalAHealth (s : State) : Health :=
  {| enabled := EXTERNAL_A_ENABLED env;
     state := breakerState s;
     failures := consecutiveFailures s;
     cooldownRemainingMs :=
       match breakerState s, openedAtMs s with
       | Open, Some opened =>
           if opened =? 0 then 0
           else Z.max 0 (EXTERNAL_A_BREAKER_COOLDOWN_MS env - (nowMs s - opened))
       | _, _ => 0
       end;
     hasFallbackCache :=
       match lastSuccessData s with
       | JNull => false
       | _ => true
       end |}.

(** ** One call, whatever the configuration *)

Lemma maybeToHalfOpen_same (s : State) :
  consecutiveFailures (maybeToHalfOpen env s) = consecutiveFailures s
  /\ openedAtMs (maybeToHalfOpen env s) = openedAtMs s
  /\ lastSuccessData (maybeToHalfOpen env s) = lastSuccessData s
  /\ clock (maybeToHalfOpen env s) = clock s
  /\ requests (maybeToHalfOpen env s) = requests s.
Proof.
  unfold maybeToHalfOpen. destruct (breakerState s); try done.
  by destruct (isBreakerOpen env s).
Qed.

Lemma recordFailure_same (s : State) :
  lastSuccessData (recordFailure env s) = lastSuccessData s
  /\ clock (recordFailure env s) = clock s
  /\ requests (recordFailure env s) = requests s
  /\ (openedAtMs (recordFailure env s) = Some (clock s)
      \/ openedAtMs (recordFailure env s) = openedAtMs s).
Proof.
  unfold recordFailure. simpl.
  destruct (EXTERNAL_A_BREAKER_FAILURE_THRESHOLD env <=? consecutiveFailures s + 1);
    simpl; auto.
Qed.

Lemma fetch_effect (s s' : State) (r : ExternalAResult) :
  fetchExternalApiA s = (r, s') ->
  clock s <= clock s'
  /\ (openedAtMs s' = None \/ openedAtMs s' = Some (clock s')
      \/ openedAtMs s' = openedAtMs s)
  /\ match r with
     | Live data => lastSuccessData s' = data /\ breakerState s' = Closed
     | Fallback data reason => lastSuccessData s' = lastSuccessData s
     end.
Proof.
  unfold ExternalApiA.fetchExternalApiA.
  destruct (EXTERNAL_A_ENABLED env); cbn [negb].
  2: { intros [= <- <-]. split; [lia|]. auto. }
  destruct (maybeToHalfOpen_same s) as (_ & Ho & Hd & Hc & _).
  destruct (isBreakerOpen env (maybeToHalfOpen env s)).
  { intros [= <- <-]. split; [lia|]. auto. }
  destruct (ExternalApiA.withRetry env network latency jitter (maybeToHalfOpen env s))
    as [[err|data] s2] eqn:Hretry;
    apply withRetry_sameBreaker in Hretry as (_ & _ & Ho2 & Hd2 & Hc2 & _);
    intros [= <- <-].
  - destruct (recordFailure_same s2) as (Hd3 & Hc3 & _ & Ho3).
    split; [lia|]. split; [|congruence].
    destruct Ho3 as [Ho3|Ho3]; [right; left; congruence|right; right; congruence].
  - simpl. split; [lia|]. auto.
Qed.

Hypothesis enabled_true : EXTERNAL_A_ENABLED env = true.
Hypothesis threshold_positive : 0 < EXTERNAL_A_BREAKER_FAILURE_THRESHOLD env.
Hypothesis retries_nonnegative : 0 <= EXTERNAL_A_RETRIES env.

(** ** Between calls *)

(** The breaker as it stands when no call is under way. *)
Definition settled (s : State) : Prop :=
  match breakerState s with
  | Closed =>
      0 <= consecutiveFailures s < EXTERNAL_A_BREAKER_FAILURE_THRESHOLD env
      /\ openedAtMs s = None
  | Open =>
      EXTERNAL_A_BREAKER_FAILURE_THRESHOLD env <= consecutiveFailures s
      /\ exists opened, openedAtMs s = Some opened /\ 0 < opened <= clock s
  | HalfOpen => False
  end.

Lemma maybeToHalfOpen_closed (s : State) :
  breakerState (maybeToHalfOpen env s) = Closed -> breakerState s = Closed.
Proof.
  unfold maybeToHalfOpen. destruct (breakerState s) eqn:E; [done| |congruence].
  destruct (isBreakerOpen env s); simpl; congruence.
Qed.

Lemma reachable_opened (s : State) :
  reachable s ->
  (breakerState s = Closed -> openedAtMs s = None)
  /\ forall opened, openedAtMs s = Some opened -> opened <= clock s.
Proof using enabled_true.
  induction 1 as [now Hnow|s ms Hreach IH|s s' r Hreach IH Hcall].
  - done.
  - destruct IH as [Hclosed Hle]. split; [done|].
    intros opened Ho. simpl in *. specialize (Hle opened Ho). lia.
  - destruct IH as [Hclosed Hle]. revert Hcall.
    unfold ExternalApiA.fetchExternalApiA. rewrite enabled_true. cbn [negb].
    destruct (maybeToHalfOpen_same s) as (_ & Ho1 & _ & Hc1 & _).
    pose proof (maybeToHalfOpen_closed s) as Hst1.
    destruct (isBreakerOpen env (maybeToHalfOpen env s)) eqn:Hopen.
    { intros [= _ <-]. split.
      - intros Hc. unfold isBreakerOpen in Hopen. by rewrite Hc in Hopen.
      - intros opened. rewrite Ho1, Hc1. apply Hle. }
    destruct (ExternalApiA.withRetry env network latency jitter (maybeToHalfOpen env s))
      as [[err|data] s2] eqn:Hretry;
      apply withRetry_sameBreaker in Hretry as (Hst2 & _ & Ho2 & _ & Hc2 & _);
      intros [= _ <-]; [|done].
    unfold recordFailure. simpl.
    destruct (EXTERNAL_A_BREAKER_FAILURE_THRESHOLD env <=? consecutiveFailures s2 + 1);
      simpl.
    + split; [done|]. intros opened [= <-]. unfold nowMs. simpl. lia.
    + split.
      * intros Hc. rewrite Ho2, Ho1. apply Hclosed, Hst1. congruence.
      * intros opened. rewrite Ho2, Ho1. intros Ho. specialize (Hle opened Ho). lia.
Qed.

Lemma reachable_settled (s : State) : reachable s -> settled s.
Proof using enabled_true threshold_positive retries_nonnegative.
  intros Hreach.
  pose proof (reachable_inv env network latency jitter enabled_true
                threshold_positive retries_nonnegative s Hreach) as [_ Hinv].
  destruct (reachable_opened s Hreach) as [Hclosed Hle].
  unfold settled. destruct (breakerState s); [| |done].
  - split; [done|]. by apply Hclosed.
  - destruct Hinv as (Hth & opened & Ho & Hpos). split; [done|].
    exists opened. split; [done|]. split; [done|]. by apply Hle.
Qed.

(** X14. When no call is under way the breaker is closed or open, never
    half-open; it is closed exactly when fewer than [failureThreshold]
    consecutive failures are on record, and then no opening time is kept;
    when it is open the opening time is a past instant. *)
Theorem breaker_settled_between_calls (s : State) :
  reachable s ->
  breakerState s <> HalfOpen
  /\ 0 <= consecutiveFailures s
  /\ (breakerState s = Closed
      <-> consecutiveFailures s < EXTERNAL_A_BREAKER_FAILURE_THRESHOLD env)
  /\ (breakerState s = Closed -> openedAtMs s = None)
  /\ (breakerState s = Open ->
      exists opened, openedAtMs s = Some opened /\ 0 < opened <= clock s).
Proof using enabled_true threshold_positive retries_nonnegative.
  intros Hreach. pose proof (reachable_settled s Hreach) as Hs. unfold settled in Hs.
  destruct (breakerState s); [| |done].
  - destruct Hs as [Hf Ho]. repeat split; try done; lia.
  - destruct Hs as [Hf Ho]. repeat split; try done; lia.
Qed.

(** X15. [getExternalAHealth] tells what the next call will do. The remaining
    cooldown it reports lies between 0 and the configured cooldown; while it
    is positive a call answers from the fallback with reason [circuit_open]
    and sends nothing; once it is 0 a call goes to the dependency. The state
    reported is never half-open, and when no fallback is reported as cached
    every fallback answer is a placeholder message. *)
Theorem getExternalAHealth_foretells_call (s : State) :
  0 <= EXTERNAL_A_BREAKER_COOLDOWN_MS env ->
  reachable s ->
  let health := getExternalAHealth s in
  0 <= cooldownRemainingMs health <= EXTERNAL_A_BREAKER_COOLDOWN_MS env
  /\ state health <> HalfOpen
  /\ (state health = Closed -> cooldownRemainingMs health = 0)
  /\ (0 < cooldownRemainingMs health ->
      fetchExternalApiA s
      = (Fallback
           (nullish (lastSuccessData s)
              (message "External API A temporarily unavailable"))
           "circuit_open", s))
  /\ (cooldownRemainingMs health = 0 ->
      forall r s', fetchExternalApiA s = (r, s') -> (requests s < requests s')%nat)
  /\ (hasFallbackCache health = false ->
      forall data reason s',
        fetchExternalApiA s = (Fallback data reason, s') ->
        exists text, data = message text).
Proof using enabled_true threshold_positive retries_nonnegative.
  intros Hcd Hreach health.
  pose proof (reachable_settled s Hreach) as Hs.
  pose proof (reachable_inv env network latency jitter enabled_true
                threshold_positive retries_nonnegative s Hreach) as Hinv.
  subst health. unfold getExternalAHealth, settled in *. cbn.
  split; [|split; [|split; [|split; [|split]]]].
  - destruct (breakerState s); [lia| |lia].
    destruct Hs as (_ & opened & -> & Hpos & Hle).
    destruct (opened =? 0); unfold nowMs; lia.
  - by destruct (breakerState s).
  - by intros ->.
  - destruct (breakerState s) eqn:Hst; [lia| |lia].
    destruct Hs as (_ & opened & Ho & Hpos & Hle). rewrite Ho.
    destruct (opened =? 0) eqn:E; [lia|]. unfold nowMs. intros Hrem.
    apply (call_open_cooling env network latency jitter enabled_true s opened);
      [done|done|lia].
  - destruct (breakerState s) eqn:Hst; [| |done].
    + intros _ r s' Hcall.
      by apply (call_closed env network latency jitter enabled_true
                  threshold_positive retries_nonnegative s s' r Hinv Hst) in Hcall
        as (? & _).
    + destruct Hs as (_ & opened & Ho & Hpos & Hle). rewrite Ho.
      destruct (opened =? 0) eqn:E; [apply Z.eqb_eq in E; lia|].
      unfold nowMs. intros Hrem r s' Hcall.
      apply (call_open_cooled env network latency jitter enabled_true
               threshold_positive retries_nonnegative s s' opened r Hinv Hst Ho)
        in Hcall as (_ & ? & _); [done|lia].
  - destruct (lastSuccessData s) eqn:Hdata; try done. intros _ data reason s'.
    unfold ExternalApiA.fetchExternalApiA. rewrite enabled_true. cbn [negb].
    destruct (maybeToHalfOpen_same s) as (_ & _ & Hd1 & _).
    destruct (isBreakerOpen env (maybeToHalfOpen env s)).
    { intros [= <- _ _]. rewrite Hd1, Hdata. by eexists. }
    destruct (ExternalApiA.withRetry env network latency jitter (maybeToHalfOpen env s))
      as [[err|good] s2] eqn:Hretry;
      apply withRetry_sameBreaker in Hretry as (_ & _ & _ & Hd2 & _);
      intros [= <- _ _].
    destruct (recordFailure_same s2) as (Hd3 & _).
    rewrite Hd3, Hd2, Hd1, Hdata. by eexists.
Qed.

(** ** The attempts of one call *)

Lemma retryLoop_attempts (remaining : nat) :
  forall (attempt : Z) (lastError : string) (s s' : State) (x : string + JsValue),
    0 <= attempt <= EXTERNAL_A_RETRIES env ->
    remaining = Z.to_nat (EXTERNAL_A_RETRIES env - attempt + 1) ->
    retryLoop remaining attempt lastError s = (x, s') ->
    exists k : nat,
      (1 <= k)%nat
      /\ Z.of_nat k <= EXTERNAL_A_RETRIES env - attempt + 1
      /\ requests s' = (requests s + k)%nat
      /\ x = network (requests s + k - 1)
      /\ (forall i, (i < k - 1)%nat ->
            exists err, network (requests s + i) = inl err /\ shouldRetry err = true)
      /\ (forall err, x = inl err ->
            shouldRetry err = false
            \/ Z.of_nat k = EXTERNAL_A_RETRIES env - attempt + 1).
Proof.
  induction remaining as [|remaining IH]; intros attempt lastError s s' x Hattempt Hrem;
    [lia|].
  cbn [ExternalApiA.retryLoop].
  destruct (attempt <=? EXTERNAL_A_RETRIES env) eqn:Hle; [|apply Z.leb_gt in Hle; lia].
  unfold fetchJsonWithTimeout.
  destruct (network (requests s)) as [err|data] eqn:Hnet.
  - destruct (attempt =? EXTERNAL_A_RETRIES env) eqn:Hlast.
    { apply Z.eqb_eq in Hlast. intros [= <- <-]. exists 1%nat.
      replace (requests s + 1 - 1)%nat with (requests s) by lia.
      split; [lia|]. split; [lia|]. split; [simpl; lia|]. split; [done|].
      split; [intros i Hi; lia|]. intros err' _. right. lia. }
    apply Z.eqb_neq in Hlast.
    destruct (shouldRetry err) eqn:Hretry; cbn [negb].
    2: { intros [= <- <-]. exists 1%nat.
         replace (requests s + 1 - 1)%nat with (requests s) by lia.
         split; [lia|]. split; [lia|]. split; [simpl; lia|]. split; [done|].
         split; [intros i Hi; lia|]. intros err' [= <-]. by left. }
    intros Hloop. apply IH in Hloop as (k & Hk1 & Hk2 & Hreq & Hx & Hearlier & Herr);
      [|lia|lia].
    simpl in Hreq, Hx, Hearlier. exists (S k).
    split; [lia|]. split; [lia|]. split; [lia|]. split; [|split].
    + rewrite Hx. f_equal. lia.
    + intros i Hi. destruct i as [|i].
      * exists err. by rewrite Nat.add_0_r.
      * destruct (Hearlier i) as (err' & Hnet' & Hretry'); [lia|].
        exists err'. split; [|done]. rewrite <- Hnet'. f_equal. lia.
    + intros err' Hx'. destruct (Herr err' Hx') as [?|?]; [by left|right; lia].
  - intros [= <- <-]. exists 1%nat.
    replace (requests s + 1 - 1)%nat with (requests s) by lia.
    split; [lia|]. split; [lia|]. split; [simpl; lia|]. split; [done|].
    split; [intros i Hi; lia|]. done.
Qed.

(** X16. [withRetry], as [fetchExternalApiA] calls it, sends between one and
    [retries + 1] requests and ends with the answer to the last one: every
    earlier request failed with an error that may be retried, and a call
    that fails has either met an error that must not be retried (400, 401,
    403) or used up all [retries + 1] attempts. *)
Theorem withRetry_attempts (s s' : State) (x : string + JsValue) :
  withRetry s = (x, s') ->
  exists k : nat,
    (1 <= k)%nat
    /\ Z.of_nat k <= EXTERNAL_A_RETRIES env + 1
    /\ requests s' = (requests s + k)%nat
    /\ x = network (requests s + k - 1)
    /\ (forall i, (i < k - 1)%nat ->
          exists err, network (requests s + i) = inl err /\ shouldRetry err = true)
    /\ (forall err, x = inl err ->
          shouldRetry err = false \/ Z.of_nat k = EXTERNAL_A_RETRIES env + 1).
Proof using retries_nonnegative.
  unfold ExternalApiA.withRetry. intros Hloop.
  apply retryLoop_attempts in Hloop as (k & H); [|lia|lia].
  exists k. by rewrite Z.sub_0_r in H.
Qed.

(** ** What a fallback carries *)

(** Time passing and calls answered from the fallback, none answered live. *)
Inductive fallbacksOnly : State -> State -> Prop :=
| fallbacksOnly_none (s : State) : fallbacksOnly s s
| fallbacksOnly_elapse (s s1 : State) (ms : Z) :
    fallbacksOnly s s1 -> fallbacksOnly s (elapse ms s1)
| fallbacksOnly_call (s s1 s2 : State) (data : JsValue) (reason : string) :
    fallbacksOnly s s1 ->
    fetchExternalApiA s1 = (Fallback data reason, s2) ->
    fallbacksOnly s s2.

Lemma fallbacksOnly_data (s s' : State) :
  fallbacksOnly s s' -> lastSuccessData s' = lastSuccessData s.
Proof.
  induction 1 as [s|s s1 ms _ IH|s s1 s2 data reason _ IH Hcall]; [done|done|].
  apply fetch_effect in Hcall as (_ & _ & Hd). congruence.
Qed.

Lemma fallback_data (s s' : State) (data : JsValue) (reason : string) :
  fetchExternalApiA s = (Fallback data reason, s') ->
  exists text, data = nullish (lastSuccessData s) (message text).
Proof using enabled_true.
  unfold ExternalApiA.fetchExternalApiA. rewrite enabled_true. cbn [negb].
  destruct (maybeToHalfOpen_same s) as (_ & _ & Hd1 & _).
  destruct (isBreakerOpen env (maybeToHalfOpen env s)).
  { intros [= <- _ _]. rewrite Hd1. by eexists. }
  destruct (ExternalApiA.withRetry env network latency jitter (maybeToHalfOpen env s))
    as [[err|good] s2] eqn:Hretry;
    apply withRetry_sameBreaker in Hretry as (_ & _ & _ & Hd2 & _);
    intros [= <- _ _].
  destruct (recordFailure_same s2) as (Hd3 & _).
  rewrite Hd3, Hd2, Hd1. by eexists.
Qed.

(** X17. A fallback answer carries the payload of the last live answer: after a
    call answered live with a payload other than [null], every call
    answered from the fallback, until the next live answer and whatever
    the reason, returns that payload. Failures never erase it. *)
Theorem fallback_serves_last_live_payload
    (s0 s1 s s' : State) (good data : JsValue) (reason : string) :
  fetchExternalApiA s0 = (Live good, s1) ->
  good <> JNull -> good <> JUndefined ->
  fallbacksOnly s1 s ->
  fetchExternalApiA s = (Fallback data reason, s') ->
  data = good /\ lastSuccessData s' = good.
Proof using enabled_true.
  intros Hlive Hnull Hundef Hsince Hcall.
  apply fetch_effect in Hlive as (_ & _ & Hgood & _).
  apply fallbacksOnly_data in Hsince. rewrite Hgood in Hsince.
  destruct (fallback_data s s' data reason Hcall) as (text & ->).
  apply fetch_effect in Hcall as (_ & _ & Hd).
  rewrite Hd, Hsince. split; [|done]. by destruct good.
Qed.

End Facts.

(** ** On the example dependency *)

Lemma afterCalls_reachable (n : nat) :
  reachable defaultBreakerEnv alwaysFailing (fun _ => 120) (fun _ => 7) (afterCalls n).
Proof.
  induction n as [|n IH].
  - by apply reachable_initial.
  - change (afterCalls (S n)) with (snd (callExample (elapse 1000 (afterCalls n)))).
    apply (reachable_call defaultBreakerEnv alwaysFailing (fun _ => 120) (fun _ => 7)
             (elapse 1000 (afterCalls n)) _
             (fst (callExample (elapse 1000 (afterCalls n))))).
    + by apply reachable_elapse.
    + apply surjective_pairing.
Qed.

Lemma breaker_settled_between_calls_witness :
  breakerState (afterCalls 5) <> HalfOpen
  /\ 0 <= consecutiveFailures (afterCalls 5)
  /\ (breakerState (afterCalls 5) = Closed <-> consecutiveFailures (afterCalls 5) < 5)
  /\ (breakerState (afterCalls 5) = Closed -> openedAtMs (afterCalls 5) = None)
  /\ (breakerState (afterCalls 5) = Open ->
      exists opened, openedAtMs (afterCalls 5) = Some opened
                     /\ 0 < opened <= clock (afterCalls 5)).
Proof.
  refine (breaker_settled_between_calls defaultBreakerEnv alwaysFailing
            (fun _ => 120) (fun _ => 7) _ _ _ (afterCalls 5) (afterCalls_reachable 5)).
  - reflexivity.
  - reflexivity.
  - discriminate.
Defined.

Lemma getExternalAHealth_foretells_call_witness :
  let health := getExternalAHealth defaultBreakerEnv (afterCalls 5) in
  0 <= cooldownRemainingMs health <= 15000
  /\ state health <> HalfOpen
  /\ (state health = Closed -> cooldownRemainingMs health = 0)
  /\ (0 < cooldownRemainingMs health ->
      callExample (afterCalls 5)
      = (Fallback
           (nullish (lastSuccessData (afterCalls 5))
              (message "External API A temporarily unavailable"))
           "circuit_open", afterCalls 5))
  /\ (cooldownRemainingMs health = 0 ->
      forall r s', callExample (afterCalls 5) = (r, s') ->
                   (requests (afterCalls 5) < requests s')%nat)
  /\ (hasFallbackCache health = false ->
      forall data reason s',
        callExample (afterCalls 5) = (Fallback data reason, s') ->
        exists text, data = message text).
Proof.
  refine (getExternalAHealth_foretells_call defaultBreakerEnv alwaysFailing
            (fun _ => 120) (fun _ => 7) _ _ _ (afterCalls 5) _ (afterCalls_reachable 5)).
  - reflexivity.
  - reflexivity.
  - discriminate.
  - discriminate.
Defined.

(** After five failed calls the health reports the whole cooldown as
    remaining and no fallback cached. *)
Lemma getExternalAHealth_afterCalls :
  getExternalAHealth defaultBreakerEnv (afterCalls 5)
  = {| enabled := true; state := Open; failures := 5; cooldownRemainingMs := 15000;
       hasFallbackCache := false |}.
Proof. reflexivity. Qed.

Lemma withRetry_attempts_witness :
  let s := initial 1700000000000 in
  let run := ExternalApiA.withRetry defaultBreakerEnv alwaysFailing
               (fun _ => 120) (fun _ => 7) s in
  exists k : nat,
    (1 <= k)%nat
    /\ Z.of_nat k <= 2 + 1
    /\ requests (snd run) = (requests s + k)%nat
    /\ fst run = alwaysFailing (requests s + k - 1)
    /\ (forall i, (i < k - 1)%nat ->
          exists err, alwaysFailing (requests s + i) = inl err /\ shouldRetry err = true)
    /\ (forall err, fst run = inl err ->
          shouldRetry err = false \/ Z.of_nat k = 2 + 1).
Proof.
  intros s run.
  refine (withRetry_attempts defaultBreakerEnv alwaysFailing (fun _ => 120) (fun _ => 7)
            _ s (snd run) (fst run) _).
  - discriminate.
  - apply surjective_pairing.
Defined.

(** A dependency that answers the first request and fails from then on. *)
Definition answersOnce (n : nat) : string + JsValue :=
  match n with
  | O => inr (JString "payload")
  | S _ => inl "External API A error 500: unavailable"%string
  end.

Definition callOnce (s : State) : ExternalAResult * State :=
  fetchExternalApiA defaultBreakerEnv answersOnce (fun _ => 120) (fun _ => 7) s.

Lemma fallback_serves_last_live_payload_witness :
  let s1 := snd (callOnce (initial 1700000000000)) in
  JString "payload" = JString "payload"
  /\ lastSuccessData (snd (callOnce s1)) = JString "payload".
Proof.
  intros s1.
  refine (fallback_serves_last_live_payload defaultBreakerEnv answersOnce
            (fun _ => 120) (fun _ => 7) _ (initial 1700000000000) s1 s1
            (snd (callOnce s1)) (JString "payload") (JString "payload")
            "External API A error 500: unavailable" _ _ _ _ _).
  - reflexivity.
  - by vm_compute.
  - discriminate.
  - discriminate.
  - apply fallbacksOnly_none.
  - by vm_compute.
Defined.

End ExternalApiAFacts.

(** * More on src/controllers/productsController.ts

    The controller and the cache together, the rest of the cursor checks,
    and the cursor a page hands out read back by the next request. *)

Module ProductsControllerFacts.

Import ProductsController.

Section Facts.

Variable env : Env.
Variable rt : Runtime.

Local Abbreviation hashKey :=
  (ProductsCache.hashKey (toISOString rt) (JSON_stringify rt) (sha1Hex rt)).

(** The cache key of a checked request under the version [version]. *)
Definition listCacheKey (version : string) (c : Checked) : string :=
  ("products:list:v" ++ version ++ ":" ++ hashKey (keyInput rt c))%string.

(** The body [compute] builds from the table as it stands. *)
Definition computedBody (c : Checked) (db : Db) : JsValue :=
  match fst (compute rt c db) with
  | Return value => value
  | _ => JUndefined
  end.

Lemma compute_returns (c : Checked) (db : Db) :
  compute rt c db
  = (Return (computedBody c db),
     {| table := table db; pool := pool db; queries := S (queries db) |}).
Proof. reflexivity. Qed.

(** The list key of the request, with the cache usable. *)
Lemma listCacheKey_usable (c : Checked) (w : World Db) :
  ProductsCache.canUseCache env w = true ->
  redis w !! ProductsCache.VERSION_KEY <> Some ""%string ->
  exists w1 : World Db,
    ProductsCache.getProductsListCacheKey env (toISOString rt) (JSON_stringify rt)
      (sha1Hex rt) (keyInput rt c) w
    = (Return (Some (listCacheKey (ProductsCacheFacts.currentVersion w) c)), w1)
    /\ redis w1
       = <[ProductsCache.VERSION_KEY := ProductsCacheFacts.currentVersion w]> (redis w)
    /\ redisStatusUp w1 = redisStatusUp w
    /\ external w1 = external w
    /\ uuidsDrawn w1 = uuidsDrawn w.
Proof.
  intros Huse Hversion.
  destruct (ProductsCacheFacts.getVersion_current env w Huse)
    as (w1 & Hget & Hredis & Hup & Hext & _ & Huuid & _).
  exists w1. split; [|done].
  unfold ProductsCache.getProductsListCacheKey, bind. rewrite Hget.
  assert (Hne : ProductsCacheFacts.currentVersion w <> ""%string).
  { unfold ProductsCacheFacts.currentVersion.
    destruct (redis w !! ProductsCache.VERSION_KEY) as [s|]; [|done].
    simpl. congruence. }
  by rewrite (truthy_nonempty _ Hne).
Qed.

Lemma getDbPool_ready (w : World Db) :
  pool (external w) = true -> getDbPool w = (Return tt, w).
Proof. intros Hpool. unfold getDbPool. by rewrite Hpool. Qed.

(** ** A request whose entry is in the cache *)

Lemma serve_present (fuel : nat) (c : Checked) (w : World Db) (raw : string) :
  pool (external w) = true ->
  ProductsCache.canUseCache env w = true ->
  redis w !! ProductsCache.VERSION_KEY <> Some ""%string ->
  redis w !! listCacheKey (ProductsCacheFacts.currentVersion w) c = Some raw ->
  raw <> ""%string ->
  exists w' : World Db,
    serve env rt fuel c w
    = (match JSON_parse rt raw with
       | Some cached =>
           Return {| body := cached; cacheStatus := Cache.HIT; deduped := false |}
       | None => Throw SyntaxError
       end, w')
    /\ external w' = external w
    /\ redis w'
       = <[ProductsCache.VERSION_KEY := ProductsCacheFacts.currentVersion w]> (redis w).
Proof.
  intros Hpool Huse Hversion Hfound Hraw.
  destruct (listCacheKey_usable c w Huse Hversion) as (w1 & Hkey & Hredis & Hup & Hext & _).
  unfold serve. unfold bind at 1. rewrite (getDbPool_ready w Hpool).
  unfold bind at 1. rewrite Hkey.
  unfold bind at 1. unfold dedupeInFlight, bind at 1.
  rewrite (CacheFacts.withCache_present env (randomUUID rt) (peers rt)
             (JSON_stringify rt) (JSON_parse rt) fuel _ _ _ w1 raw).
  - destruct (JSON_parse rt raw) as [cached|]; cbn [ret fst snd].
    + eexists. split; [reflexivity|]. simpl. by rewrite Hext, Hredis.
    + eexists. split; [reflexivity|]. simpl. by rewrite Hext, Hredis.
  - unfold Cache.redisReady, ProductsCache.canUseCache in *. by rewrite Hup.
  - rewrite Hredis. rewrite lookup_insert_ne; [done|].
    intros E. symmetry in E. revert E. apply ProductsCacheFacts.listKey_not_version.
  - done.
Qed.

(** ** A request that has to be computed *)

Lemma serve_computed (fuel : nat) (c : Checked) (w : World Db) :
  pool (external w) = true ->
  ProductsCache.canUseCache env w = true ->
  redis w !! ProductsCache.VERSION_KEY <> Some ""%string ->
  let key := listCacheKey (ProductsCacheFacts.currentVersion w) c in
  truthy (redis w !! key) = None ->
  redis w !! (key ++ ":lock")%string = None ->
  randomUUID rt (uuidsDrawn w) <> ""%string ->
  exists w' : World Db,
    serve env rt fuel c w
    = (Return {| body := computedBody c (external w); cacheStatus := Cache.MISS;
                 deduped := false |}, w')
    /\ external w'
       = {| table := table (external w); pool := pool (external w);
            queries := S (queries (external w)) |}
    /\ redisStatusUp w' = redisStatusUp w
    /\ redis w'
       = delete (key ++ ":lock")%string
           (<[key := JSON_stringify rt (computedBody c (external w))]>
              (<[(key ++ ":lock")%string := randomUUID rt (uuidsDrawn w)]>
                 (<[ProductsCache.VERSION_KEY := ProductsCacheFacts.currentVersion w]>
                    (redis w)))).
Proof.
  intros Hpool Huse Hversion key Hmiss Hfree Htoken.
  destruct (listCacheKey_usable c w Huse Hversion)
    as (w1 & Hkey & Hredis & Hup & Hext & Huuid).
  unfold serve. unfold bind at 1. rewrite (getDbPool_ready w Hpool).
  unfold bind at 1. rewrite Hkey.
  unfold bind at 1. unfold dedupeInFlight, bind at 1. fold key.
  destruct (CacheFacts.withCache_holder_world env (randomUUID rt) (peers rt)
              (JSON_stringify rt) (JSON_parse rt) fuel key
              (PRODUCTS_LIST_CACHE_TTL_SECONDS env) (compute rt c) w1
              (computedBody c (external w))
              {| table := table (external w); pool := pool (external w);
                 queries := S (queries (external w)) |})
    as (w2 & Hrun & Hup2 & Hredis2 & Hext2).
  - unfold Cache.redisReady, ProductsCache.canUseCache in *. by rewrite Hup.
  - unfold Cache.cacheMiss. rewrite Hredis. rewrite lookup_insert_ne; [done|].
    intros E. symmetry in E. revert E. apply ProductsCacheFacts.listKey_not_version.
  - rewrite Hredis. rewrite lookup_insert_ne; [done|].
    intros E. symmetry in E. revert E. apply ProductsCacheFacts.listLock_not_version.
  - by rewrite Huuid.
  - by rewrite Hext.
  - rewrite Hrun. cbn [ret fst snd]. eexists. split; [reflexivity|].
    simpl. rewrite Hext2, Hup2, Hup, Hredis2, Hredis, Huuid. done.
Qed.

Lemma checked_request (fuel : nat) (reqQuery : ReqQuery) (c : Checked) (w : World Db) :
  MYSQL_ENABLED env = true ->
  checkRequest rt reqQuery = inr c ->
  getProductsController env rt fuel reqQuery w = serve env rt fuel c w.
Proof. intros Hmysql Hcheck. unfold getProductsController. by rewrite Hmysql, Hcheck. Qed.



(** ** A limit, sortBy or sortOrder that fails the schema *)

Lemma checkRequest_parsed (reqQuery : ReqQuery) (c : Checked) :
  checkRequest rt reqQuery = inr c -> querySchema rt reqQuery = Some (parsed c).
Proof.
  unfold checkRequest. destruct (querySchema rt reqQuery) as [p|]; [|done].
  destruct (match minPrice p, maxPrice p with
            | Some lo, Some hi => numberGt lo hi
            | _, _ => false
            end); [done|].
  destruct (optionalDate rt (createdFrom p)) as [[from|]|]; [|done|];
    (destruct (optionalDate rt (createdTo p)) as [[to|]|]; [|done|]);
    (destruct (checkCursor rt p); [done|]); by intros [= <-].
Qed.

Lemma getProductsListCacheKey_returns (input : JsValue) (w : World Db) :
  exists key w1,
    ProductsCache.getProductsListCacheKey env (toISOString rt) (JSON_stringify rt)
      (sha1Hex rt) input w = (Return key, w1).
Proof.
  unfold ProductsCache.getProductsListCacheKey, ProductsCache.getVersion, bind.
  destruct (negb (ProductsCache.canUseCache env w)).
  { change (truthy None) with (@None string). by eexists _, _. }
  unfold redisSetNx, redisGet, ret.
  destruct (redis w !! ProductsCache.VERSION_KEY) as [s|]; cbn;
    match goal with
    | |- context [truthy ?x] => destruct (truthy x)
    end; by eexists _, _.
Qed.

(** Once the checks are passed, the only errors are the missing pool and a
    cached text that is not JSON: both are answered with 500. *)
Lemma serve_throws (fuel : nat) (c : Checked) (w w' : World Db) (e : Exn) :
  serve env rt fuel c w = (Throw e, w') -> errorStatus e = 500.
Proof.
  unfold serve. unfold bind at 1, getDbPool at 1.
  destruct (pool (external w)); [|by intros [= <- _]].
  unfold bind at 1.
  destruct (getProductsListCacheKey_returns (keyInput rt c) w) as (key & w1 & ->).
  unfold bind at 1, dedupeInFlight. unfold bind at 1.
  destruct key as [key|].
  - match goal with
    | |- context [Cache.withCache env ?a ?b ?d ?f fuel key ?t ?k w1] =>
        destruct (Cache.withCache env a b d f fuel key t k w1)
          as [[value|e1|] w2] eqn:Hrun
    end; [done| |done].
    intros [= <- _].
    apply CacheFacts.withCache_throws in Hrun as [->|[db Hthrown]]; [done|].
    by rewrite compute_returns in Hthrown.
  - unfold bind at 1. unfold Cache.runCompute. by rewrite compute_returns.
Qed.

Lemma serve_bypass (fuel : nat) (c : Checked) (w : World Db) :
  pool (external w) = true ->
  ProductsCache.canUseCache env w = false ->
  serve env rt fuel c w
  = (Return {| body := computedBody c (external w); cacheStatus := Cache.BYPASS;
               deduped := false |},
     setExternal {| table := table (external w); pool := pool (external w);
                    queries := S (queries (external w)) |} w).
Proof.
  intros Hpool Huse.
  unfold serve. unfold bind at 1. rewrite (getDbPool_ready w Hpool).
  unfold bind at 1. unfold ProductsCache.getProductsListCacheKey, bind at 1.
  rewrite (ProductsCache.getVersion_unusable env w Huse).
  change (truthy None) with (@None string). reflexivity.
Qed.

(** C10. A limit that fails the schema (not a number, not an integer, not
    positive, above 100), a sortBy or a sortOrder that is not one of the
    recognized values is no reason to reject: whenever the request with the
    defaults written out passes the checks, so does the request itself, with
    limit 20, sortBy createdAt, sortOrder desc in place of what failed; no
    error it can end in is a client error; and it is served: from the
    database with those values when the cache is down, and when the cache is
    up and holds neither the entry nor a lock on it. *)
Theorem getProductsController_defaults_bad_paging
    (fuel : nat) (reqQuery : ReqQuery) (c : Checked) (w : World Db) :
  MYSQL_ENABLED env = true ->
  limitNumber rt (Some (QString "20")) = Some 20 ->
  checkRequest rt (withDefaults rt reqQuery) = inr c ->
  let page :=
    Products.listProducts (weightString rt) (matchAgainst rt) (table (external w)) (listQuery rt c) in
  checkRequest rt reqQuery = inr c
  /\ (limitNumber rt (raw_limit reqQuery) = None ->
      Products.limit (listQuery rt c) = 20)
  /\ (sortByEnum (raw_sortBy reqQuery) = None ->
      Products.sortBy (listQuery rt c) = Products.ByCreatedAt)
  /\ (sortOrderEnum (raw_sortOrder reqQuery) = None ->
      Products.sortOrder (listQuery rt c) = Products.Desc)
  /\ (forall e w',
        getProductsController env rt fuel reqQuery w = (Throw e, w') ->
        errorStatus e = 500)
  /\ property (computedBody c (external w)) "items"
     = JArray (map (item rt) (Products.items page))
  /\ property (property (computedBody c (external w)) "pageInfo") "limit"
     = number (limit (parsed c))
  /\ (pool (external w) = true ->
      ProductsCache.canUseCache env w = false ->
      exists w',
        getProductsController env rt fuel reqQuery w
        = (Return {| body := computedBody c (external w);
                     cacheStatus := Cache.BYPASS; deduped := false |}, w')
        /\ queries (external w') = S (queries (external w)))
  /\ (pool (external w) = true ->
      ProductsCache.canUseCache env w = true ->
      redis w !! ProductsCache.VERSION_KEY <> Some ""%string ->
      let key := listCacheKey (ProductsCacheFacts.currentVersion w) c in
      truthy (redis w !! key) = None ->
      redis w !! (key ++ ":lock")%string = None ->
      randomUUID rt (uuidsDrawn w) <> ""%string ->
      exists w',
        getProductsController env rt fuel reqQuery w
        = (Return {| body := computedBody c (external w);
                     cacheStatus := Cache.MISS; deduped := false |}, w')
        /\ queries (external w') = S (queries (external w))).
Proof.
  intros Hmysql Htwenty Hdefaults page.
  destruct (withDefaults_same_run env rt fuel reqQuery w Htwenty)
    as (Hschema & _ & Hfields).
  assert (checkRequest rt reqQuery = inr c) as Hcheck.
  { rewrite <- Hdefaults. unfold checkRequest. by rewrite Hschema. }
  pose proof (checkRequest_parsed reqQuery c Hcheck) as Hparsed.
  destruct (Hfields (parsed c) Hparsed) as (Hlimit & HsortBy & HsortOrder).
  rewrite (checked_request fuel reqQuery c w Hmysql Hcheck).
  split; [done|]. split; [done|]. split; [done|]. split; [done|].
  split; [intros e w'; apply serve_throws|].
  split; [reflexivity|]. split; [reflexivity|]. split.
  - intros Hpool Huse. rewrite (serve_bypass fuel c w Hpool Huse).
    eexists. split; reflexivity.
  - intros Hpool Huse Hversion key Hmiss Hfree Htoken.
    destruct (serve_computed fuel c w Hpool Huse Hversion Hmiss Hfree Htoken)
      as (w' & Hrun & Hext & _).
    exists w'. split; [done|]. by rewrite Hext.
Qed.

(** ** The cursor checks *)

(** The messages of the two checks on the fields of a decoded cursor. *)
Definition cursorFieldMessages : list string :=
  ["Invalid cursor id"; "Invalid cursor value"]%string.

(** The [id] of the decoded cursor is not a finite number, or its [v] is
    not what the sort column takes: a string that parses as a date for
    createdAt, a string or a number for price, a string for name. *)
Definition badCursorFields (p : Parsed) (decoded : JsValue) : Prop :=
  (forall n, property decoded "id" <> JNumber (JsFinite n))
  \/ match sortBy p with
     | Products.ByCreatedAt =>
         forall s, property decoded "v" = JString s -> dateParse rt s = None
     | Products.ByPrice =>
         (forall s, property decoded "v" <> JString s)
         /\ (forall x, property decoded "v" <> JNumber x)
     | Products.ByName => forall s, property decoded "v" <> JString s
     end.

Lemma checkCursor_badFields (p : Parsed) (raw : string) (decoded : JsValue) :
  truthy (cursor p) = cursor p ->
  cursor p = Some raw ->
  decodeCursor rt raw = Some decoded ->
  decoded <> JNull -> decoded <> JUndefined ->
  badCursorFields p decoded ->
  exists msg,
    checkCursor rt p = inl (AppError msg 400)
    /\ msg ∈ clientErrorMessages ++ cursorFieldMessages.
Proof.
  intros Htruthy Hcursor Hdecode Hnull Hundef Hbad.
  unfold checkCursor. rewrite Htruthy, Hcursor, Hdecode.
  assert (Hrest :
    exists msg,
      (if negb (isString (property decoded "sortBy") (sortByName (sortBy p)))
          || negb (isString (property decoded "sortOrder") (sortOrderName (sortOrder p)))
       then inl (AppError "Cursor does not match sortBy/sortOrder" 400)
       else
         match property decoded "id" with
         | JNumber (JsFinite n) =>
             let cursorId := JsFinite n in
             match sortBy p with
             | Products.ByCreatedAt =>
                 match property decoded "v" with
                 | JString s =>
                     match dateParse rt s with
                     | Some d => inr (Some (JString (toISOString rt d), cursorId))
                     | None => inl (AppError "Invalid cursor value" 400)
                     end
                 | _ => inl (AppError "Invalid cursor value" 400)
                 end
             | Products.ByPrice =>
                 match property decoded "v" with
                 | JString s => inr (Some (JString s, cursorId))
                 | JNumber x => inr (Some (JNumber x, cursorId))
                 | _ => inl (AppError "Invalid cursor value" 400)
                 end
             | Products.ByName =>
                 match property decoded "v" with
                 | JString s => inr (Some (JString s, cursorId))
                 | _ => inl (AppError "Invalid cursor value" 400)
                 end
             end
         | _ => inl (AppError "Invalid cursor id" 400)
         end : Exn + option (JsValue * JsNumber))
      = inl (AppError msg 400)
      /\ msg ∈ clientErrorMessages ++ cursorFieldMessages).
  { destruct (negb _ || negb _).
    { eexists. split; [reflexivity|]. apply list_elem_of_In. simpl. tauto. }
    destruct Hbad as [Hid|Hv].
    - destruct (property decoded "id") as [| | |[| |n]| | | |] eqn:E;
        try (eexists; split; [reflexivity|]; apply list_elem_of_In; simpl; tauto).
      by destruct (Hid n).
    - destruct (property decoded "id") as [| | |[| |n]| | | |];
        try (eexists; split; [reflexivity|]; apply list_elem_of_In; simpl; tauto).
      destruct (sortBy p).
      + destruct (property decoded "v") as [| | | |s| | |];
          try (eexists; split; [reflexivity|]; apply list_elem_of_In; simpl; tauto).
        rewrite (Hv s eq_refl).
        eexists; split; [reflexivity|]; apply list_elem_of_In; simpl; tauto.
      + destruct Hv as [Hs Hx].
        destruct (property decoded "v") as [| | |x|s| | |];
          try (eexists; split; [reflexivity|]; apply list_elem_of_In; simpl; tauto).
        * by destruct (Hx x).
        * by destruct (Hs s).
      + destruct (property decoded "v") as [| | | |s| | |];
          try (eexists; split; [reflexivity|]; apply list_elem_of_In; simpl; tauto).
        by destruct (Hv s). }
  by destruct decoded.
Qed.

(** X21. A cursor that decodes to a JSON value other than [null] and carries an
    [id] that is not a finite number, or a [v] of the wrong kind for the
    sort column, is rejected like the other client errors: an AppError of
    status 400 thrown before any I/O, the world left as it was. *)
Theorem getProductsController_rejects_bad_cursor_fields
    (fuel : nat) (reqQuery : ReqQuery) (p : Parsed) (raw : string)
    (decoded : JsValue) (w : World Db) :
  MYSQL_ENABLED env = true ->
  querySchema rt reqQuery = Some p ->
  cursor p = Some raw ->
  decodeCursor rt raw = Some decoded ->
  decoded <> JNull -> decoded <> JUndefined ->
  badCursorFields p decoded ->
  exists msg,
    getProductsController env rt fuel reqQuery w = (Throw (AppError msg 400), w)
    /\ errorStatus (AppError msg 400) = 400
    /\ msg ∈ clientErrorMessages ++ cursorFieldMessages.
Proof.
  intros Hmysql Hschema Hcursor Hdecode Hnull Hundef Hbad.
  destruct (querySchema_truthy rt reqQuery p Hschema) as (Htruthy & Hfrom & Hto).
  destruct (checkCursor_badFields p raw decoded Htruthy Hcursor Hdecode Hnull Hundef Hbad)
    as (msg & Hcheck & Hmsg).
  assert (Hrequest : exists msg',
            checkRequest rt reqQuery = inl (AppError msg' 400)
            /\ msg' ∈ clientErrorMessages ++ cursorFieldMessages).
  { unfold checkRequest. rewrite Hschema.
    destruct (match minPrice p, maxPrice p with
              | Some lo, Some hi => numberGt lo hi
              | _, _ => false
              end).
    { eexists. split; [reflexivity|]. apply list_elem_of_In. simpl. tauto. }
    destruct (optionalDate rt (createdFrom p)) as [[from|]|];
      try (eexists; split; [reflexivity|]; apply list_elem_of_In; simpl; tauto);
      (destruct (optionalDate rt (createdTo p)) as [[to|]|];
       try (eexists; split; [reflexivity|]; apply list_elem_of_In; simpl; tauto));
      rewrite Hcheck; by exists msg. }
  destruct Hrequest as (msg' & Hreq & Hmsg').
  exists msg'. unfold getProductsController. by rewrite Hmysql, Hreq.
Qed.

(** ** The cursor of a page, read back *)

(** The same request with [cursor=raw]. *)
Definition withRawCursor (reqQuery : ReqQuery) (raw : string) : ReqQuery :=
  {| raw_limit := raw_limit reqQuery; raw_sortBy := raw_sortBy reqQuery;
     raw_sortOrder := raw_sortOrder reqQuery; raw_q := raw_q reqQuery;
     raw_category := raw_category reqQuery; raw_minPrice := raw_minPrice reqQuery;
     raw_maxPrice := raw_maxPrice reqQuery;
     raw_createdFrom := raw_createdFrom reqQuery;
     raw_createdTo := raw_createdTo reqQuery;
     raw_cursor := Some (QString raw) |}.

Definition withParsedCursor (p : Parsed) (raw : string) : Parsed :=
  {| limit := limit p; sortBy := sortBy p; sortOrder := sortOrder p; q := q p;
     category := category p; minPrice := minPrice p; maxPrice := maxPrice p;
     createdFrom := createdFrom p; createdTo := createdTo p; cursor := Some raw |}.

Lemma querySchema_withRawCursor (reqQuery : ReqQuery) (p : Parsed) (raw : string) :
  raw <> ""%string ->
  querySchema rt reqQuery = Some p ->
  querySchema rt (withRawCursor reqQuery raw) = Some (withParsedCursor p raw).
Proof.
  intros Hraw. unfold querySchema, withRawCursor. cbn [raw_limit raw_sortBy
    raw_sortOrder raw_q raw_category raw_minPrice raw_maxPrice raw_createdFrom
    raw_createdTo raw_cursor].
  destruct (stringSchema (raw_q reqQuery)); [|done].
  destruct (stringSchema (raw_category reqQuery)); [|done].
  destruct (priceSchema rt (raw_minPrice reqQuery)); [|done].
  destruct (priceSchema rt (raw_maxPrice reqQuery)); [|done].
  destruct (stringSchema (raw_createdFrom reqQuery)); [|done].
  destruct (stringSchema (raw_createdTo reqQuery)); [|done].
  destruct (stringSchema (raw_cursor reqQuery)); [|done].
  intros [= <-]. by destruct raw.
Qed.

Lemma nextCursor_of_row (table : list Products.ProductRow)
    (query : Products.ProductListQuery) (next : Products.Cursor) :
  Products.nextCursor (Products.listProducts (weightString rt) (matchAgainst rt) table query) = Some next ->
  exists l, next = {| Products.v := Products.sortColumn (Products.sortBy query) l;
                      Products.cursorId := Products.id l |}.
Proof.
  unfold Products.listProducts. cbn [Products.nextCursor].
  destruct (_ <? _); [|done]. destruct (last _) as [l|]; [|done].
  intros [= <-]. by exists l.
Qed.

(** The cursor text a response carries for the page of [next]. *)
Definition encodedCursor (p : Parsed) (next : Products.Cursor) : string :=
  encodeCursor rt
    (cursorPayload (sortBy p) (sortOrder p) (cursorValue rt (Products.v next))
       (number (Products.cursorId next))).

Lemma checkCursor_object (p : Parsed) (raw : string)
    (props : list (string * JsValue)) (n : Q) :
  raw <> ""%string ->
  cursor p = Some raw ->
  decodeCursor rt raw = Some (JObject props) ->
  objGet props "sortBy" = JString (sortByName (sortBy p)) ->
  objGet props "sortOrder" = JString (sortOrderName (sortOrder p)) ->
  objGet props "id" = JNumber (JsFinite n) ->
  checkCursor rt p
  = match sortBy p with
    | Products.ByCreatedAt =>
        match objGet props "v" with
        | JString s =>
            match dateParse rt s with
            | Some d => inr (Some (JString (toISOString rt d), JsFinite n))
            | None => inl (AppError "Invalid cursor value" 400)
            end
        | _ => inl (AppError "Invalid cursor value" 400)
        end
    | Products.ByPrice =>
        match objGet props "v" with
        | JString s => inr (Some (JString s, JsFinite n))
        | JNumber x => inr (Some (JNumber x, JsFinite n))
        | _ => inl (AppError "Invalid cursor value" 400)
        end
    | Products.ByName =>
        match objGet props "v" with
        | JString s => inr (Some (JString s, JsFinite n))
        | _ => inl (AppError "Invalid cursor value" 400)
        end
    end.
Proof.
  intros Hraw Hcursor Hdecode Hsb Hso Hid.
  unfold checkCursor. rewrite Hcursor, (truthy_nonempty _ Hraw), Hdecode.
  cbn [property]. rewrite Hsb, Hso, Hid. unfold isString.
  rewrite !bool_decide_eq_true_2 by done. reflexivity.
Qed.

(** X22. The cursor a response hands out is read back as the cursor of the page.
    Let a request pass the checks and its page, over some table, have a
    [nextCursor]: the response carries its encoding under
    [pageInfo.nextCursor]. If that text is not empty and the runtime decodes
    it to the payload that was encoded, parses the ISO date it printed, and
    MySQL reads the bound value and id back as the column value and id, then
    the same request with [cursor] set to that text passes the checks too,
    and the query it hands to [listProducts] is the first one resumed from
    that [nextCursor]. *)
Theorem nextCursor_read_back_by_next_request
    (reqQuery : ReqQuery) (c : Checked) (db : Db) (next : Products.Cursor) :
  checkRequest rt reqQuery = inr c ->
  Products.nextCursor
    (Products.listProducts (weightString rt) (matchAgainst rt) (table db) (listQuery rt c)) = Some next ->
  let raw := encodedCursor (parsed c) next in
  raw <> ""%string ->
  decodeCursor rt raw
  = Some (cursorPayload (sortBy (parsed c)) (sortOrder (parsed c))
            (cursorValue rt (Products.v next)) (number (Products.cursorId next))) ->
  match Products.v next with
  | Products.SvDate t => dateParse rt (toISOString rt t) = Some t
  | _ => True
  end ->
  cursorParam rt (sortBy (parsed c)) (cursorValue rt (Products.v next))
  = Products.v next ->
  integerParam rt (JsFinite (inject_Z (Products.cursorId next)))
  = Products.cursorId next ->
  property (property (computedBody c db) "pageInfo") "nextCursor" = JString raw
  /\ exists c' : Checked,
       checkRequest rt (withRawCursor reqQuery raw) = inr c'
       /\ listQuery rt c' = Products.withCursor (listQuery rt c) (Some next).
Proof.
  intros Hcheck Hnext raw Hraw Hdecode Hdate Hvalue Hid. split.
  { unfold computedBody, compute. cbn [fst]. rewrite Hnext. reflexivity. }
  apply nextCursor_of_row in Hnext as (l & Hl).
  cbn [listQuery Products.sortBy] in Hl.
  unfold checkRequest in Hcheck |- *.
  destruct (querySchema rt reqQuery) as [p|] eqn:Hschema; [|done].
  rewrite (querySchema_withRawCursor reqQuery p raw Hraw Hschema).
  assert (Hp : sortBy (parsed c) = sortBy p /\ sortOrder (parsed c) = sortOrder p
               /\ parsed c = p).
  { destruct (match minPrice p, maxPrice p with
              | Some lo, Some hi => numberGt lo hi
              | _, _ => false
              end); [done|].
    destruct (optionalDate rt (createdFrom p)) as [[from|]|]; [|done|];
      (destruct (optionalDate rt (createdTo p)) as [[to|]|]; [|done|]);
      (destruct (checkCursor rt p) as [e|checked0]; [done|]);
      by injection Hcheck as <-. }
  destruct Hp as (Hsb & Hso & Hparsed).
  assert (Hc1 : checkCursor rt (withParsedCursor p raw)
                = inr (Some (cursorValue rt (Products.v next),
                             JsFinite (inject_Z (Products.cursorId next))))).
  { rewrite (checkCursor_object (withParsedCursor p raw) raw _
               (inject_Z (Products.cursorId next)) Hraw eq_refl Hdecode);
      [|by rewrite Hsb|by rewrite Hso|reflexivity].
    cbn [withParsedCursor sortBy objGet]. rewrite Hsb in Hl.
    repeat (rewrite decide_False by done). rewrite decide_True by done.
    rewrite Hl in Hdate |- *. cbn [Products.v Products.cursorId] in *.
    destruct (sortBy p); cbn [Products.sortColumn cursorValue] in *;
      rewrite ?Hdate; reflexivity. }
  cbn [withParsedCursor minPrice maxPrice createdFrom createdTo].
  destruct (match minPrice p, maxPrice p with
            | Some lo, Some hi => numberGt lo hi
            | _, _ => false
            end); [done|].
  rewrite Hc1.
  destruct (optionalDate rt (createdFrom p)) as [[from|]|]; [|done|];
    (destruct (optionalDate rt (createdTo p)) as [[to|]|]; [|done|]);
    (destruct (checkCursor rt p) as [e|checked0]; [done|]);
    injection Hcheck as Hc; (eexists; split; [reflexivity|]);
    rewrite <- Hc in *; cbn [parsed] in Hvalue;
    unfold listQuery, Products.withCursor;
    cbn [parsed cursorChecked createdFromDate createdToDate withParsedCursor
         limit sortBy sortOrder q category minPrice maxPrice
         Products.limit Products.sortBy Products.sortOrder Products.q
         Products.categoryFilter Products.minPrice Products.maxPrice
         Products.createdFrom Products.createdTo];
    simpl; rewrite Hvalue, Hid; by destruct next.
Qed.

End Facts.

(** ** On an example runtime

    The example runtime of the controller, with a [JSON.parse] that knows
    the values it is told about, and MySQL reading a bound text according to
    the column it is compared with. *)

Definition parseKnown (known : list JsValue) (text : string) : option JsValue :=
  List.find (fun x => bool_decide (ProductsCache.renderExample x = text)) known.

Definition demoRuntime (known : list JsValue) : Runtime :=
  {| toNumber := toNumber exampleRuntime;
     dateParse := dateParse exampleRuntime;
     toISOString := toISOString exampleRuntime;
     base64urlDecode := base64urlDecode exampleRuntime;
     base64urlEncode := base64urlEncode exampleRuntime;
     JSON_parse := parseKnown known;
     JSON_stringify := JSON_stringify exampleRuntime;
     sha1Hex := sha1Hex exampleRuntime;
     randomUUID := randomUUID exampleRuntime;
     peers := peers exampleRuntime;
     weightString := weightString exampleRuntime;
     matchAgainst := matchAgainst exampleRuntime;
     decimalParam := decimalParam exampleRuntime;
     integerParam := integerParam exampleRuntime;
     cursorParam := fun sb v =>
       match sb, v with
       | Products.ByCreatedAt, JString s => Products.SvDate (default 0 (readInt s))
       | Products.ByPrice, JString s => Products.SvDecimal (default 0 (readInt s))
       | Products.ByPrice, JNumber n => Products.SvDecimal (integerOf n)
       | _, JString s => Products.SvText s
       | _, _ => Products.SvText ""
       end;
     decimalText := decimalText exampleRuntime |}.

(** [?limit=2&sortBy=price&sortOrder=asc] *)
Definition cheapestQuery : ReqQuery :=
  {| raw_limit := Some (QString "2"); raw_sortBy := Some (QString "price");
     raw_sortOrder := Some (QString "asc"); raw_q := None;
     raw_category := None; raw_minPrice := None; raw_maxPrice := None;
     raw_createdFrom := None; raw_createdTo := None; raw_cursor := None |}.

Definition cheapestChecked : Checked :=
  {| parsed :=
       {| limit := 2; sortBy := Products.ByPrice; sortOrder := Products.Asc;
          q := None; category := None; minPrice := None; maxPrice := None;
          createdFrom := None; createdTo := None; cursor := None |};
     createdFromDate := None; createdToDate := None; cursorChecked := None |}.

(** The body of the first page of the example table. *)
Definition firstPage : JsValue := computedBody exampleRuntime cheapestChecked exampleDb.

Definition cacheOffEnv : Env :=
  {| CACHE_ENABLED := false; REDIS_ENABLED := true; CACHE_LOCK_TTL_MS := 2000;
     MYSQL_ENABLED := true; PRODUCTS_LIST_CACHE_TTL_SECONDS := 30 |}.

(** A store holding [null] under the key of the request. *)
Definition nullStore : gmap string string :=
  {[ listCacheKey exampleRuntime "1" cheapestChecked := "null"%string ]}.

Definition nullWorld : World Db :=
  {| redisStatusUp := true; redis := nullStore; clock := 1700000000000;
     uuidsDrawn := 0; events := []; external := exampleDb |}.



(** What [?limit=abc&sortBy=newest] is checked into. *)
Definition defaultsChecked : Checked :=
  {| parsed :=
       {| limit := 20; sortBy := Products.ByCreatedAt; sortOrder := Products.Desc;
          q := None; category := None; minPrice := None; maxPrice := None;
          createdFrom := None; createdTo := None; cursor := None |};
     createdFromDate := None; createdToDate := None; cursorChecked := None |}.

Lemma getProductsController_defaults_bad_paging_witness :
  limitNumber exampleRuntime (raw_limit badPagingQuery) = None
  /\ sortByEnum (raw_sortBy badPagingQuery) = None
  /\ checkRequest exampleRuntime badPagingQuery = inr defaultsChecked
  /\ Products.limit (listQuery exampleRuntime defaultsChecked) = 20
  /\ Products.sortBy (listQuery exampleRuntime defaultsChecked) = Products.ByCreatedAt
  /\ exists w' : World Db,
       getProductsController Cache.defaultEnv exampleRuntime 7 badPagingQuery
         exampleWorld
       = (Return {| body := computedBody exampleRuntime defaultsChecked exampleDb;
                    cacheStatus := Cache.MISS; deduped := false |}, w')
       /\ queries (external w') = 1%nat.
Proof.
  destruct (getProductsController_defaults_bad_paging Cache.defaultEnv
              exampleRuntime 7 badPagingQuery defaultsChecked exampleWorld
              eq_refl eq_refl eq_refl)
    as (Hcheck & Hlimit & HsortBy & _ & _ & _ & _ & _ & Hmiss).
  split; [reflexivity|]. split; [reflexivity|]. split; [exact Hcheck|].
  split; [exact (Hlimit eq_refl)|]. split; [exact (HsortBy eq_refl)|].
  apply Hmiss.
  - reflexivity.
  - reflexivity.
  - by vm_compute.
  - by vm_compute.
  - by vm_compute.
  - by vm_compute.
Defined.

(** A cursor for createdAt/desc whose id is the text "1". *)
Definition textIdPayload : JsValue :=
  cursorPayload Products.ByCreatedAt Products.Desc (JString "1700000000001")
    (JString "1").

Definition textIdQuery : ReqQuery :=
  {| raw_limit := None; raw_sortBy := None; raw_sortOrder := None; raw_q := None;
     raw_category := None; raw_minPrice := None; raw_maxPrice := None;
     raw_createdFrom := None; raw_createdTo := None;
     raw_cursor := Some (QString (ProductsCache.renderExample textIdPayload)) |}.

Lemma getProductsController_rejects_bad_cursor_fields_witness :
  exists msg,
    getProductsController Cache.defaultEnv (demoRuntime [textIdPayload]) 7 textIdQuery
      exampleWorld
    = (Throw (AppError msg 400), exampleWorld)
    /\ errorStatus (AppError msg 400) = 400
    /\ msg ∈ clientErrorMessages ++ cursorFieldMessages.
Proof.
  refine (getProductsController_rejects_bad_cursor_fields Cache.defaultEnv
            (demoRuntime [textIdPayload]) 7 textIdQuery
            {| limit := 20; sortBy := Products.ByCreatedAt; sortOrder := Products.Desc;
               q := None; category := None; minPrice := None; maxPrice := None;
               createdFrom := None; createdTo := None;
               cursor := Some (ProductsCache.renderExample textIdPayload) |}
            (ProductsCache.renderExample textIdPayload) textIdPayload exampleWorld
            _ _ _ _ _ _ _).
  - reflexivity.
  - by vm_compute.
  - reflexivity.
  - by vm_compute.
  - discriminate.
  - discriminate.
  - left. intros n. by vm_compute.
Defined.

(** The cursor after the first page of the example: price 10, id 1. *)
Definition afterFirstPage : Products.Cursor :=
  {| Products.v := Products.SvDecimal 10; Products.cursorId := 1 |}.

Definition afterFirstPagePayload : JsValue :=
  cursorPayload Products.ByPrice Products.Asc (JString "10") (number 1).

Lemma nextCursor_read_back_by_next_request_witness :
  let rt := demoRuntime [afterFirstPagePayload] in
  let raw := encodedCursor rt (parsed cheapestChecked) afterFirstPage in
  property (property (computedBody rt cheapestChecked exampleDb) "pageInfo") "nextCursor"
  = JString raw
  /\ exists c' : Checked,
       checkRequest rt (withRawCursor cheapestQuery raw) = inr c'
       /\ listQuery rt c'
          = Products.withCursor (listQuery rt cheapestChecked) (Some afterFirstPage).
Proof.
  intros rt raw.
  refine (nextCursor_read_back_by_next_request rt cheapestQuery cheapestChecked
            exampleDb afterFirstPage _ _ _ _ _ _ _).
  - reflexivity.
  - reflexivity.
  - by vm_compute.
  - by vm_compute.
  - exact I.
  - reflexivity.
  - reflexivity.
Defined.

End ProductsControllerFacts.

(** * services/metrics.ts

    The in-process registry of HTTP metrics: a counter and a histogram per
    label set. Counts are integers (the source adds 1 to a double, which is
    exact below 2^53); the sum of durations is a double and its addition is
    left to the runtime. *)

Module Metrics.

Record Registry := {
  counters : gmap string Z;
  histCount : gmap string Z;
  histSum : gmap string JsNumber;
  histBucket : gmap string Z
}.

Definition histBucketsMs : list Z := [5; 10; 25; 50; 100; 200; 500; 1000; 2000; 5000].

(** [parts.join(sep)] *)
Fixpoint join (sep : string) (parts : list string) : string :=
  match parts with
  | [] => ""
  | [part] => part
  | part :: rest => part ++ sep ++ join sep rest
  end.

(** [labels[k]] for a key of the object. *)
Fixpoint label (labels : list (string * string)) (key : string) : string :=
  match labels with
  | [] => "undefined"
  | (k, text) :: rest => if decide (k = key) then text else label rest key
  end.

Definition labelsToKey (labels : list (string * string)) : string :=
  join "," (map (fun k => k ++ "=" ++ label labels k)%string
              (sortStrings (map fst labels))).

(** [map.set(key, (map.get(key) ?? 0) + by)] *)
Definition inc {A} (zero : A) (add : A -> A -> A) (map : gmap string A)
    (key : string) (by_ : A) : gmap string A :=
  <[key := add (default zero (map !! key)) by_]> map.

(** [durationMs <= le] *)
Definition numberLe (x : JsNumber) (le : Z) : bool :=
  match x with
  | JsNaN => false
  | JsInfinity negative => negative
  | JsFinite q => Qle_bool q (inject_Z le)
  end.

Section Registry.

(** The runtime's addition of doubles. *)
Variable numberAdd : JsNumber -> JsNumber -> JsNumber.

Definition recordHttpRequest (method path status : string) (durationMs : JsNumber)
    (r : Registry) : Registry :=
  let baseKey :=
    labelsToKey [("method", method); ("path", path); ("status", status)]%string in
  {| counters := inc 0 Z.add (counters r) baseKey 1;
     histCount := inc 0 Z.add (histCount r) baseKey 1;
     histSum := inc (JsFinite 0) numberAdd (histSum r) baseKey durationMs;
     histBucket :=
       inc 0 Z.add
         (foldl (fun buckets le =>
                   if numberLe durationMs le
                   then inc 0 Z.add buckets (baseKey ++ ",le=" ++ showInt le)%string 1
                   else buckets)
            (histBucket r) histBucketsMs)
         (baseKey ++ ",le=+Inf")%string 1 |}.

End Registry.

Definition emptyRegistry : Registry :=
  {| counters := ∅; histCount := ∅; histSum := ∅; histBucket := ∅ |}.

(** One observation: the labels and the duration. *)
Record Observation := {
  method : string;
  path : string;
  status : string;
  durationMs : JsNumber
}.

Definition baseKeyOf (o : Observation) : string :=
  labelsToKey [("method", method o); ("path", path o); ("status", status o)]%string.

(** ** Keys of the bucket map

    A bucket key is the base key, [",le="] and the bound. The bounds hold no
    comma, so the key determines both parts, whatever the base key holds. *)

Fixpoint hasComma (s : string) : bool :=
  match s with
  | EmptyString => false
  | String a rest => bool_decide (a = ","%char) || hasComma rest
  end.

Fixpoint afterLastComma (s : string) : string :=
  match s with
  | EmptyString => EmptyString
  | String a rest =>
      if hasComma rest then afterLastComma rest
      else if bool_decide (a = ","%char) then rest else s
  end.

Lemma hasComma_app (s t : string) : hasComma (s ++ t) = hasComma s || hasComma t.
Proof. induction s as [|a s IH]; [done|]. simpl. by rewrite IH, orb_assoc. Qed.

Lemma afterLastComma_app (k t : string) :
  hasComma t = false -> afterLastComma (k ++ String "," t) = t.
Proof.
  intros Ht. induction k as [|a k IH]; simpl.
  - by rewrite Ht.
  - rewrite hasComma_app. simpl. by rewrite orb_true_r.
Qed.

Definition bucketKey (baseKey bound : string) : string :=
  (baseKey ++ ",le=" ++ bound)%string.

Lemma bucketKey_inj (k1 k2 bound1 bound2 : string) :
  hasComma bound1 = false -> hasComma bound2 = false ->
  bucketKey k1 bound1 = bucketKey k2 bound2 -> k1 = k2 /\ bound1 = bound2.
Proof.
  intros H1 H2 Hkeys. unfold bucketKey in Hkeys.
  assert (Hbound : bound1 = bound2).
  { apply (f_equal afterLastComma) in Hkeys.
    change (",le=" ++ bound1)%string with (String "," ("le=" ++ bound1)) in Hkeys.
    change (",le=" ++ bound2)%string with (String "," ("le=" ++ bound2)) in Hkeys.
    rewrite !afterLastComma_app in Hkeys by done. by injection Hkeys. }
  subst bound2. split; [|done]. by apply string_app_cancel_r in Hkeys.
Qed.

Lemma bounds_no_comma :
  hasComma "+Inf" = false
  /\ forall le, le ∈ histBucketsMs -> hasComma (showInt le) = false.
Proof.
  split; [done|]. intros le Hle. unfold histBucketsMs in Hle.
  repeat (apply elem_of_cons in Hle as [->|Hle]; [done|]).
  by apply elem_of_nil in Hle.
Qed.

(** ** What a registry has counted *)

Definition recordAll (numberAdd : JsNumber -> JsNumber -> JsNumber)
    (observations : list Observation) (r : Registry) : Registry :=
  foldl (fun r o =>
           recordHttpRequest numberAdd (method o) (path o) (status o) (durationMs o) r)
    r observations.

(** The observations under a base key, and those of them within a bound. *)
Definition seen (key : string) (observations : list Observation) : Z :=
  Z.of_nat (length (filter (fun o => baseKeyOf o = key) observations)).

Definition seenWithin (key : string) (le : Z) (observations : list Observation) : Z :=
  Z.of_nat
    (length (filter (fun o => baseKeyOf o = key /\ numberLe (durationMs o) le = true)
               observations)).

Definition count (map : gmap string Z) (key : string) : Z := default 0 (map !! key).

Lemma count_inc (map : gmap string Z) (key key' : string) :
  count (inc 0 Z.add map key 1) key'
  = count map key' + (if decide (key = key') then 1 else 0).
Proof.
  unfold count, inc. case_decide as Hkey.
  - subst. by rewrite lookup_insert_eq.
  - rewrite lookup_insert_ne by done. lia.
Qed.

Section Counting.

Variable numberAdd : JsNumber -> JsNumber -> JsNumber.
Variable duration : JsNumber.
Variable baseKey : string.

(** The loop over the bounds. *)
Definition fillBuckets (buckets : gmap string Z) (bounds : list Z) : gmap string Z :=
  foldl (fun buckets le =>
           if numberLe duration le
           then inc 0 Z.add buckets (baseKey ++ ",le=" ++ showInt le)%string 1
           else buckets)
    buckets bounds.

Lemma fillBuckets_other (bounds : list Z) :
  forall (buckets : gmap string Z) (key : string),
    (forall le, le ∈ bounds -> key <> bucketKey baseKey (showInt le)) ->
    count (fillBuckets buckets bounds) key = count buckets key.
Proof.
  induction bounds as [|le bounds IH]; intros buckets key Hkey; [done|].
  simpl. rewrite IH by (intros le' Hle'; apply Hkey; by right).
  destruct (numberLe duration le); [|done].
  rewrite count_inc. rewrite decide_False; [lia|].
  intros E. apply (Hkey le); [by left|]. by rewrite <- E.
Qed.

Lemma fillBuckets_bound (bounds : list Z) :
  forall (buckets : gmap string Z) (le0 : Z),
    NoDup bounds -> le0 ∈ bounds ->
    count (fillBuckets buckets bounds) (bucketKey baseKey (showInt le0))
    = count buckets (bucketKey baseKey (showInt le0))
      + (if numberLe duration le0 then 1 else 0).
Proof.
  induction bounds as [|le bounds IH]; intros buckets le0 Hnd Hin;
    [by apply elem_of_nil in Hin|].
  apply NoDup_cons in Hnd as [Hle Hnd]. simpl.
  destruct (decide (le = le0)) as [->|Hne].
  - rewrite fillBuckets_other.
    + destruct (numberLe duration le0); [|lia].
      rewrite count_inc. by rewrite decide_True.
    + intros le' Hle' E. unfold bucketKey in E.
      apply (inj (String.app baseKey)), (inj (String.app ",le=")) in E.
      apply showInt_inj in E. by subst.
  - apply elem_of_cons in Hin as [->|Hin]; [done|].
    rewrite IH by done. destruct (numberLe duration le); [|done].
    rewrite count_inc. rewrite decide_False; [lia|].
    unfold bucketKey. intros E.
    apply (inj (String.app baseKey)), (inj (String.app ",le=")) in E.
    by apply showInt_inj in E.
Qed.

End Counting.

Lemma bounds_not_Inf (le : Z) : le ∈ histBucketsMs -> showInt le <> "+Inf"%string.
Proof.
  intros Hle. unfold histBucketsMs in Hle.
  repeat (apply elem_of_cons in Hle as [->|Hle]; [done|]).
  by apply elem_of_nil in Hle.
Qed.

Lemma histBucketsMs_NoDup : NoDup histBucketsMs.
Proof. apply (bool_decide_unpack _). by vm_compute. Qed.

Section Recorded.

Variable numberAdd : JsNumber -> JsNumber -> JsNumber.

Lemma record_counts (o : Observation) (r : Registry) (key : string) :
  let r' := recordHttpRequest numberAdd (method o) (path o) (status o) (durationMs o) r in
  let hit := if decide (baseKeyOf o = key) then 1 else 0 in
  count (counters r') key = count (counters r) key + hit
  /\ count (histCount r') key = count (histCount r) key + hit
  /\ count (histBucket r') (bucketKey key "+Inf")
     = count (histBucket r) (bucketKey key "+Inf") + hit
  /\ forall le, le ∈ histBucketsMs ->
       count (histBucket r') (bucketKey key (showInt le))
       = count (histBucket r) (bucketKey key (showInt le))
         + (if decide (baseKeyOf o = key)
            then if numberLe (durationMs o) le then 1 else 0
            else 0).
Proof.
  intros r' hit. subst r' hit. unfold recordHttpRequest. fold (baseKeyOf o).
  cbn [counters histCount histBucket].
  fold (fillBuckets (durationMs o) (baseKeyOf o) (histBucket r) histBucketsMs).
  destruct bounds_no_comma as [Hinf Hbounds].
  split; [apply count_inc|]. split; [apply count_inc|]. split.
  - fold (bucketKey (baseKeyOf o) "+Inf"). rewrite count_inc.
    rewrite fillBuckets_other.
    + destruct (decide (baseKeyOf o = key)) as [->|Hne].
      * by rewrite decide_True.
      * rewrite decide_False; [done|]. intros E.
        by apply bucketKey_inj in E as [? _].
    + intros le Hle E.
      apply bucketKey_inj in E as [_ E]; [|exact Hinf|by apply Hbounds].
      by apply (bounds_not_Inf le Hle).
  - intros le Hle. fold (bucketKey (baseKeyOf o) "+Inf"). rewrite count_inc.
    rewrite decide_False.
    2: { intros E. apply bucketKey_inj in E as [_ E]; [|exact Hinf|by apply Hbounds].
         by apply (bounds_not_Inf le Hle). }
    rewrite Z.add_0_r. destruct (decide (baseKeyOf o = key)) as [<-|Hne].
    + by apply fillBuckets_bound; [apply histBucketsMs_NoDup|].
    + rewrite fillBuckets_other; [lia|].
      intros le' Hle' E. apply bucketKey_inj in E as [E _]; [done|by apply Hbounds..].
Qed.

Lemma seen_cons (o : Observation) (observations : list Observation) (key : string) :
  seen key (o :: observations)
  = (if decide (baseKeyOf o = key) then 1 else 0) + seen key observations.
Proof.
  unfold seen. rewrite filter_cons. case_decide; simpl; lia.
Qed.

Lemma seenWithin_cons (o : Observation) (observations : list Observation)
    (key : string) (le : Z) :
  seenWithin key le (o :: observations)
  = (if decide (baseKeyOf o = key)
     then if numberLe (durationMs o) le then 1 else 0
     else 0)
    + seenWithin key le observations.
Proof.
  unfold seenWithin. rewrite filter_cons.
  destruct (decide (baseKeyOf o = key)) as [Hk|Hk].
  - destruct (numberLe (durationMs o) le) eqn:Hle.
    + rewrite decide_True by done. simpl. lia.
    + rewrite decide_False by (intros [_ ?]; congruence). lia.
  - rewrite decide_False by (by intros [? _]). lia.
Qed.

Lemma recordAll_cons (o : Observation) (observations : list Observation) (r : Registry) :
  recordAll numberAdd (o :: observations) r
  = recordAll numberAdd observations
      (recordHttpRequest numberAdd (method o) (path o) (status o) (durationMs o) r).
Proof. reflexivity. Qed.

Lemma recordAll_counts (observations : list Observation) :
  forall (r : Registry) (key : string),
    let r' := recordAll numberAdd observations r in
    count (counters r') key = count (counters r) key + seen key observations
    /\ count (histCount r') key = count (histCount r) key + seen key observations
    /\ count (histBucket r') (bucketKey key "+Inf")
       = count (histBucket r) (bucketKey key "+Inf") + seen key observations
    /\ forall le, le ∈ histBucketsMs ->
         count (histBucket r') (bucketKey key (showInt le))
         = count (histBucket r) (bucketKey key (showInt le))
           + seenWithin key le observations.
Proof.
  induction observations as [|o observations IH]; intros r key r'.
  - subst r'. unfold seen, seenWithin. simpl.
    split; [lia|]. split; [lia|]. split; [lia|]. intros le _. lia.
  - subst r'. rewrite recordAll_cons.
    destruct (IH (recordHttpRequest numberAdd (method o) (path o) (status o)
                    (durationMs o) r) key) as (H1 & H2 & H3 & H4).
    destruct (record_counts o r key) as (S1 & S2 & S3 & S4).
    rewrite H1, H2, H3, S1, S2, S3, seen_cons.
    split; [lia|]. split; [lia|]. split; [lia|].
    intros le Hle. rewrite (H4 le Hle), (S4 le Hle), seenWithin_cons. lia.
Qed.

(** X23. After any sequence of [recordHttpRequest] on an empty registry, for any
    base key: the request counter, the histogram count and the [+Inf]
    bucket each hold the number of requests recorded under the key, and the
    bucket of each bound holds the number of those that took at most that
    long. (A key never recorded counts 0.) *)
Theorem recordHttpRequest_counts_exactly
    (observations : list Observation) (key : string) :
  let r := recordAll numberAdd observations emptyRegistry in
  count (counters r) key = seen key observations
  /\ count (histCount r) key = seen key observations
  /\ count (histBucket r) (key ++ ",le=+Inf")%string = seen key observations
  /\ forall le, le ∈ histBucketsMs ->
       count (histBucket r) (key ++ ",le=" ++ showInt le)%string
       = seenWithin key le observations.
Proof.
  intros r. subst r.
  destruct (recordAll_counts observations emptyRegistry key) as (H1 & H2 & H3 & H4).
  change (key ++ ",le=+Inf")%string with (bucketKey key "+Inf").
  split; [by rewrite H1|]. split; [by rewrite H2|]. split; [by rewrite H3|].
  intros le Hle. fold (bucketKey key (showInt le)). by rewrite (H4 le Hle).
Qed.

Lemma numberLe_mono (x : JsNumber) (le1 le2 : Z) :
  le1 <= le2 -> numberLe x le1 = true -> numberLe x le2 = true.
Proof.
  destruct x as [|negative|q]; simpl; try done.
  rewrite !Qle_bool_iff. intros Hle Hq.
  eapply Qle_trans; [done|]. unfold Qle. simpl. lia.
Qed.

Lemma seenWithin_mono (key : string) (le1 le2 : Z) (observations : list Observation) :
  le1 <= le2 ->
  0 <= seenWithin key le1 observations <= seenWithin key le2 observations
  /\ seenWithin key le2 observations <= seen key observations.
Proof.
  intros Hle. induction observations as [|o observations IH].
  - unfold seenWithin, seen. simpl. lia.
  - rewrite !seenWithin_cons, seen_cons.
    destruct (decide (baseKeyOf o = key)); [|lia].
    destruct (numberLe (durationMs o) le1) eqn:H1.
    + rewrite (numberLe_mono _ le1 le2 Hle H1). lia.
    + destruct (numberLe (durationMs o) le2); lia.
Qed.

(** X24. The histogram is cumulative: under any base key the buckets grow with
    their bounds and none exceeds the [+Inf] bucket, which equals the
    count. *)
Theorem histogram_is_cumulative
    (observations : list Observation) (key : string) (le1 le2 : Z) :
  le1 ∈ histBucketsMs -> le2 ∈ histBucketsMs -> le1 <= le2 ->
  let r := recordAll numberAdd observations emptyRegistry in
  0 <= count (histBucket r) (key ++ ",le=" ++ showInt le1)%string
  /\ count (histBucket r) (key ++ ",le=" ++ showInt le1)%string
     <= count (histBucket r) (key ++ ",le=" ++ showInt le2)%string
  /\ count (histBucket r) (key ++ ",le=" ++ showInt le2)%string
     <= count (histBucket r) (key ++ ",le=+Inf")%string
  /\ count (histBucket r) (key ++ ",le=+Inf")%string = count (histCount r) key.
Proof.
  intros H1 H2 Hle r. subst r.
  destruct (recordAll_counts observations emptyRegistry key) as (_ & Hc & Hinf & Hb).
  change (key ++ ",le=+Inf")%string with (bucketKey key "+Inf").
  fold (bucketKey key (showInt le1)). fold (bucketKey key (showInt le2)).
  rewrite (Hb le1 H1), (Hb le2 H2), Hinf, Hc.
  destruct (seenWithin_mono key le1 le2 observations Hle) as [? ?].
  unfold count. cbn [emptyRegistry histBucket histCount].
  rewrite !lookup_empty. simpl. lia.
Qed.

End Recorded.

(** ** Two requests *)

(** Addition on the finite numbers of the example. *)
Definition exactAdd (a b : JsNumber) : JsNumber :=
  match a, b with
  | JsFinite x, JsFinite y => JsFinite (x + y)
  | _, _ => JsNaN
  end.

Definition twoRequests : list Observation :=
  [{| method := "GET"; path := "/products"; status := "200"; durationMs := JsFinite 12 |};
   {| method := "GET"; path := "/products"; status := "200"; durationMs := JsFinite 480 |}].

Lemma histogram_is_cumulative_witness :
  let key := "method=GET,path=/products,status=200"%string in
  let r := recordAll exactAdd twoRequests emptyRegistry in
  0 <= count (histBucket r) (key ++ ",le=" ++ showInt 10)%string
  /\ count (histBucket r) (key ++ ",le=" ++ showInt 10)%string
     <= count (histBucket r) (key ++ ",le=" ++ showInt 500)%string
  /\ count (histBucket r) (key ++ ",le=" ++ showInt 500)%string
     <= count (histBucket r) (key ++ ",le=+Inf")%string
  /\ count (histBucket r) (key ++ ",le=+Inf")%string = count (histCount r) key.
Proof.
  intros key r.
  refine (histogram_is_cumulative exactAdd twoRequests key 10 500 _ _ _).
  - apply list_elem_of_In. simpl. tauto.
  - apply list_elem_of_In. simpl. tauto.
  - lia.
Defined.

(** The two requests as recorded: none within 10 ms, one within 25 ms, both
    within 500 ms. *)
Lemma twoRequests_recorded :
  let key := "method=GET,path=/products,status=200"%string in
  let r := recordAll exactAdd twoRequests emptyRegistry in
  baseKeyOf {| method := "GET"; path := "/products"; status := "200";
               durationMs := JsFinite 12 |} = key
  /\ counters r !! key = Some 2
  /\ histBucket r !! (key ++ ",le=10")%string = None
  /\ histBucket r !! (key ++ ",le=25")%string = Some 1
  /\ histBucket r !! (key ++ ",le=500")%string = Some 2
  /\ histBucket r !! (key ++ ",le=+Inf")%string = Some 2.
Proof. by vm_compute. Qed.

End Metrics.
(** * src/middlewares/rateLimit.ts

    The fixed-window limiter: one Redis counter per window and client
    address, given the window as its time to live by the script of
    [incrementWithTtl]. The store here keeps, for each key, its value and
    the instant it expires at, if any; instants are in milliseconds, and the
    process and the store read one clock. *)

Module RateLimit.

Record RateEnv := {
  redisEnv : Env;
  RATE_LIMIT_ENABLED : bool;
  RATE_LIMIT_WINDOW_SECONDS : Z;
  RATE_LIMIT_MAX : Z;
  RATE_LIMIT_KEY_PREFIX : string
}.

Record Limiter := {
  entries : gmap string (string * option Z);
  nowMs : Z;
  statusUp : bool
}.

(** What the middleware reads of the request. *)
Record Request := {
  reqMethod : string;
  originalUrl : string;
  reqIp : option string;
  remoteAddress : option string
}.

(** What the middleware does with the response: the headers it sets, in
    order, and either [next()] or the 429 answer. *)
Record Verdict := {
  headers : list (string * string);
  tooMany : bool
}.

(** ** Redis *)

(** A key is gone once the clock has passed its expiry. *)
Definition liveEntry (s : Limiter) (key : string) : option (string * option Z) :=
  match entries s !! key with
  | Some (value, Some expiry) =>
      if expiry <? nowMs s then None else Some (value, Some expiry)
  | other => other
  end.

(** The reply of [TTL key], in seconds: -2 without the key, -1 without an
    expiry, else the remaining time rounded to the nearest second. *)
Definition ttlReply (s : Limiter) (key : string) : Z :=
  match liveEntry s key with
  | None => -2
  | Some (_, None) => -1
  | Some (_, Some expiry) => (expiry - nowMs s + 500) / 1000
  end.

(** The script [rateLimitLua] on [key] with the window as its argument:
    INCR, EXPIRE when the counter has become 1, TTL. INCR is as [redisIncr]:
    [None] is its error reply, which ends the script. EXPIRE with a time
    that is not positive deletes the key. *)
Definition rateLimitLua (key : string) (windowSeconds : Z) (s : Limiter)
    : option (Z * Z) * Limiter :=
  let previous := liveEntry s key in
  let before :=
    match previous with
    | None => Some 0
    | Some (raw, _) => readInt raw
    end in
  match before with
  | Some n =>
      if n + 1 <? 2 ^ 63 then
        let current := n + 1 in
        let kept :=
          match previous with
          | Some (_, expiry) => expiry
          | None => None
          end in
        let stored :=
          if current =? 1 then
            if 0 <? windowSeconds
            then <[key := (showInt current, Some (nowMs s + windowSeconds * 1000))]>
                   (entries s)
            else delete key (entries s)
          else <[key := (showInt current, kept)]> (entries s) in
        let s' := {| entries := stored; nowMs := nowMs s; statusUp := statusUp s |} in
        (Some (current, ttlReply s' key), s')
      else (None, s)
  | None => (None, s)
  end.

(** [incrementWithTtl]: the count and the time to live of the reply; [None]
    when [redis.eval] rejects. *)
Definition incrementWithTtl (key : string) (windowSeconds : Z) (s : Limiter)
    : option (Z * Z) * Limiter :=
  rateLimitLua key windowSeconds s.

(** ** The middleware *)

(** [req.ip || req.socket.remoteAddress || 'unknown'] *)
Definition getClientIp (req : Request) : string :=
  match truthy (reqIp req) with
  | Some address => address
  | None =>
      match truthy (remoteAddress req) with
      | Some address => address
      | None => "unknown"
      end
  end.

Section Middleware.

Variable env : RateEnv.

(** [Math.floor(Date.now() / 1000 / windowSeconds)] *)
Definition bucketOf (now : Z) : Z :=
  now / (1000 * RATE_LIMIT_WINDOW_SECONDS env).

Definition keyOf (bucket : Z) (address : string) : string :=
  (RATE_LIMIT_KEY_PREFIX env ++ ":" ++ showInt bucket ++ ":" ++ address)%string.

(** The answer once the counter has been read: the [try] block after
    [incrementWithTtl]. *)
Definition countedReply (count ttlSeconds : Z) : Verdict :=
  let max := RATE_LIMIT_MAX env in
  let set :=
    [("x-rate-limit", "ON");
     ("x-rate-limit-limit", showInt max);
     ("x-rate-limit-remaining", showInt (Z.max 0 (max - count)));
     ("x-rate-limit-reset-seconds", showInt (Z.max 0 ttlSeconds))]%string in
  if max <? count
  then {| headers := set ++ [("retry-after", showInt (Z.max 1 ttlSeconds))]%string;
          tooMany := true |}
  else {| headers := set; tooMany := false |}.

Definition rateLimitMiddleware (req : Request) (s : Limiter) : Verdict * Limiter :=
  if negb (RATE_LIMIT_ENABLED env) then ({| headers := []; tooMany := false |}, s)
  else if bool_decide (reqMethod req = "OPTIONS"%string)
  then ({| headers := []; tooMany := false |}, s)
  else if String.prefix "/health" (originalUrl req)
  then ({| headers := []; tooMany := false |}, s)
  else if negb (REDIS_ENABLED (redisEnv env)) || negb (statusUp s)
  then ({| headers := [("x-rate-limit", "BYPASS")]%string; tooMany := false |}, s)
  else
    let address := getClientIp req in
    let windowSeconds := RATE_LIMIT_WINDOW_SECONDS env in
    let bucket := bucketOf (nowMs s) in
    let key := keyOf bucket address in
    match incrementWithTtl key windowSeconds s with
    | (Some (count, ttlSeconds), s') => (countedReply count ttlSeconds, s')
    | (None, s') =>
        ({| headers := [("x-rate-limit", "BYPASS")]%string; tooMany := false |}, s')
    end.

(** Requests arrive one after the other, each at the instant the clock
    shows when the middleware runs for it. *)
Definition arrive (now : Z) (s : Limiter) : Limiter :=
  {| entries := entries s; nowMs := now; statusUp := statusUp s |}.

Fixpoint serveAll (arrivals : list (Z * Request)) (s : Limiter)
    : list Verdict * Limiter :=
  match arrivals with
  | [] => ([], s)
  | (now, req) :: rest =>
      let (verdict, s1) := rateLimitMiddleware req (arrive now s) in
      let (verdicts, s2) := serveAll rest s1 in
      (verdict :: verdicts, s2)
  end.

(** A request the limiter counts: neither a preflight nor a health probe. *)
Definition counted (req : Request) : bool :=
  negb (bool_decide (reqMethod req = "OPTIONS"%string))
  && negb (String.prefix "/health" (originalUrl req)).

Definition inSlot (bucket : Z) (address : string) (arrival : Z * Request) : bool :=
  counted (snd arrival)
  && (bucketOf (fst arrival) =? bucket)
  && bool_decide (getClientIp (snd arrival) = address).

(** How many of [arrivals] are counted for [address] in window [bucket]. *)
Fixpoint hits (bucket : Z) (address : string) (arrivals : list (Z * Request)) : Z :=
  match arrivals with
  | [] => 0
  | arrival :: rest =>
      (if inSlot bucket address arrival then 1 else 0) + hits bucket address rest
  end.

End Middleware.

(** ** Keys *)

Fixpoint hasColon (s : string) : bool :=
  match s with
  | EmptyString => false
  | String c rest => Ascii.eqb c ":" || hasColon rest
  end.

Lemma digits_no_colon (u : Decimal.uint) :
  hasColon (NilEmpty.string_of_uint u) = false.
Proof. induction u; done. Qed.

Lemma string_of_uint_no_colon (u : Decimal.uint) :
  hasColon (NilZero.string_of_uint u) = false.
Proof. destruct u; try done; apply (digits_no_colon (_ u)). Qed.

Lemma showInt_no_colon (z : Z) : hasColon (showInt z) = false.
Proof.
  unfold showInt. destruct (Z.to_int z) as [u|u]; simpl.
  - apply string_of_uint_no_colon.
  - apply string_of_uint_no_colon.
Qed.

Lemma string_app_cancel_l (t s1 s2 : string) :
  (t ++ s1)%string = (t ++ s2)%string -> s1 = s2.
Proof. induction t as [|c t IH]; simpl; [done|]. intros [= H]. by apply IH. Qed.

Lemma split_at_colon (s1 s2 r1 r2 : string) :
  hasColon s1 = false -> hasColon s2 = false ->
  (s1 ++ String ":" r1)%string = (s2 ++ String ":" r2)%string -> s1 = s2 /\ r1 = r2.
Proof.
  revert s2. induction s1 as [|c s1 IH]; intros [|d s2] H1 H2 H.
  - by injection H as ->.
  - injection H as <- _. done.
  - injection H as -> _. done.
  - injection H as -> H.
    apply orb_false_iff in H1 as [_ H1]. apply orb_false_iff in H2 as [_ H2].
    destruct (IH s2 H1 H2 H) as [-> ->]. done.
Qed.

Lemma keyOf_inj (env : RateEnv) (b1 b2 : Z) (a1 a2 : string) :
  keyOf env b1 a1 = keyOf env b2 a2 -> b1 = b2 /\ a1 = a2.
Proof.
  unfold keyOf. intros H.
  apply string_app_cancel_l in H.
  change (String ":" (showInt b1 ++ String ":" a1)
          = String ":" (showInt b2 ++ String ":" a2))%string in H.
  injection H as H.
  apply split_at_colon in H as [Hb ->]; [|apply showInt_no_colon..].
  split; [by apply showInt_inj|done].
Qed.

(** ** The script on a fresh and on a live counter *)

Definition withEntries (stored : gmap string (string * option Z)) (s : Limiter)
    : Limiter :=
  {| entries := stored; nowMs := nowMs s; statusUp := statusUp s |}.

Lemma ttlReply_stored (key value : string) (expiry : Z) (s : Limiter) :
  nowMs s <= expiry ->
  ttlReply (withEntries (<[key := (value, Some expiry)]> (entries s)) s) key
  = (expiry - nowMs s + 500) / 1000.
Proof.
  intros Hlive. unfold ttlReply, liveEntry. cbn [entries nowMs withEntries].
  rewrite lookup_insert_eq.
  destruct (expiry <? nowMs s) eqn:E; [apply Z.ltb_lt in E; lia|done].
Qed.

Lemma rateLimitLua_fresh (key : string) (windowSeconds : Z) (s : Limiter) :
  entries s !! key = None -> 0 < windowSeconds ->
  let expiry := nowMs s + windowSeconds * 1000 in
  rateLimitLua key windowSeconds s
  = (Some (1, (expiry - nowMs s + 500) / 1000),
     withEntries (<[key := (showInt 1, Some expiry)]> (entries s)) s).
Proof.
  intros Hkey Hwindow expiry. unfold rateLimitLua, liveEntry at 1. rewrite Hkey.
  cbv beta iota zeta. change (0 + 1) with 1.
  change (1 <? 2 ^ 63) with true. change (1 =? 1) with true. cbv iota.
  destruct (0 <? windowSeconds) eqn:E; [|apply Z.ltb_ge in E; lia].
  fold expiry.
  change {| entries := <[key := (showInt 1, Some expiry)]> (entries s);
            nowMs := nowMs s; statusUp := statusUp s |}
    with (withEntries (<[key := (showInt 1, Some expiry)]> (entries s)) s).
  rewrite ttlReply_stored by (subst expiry; lia). done.
Qed.

Lemma rateLimitLua_live (key : string) (windowSeconds n expiry : Z) (s : Limiter) :
  entries s !! key = Some (showInt n, Some expiry) ->
  nowMs s <= expiry -> 0 < n -> n + 1 < 2 ^ 63 ->
  rateLimitLua key windowSeconds s
  = (Some (n + 1, (expiry - nowMs s + 500) / 1000),
     withEntries (<[key := (showInt (n + 1), Some expiry)]> (entries s)) s).
Proof.
  intros Hkey Hlive Hn Hbound.
  assert (liveEntry s key = Some (showInt n, Some expiry)) as Hentry.
  { unfold liveEntry. rewrite Hkey.
    destruct (expiry <? nowMs s) eqn:E; [apply Z.ltb_lt in E; lia|done]. }
  unfold rateLimitLua. rewrite Hentry.
  cbv beta iota zeta. rewrite readInt_showInt by lia. cbv beta iota zeta.
  destruct (n + 1 <? 2 ^ 63) eqn:E1; [|apply Z.ltb_ge in E1; lia].
  destruct (n + 1 =? 1) eqn:E2; [apply Z.eqb_eq in E2; lia|].
  change {| entries := <[key := (showInt (n + 1), Some expiry)]> (entries s);
            nowMs := nowMs s; statusUp := statusUp s |}
    with (withEntries (<[key := (showInt (n + 1), Some expiry)]> (entries s)) s).
  rewrite ttlReply_stored by done. done.
Qed.

(** ** Counting *)

Section Window.

Variable env : RateEnv.

Local Abbreviation windowMs := (1000 * RATE_LIMIT_WINDOW_SECONDS env).

Lemma hits_nonneg (bucket : Z) (address : string) (arrivals : list (Z * Request)) :
  0 <= hits env bucket address arrivals.
Proof.
  induction arrivals as [|x rest IH]; simpl; [done|].
  destruct (inSlot env bucket address x); lia.
Qed.

Lemma hits_le_length (bucket : Z) (address : string) (arrivals : list (Z * Request)) :
  hits env bucket address arrivals <= Z.of_nat (length arrivals).
Proof.
  induction arrivals as [|x rest IH]; simpl length; simpl hits; [done|].
  destruct (inSlot env bucket address x); lia.
Qed.

Lemma hits_app (bucket : Z) (address : string) (l1 l2 : list (Z * Request)) :
  hits env bucket address (l1 ++ l2)
  = hits env bucket address l1 + hits env bucket address l2.
Proof. induction l1 as [|x l1 IH]; simpl; [done|]. rewrite IH. lia. Qed.

Lemma hits_snoc (bucket : Z) (address : string) (past : list (Z * Request))
    (arrival : Z * Request) :
  hits env bucket address (past ++ [arrival])
  = hits env bucket address past + (if inSlot env bucket address arrival then 1 else 0).
Proof. rewrite hits_app. simpl. lia. Qed.

Hypothesis limiter_on : RATE_LIMIT_ENABLED env = true.
Hypothesis redis_on : REDIS_ENABLED (redisEnv env) = true.
Hypothesis window_positive : 0 < RATE_LIMIT_WINDOW_SECONDS env.

Lemma bucketOf_bounds (now : Z) :
  bucketOf env now * windowMs <= now < (bucketOf env now + 1) * windowMs.
Proof.
  unfold bucketOf.
  pose proof (Z.div_mod now windowMs ltac:(lia)) as Hdiv.
  pose proof (Z.mod_pos_bound now windowMs ltac:(lia)) as Hmod.
  lia.
Qed.

(** The store holds, for each window and address, the number of requests
    counted so far, under a key that outlives its window. *)
Definition tracked (past : list (Z * Request)) (s : Limiter) : Prop :=
  statusUp s = true /\
  forall bucket address,
    (hits env bucket address past = 0 ->
     entries s !! keyOf env bucket address = None) /\
    (0 < hits env bucket address past ->
     exists expiry,
       entries s !! keyOf env bucket address
       = Some (showInt (hits env bucket address past), Some expiry)
       /\ (bucket + 1) * windowMs <= expiry).

(** No counter lives longer than a window past [latest]. *)
Definition shortLived (latest : Z) (s : Limiter) : Prop :=
  forall bucket address value expiry,
    entries s !! keyOf env bucket address = Some (value, Some expiry) ->
    expiry <= latest + windowMs.

Lemma rateLimitMiddleware_skips (past : list (Z * Request)) (now : Z) (req : Request)
    (s : Limiter) :
  tracked past s -> counted req = false ->
  rateLimitMiddleware env req (arrive now s)
  = ({| headers := []; tooMany := false |}, arrive now s)
  /\ tracked (past ++ [(now, req)]) (arrive now s).
Proof.
  intros [Hup Hkeys] Hcounted. split.
  - unfold rateLimitMiddleware. rewrite limiter_on. simpl negb. cbv iota.
    unfold counted in Hcounted.
    destruct (bool_decide (reqMethod req = "OPTIONS"%string)); [done|].
    destruct (String.prefix "/health" (originalUrl req)); done.
  - split; [done|]. intros bucket address. rewrite hits_snoc.
    unfold inSlot. cbn [snd]. rewrite Hcounted. cbn [andb].
    rewrite Z.add_0_r. apply Hkeys.
Qed.

Lemma rateLimitMiddleware_counts (past : list (Z * Request)) (now : Z) (req : Request)
    (s : Limiter) :
  tracked past s -> counted req = true ->
  Z.of_nat (length past) + 1 < 2 ^ 63 ->
  let n := hits env (bucketOf env now) (getClientIp req) (past ++ [(now, req)]) in
  exists expiry s1,
    rateLimitMiddleware env req (arrive now s)
    = (countedReply env n ((expiry - now + 500) / 1000), s1)
    /\ tracked (past ++ [(now, req)]) s1
    /\ now < expiry
    /\ (forall latest, latest <= now -> shortLived latest s ->
         shortLived now s1 /\ expiry <= now + windowMs).
Proof.
  intros [Hup Hkeys] Hcounted Hbound n.
  set (bucket := bucketOf env now). set (address := getClientIp req).
  assert (inSlot env bucket address (now, req) = true) as Hslot.
  { unfold inSlot. cbn [fst snd]. rewrite Hcounted. subst bucket address.
    rewrite Z.eqb_refl. by rewrite bool_decide_eq_true_2. }
  assert (n = hits env bucket address past + 1) as Hn.
  { subst n. fold bucket address. rewrite hits_snoc, Hslot. done. }
  pose proof (hits_nonneg bucket address past) as Hnonneg.
  pose proof (hits_le_length bucket address past) as Hle.
  pose proof (bucketOf_bounds now) as Hnow. fold bucket in Hnow.
  assert (exists expiry,
             incrementWithTtl (keyOf env bucket address)
               (RATE_LIMIT_WINDOW_SECONDS env) (arrive now s)
             = (Some (n, (expiry - now + 500) / 1000),
                withEntries
                  (<[keyOf env bucket address := (showInt n, Some expiry)]> (entries s))
                  (arrive now s))
             /\ (bucket + 1) * windowMs <= expiry
             /\ (expiry = now + windowMs
                  \/ exists value,
                       entries s !! keyOf env bucket address = Some (value, Some expiry)))
    as (expiry & Hrun & Hexpiry & Horigin).
  { destruct (Hkeys bucket address) as [Hfresh Hlive].
    destruct (decide (hits env bucket address past = 0)) as [Hzero|Hpos].
    - exists (now + RATE_LIMIT_WINDOW_SECONDS env * 1000).
      unfold incrementWithTtl.
      rewrite rateLimitLua_fresh by (by apply Hfresh || done).
      cbn [nowMs arrive]. rewrite Hn, Hzero.
      split; [done|]. split; [lia|]. left. lia.
    - destruct Hlive as (expiry & Hentry & Hexpiry); [lia|].
      exists expiry. unfold incrementWithTtl.
      rewrite (rateLimitLua_live _ _ (hits env bucket address past) expiry)
        by (done || cbn [nowMs arrive]; lia).
      cbn [nowMs arrive]. rewrite Hn.
      split; [done|]. split; [done|]. right. by eexists. }
  exists expiry. eexists. split; [|split; [|split]].
  - unfold rateLimitMiddleware. rewrite limiter_on, redis_on. simpl negb. cbv iota.
    unfold counted in Hcounted. apply andb_true_iff in Hcounted as [Hm Hu].
    apply negb_true_iff in Hm, Hu. rewrite Hm, Hu.
    cbn [statusUp arrive nowMs]. rewrite Hup. cbn [negb orb].
    fold bucket address. rewrite Hrun. reflexivity.
  - split; [done|]. intros bucket' address'. cbn [entries withEntries arrive].
    rewrite hits_snoc.
    destruct (decide (bucket' = bucket /\ address' = address)) as [[-> ->]|Hother].
    + rewrite Hslot, lookup_insert_eq. split; [lia|]. intros _.
      exists expiry. rewrite <- Hn. done.
    + assert (inSlot env bucket' address' (now, req) = false) as Hout.
      { unfold inSlot. cbn [fst snd]. fold bucket address.
        destruct (bucket =? bucket') eqn:E1; [|by rewrite andb_false_r].
        apply Z.eqb_eq in E1. rewrite bool_decide_eq_false_2; [by rewrite andb_false_r|].
        intros E2. apply Hother. done. }
      rewrite Hout, Z.add_0_r.
      rewrite lookup_insert_ne; [apply Hkeys|].
      intros Hsame. apply keyOf_inj in Hsame as [? ?]. apply Hother. done.
  - lia.
  - intros latest Hlatest Hshort.
    assert (expiry <= now + windowMs) as Hupper.
    { destruct Horigin as [->|[value Hentry]]; [lia|].
      apply Hshort in Hentry. lia. }
    split; [|done]. intros bucket' address' value e.
    cbn [entries withEntries arrive].
    destruct (decide (keyOf env bucket' address' = keyOf env bucket address))
      as [->|Hkey].
    + rewrite lookup_insert_eq. intros [= _ ->]. done.
    + rewrite lookup_insert_ne by done. intros Hentry.
      apply Hshort in Hentry. lia.
Qed.

Lemma serve_cons (now : Z) (req : Request) (rest : list (Z * Request)) (s : Limiter) :
  fst (serveAll env ((now, req) :: rest) s)
  = fst (rateLimitMiddleware env req (arrive now s))
    :: fst (serveAll env rest (snd (rateLimitMiddleware env req (arrive now s)))).
Proof.
  simpl. destruct (rateLimitMiddleware env req (arrive now s)) as [verdict s1].
  simpl. by destruct (serveAll env rest s1).
Qed.

Lemma serve_verdicts (arrivals past : list (Z * Request)) (s : Limiter) (i : nat)
    (now : Z) (req : Request) :
  tracked past s ->
  Z.of_nat (length past) + Z.of_nat (length arrivals) < 2 ^ 63 ->
  arrivals !! i = Some (now, req) ->
  exists verdict,
    fst (serveAll env arrivals s) !! i = Some verdict
    /\ if counted req then
         exists expiry,
           let n := hits env (bucketOf env now) (getClientIp req)
                      (past ++ take (S i) arrivals) in
           verdict = countedReply env n ((expiry - now + 500) / 1000)
           /\ now < expiry
           /\ (forall latest,
                 shortLived latest s ->
                 Forall (Z.le latest) (map fst arrivals) ->
                 StronglySorted Z.le (map fst arrivals) ->
                 expiry <= now + windowMs)
       else verdict = {| headers := []; tooMany := false |}.
Proof.
  revert past s i.
  induction arrivals as [|[t r] rest IH]; intros past s i Htracked Hbound Hi; [done|].
  rewrite serve_cons. simpl length in Hbound.
  destruct (counted r) eqn:Hr.
  - destruct (rateLimitMiddleware_counts past t r s Htracked Hr ltac:(lia))
      as (expiry & s1 & Hrun & Htracked1 & Hlive & Hshort).
    rewrite Hrun. cbn [fst snd].
    destruct i as [|j].
    + injection Hi as -> ->. eexists. split; [done|]. rewrite Hr.
      exists expiry. cbn [take]. split; [done|]. split; [done|].
      intros latest Hs Hall _. apply Forall_cons in Hall as [Hle _].
      by eapply Hshort.
    + destruct (IH (past ++ [(t, r)]) s1 j Htracked1) as (verdict & Hv & Hfacts).
      { rewrite length_app. simpl. lia. }
      { done. }
      exists verdict. split; [done|].
      destruct (counted req); [|done].
      destruct Hfacts as (e & Hverdict & He & Hupper).
      exists e. cbn zeta in *.
      rewrite <- app_assoc in Hverdict. split; [done|]. split; [done|].
      intros latest Hs Hall Hsorted. cbn [map fst] in Hall, Hsorted.
      apply Forall_cons in Hall as [Hle _].
      apply StronglySorted_inv in Hsorted as [Hsorted Hall'].
      apply (Hupper t); [by eapply Hshort|done|done].
  - destruct (rateLimitMiddleware_skips past t r s Htracked Hr) as [Hrun Htracked1].
    rewrite Hrun. cbn [fst snd].
    destruct i as [|j].
    + injection Hi as -> ->. eexists. split; [done|]. by rewrite Hr.
    + destruct (IH (past ++ [(t, r)]) (arrive t s) j Htracked1)
        as (verdict & Hv & Hfacts).
      { rewrite length_app. simpl. lia. }
      { done. }
      exists verdict. split; [done|].
      destruct (counted req); [|done].
      destruct Hfacts as (e & Hverdict & He & Hupper).
      exists e. cbn zeta in *.
      rewrite <- app_assoc in Hverdict. split; [done|]. split; [done|].
      intros latest Hs Hall Hsorted. cbn [map fst] in Hall, Hsorted.
      apply Forall_cons in Hall as [Hle _].
      apply StronglySorted_inv in Hsorted as [Hsorted Hall'].
      apply (Hupper t); [|done|done].
      intros bucket address value expiry Hentry. apply Hs in Hentry. lia.
Qed.

Lemma tracked_start (s : Limiter) :
  statusUp s = true ->
  (forall bucket address, entries s !! keyOf env bucket address = None) ->
  tracked [] s.
Proof.
  intros Hup Hnone. split; [done|]. intros bucket address. simpl.
  split; [intros _; apply Hnone|lia].
Qed.

Lemma countedReply_tooMany (count ttlSeconds : Z) :
  tooMany (countedReply env count ttlSeconds) = (RATE_LIMIT_MAX env <? count).
Proof. unfold countedReply. by destruct (RATE_LIMIT_MAX env <? count). Qed.

Lemma countedReply_headers (count ttlSeconds : Z) :
  let set := headers (countedReply env count ttlSeconds) in
  ("x-rate-limit", "ON")%string ∈ set
  /\ ("x-rate-limit-limit", showInt (RATE_LIMIT_MAX env))%string ∈ set
  /\ ("x-rate-limit-remaining",
       showInt (Z.max 0 (RATE_LIMIT_MAX env - count)))%string ∈ set
  /\ ("x-rate-limit-reset-seconds", showInt (Z.max 0 ttlSeconds))%string ∈ set
  /\ (RATE_LIMIT_MAX env < count ->
       ("retry-after", showInt (Z.max 1 ttlSeconds))%string ∈ set).
Proof.
  unfold countedReply.
  destruct (RATE_LIMIT_MAX env <? count) eqn:E; cbn [headers app];
    repeat split; rewrite ?elem_of_cons; auto 10.
  apply Z.ltb_ge in E. lia.
Qed.


(** X26. When moreover the arrivals are in the order of
    their instants, every counted request is told a reset time between 0 and
    the window, and a refused one a retry-after between 1 and the window. *)
Theorem rateLimitMiddleware_reset_within_window (arrivals : list (Z * Request))
    (s : Limiter) (i : nat) (now : Z) (req : Request) :
  statusUp s = true ->
  (forall bucket address, entries s !! keyOf env bucket address = None) ->
  Z.of_nat (length arrivals) < 2 ^ 63 ->
  StronglySorted Z.le (map fst arrivals) ->
  arrivals !! i = Some (now, req) -> counted req = true ->
  exists verdict reset,
    fst (serveAll env arrivals s) !! i = Some verdict
    /\ 0 <= reset <= RATE_LIMIT_WINDOW_SECONDS env
    /\ ("x-rate-limit-reset-seconds", showInt reset)%string ∈ headers verdict
    /\ (tooMany verdict = true ->
         exists retry,
           1 <= retry <= RATE_LIMIT_WINDOW_SECONDS env
           /\ ("retry-after", showInt retry)%string ∈ headers verdict).
Proof.
  intros Hup Hnone Hbound Hsorted Hi Hreq.
  destruct (serve_verdicts arrivals [] s i now req) as (verdict & Hv & Hfacts);
    [by apply tracked_start|simpl; lia|done|].
  rewrite Hreq in Hfacts. destruct Hfacts as (expiry & Hverdict & Hlive & Hupper).
  cbn zeta in Hverdict. rewrite app_nil_l in Hverdict.
  assert (expiry <= now + windowMs) as Hle.
  { destruct arrivals as [|[t r] rest]; [done|].
    apply (Hupper t); [|..].
    - intros bucket address value e Hentry. by rewrite Hnone in Hentry.
    - cbn [map fst]. apply Forall_cons. split; [lia|].
      by apply StronglySorted_inv in Hsorted as [_ ?].
    - done. }
  set (ttl := (expiry - now + 500) / 1000) in *.
  assert (0 <= ttl <= RATE_LIMIT_WINDOW_SECONDS env) as Httl.
  { subst ttl. split.
    - apply Z.div_pos; lia.
    - apply Z.lt_succ_r, Z.div_lt_upper_bound; lia. }
  set (n := hits env (bucketOf env now) (getClientIp req) (take (S i) arrivals)) in *.
  destruct (countedReply_headers n ttl) as (_ & _ & _ & Hreset & Hretry).
  exists verdict, ttl. rewrite Hverdict. split; [by rewrite <- Hverdict|].
  split; [done|]. split; [by rewrite Z.max_r in Hreset by lia|].
  rewrite countedReply_tooMany. intros Hmany%Z.ltb_lt.
  exists (Z.max 1 ttl). split; [lia|]. by apply Hretry.
Qed.

End Window.

(** ** Three requests within a minute under a limit of two *)

Definition demoEnv : RateEnv :=
  {| redisEnv := {| CACHE_ENABLED := true; REDIS_ENABLED := true;
                    CACHE_LOCK_TTL_MS := 5000; MYSQL_ENABLED := true;
                    PRODUCTS_LIST_CACHE_TTL_SECONDS := 30 |};
     RATE_LIMIT_ENABLED := true;
     RATE_LIMIT_WINDOW_SECONDS := 60;
     RATE_LIMIT_MAX := 2;
     RATE_LIMIT_KEY_PREFIX := "rl" |}.

Definition getProducts (address : string) : Request :=
  {| reqMethod := "GET"; originalUrl := "/products?limit=5";
     reqIp := Some address; remoteAddress := None |}.

Definition healthProbe : Request :=
  {| reqMethod := "GET"; originalUrl := "/health";
     reqIp := Some "10.0.0.1"%string; remoteAddress := None |}.

Definition demoArrivals : list (Z * Request) :=
  [(120000, getProducts "10.0.0.1"); (121000, getProducts "10.0.0.2");
   (125000, healthProbe); (130000, getProducts "10.0.0.1");
   (150500, getProducts "10.0.0.1"); (180000, getProducts "10.0.0.1")].

Definition emptyLimiter : Limiter :=
  {| entries := ∅; nowMs := 0; statusUp := true |}.


Lemma rateLimitMiddleware_reset_within_window_witness :
  exists verdict reset,
    fst (serveAll demoEnv demoArrivals emptyLimiter) !! 4%nat = Some verdict
    /\ 0 <= reset <= 60
    /\ ("x-rate-limit-reset-seconds", showInt reset)%string ∈ headers verdict
    /\ (tooMany verdict = true ->
         exists retry,
           1 <= retry <= 60 /\ ("retry-after", showInt retry)%string ∈ headers verdict).
Proof.
  refine (rateLimitMiddleware_reset_within_window demoEnv _ _ _ demoArrivals
            emptyLimiter 4 150500 (getProducts "10.0.0.1") _ _ _ _ _ _).
  - reflexivity.
  - reflexivity.
  - reflexivity.
  - reflexivity.
  - intros bucket address. apply lookup_empty.
  - reflexivity.
  - simpl. repeat first [apply SSorted_nil | apply SSorted_cons
                         | apply List.Forall_nil | apply List.Forall_cons]; lia.
  - reflexivity.
  - reflexivity.
Defined.

(** The verdicts of the example: the third request of 10.0.0.1 within the
    minute is refused with 30 seconds to wait, and the next minute starts
    afresh. *)
Lemma demoArrivals_verdicts :
  map tooMany (fst (serveAll demoEnv demoArrivals emptyLimiter))
  = [false; false; false; false; true; false]
  /\ (fst (serveAll demoEnv demoArrivals emptyLimiter) !! 4%nat
       ≫= fun verdict => Some (headers verdict))
     = Some [("x-rate-limit", "ON"); ("x-rate-limit-limit", "2");
             ("x-rate-limit-remaining", "0");
             ("x-rate-limit-reset-seconds", "30");
             ("retry-after", "30")]%string.
Proof. by vm_compute. Qed.

End RateLimit.
(** * services/auth0M2MToken.ts

    The machine-to-machine access token: fetched from the token endpoint
    with the client credentials, kept in Redis for its lifetime, refreshed
    under a lock once Redis reports no more than the skew left of it.

    The store keeps, for each key, its value and the instant it expires at,
    if any; instants are in milliseconds, read off one clock by the process
    and the store. The client, where it exists, is connected: every command
    is answered. Numbers of milliseconds and seconds are exact integers, as
    the doubles of the source are below 2^53. *)

Module Auth0M2MToken.

Record TokenEnv := {
  redisEnv : Env;
  AUTH0_M2M_ENABLED : bool;
  AUTH0_M2M_TOKEN_URL : option string;
  AUTH0_M2M_CLIENT_ID : option string;
  AUTH0_M2M_CLIENT_SECRET : option string;
  AUTH0_M2M_AUDIENCE : option string;
  AUTH0_M2M_SCOPE : option string;
  AUTH0_M2M_TOKEN_CACHE_KEY : string;
  AUTH0_M2M_TOKEN_LOCK_KEY : string;
  AUTH0_M2M_TOKEN_LOCK_TTL_MS : Z;
  AUTH0_M2M_REFRESH_SKEW_SECONDS : Z
}.

Record CachedToken := {
  accessToken : string;
  tokenType : string;
  expiresAtMs : Z
}.

(** What [fetchAuth0ClientCredentialsToken] returns. *)
Record Fetched := {
  fetchedAccessToken : string;
  fetchedTokenType : string;
  expiresInSeconds : Z
}.

(** The outcome of [fetch] and [res.text()]: a rejection (network failure,
    or the abort of the request timeout), or a status and a body. *)
Inductive FetchOutcome :=
| Rejected (e : Exn)
| Responded (status : Z) (text : string).

Inductive TokenEvent :=
| CacheRead (key : string) (raw : option string) (ttlMs : Z)
| CacheWrite (key value : string) (ttlMs : Z)
| LockTry (key value : string) (ttlMs : Z) (taken : bool)
| LockRelease (key value : string) (deleted : bool)
| TokenRequest (n : nat) (params : list (string * string)) (answer : FetchOutcome)
| Slept (ms : Z).

Abbreviation Store := (gmap string (string * option Z)).

Record Session := {
  client : bool;
  entries : Store;
  nowMs : Z;
  uuidsDrawn : nat;
  requestsSent : nat;
  lastError : option string;
  trace : list TokenEvent
}.

(** ** Asynchronous code over a session *)

Definition Async (A : Type) : Type := Session -> Outcome A * Session.

Definition resolve {A} (a : A) : Async A := fun s => (Return a, s).

Definition reject {A} (e : Exn) : Async A := fun s => (Throw e, s).

Definition andThen {A B} (m : Async A) (k : A -> Async B) : Async B :=
  fun s =>
    match m s with
    | (Return a, s') => k a s'
    | (Throw e, s') => (Throw e, s')
    | (Diverged, s') => (Diverged, s')
    end.

(** [try { m } finally { cleanup }] *)
Definition tryFinally {A} (m : Async A) (cleanup : Async unit) : Async A :=
  fun s =>
    match m s with
    | (Diverged, s') => (Diverged, s')
    | (r, s') =>
        match cleanup s' with
        | (Return _, s'') => (r, s'')
        | (Throw e, s'') => (Throw e, s'')
        | (Diverged, s'') => (Diverged, s'')
        end
    end.

(** [p.catch(() => undefined)] *)
Definition orUndefined (m : Async unit) : Async unit :=
  fun s =>
    match m s with
    | (Throw _, s') => (Return tt, s')
    | other => other
    end.

Declare Scope token_scope.
Delimit Scope token_scope with token.
Notation "'let*' x ':=' m 'in' k" := (andThen m (fun x => k))
  (at level 10, x name, m at level 100, k at level 200) : token_scope.
Notation "'let*' ( x , y ) ':=' m 'in' k" := (andThen m (fun '(x, y) => k))
  (at level 10, x name, y name, m at level 100, k at level 200) : token_scope.

Local Open Scope token_scope.

Definition setEntries (stored : Store) (s : Session) : Session :=
  {| client := client s; entries := stored; nowMs := nowMs s;
     uuidsDrawn := uuidsDrawn s; requestsSent := requestsSent s;
     lastError := lastError s; trace := trace s |}.

Definition note (e : TokenEvent) (s : Session) : Session :=
  {| client := client s; entries := entries s; nowMs := nowMs s;
     uuidsDrawn := uuidsDrawn s; requestsSent := requestsSent s;
     lastError := lastError s; trace := trace s ++ [e] |}.

Definition setLastError (e : option string) (s : Session) : Session :=
  {| client := client s; entries := entries s; nowMs := nowMs s;
     uuidsDrawn := uuidsDrawn s; requestsSent := requestsSent s;
     lastError := e; trace := trace s |}.

(** ** Redis *)

(** A key is gone once the clock has passed its expiry. *)
Definition lookupLive (s : Session) (key : string) : option (string * option Z) :=
  match entries s !! key with
  | Some (value, Some expiry) =>
      if expiry <? nowMs s then None else Some (value, Some expiry)
  | other => other
  end.

(** The reply of [PTTL key]: -2 without the key, -1 without an expiry, else
    the milliseconds left. *)
Definition pttlReply (s : Session) (key : string) : Z :=
  match lookupLive s key with
  | None => -2
  | Some (_, None) => -1
  | Some (_, Some expiry) => expiry - nowMs s
  end.

(** An expiry Redis refuses: not positive, or past the 64-bit range. *)
Definition invalidExpire (s : Session) (ttlMs : Z) : bool :=
  (ttlMs <=? 0) || (2 ^ 63 - nowMs s <=? ttlMs).

(** [!x] for an optional string of the configuration *)
Definition unset (x : option string) : bool :=
  match truthy x with
  | Some _ => false
  | None => true
  end.

(** [getRedisClient()] *)
Definition getRedisClient : Async unit :=
  fun s =>
    if client s then (Return tt, s)
    else (Throw (Error "Redis client not initialized"), s).

(** [Date.now()] *)
Definition Date_now : Async Z := fun s => (Return (nowMs s), s).

Section Service.

Variable env : TokenEnv.

(** [randomUUID()]: the n-th UUID the process draws. *)
Variable randomUUID : nat -> string.

(** What the other clients of the store have done to it by a given instant. *)
Variable peers : Z -> Store -> Store.

(** The token endpoint: the time the n-th request takes and how it ends; a
    request that outlasts [AUTH0_M2M_REQUEST_TIMEOUT_MS] is one that is
    rejected. *)
Variable auth0 : nat -> Z * FetchOutcome.

(** [JSON.parse] ([None] is a SyntaxError), [JSON.stringify], [Number(x)] as
    [z.coerce.number()] applies it, and the [message] of an error that the
    runtime or a library words. *)
Variable JSON_parse : string -> option JsValue.
Variable JSON_stringify : JsValue -> string.
Variable toNumber : JsValue -> JsNumber.
Variable builtinMessage : Exn -> string.

(** Time passes: the clock moves on and the other clients act. *)
Definition timePasses (ms : Z) (s : Session) : Session :=
  {| client := client s; entries := peers (nowMs s + ms) (entries s);
     nowMs := nowMs s + ms; uuidsDrawn := uuidsDrawn s;
     requestsSent := requestsSent s; lastError := lastError s; trace := trace s |}.

(** Modelled from its use: utils/sleep.ts is not among the sources. *)
Definition sleep (ms : Z) : Async unit :=
  fun s => (Return tt, note (Slept ms) (timePasses ms s)).

(** [err instanceof Error ? err.message : String(err)] *)
Definition errorMessage (e : Exn) : string :=
  match e with
  | Error message => message
  | AppError message _ => message
  | other => builtinMessage other
  end.

(** ** The schemas *)

(** [z.string().min(1)] *)
Definition stringMin1 (x : JsValue) : option string :=
  match x with
  | JString s => if decide (s = ""%string) then None else Some s
  | _ => None
  end.

(** [.int().positive()] on a number *)
Definition intPositive (n : JsNumber) : option Z :=
  match n with
  | JsFinite x =>
      let x' := Qred x in
      if (Qden x' =? 1)%positive && (0 <? Qnum x') then Some (Qnum x') else None
  | _ => None
  end.

Definition cachedTokenSchema (json : JsValue) : option CachedToken :=
  match json with
  | JObject props =>
      match stringMin1 (objGet props "accessToken"),
            match objGet props "tokenType" with
            | JUndefined => Some "Bearer"%string
            | x => stringMin1 x
            end,
            match objGet props "expiresAtMs" with
            | JNumber n => intPositive n
            | _ => None
            end with
      | Some a, Some t, Some e =>
          Some {| accessToken := a; tokenType := t; expiresAtMs := e |}
      | _, _, _ => None
      end
  | _ => None
  end.

(** [tokenResponseSchema], with [token_type ?? 'Bearer'] applied. *)
Definition tokenResponseSchema (json : JsValue) : option Fetched :=
  match json with
  | JObject props =>
      match stringMin1 (objGet props "access_token"),
            match objGet props "token_type" with
            | JUndefined => Some None
            | x => option_map Some (stringMin1 x)
            end,
            intPositive (toNumber (objGet props "expires_in")) with
      | Some a, Some t, Some e =>
          Some {| fetchedAccessToken := a;
                  fetchedTokenType := match t with Some t' => t' | None => "Bearer" end;
                  expiresInSeconds := e |}
      | _, _, _ => None
      end
  | _ => None
  end.

(** The object [JSON.stringify] is given by [setCached]. *)
Definition tokenJson (token : CachedToken) : JsValue :=
  JObject [("accessToken", JString (accessToken token));
           ("tokenType", JString (tokenType token));
           ("expiresAtMs", JNumber (JsFinite (inject_Z (expiresAtMs token))))]%string.

(** ** The service *)

Definition requireM2MConfigured : Async unit :=
  fun s =>
    if negb (AUTH0_M2M_ENABLED env)
    then (Throw (Error "Auth0 M2M token flow is disabled (AUTH0_M2M_ENABLED=false)."), s)
    else if negb (REDIS_ENABLED (redisEnv env))
    then (Throw (Error "Redis must be enabled for Auth0 M2M token caching."), s)
    else if unset (AUTH0_M2M_TOKEN_URL env)
    then (Throw (Error "AUTH0_M2M_TOKEN_URL is required."), s)
    else if unset (AUTH0_M2M_CLIENT_ID env)
    then (Throw (Error "AUTH0_M2M_CLIENT_ID is required."), s)
    else if unset (AUTH0_M2M_CLIENT_SECRET env)
    then (Throw (Error "AUTH0_M2M_CLIENT_SECRET is required."), s)
    else if unset (AUTH0_M2M_AUDIENCE env)
    then (Throw (Error "AUTH0_M2M_AUDIENCE is required."), s)
    else (Return tt, s).

(** [GET] and [PTTL], sent together. *)
Definition getCached (redisKey : string) : Async (option CachedToken * Z) :=
  let* _ := getRedisClient in
  fun s =>
    let raw := fst <$> lookupLive s redisKey in
    let ttlMs := pttlReply s redisKey in
    let s1 := note (CacheRead redisKey raw ttlMs) s in
    match truthy raw with
    | None => (Return (None, ttlMs), s1)
    | Some text =>
        match JSON_parse text with
        | None => (Throw SyntaxError, s1)
        | Some json => (Return (cachedTokenSchema json, ttlMs), s1)
        end
    end.

(** [SET key value PX ttlMs] *)
Definition setCached (redisKey : string) (token : CachedToken) (ttlMs : Z)
    : Async unit :=
  let* _ := getRedisClient in
  fun s =>
    let value := JSON_stringify (tokenJson token) in
    if invalidExpire s ttlMs then (Throw ReplyError, s)
    else
      (Return tt,
       note (CacheWrite redisKey value ttlMs)
         (setEntries (<[redisKey := (value, Some (nowMs s + ttlMs))]> (entries s)) s)).

(** [SET key value PX ttlMs NX] *)
Definition acquireLock (lockKey : string) (ttlMs : Z) : Async (option string) :=
  let* _ := getRedisClient in
  fun s =>
    let lockValue := randomUUID (uuidsDrawn s) in
    let s1 :=
      {| client := client s; entries := entries s; nowMs := nowMs s;
         uuidsDrawn := S (uuidsDrawn s); requestsSent := requestsSent s;
         lastError := lastError s; trace := trace s |} in
    if invalidExpire s1 ttlMs then (Throw ReplyError, s1)
    else
      match lookupLive s1 lockKey with
      | None =>
          (Return (Some lockValue),
           note (LockTry lockKey lockValue ttlMs true)
             (setEntries
                (<[lockKey := (lockValue, Some (nowMs s1 + ttlMs))]> (entries s1)) s1))
      | Some _ =>
          (Return None, note (LockTry lockKey lockValue ttlMs false) s1)
      end.

(** The script: [if GET KEYS[1] == ARGV[1] then return DEL KEYS[1] else
    return 0]. *)
Definition releaseLock (lockKey lockValue : string) : Async unit :=
  let* _ := getRedisClient in
  fun s =>
    if decide (fst <$> lookupLive s lockKey = Some lockValue)
    then (Return tt,
          note (LockRelease lockKey lockValue true)
            (setEntries (delete lockKey (entries s)) s))
    else (Return tt, note (LockRelease lockKey lockValue false) s).

(** [res.ok] *)
Definition ok (status : Z) : bool := (200 <=? status) && (status <=? 299).

(** The form [fetchAuth0ClientCredentialsToken] posts. *)
Definition tokenParams : list (string * string) :=
  [("grant_type", "client_credentials");
   ("client_id", default "" (AUTH0_M2M_CLIENT_ID env));
   ("client_secret", default "" (AUTH0_M2M_CLIENT_SECRET env));
   ("audience", default "" (AUTH0_M2M_AUDIENCE env))]%string
  ++ match truthy (AUTH0_M2M_SCOPE env) with
     | Some scope => [("scope", scope)]%string
     | None => []
     end.

(** What [fetchAuth0ClientCredentialsToken] makes of the answer. *)
Definition readResponse (answer : FetchOutcome) : Outcome Fetched :=
  match answer with
  | Rejected e => Throw e
  | Responded status text =>
      if negb (ok status)
      then Throw (Error ("Auth0 token error " ++ showInt status ++ ": "
                           ++ String.substring 0 500 text))
      else
        match JSON_parse text with
        | None => Throw SyntaxError
        | Some json =>
            match tokenResponseSchema json with
            | None => Throw ZodError
            | Some fetched => Return fetched
            end
        end
  end.

Definition fetchAuth0ClientCredentialsToken : Async Fetched :=
  let* _ := requireM2MConfigured in
  fun s =>
    let n := requestsSent s in
    let (took, answer) := auth0 n in
    let s1 :=
      note (TokenRequest n tokenParams answer)
        (timePasses took
           {| client := client s; entries := entries s; nowMs := nowMs s;
              uuidsDrawn := uuidsDrawn s; requestsSent := S n;
              lastError := lastError s; trace := trace s |}) in
    (readResponse answer, s1).

(** [catch (err) { lastError = ...; throw err; }] *)
Definition recordError {A} (m : Async A) : Async A :=
  fun s =>
    match m s with
    | (Throw e, s') => (Throw e, setLastError (Some (errorMessage e)) s')
    | other => other
    end.

(** [token && ttlMs > skewMs] *)
Definition usable (token : option CachedToken) (ttlMs skewMs : Z)
    : option CachedToken :=
  match token with
  | Some t => if skewMs <? ttlMs then Some t else None
  | None => None
  end.

(** The [while (Date.now() - started < maxWaitMs)] loop of [refreshWithLock]. *)
Fixpoint waitLoop (fuel : nat) (redisKey : string) (skewMs started maxWaitMs delay : Z)
    : Async CachedToken :=
  match fuel with
  | O => fun s => (Diverged, s)
  | S fuel' =>
      let* now := Date_now in
      if now - started <? maxWaitMs then
        let* (token, ttl) := getCached redisKey in
        match usable token ttl skewMs with
        | Some t => resolve t
        | None =>
            let* _ := sleep delay in
            waitLoop fuel' redisKey skewMs started maxWaitMs (Z.min 1000 (delay * 2))
        end
      else reject (Error "Timed out waiting for Auth0 M2M token refresh lock.")
  end.

(** The [try] block of [refreshWithLock], run by the holder of the lock. *)
Definition refreshUnderLock (redisKey : string) (skewMs : Z) : Async CachedToken :=
  let* (again, againTtl) := getCached redisKey in
  match usable again againTtl skewMs with
  | Some t => resolve t
  | None =>
      let* fetched := fetchAuth0ClientCredentialsToken in
      let ttlMsNew := Z.max 1 (expiresInSeconds fetched * 1000) in
      let* now := Date_now in
      let token :=
        {| accessToken := fetchedAccessToken fetched;
           tokenType := fetchedTokenType fetched;
           expiresAtMs := now + ttlMsNew |} in
      let* _ := setCached redisKey token ttlMsNew in
      fun s => (Return token, setLastError None s)
  end.

Definition refreshWithLock (fuel : nat) : Async CachedToken :=
  let* _ := requireM2MConfigured in
  let redisKey := AUTH0_M2M_TOKEN_CACHE_KEY env in
  let lockKey := AUTH0_M2M_TOKEN_LOCK_KEY env in
  let skewMs := AUTH0_M2M_REFRESH_SKEW_SECONDS env * 1000 in
  let* (cached, ttlMs) := getCached redisKey in
  match usable cached ttlMs skewMs with
  | Some t => resolve t
  | None =>
      let* lockValue := acquireLock lockKey (AUTH0_M2M_TOKEN_LOCK_TTL_MS env) in
      match truthy lockValue with
      | Some held =>
          tryFinally
            (recordError (refreshUnderLock redisKey skewMs))
            (orUndefined (releaseLock lockKey held))
      | None =>
          let delay := 50 in
          let maxWaitMs := AUTH0_M2M_TOKEN_LOCK_TTL_MS env + 5000 in
          let* started := Date_now in
          waitLoop fuel redisKey skewMs started maxWaitMs delay
      end
  end.

Definition getAuth0M2MAccessToken (fuel : nat) : Async string :=
  let* _ := requireM2MConfigured in
  let redisKey := AUTH0_M2M_TOKEN_CACHE_KEY env in
  let skewMs := AUTH0_M2M_REFRESH_SKEW_SECONDS env * 1000 in
  let* (token, ttlMs) := getCached redisKey in
  match usable token ttlMs skewMs with
  | Some t => resolve (accessToken t)
  | None =>
      let* refreshed := refreshWithLock fuel in
      resolve (accessToken refreshed)
  end.

Definition getAuth0M2MAuthorizationHeaderValue (fuel : nat) : Async string :=
  let* _ := requireM2MConfigured in
  let redisKey := AUTH0_M2M_TOKEN_CACHE_KEY env in
  let skewMs := AUTH0_M2M_REFRESH_SKEW_SECONDS env * 1000 in
  let* (token, ttlMs) := getCached redisKey in
  match usable token ttlMs skewMs with
  | Some t => resolve (tokenType t ++ " " ++ accessToken t)%string
  | None =>
      let* refreshed := refreshWithLock fuel in
      resolve (tokenType refreshed ++ " " ++ accessToken refreshed)%string
  end.

End Service.


Arguments usable : simpl never.

(** ** What each step does *)

Section Facts.

Variable env : TokenEnv.
Variable randomUUID : nat -> string.
Variable peers : Z -> Store -> Store.
Variable auth0 : nat -> Z * FetchOutcome.
Variable JSON_parse : string -> option JsValue.
Variable JSON_stringify : JsValue -> string.
Variable toNumber : JsValue -> JsNumber.
Variable builtinMessage : Exn -> string.

Local Abbreviation cacheKey := (AUTH0_M2M_TOKEN_CACHE_KEY env).
Local Abbreviation lockKey := (AUTH0_M2M_TOKEN_LOCK_KEY env).
Local Abbreviation skewMs := (AUTH0_M2M_REFRESH_SKEW_SECONDS env * 1000).
Local Abbreviation getCached := (getCached JSON_parse).
Local Abbreviation fetchToken :=
  (fetchAuth0ClientCredentialsToken env peers auth0 JSON_parse toNumber).
Local Abbreviation refreshWithLock :=
  (refreshWithLock env randomUUID peers auth0 JSON_parse JSON_stringify toNumber
     builtinMessage).
Local Abbreviation getAuth0M2MAccessToken :=
  (getAuth0M2MAccessToken env randomUUID peers auth0 JSON_parse JSON_stringify
     toNumber builtinMessage).

(** The configuration [requireM2MConfigured] asks for. *)
Definition configured : Prop :=
  AUTH0_M2M_ENABLED env = true
  /\ REDIS_ENABLED (redisEnv env) = true
  /\ unset (AUTH0_M2M_TOKEN_URL env) = false
  /\ unset (AUTH0_M2M_CLIENT_ID env) = false
  /\ unset (AUTH0_M2M_CLIENT_SECRET env) = false
  /\ unset (AUTH0_M2M_AUDIENCE env) = false.

Lemma requireM2MConfigured_ok (s : Session) :
  configured -> requireM2MConfigured env s = (Return tt, s).
Proof.
  intros (H1 & H2 & H3 & H4 & H5 & H6). unfold requireM2MConfigured.
  by rewrite H1, H2, H3, H4, H5, H6.
Qed.

Lemma requireM2MConfigured_inv (s : Session) (r : Outcome unit) (s' : Session) :
  requireM2MConfigured env s = (r, s') ->
  s' = s /\ (r = Return tt \/ exists e, r = Throw e).
Proof.
  unfold requireM2MConfigured. intros H.
  repeat match type of H with
         | (if ?b then _ else _) = _ => destruct b
         end; injection H as <- <-; eauto.
Qed.

(** What one [getCached] read: the text under the key and the reply of
    PTTL. *)
Definition readOf (s : Session) (key : string) : TokenEvent :=
  CacheRead key (fst <$> lookupLive s key) (pttlReply s key).

Lemma getCached_inv (key : string) (s : Session)
    (r : Outcome (option CachedToken * Z)) (s' : Session) :
  getCached key s = (r, s') ->
  (client s = false /\ s' = s /\ r = Throw (Error "Redis client not initialized"))
  \/ (client s = true /\ s' = note (readOf s key) s
      /\ match truthy (fst <$> lookupLive s key) with
         | None => r = Return (None, pttlReply s key)
         | Some text =>
             match JSON_parse text with
             | None => r = Throw SyntaxError
             | Some json => r = Return (cachedTokenSchema json, pttlReply s key)
             end
         end).
Proof.
  unfold Auth0M2MToken.getCached, andThen, getRedisClient, readOf.
  destruct (client s); [|intros [= <- <-]; by left].
  intros H. right. split; [done|].
  destruct (truthy (fst <$> lookupLive s key)) as [text|].
  - destruct (JSON_parse text) as [json|]; injection H as <- <-; done.
  - injection H as <- <-. done.
Qed.

Lemma truthy_Some (x : option string) (text : string) :
  truthy x = Some text -> x = Some text /\ text <> ""%string.
Proof. destruct x as [[|c x]|]; [done| |done]. by intros [= <-]. Qed.

Lemma usable_Some (token : option CachedToken) (ttlMs skew : Z) (t : CachedToken) :
  usable token ttlMs skew = Some t -> token = Some t /\ skew < ttlMs.
Proof.
  unfold usable. destruct token as [t'|]; [|done].
  destruct (skew <? ttlMs) eqn:E; [|done]. intros [= ->].
  apply Z.ltb_lt in E. done.
Qed.

(** A read that vouches for a token: the text parses to it and Redis
    reports more than the skew left. *)
Definition vouches (t : CachedToken) (e : TokenEvent) : Prop :=
  exists raw ttlMs json,
    e = CacheRead cacheKey (Some raw) ttlMs
    /\ JSON_parse raw = Some json
    /\ cachedTokenSchema json = Some t
    /\ skewMs < ttlMs.

Lemma getCached_usable (s s' : Session) (token : option CachedToken) (ttlMs : Z)
    (t : CachedToken) :
  getCached cacheKey s = (Return (token, ttlMs), s') ->
  usable token ttlMs skewMs = Some t ->
  s' = note (readOf s cacheKey) s /\ vouches t (readOf s cacheKey).
Proof.
  intros Hrun Husable. apply usable_Some in Husable as [-> Hskew].
  apply getCached_inv in Hrun as [(_ & _ & ?)|(_ & -> & Hr)]; [done|].
  split; [done|].
  destruct (truthy (fst <$> lookupLive s cacheKey)) as [text|] eqn:Htext; [|done].
  apply truthy_Some in Htext as [Htext _].
  destruct (JSON_parse text) as [json|] eqn:Hjson; [|done].
  injection Hr as Hschema ->.
  exists text, (pttlReply s cacheKey), json. unfold readOf. rewrite Htext. done.
Qed.

Lemma getCached_trace (key : string) (s s' : Session)
    (r : Outcome (option CachedToken * Z)) :
  getCached key s = (r, s') ->
  requestsSent s' = requestsSent s
  /\ entries s' = entries s
  /\ (s' = s \/ s' = note (readOf s key) s).
Proof.
  intros H. apply getCached_inv in H as [(_ & -> & _)|(_ & -> & _)]; auto.
Qed.

(** The waiting caller sends no request: what it returns, a read vouches
    for. *)
Lemma waitLoop_vouched (fuel : nat) (started maxWaitMs delay : Z) (s s' : Session)
    (t : CachedToken) :
  waitLoop peers JSON_parse fuel cacheKey skewMs started maxWaitMs delay s
  = (Return t, s') ->
  requestsSent s' = requestsSent s
  /\ exists evs, trace s' = trace s ++ evs /\ Exists (vouches t) evs.
Proof.
  revert delay s. induction fuel as [|fuel IH]; intros delay s; [done|].
  cbn [waitLoop]. unfold andThen at 1, Date_now at 1.
  destruct (nowMs s - started <? maxWaitMs); [|done].
  unfold andThen at 1.
  destruct (getCached cacheKey s) as [[[token ttl]|e|] s1] eqn:Hread; [|done|done].
  destruct (usable token ttl skewMs) as [t'|] eqn:Husable.
  - intros [= -> <-]. destruct (getCached_usable _ _ _ _ _ Hread Husable) as [-> Hv].
    split; [done|]. exists [readOf s cacheKey]. split; [done|].
    by apply Exists_cons_hd.
  - unfold andThen at 1, sleep at 1. intros Hrest.
    apply IH in Hrest as (Hsent & evs & Htrace & Hv).
    apply getCached_trace in Hread as (Hsent1 & _ & Hs1).
    split; [cbn in Hsent; lia|].
    cbn in Htrace.
    destruct Hs1 as [->| ->].
    + exists (Slept delay :: evs). split; [by rewrite Htrace, <- app_assoc|].
      by apply Exists_cons_tl.
    + exists (readOf s cacheKey :: Slept delay :: evs). cbn in Htrace.
      split; [by rewrite Htrace, <- !app_assoc|].
      by apply Exists_cons_tl, Exists_cons_tl.
Qed.

(** ** The holder of the lock *)

Definition sent (s : Session) : Session :=
  {| client := client s; entries := entries s; nowMs := nowMs s;
     uuidsDrawn := uuidsDrawn s; requestsSent := S (requestsSent s);
     lastError := lastError s; trace := trace s |}.

(** The state after the request numbered [requestsSent s], whatever its
    answer is made of. *)
Definition answered (s : Session) : Session :=
  note
    (TokenRequest (requestsSent s) (tokenParams env) (snd (auth0 (requestsSent s))))
    (timePasses peers (fst (auth0 (requestsSent s))) (sent s)).

(** A valid answer of the token endpoint. *)
Definition grants (answer : FetchOutcome) (fetched : Fetched) : Prop :=
  exists status text json,
    answer = Responded status text
    /\ ok status = true
    /\ JSON_parse text = Some json
    /\ tokenResponseSchema toNumber json = Some fetched.

Lemma readResponse_grants (answer : FetchOutcome) (fetched : Fetched) :
  readResponse JSON_parse toNumber answer = Return fetched <-> grants answer fetched.
Proof.
  unfold readResponse, grants. split.
  - destruct answer as [e|status text]; [done|].
    destruct (ok status) eqn:Hok; [|done]. cbn [negb].
    destruct (JSON_parse text) as [json|] eqn:Hjson; [|done].
    destruct (tokenResponseSchema toNumber json) as [f|] eqn:Hschema; [|done].
    intros [= ->]. by exists status, text, json.
  - intros (status & text & json & -> & Hok & Hjson & Hschema).
    by rewrite Hok, Hjson, Hschema.
Qed.

Lemma readResponse_ends (answer : FetchOutcome) :
  readResponse JSON_parse toNumber answer <> Diverged.
Proof.
  unfold readResponse. destruct answer as [e|status text]; [done|].
  destruct (negb (ok status)); [done|].
  destruct (JSON_parse text) as [json|]; [|done].
  by destruct (tokenResponseSchema toNumber json).
Qed.

Lemma fetchToken_configured (s : Session) :
  configured ->
  fetchToken s
  = (readResponse JSON_parse toNumber (snd (auth0 (requestsSent s))), answered s).
Proof.
  intros Hconf. unfold fetchAuth0ClientCredentialsToken, andThen, answered.
  rewrite requireM2MConfigured_ok by done.
  by destruct (auth0 (requestsSent s)) as [took answer].
Qed.

Lemma fetchToken_inv (s : Session) (r : Outcome Fetched) (s' : Session) :
  fetchToken s = (r, s') ->
  (s' = s /\ exists e, r = Throw e)
  \/ (s' = answered s
      /\ r = readResponse JSON_parse toNumber (snd (auth0 (requestsSent s)))).
Proof.
  unfold fetchAuth0ClientCredentialsToken, andThen, answered.
  destruct (requireM2MConfigured env s) as [[[]|e|] s0] eqn:Hreq;
    apply requireM2MConfigured_inv in Hreq as [-> [?|[? ?]]]; try done.
  2: { intros [= <- <-]. left. eauto. }
  destruct (auth0 (requestsSent s)) as [took answer]. cbn [fst snd].
  intros [= <- <-]. by right.
Qed.

Lemma setCached_inv (key : string) (token : CachedToken) (ttlMs : Z)
    (s : Session) (r : Outcome unit) (s' : Session) :
  setCached JSON_stringify key token ttlMs s = (r, s') ->
  (s' = s /\ exists e, r = Throw e)
  \/ (r = Return tt
      /\ client s = true /\ invalidExpire s ttlMs = false
      /\ s' = note (CacheWrite key (JSON_stringify (tokenJson token)) ttlMs)
                (setEntries
                   (<[key := (JSON_stringify (tokenJson token), Some (nowMs s + ttlMs))]>
                      (entries s)) s)).
Proof.
  unfold setCached, andThen, getRedisClient.
  destruct (client s); [|intros [= <- <-]; left; eauto].
  destruct (invalidExpire s ttlMs); intros [= <- <-]; [left; eauto|by right].
Qed.

Lemma acquireLock_inv (key : string) (ttlMs : Z) (s : Session)
    (r : Outcome (option string)) (s' : Session) :
  acquireLock randomUUID key ttlMs s = (r, s') ->
  requestsSent s' = requestsSent s
  /\ lastError s' = lastError s
  /\ nowMs s' = nowMs s
  /\ client s' = client s
  /\ exists evs, trace s' = trace s ++ evs
       /\ Forall (fun e => forall n p a, e <> TokenRequest n p a) evs
       /\ Forall (fun e => forall k v t, e <> CacheWrite k v t) evs.
Proof.
  unfold acquireLock, andThen, getRedisClient.
  destruct (client s) eqn:Hclient.
  2: { intros [= <- <-]. repeat split; try done. exists []. by rewrite app_nil_r. }
  match goal with |- context [invalidExpire ?s1 ttlMs] => destruct (invalidExpire s1 ttlMs) end.
  { intros [= <- <-]. repeat split; try done. exists []. by rewrite app_nil_r. }
  match goal with |- context [lookupLive ?s1 key] => destruct (lookupLive s1 key) end;
    intros [= <- <-]; (repeat split; try done); eexists [_]; (split; [done|]);
    split; by repeat constructor.
Qed.

Lemma releaseLock_inv (key value : string) (s : Session) (r : Outcome unit)
    (s' : Session) :
  orUndefined (releaseLock key value) s = (r, s') ->
  r = Return tt
  /\ requestsSent s' = requestsSent s
  /\ lastError s' = lastError s
  /\ nowMs s' = nowMs s
  /\ (forall other, other <> key -> entries s' !! other = entries s !! other)
  /\ (client s = true -> fst <$> lookupLive s' key <> Some value)
  /\ exists evs, trace s' = trace s ++ evs
       /\ Forall (fun e => forall n p a, e <> TokenRequest n p a) evs
       /\ Forall (fun e => forall k v t, e <> CacheWrite k v t) evs.
Proof.
  unfold orUndefined, releaseLock, andThen, getRedisClient.
  destruct (client s) eqn:Hclient.
  2: { intros [= <- <-]. repeat split; try done. exists []. by rewrite app_nil_r. }
  destruct (decide (fst <$> lookupLive s key = Some value)) as [Hheld|Hfree];
    intros [= <- <-].
  - split; [done|]. split; [done|]. split; [done|]. split; [done|].
    split; [|split].
    + intros other Hother. cbn [entries note setEntries].
      by rewrite lookup_delete_ne.
    + intros _. unfold lookupLive. cbn [entries note setEntries].
      by rewrite lookup_delete_eq.
    + eexists [_]. split; [done|]. split; by repeat constructor.
  - split; [done|]. split; [done|]. split; [done|]. split; [done|].
    split; [done|]. split; [done|].
    eexists [_]. split; [done|]. split; by repeat constructor.
Qed.

(** A token the call has fetched and stored for its lifetime. *)
Definition minted (t : CachedToken) (evs : list TokenEvent) : Prop :=
  exists n answer fetched,
    TokenRequest n (tokenParams env) answer ∈ evs
    /\ grants answer fetched
    /\ accessToken t = fetchedAccessToken fetched
    /\ tokenType t = fetchedTokenType fetched
    /\ CacheWrite cacheKey (JSON_stringify (tokenJson t))
         (Z.max 1 (expiresInSeconds fetched * 1000)) ∈ evs.

Lemma refreshUnderLock_sources (s s' : Session) (t : CachedToken) :
  refreshUnderLock env peers auth0 JSON_parse JSON_stringify toNumber cacheKey skewMs s
  = (Return t, s') ->
  exists evs,
    trace s' = trace s ++ evs
    /\ ((Exists (vouches t) evs /\ requestsSent s' = requestsSent s)
        \/ (minted t evs /\ requestsSent s' = S (requestsSent s))).
Proof.
  unfold refreshUnderLock. unfold andThen at 1.
  destruct (getCached cacheKey s) as [[[again ttl]|e|] s1] eqn:Hread; [|done|done].
  destruct (usable again ttl skewMs) as [t'|] eqn:Husable.
  { intros [= -> <-]. destruct (getCached_usable _ _ _ _ _ Hread Husable) as [-> Hv].
    exists [readOf s cacheKey]. split; [done|]. left. split; [|done].
    by apply Exists_cons_hd. }
  apply getCached_trace in Hread as (Hsent1 & _ & Hs1).
  unfold andThen at 1.
  destruct (fetchToken s1) as [[fetched|e|] s2] eqn:Hfetch; [|done|done].
  apply fetchToken_inv in Hfetch as [[_ [? ?]]|[-> Hgrants]]; [done|].
  symmetry in Hgrants. apply readResponse_grants in Hgrants.
  unfold andThen at 1, Date_now at 1. unfold andThen at 1.
  match goal with
  | |- context [setCached JSON_stringify cacheKey ?tok ?ttl (answered s1)] =>
      destruct (setCached JSON_stringify cacheKey tok ttl (answered s1))
        as [[[]|e|] s3] eqn:Hset; [|done|done];
      apply setCached_inv in Hset as [[_ [? ?]]|(_ & _ & _ & ->)]; [done|]
  end.
  intros [= <- <-].
  set (request := TokenRequest (requestsSent s1) (tokenParams env)
                    (snd (auth0 (requestsSent s1)))).
  match goal with
  | |- context [CacheWrite cacheKey ?v ?ttl] => set (write := CacheWrite cacheKey v ttl)
  end.
  destruct Hs1 as [->| ->].
  - exists [request; write]. split; [by cbn; rewrite <- app_assoc|]. right.
    split; [|cbn; lia].
    exists (requestsSent s), (snd (auth0 (requestsSent s))), fetched.
    split; [apply list_elem_of_here|]. split; [done|]. split; [done|]. split; [done|].
    apply list_elem_of_further, list_elem_of_here.
  - exists [readOf s cacheKey; request; write].
    split; [by cbn; rewrite <- !app_assoc|]. right.
    split; [|cbn; lia].
    exists (requestsSent s), (snd (auth0 (requestsSent s))), fetched.
    split; [apply list_elem_of_further, list_elem_of_here|].
    split; [done|]. split; [done|]. split; [done|].
    apply list_elem_of_further, list_elem_of_further, list_elem_of_here.
Qed.

(** Where a token handed out between [s] and [s'] comes from: a read that
    vouches for it, and then no request was sent; or the one request the
    call has sent, and then it was stored. *)
Definition sourced (t : CachedToken) (s s' : Session) : Prop :=
  exists evs,
    trace s' = trace s ++ evs
    /\ ((Exists (vouches t) evs /\ requestsSent s' = requestsSent s)
        \/ (minted t evs /\ requestsSent s' = S (requestsSent s))).

Lemma minted_app (t : CachedToken) (before evs after : list TokenEvent) :
  minted t evs -> minted t (before ++ evs ++ after).
Proof.
  intros (n & answer & fetched & Hrequest & Hgrants & Ha & Ht & Hwrite).
  exists n, answer, fetched. rewrite !elem_of_app. auto 10.
Qed.

Lemma sourced_widen (t : CachedToken) (s0 s s' s1 : Session)
    (before after : list TokenEvent) :
  trace s = trace s0 ++ before -> requestsSent s = requestsSent s0 ->
  trace s1 = trace s' ++ after -> requestsSent s1 = requestsSent s' ->
  sourced t s s' -> sourced t s0 s1.
Proof.
  intros Hbefore Hsent0 Hafter Hsent1 (evs & Htrace & Hsource).
  exists (before ++ evs ++ after). split.
  { rewrite Hafter, Htrace, Hbefore. by rewrite <- !app_assoc. }
  destruct Hsource as [[Hv Hsent]|[Hm Hsent]]; [left|right].
  - split; [|congruence]. rewrite !Exists_app. auto.
  - split; [by apply minted_app|congruence].
Qed.

Lemma getCached_before (key : string) (s s' : Session)
    (r : Outcome (option CachedToken * Z)) :
  getCached key s = (r, s') ->
  requestsSent s' = requestsSent s /\ exists evs, trace s' = trace s ++ evs.
Proof.
  intros H. apply getCached_trace in H as (Hsent & _ & [->| ->]).
  - split; [done|]. exists []. by rewrite app_nil_r.
  - split; [done|]. by eexists [_].
Qed.

Lemma refreshWithLock_sourced (fuel : nat) (s s' : Session) (t : CachedToken) :
  refreshWithLock fuel s = (Return t, s') -> sourced t s s'.
Proof.
  unfold Auth0M2MToken.refreshWithLock. unfold andThen at 1.
  destruct (requireM2MConfigured env s) as [[[]|e|] s0] eqn:Hreq;
    apply requireM2MConfigured_inv in Hreq as [-> _]; [|done|done].
  unfold andThen at 1.
  destruct (getCached cacheKey s) as [[[cached ttl]|e|] s1] eqn:Hread; [|done|done].
  destruct (usable cached ttl skewMs) as [t'|] eqn:Husable.
  { intros [= -> <-]. destruct (getCached_usable _ _ _ _ _ Hread Husable) as [-> Hv].
    exists [readOf s cacheKey]. split; [done|]. left. split; [|done].
    by apply Exists_cons_hd. }
  apply getCached_before in Hread as (Hsent1 & evs1 & Htrace1).
  unfold andThen at 1.
  destruct (acquireLock randomUUID lockKey (AUTH0_M2M_TOKEN_LOCK_TTL_MS env) s1)
    as [[lockValue|e|] s2] eqn:Hlock; [|done|done].
  apply acquireLock_inv in Hlock as (Hsent2 & _ & _ & _ & evs2 & Htrace2 & _).
  assert (trace s2 = trace s ++ (evs1 ++ evs2)) as Htrace.
  { by rewrite Htrace2, Htrace1, <- app_assoc. }
  assert (requestsSent s2 = requestsSent s) as Hsent by congruence.
  destruct (truthy lockValue) as [held|].
  - unfold tryFinally.
    destruct (recordError builtinMessage
                (refreshUnderLock env peers auth0 JSON_parse JSON_stringify toNumber
                   cacheKey skewMs) s2) as [r3 s3] eqn:Hbody.
    destruct (orUndefined (releaseLock lockKey held) s3) as [r4 s4] eqn:Hrelease.
    apply releaseLock_inv in Hrelease
      as (-> & Hsent4 & _ & _ & _ & _ & evs4 & Htrace4 & _).
    unfold recordError in Hbody.
    destruct (refreshUnderLock env peers auth0 JSON_parse JSON_stringify toNumber
                cacheKey skewMs s2) as [[t3|e3|] s3'] eqn:Hunder;
      injection Hbody as <- <-; [|done|done].
    intros [= -> <-].
    apply refreshUnderLock_sources in Hunder.
    by apply (sourced_widen t s s2 s3' s4 (evs1 ++ evs2) evs4).
  - unfold andThen at 1, Date_now at 1. intros Hwait.
    apply waitLoop_vouched in Hwait as (Hsent3 & evs3 & Htrace3 & Hv).
    apply (sourced_widen t s s2 s' s' (evs1 ++ evs2) []); try done.
    + by rewrite app_nil_r.
    + exists evs3. split; [done|]. by left.
Qed.

(** X27. A token that [getAuth0M2MAccessToken] returns is never one
    that Redis reports as within the skew of its expiry, nor one the call
    has made up: either a read of this call found it in the cache with more
    than the skew left, and then the call sent the endpoint nothing; or the
    call sent exactly one request, the endpoint granted the token, and the
    call stored it for [max(1, expires_in * 1000)] milliseconds. *)
Theorem getAuth0M2MAccessToken_sourced (fuel : nat) (s s' : Session) (a : string) :
  getAuth0M2MAccessToken fuel s = (Return a, s') ->
  exists t, accessToken t = a /\ sourced t s s'.
Proof.
  unfold Auth0M2MToken.getAuth0M2MAccessToken. unfold andThen at 1.
  destruct (requireM2MConfigured env s) as [[[]|e|] s0] eqn:Hreq;
    apply requireM2MConfigured_inv in Hreq as [-> _]; [|done|done].
  unfold andThen at 1.
  destruct (getCached cacheKey s) as [[[cached ttl]|e|] s1] eqn:Hread; [|done|done].
  destruct (usable cached ttl skewMs) as [t|] eqn:Husable.
  { intros [= <- <-]. destruct (getCached_usable _ _ _ _ _ Hread Husable) as [-> Hv].
    exists t. split; [done|].
    exists [readOf s cacheKey]. split; [done|]. left. split; [|done].
    by apply Exists_cons_hd. }
  apply getCached_before in Hread as (Hsent1 & evs1 & Htrace1).
  unfold andThen at 1.
  destruct (refreshWithLock fuel s1) as [[t|e|] s2] eqn:Hrefresh; [|done|done].
  intros [= <- <-]. exists t. split; [done|].
  apply refreshWithLock_sourced in Hrefresh.
  apply (sourced_widen t s s1 s2 s2 evs1 []); try done.
  by rewrite app_nil_r.
Qed.

(** ** Refresh and reuse *)

(** The cache has nothing to offer: no text under the key, or a text that
    parses to something that is not a token, or to a token of which Redis
    reports no more than the skew left. *)
Definition stale (s : Session) : Prop :=
  match truthy (fst <$> lookupLive s cacheKey) with
  | None => True
  | Some text =>
      match JSON_parse text with
      | None => False
      | Some json =>
          usable (cachedTokenSchema json) (pttlReply s cacheKey) skewMs = None
      end
  end.

Lemma liveEntry_same (key : string) (s s' : Session) :
  entries s' !! key = entries s !! key -> nowMs s' = nowMs s ->
  lookupLive s' key = lookupLive s key.
Proof. unfold lookupLive. by intros -> ->. Qed.

Lemma stale_same (s s' : Session) :
  entries s' !! cacheKey = entries s !! cacheKey -> nowMs s' = nowMs s ->
  stale s -> stale s'.
Proof.
  intros Hentry Hnow. unfold stale, pttlReply.
  rewrite (liveEntry_same cacheKey s s') by done. by rewrite Hnow.
Qed.

Lemma getCached_stale (s : Session) :
  client s = true -> stale s ->
  exists token ttlMs,
    getCached cacheKey s = (Return (token, ttlMs), note (readOf s cacheKey) s)
    /\ usable token ttlMs skewMs = None.
Proof.
  intros Hclient Hstale. unfold stale in Hstale.
  unfold Auth0M2MToken.getCached, andThen, getRedisClient. rewrite Hclient.
  fold (readOf s cacheKey).
  destruct (truthy (fst <$> lookupLive s cacheKey)) as [text|].
  - destruct (JSON_parse text) as [json|]; [|done]. by eexists _, _.
  - by exists None, (pttlReply s cacheKey).
Qed.

Definition drawn (s : Session) : Session :=
  {| client := client s; entries := entries s; nowMs := nowMs s;
     uuidsDrawn := S (uuidsDrawn s); requestsSent := requestsSent s;
     lastError := lastError s; trace := trace s |}.

Lemma acquireLock_free (key : string) (ttlMs : Z) (s : Session) :
  client s = true -> lookupLive s key = None -> invalidExpire s ttlMs = false ->
  acquireLock randomUUID key ttlMs s
  = (Return (Some (randomUUID (uuidsDrawn s))),
     note (LockTry key (randomUUID (uuidsDrawn s)) ttlMs true)
       (setEntries
          (<[key := (randomUUID (uuidsDrawn s), Some (nowMs s + ttlMs))]> (entries s))
          (drawn s))).
Proof.
  intros Hclient Hfree Hvalid. unfold acquireLock, andThen, getRedisClient.
  rewrite Hclient. fold (drawn s).
  change (invalidExpire (drawn s) ttlMs) with (invalidExpire s ttlMs).
  change (lookupLive (drawn s) key) with (lookupLive s key).
  by rewrite Hvalid, Hfree.
Qed.

Lemma fetchToken_grants (s : Session) (fetched : Fetched) :
  configured -> grants (snd (auth0 (requestsSent s))) fetched ->
  fetchToken s = (Return fetched, answered s).
Proof.
  intros Hconf Hgrants. rewrite fetchToken_configured by done.
  apply readResponse_grants in Hgrants. by rewrite Hgrants.
Qed.

Lemma setCached_valid (key : string) (token : CachedToken) (ttlMs : Z) (s : Session) :
  client s = true -> invalidExpire s ttlMs = false ->
  setCached JSON_stringify key token ttlMs s
  = (Return tt,
     note (CacheWrite key (JSON_stringify (tokenJson token)) ttlMs)
       (setEntries
          (<[key := (JSON_stringify (tokenJson token), Some (nowMs s + ttlMs))]>
             (entries s)) s)).
Proof.
  intros Hclient Hvalid. unfold setCached, andThen, getRedisClient.
  by rewrite Hclient, Hvalid.
Qed.

Lemma Qred_inject_Z (z : Z) : Qred (inject_Z z) = inject_Z z.
Proof.
  unfold Qred, inject_Z.
  pose proof (Z.ggcd_gcd z 1) as Hgcd.
  pose proof (Z.ggcd_correct_divisors z 1) as Hdiv.
  destruct (Z.ggcd z 1) as [g [aa bb]]. cbn [fst snd] in *.
  rewrite Z.gcd_1_r in Hgcd. subst g. destruct Hdiv as [Ha Hb].
  assert (aa = z) as -> by lia. assert (bb = 1) as -> by lia. done.
Qed.

Lemma intPositive_inject_Z (z : Z) :
  0 < z -> intPositive (JsFinite (inject_Z z)) = Some z.
Proof.
  intros Hz. unfold intPositive. rewrite Qred_inject_Z. cbn.
  destruct (0 <? z) eqn:E; [done|]. apply Z.ltb_ge in E. lia.
Qed.

Lemma stringMin1_Some (x : JsValue) (text : string) :
  stringMin1 x = Some text -> x = JString text /\ text <> ""%string.
Proof.
  destruct x; try done. cbn. case_decide; [done|]. by intros [= <-].
Qed.

Lemma tokenResponseSchema_nonempty (json : JsValue) (fetched : Fetched) :
  tokenResponseSchema toNumber json = Some fetched ->
  fetchedAccessToken fetched <> ""%string /\ fetchedTokenType fetched <> ""%string.
Proof.
  unfold tokenResponseSchema. destruct json as [| | | | | | |props]; try done.
  destruct (stringMin1 (objGet props "access_token")) as [a|] eqn:Ha; [|done].
  apply stringMin1_Some in Ha as [_ Ha].
  destruct (objGet props "token_type") eqn:Htype; cbn [option_map stringMin1];
    try done.
  - destruct (intPositive _); [|done]. by intros [= <-].
  - case_decide; [done|]. cbn [option_map].
    destruct (intPositive _); [|done]. by intros [= <-].
Qed.

(** What [setCached] writes, [cachedTokenSchema] accepts. *)
Lemma cachedTokenSchema_tokenJson (token : CachedToken) :
  accessToken token <> ""%string -> tokenType token <> ""%string ->
  0 < expiresAtMs token ->
  cachedTokenSchema (tokenJson token) = Some token.
Proof.
  intros Ha Ht He. destruct token as [a t e]. cbn [accessToken tokenType expiresAtMs] in *.
  unfold cachedTokenSchema, tokenJson. cbn [objGet].
  repeat (case_decide; [try done|try done]).
  cbn [stringMin1]. rewrite decide_False by done.
  destruct t as [|c t]; [done|]. rewrite decide_False by done.
  by rewrite intPositive_inject_Z.
Qed.

(** A read that finds the stored token with more than the skew left. *)
Lemma getAuth0M2MAccessToken_cached (fuel : nat) (s : Session) (token : CachedToken)
    (expiry : Z) :
  configured -> 0 <= skewMs -> client s = true ->
  entries s !! cacheKey = Some (JSON_stringify (tokenJson token), Some expiry) ->
  JSON_stringify (tokenJson token) <> ""%string ->
  JSON_parse (JSON_stringify (tokenJson token)) = Some (tokenJson token) ->
  cachedTokenSchema (tokenJson token) = Some token ->
  nowMs s + skewMs < expiry ->
  getAuth0M2MAccessToken fuel s
  = (Return (accessToken token), note (readOf s cacheKey) s).
Proof.
  intros Hconf Hskew Hclient Hentry Htext Hparse Hschema Hfresh.
  unfold Auth0M2MToken.getAuth0M2MAccessToken. unfold andThen at 1.
  rewrite requireM2MConfigured_ok by done. unfold andThen at 1.
  assert (lookupLive s cacheKey = Some (JSON_stringify (tokenJson token), Some expiry))
    as Hlive.
  { unfold lookupLive. rewrite Hentry.
    destruct (expiry <? nowMs s) eqn:E; [apply Z.ltb_lt in E; lia|done]. }
  unfold Auth0M2MToken.getCached, andThen, getRedisClient. rewrite Hclient.
  fold (readOf s cacheKey). unfold pttlReply. rewrite Hlive. cbn [fmap option_fmap option_map fst].
  rewrite truthy_nonempty by done. rewrite Hparse, Hschema.
  unfold usable. destruct (skewMs <? expiry - nowMs s) eqn:E; [done|].
  apply Z.ltb_ge in E. lia.
Qed.

(** X28. A token fetched is stored for its lifetime and reused
    until Redis reports no more than the skew left of it. *)
Theorem getAuth0M2MAccessToken_refresh_then_reuse (fuel : nat) (s : Session)
    (fetched : Fetched) :
  configured -> cacheKey <> lockKey -> 0 <= skewMs ->
  client s = true -> stale s -> lookupLive s lockKey = None ->
  randomUUID (uuidsDrawn s) <> ""%string ->
  invalidExpire s (AUTH0_M2M_TOKEN_LOCK_TTL_MS env) = false ->
  grants (snd (auth0 (requestsSent s))) fetched ->
  let stored := nowMs s + fst (auth0 (requestsSent s)) in
  let ttlMs := Z.max 1 (expiresInSeconds fetched * 1000) in
  let token :=
    {| accessToken := fetchedAccessToken fetched;
       tokenType := fetchedTokenType fetched;
       expiresAtMs := stored + ttlMs |} in
  let text := JSON_stringify (tokenJson token) in
  0 <= stored -> ttlMs < 2 ^ 63 - stored ->
  text <> ""%string -> JSON_parse text = Some (tokenJson token) ->
  exists s1,
    getAuth0M2MAccessToken fuel s = (Return (fetchedAccessToken fetched), s1)
    /\ requestsSent s1 = S (requestsSent s)
    /\ entries s1 !! cacheKey = Some (text, Some (stored + ttlMs))
    /\ nowMs s1 = stored
    /\ lastError s1 = None
    /\ fst <$> lookupLive s1 lockKey <> Some (randomUUID (uuidsDrawn s))
    /\ forall fuel' s2,
         client s2 = true ->
         entries s2 !! cacheKey = Some (text, Some (stored + ttlMs)) ->
         (nowMs s2 + skewMs < stored + ttlMs ->
          getAuth0M2MAccessToken fuel' s2
          = (Return (fetchedAccessToken fetched), note (readOf s2 cacheKey) s2))
         /\ (stored + ttlMs <= nowMs s2 + skewMs -> stale s2).
Proof.
  intros Hconf Hkeys Hskew Hclient Hstale Hfree Huuid Hlockttl Hgrants
    stored ttlMs token text Hstored Hvalid Htext Hparse.
  assert (cachedTokenSchema (tokenJson token) = Some token) as Hschema.
  { destruct Hgrants as (status & body & json & _ & _ & _ & Hjson).
    apply tokenResponseSchema_nonempty in Hjson as [Ha Ht].
    apply cachedTokenSchema_tokenJson; cbn; [done|done|lia]. }
  set (u := randomUUID (uuidsDrawn s)) in *.
  (* the first read *)
  destruct (getCached_stale s Hclient Hstale) as (tok0 & ttl0 & Hread0 & Hunusable0).
  set (s1 := note (readOf s cacheKey) s) in *.
  (* the read of [refreshWithLock] *)
  assert (stale s1) as Hstale1 by (by apply (stale_same s)).
  destruct (getCached_stale s1 Hclient Hstale1) as (tok1 & ttl1 & Hread1 & Hunusable1).
  set (s2 := note (readOf s1 cacheKey) s1) in *.
  (* the lock *)
  pose proof (acquireLock_free lockKey (AUTH0_M2M_TOKEN_LOCK_TTL_MS env) s2
                Hclient Hfree Hlockttl) as Hlock.
  change (randomUUID (uuidsDrawn s2)) with u in Hlock.
  set (s3 := note (LockTry lockKey u (AUTH0_M2M_TOKEN_LOCK_TTL_MS env) true) _)
    in Hlock.
  (* the read under the lock *)
  assert (stale s3) as Hstale3.
  { apply (stale_same s); [|done|done]. subst s3. cbn [entries note setEntries].
    by rewrite lookup_insert_ne. }
  destruct (getCached_stale s3 Hclient Hstale3) as (tok3 & ttl3 & Hread3 & Hunusable3).
  set (s4 := note (readOf s3 cacheKey) s3) in *.
  (* the request *)
  pose proof (fetchToken_grants s4 fetched Hconf Hgrants) as Hfetch.
  set (s5 := answered s4) in *.
  assert (nowMs s5 = stored) as Hnow5 by done.
  (* the write *)
  assert (invalidExpire s5 ttlMs = false) as Hvalid5.
  { unfold invalidExpire. rewrite Hnow5.
    destruct (ttlMs <=? 0) eqn:E1; [apply Z.leb_le in E1; lia|].
    destruct (2 ^ 63 - stored <=? ttlMs) eqn:E2; [apply Z.leb_le in E2; lia|done]. }
  pose proof (setCached_valid cacheKey token ttlMs s5 Hclient Hvalid5) as Hset.
  fold text in Hset. rewrite Hnow5 in Hset.
  set (s6 := note (CacheWrite cacheKey text ttlMs) _) in Hset.
  (* the release *)
  destruct (orUndefined (releaseLock lockKey u) (setLastError None s6))
    as [r7 s7] eqn:Hrelease.
  pose proof Hrelease as Hrel.
  apply releaseLock_inv in Hrel
    as (-> & Hsent7 & Herror7 & Hnow7 & Hother7 & Hgone7 & _).
  exists s7. split.
  { unfold Auth0M2MToken.getAuth0M2MAccessToken. unfold andThen at 1.
    rewrite requireM2MConfigured_ok by done. unfold andThen at 1.
    rewrite Hread0, Hunusable0. unfold andThen at 1.
    unfold Auth0M2MToken.refreshWithLock. unfold andThen at 1.
    rewrite requireM2MConfigured_ok by done. unfold andThen at 1.
    rewrite Hread1, Hunusable1. unfold andThen at 1.
    rewrite Hlock. rewrite truthy_nonempty by done.
    unfold tryFinally, recordError, refreshUnderLock. unfold andThen at 1.
    rewrite Hread3, Hunusable3. unfold andThen at 1.
    rewrite Hfetch. unfold andThen at 1, Date_now at 1. unfold andThen at 1.
    rewrite Hnow5. fold stored ttlMs token. rewrite Hset.
    rewrite Hrelease. done. }
  split; [by rewrite Hsent7|].
  split; [rewrite Hother7 by done; subst s6; cbn [entries setLastError note setEntries];
          by rewrite lookup_insert_eq|].
  split; [by rewrite Hnow7|].
  split; [by rewrite Herror7|].
  split; [by apply Hgone7|].
  intros fuel' s' Hclient' Hentry'. split.
  - intros Hfresh.
    apply (getAuth0M2MAccessToken_cached fuel' s' token (stored + ttlMs)); done.
  - intros Hold. unfold stale.
    destruct (truthy (fst <$> lookupLive s' cacheKey)) as [raw|] eqn:Hraw; [|done].
    apply truthy_Some in Hraw as [Hraw _].
    unfold pttlReply. unfold lookupLive in *. rewrite Hentry' in *.
    destruct (stored + ttlMs <? nowMs s') eqn:E; [done|].
    cbn in Hraw. injection Hraw as <-. rewrite Hparse, Hschema.
    unfold usable. destruct (skewMs <? stored + ttlMs - nowMs s') eqn:E1; [|done].
    apply Z.ltb_lt in E1. lia.
Qed.

(** X29. A refresh that the endpoint does not grant fails with
    the error of the request, after exactly one request; the message is kept
    in [lastError], no token is written (the entry under the cache key is
    what the other clients have left there), and the lock is given back. *)
Theorem getAuth0M2MAccessToken_failed_refresh (fuel : nat) (s : Session) (e : Exn) :
  configured -> cacheKey <> lockKey ->
  client s = true -> stale s -> lookupLive s lockKey = None ->
  randomUUID (uuidsDrawn s) <> ""%string ->
  invalidExpire s (AUTH0_M2M_TOKEN_LOCK_TTL_MS env) = false ->
  readResponse JSON_parse toNumber (snd (auth0 (requestsSent s))) = Throw e ->
  let held := randomUUID (uuidsDrawn s) in
  let locked :=
    <[lockKey := (held, Some (nowMs s + AUTH0_M2M_TOKEN_LOCK_TTL_MS env))]> (entries s) in
  exists s1,
    getAuth0M2MAccessToken fuel s = (Throw e, s1)
    /\ requestsSent s1 = S (requestsSent s)
    /\ lastError s1 = Some (errorMessage builtinMessage e)
    /\ entries s1 !! cacheKey
       = peers (nowMs s + fst (auth0 (requestsSent s))) locked !! cacheKey
    /\ fst <$> lookupLive s1 lockKey <> Some held.
Proof.
  intros Hconf Hkeys Hclient Hstale Hfree Huuid Hlockttl Hanswer held locked.
  destruct (getCached_stale s Hclient Hstale) as (tok0 & ttl0 & Hread0 & Hunusable0).
  set (s1 := note (readOf s cacheKey) s) in *.
  assert (stale s1) as Hstale1 by (by apply (stale_same s)).
  destruct (getCached_stale s1 Hclient Hstale1) as (tok1 & ttl1 & Hread1 & Hunusable1).
  set (s2 := note (readOf s1 cacheKey) s1) in *.
  pose proof (acquireLock_free lockKey (AUTH0_M2M_TOKEN_LOCK_TTL_MS env) s2
                Hclient Hfree Hlockttl) as Hlock.
  change (randomUUID (uuidsDrawn s2)) with held in Hlock.
  set (s3 := note (LockTry lockKey held (AUTH0_M2M_TOKEN_LOCK_TTL_MS env) true) _)
    in Hlock.
  assert (stale s3) as Hstale3.
  { apply (stale_same s); [|done|done]. subst s3. cbn [entries note setEntries].
    by rewrite lookup_insert_ne. }
  destruct (getCached_stale s3 Hclient Hstale3) as (tok3 & ttl3 & Hread3 & Hunusable3).
  set (s4 := note (readOf s3 cacheKey) s3) in *.
  pose proof (fetchToken_configured s4 Hconf) as Hfetch.
  change (requestsSent s4) with (requestsSent s) in Hfetch. rewrite Hanswer in Hfetch.
  set (s5 := answered s4) in *.
  destruct (orUndefined (releaseLock lockKey held)
              (setLastError (Some (errorMessage builtinMessage e)) s5))
    as [r6 s6] eqn:Hrelease.
  pose proof Hrelease as Hrel.
  apply releaseLock_inv in Hrel
    as (-> & Hsent6 & Herror6 & Hnow6 & Hother6 & Hgone6 & _).
  exists s6. split.
  { unfold Auth0M2MToken.getAuth0M2MAccessToken. unfold andThen at 1.
    rewrite requireM2MConfigured_ok by done. unfold andThen at 1.
    rewrite Hread0, Hunusable0. unfold andThen at 1.
    unfold Auth0M2MToken.refreshWithLock. unfold andThen at 1.
    rewrite requireM2MConfigured_ok by done. unfold andThen at 1.
    rewrite Hread1, Hunusable1. unfold andThen at 1.
    rewrite Hlock. rewrite truthy_nonempty by done.
    unfold tryFinally, recordError, refreshUnderLock. unfold andThen at 1.
    rewrite Hread3, Hunusable3. unfold andThen at 1.
    rewrite Hfetch. rewrite Hrelease. done. }
  split; [by rewrite Hsent6|].
  split; [by rewrite Herror6|].
  split; [by rewrite Hother6|].
  by apply Hgone6.
Qed.

End Facts.

(** ** A tenant that grants one token and is then unavailable *)

Definition tenantEnv : TokenEnv :=
  {| redisEnv := {| CACHE_ENABLED := true; REDIS_ENABLED := true;
                    CACHE_LOCK_TTL_MS := 5000; MYSQL_ENABLED := true;
                    PRODUCTS_LIST_CACHE_TTL_SECONDS := 30 |};
     AUTH0_M2M_ENABLED := true;
     AUTH0_M2M_TOKEN_URL := Some "https://tenant.example/oauth/token"%string;
     AUTH0_M2M_CLIENT_ID := Some "client"%string;
     AUTH0_M2M_CLIENT_SECRET := Some "secret"%string;
     AUTH0_M2M_AUDIENCE := Some "https://api.example"%string;
     AUTH0_M2M_SCOPE := None;
     AUTH0_M2M_TOKEN_CACHE_KEY := "auth0:m2m:access_token";
     AUTH0_M2M_TOKEN_LOCK_KEY := "auth0:m2m:access_token:lock";
     AUTH0_M2M_TOKEN_LOCK_TTL_MS := 10000;
     AUTH0_M2M_REFRESH_SKEW_SECONDS := 60 |}.

Definition demoUUID (n : nat) : string := ("uuid-" ++ showInt (Z.of_nat n))%string.

Definition demoAuth0 (n : nat) : Z * FetchOutcome :=
  match n with
  | O => (200, Responded 200 "granted")
  | _ => (100, Responded 503 "unavailable")
  end.

Definition demoToken : CachedToken :=
  {| accessToken := "abc"; tokenType := "Bearer"; expiresAtMs := 3601200 |}.

Definition demoParse (text : string) : option JsValue :=
  if decide (text = "granted"%string)
  then Some (JObject [("access_token", JString "abc");
                      ("expires_in", JNumber (JsFinite 3600))]%string)
  else if decide (text = "stored"%string) then Some (tokenJson demoToken)
  else None.

Definition demoStringify (_ : JsValue) : string := "stored".

Definition demoNumber (x : JsValue) : JsNumber :=
  match x with
  | JNumber n => n
  | _ => JsNaN
  end.

Definition demoMessage (_ : Exn) : string := "error".

Definition demoSession : Session :=
  {| client := true; entries := ∅; nowMs := 1000; uuidsDrawn := 0;
     requestsSent := 0; lastError := None; trace := [] |}.

(** The same process later: one request sent, the cache empty again. *)
Definition laterSession : Session :=
  {| client := true; entries := ∅; nowMs := 4000000; uuidsDrawn := 1;
     requestsSent := 1; lastError := None; trace := [] |}.

Definition demoRun (fuel : nat) : Async string :=
  getAuth0M2MAccessToken tenantEnv demoUUID (fun _ store => store) demoAuth0
    demoParse demoStringify demoNumber demoMessage fuel.

Lemma getAuth0M2MAccessToken_sourced_witness :
  exists t,
    accessToken t = "abc"%string
    /\ sourced tenantEnv demoParse demoStringify demoNumber t
         demoSession (snd (demoRun 5 demoSession)).
Proof.
  refine (getAuth0M2MAccessToken_sourced tenantEnv demoUUID (fun _ store => store)
            demoAuth0 demoParse demoStringify demoNumber demoMessage
            5 demoSession (snd (demoRun 5 demoSession)) "abc" _).
  vm_compute. reflexivity.
Defined.

Lemma getAuth0M2MAccessToken_refresh_then_reuse_witness :
  exists s1,
    demoRun 5 demoSession = (Return "abc"%string, s1)
    /\ requestsSent s1 = 1%nat
    /\ entries s1 !! "auth0:m2m:access_token"%string
       = Some ("stored"%string, Some 3601200)
    /\ nowMs s1 = 1200
    /\ lastError s1 = None
    /\ fst <$> lookupLive s1 "auth0:m2m:access_token:lock" <> Some (demoUUID 0)
    /\ forall fuel' s2,
         client s2 = true ->
         entries s2 !! "auth0:m2m:access_token"%string
         = Some ("stored"%string, Some 3601200) ->
         (nowMs s2 + 60000 < 3601200 ->
          demoRun fuel' s2
          = (Return "abc"%string,
             note (readOf s2 "auth0:m2m:access_token") s2))
         /\ (3601200 <= nowMs s2 + 60000 -> stale tenantEnv demoParse s2).
Proof.
  refine (getAuth0M2MAccessToken_refresh_then_reuse tenantEnv demoUUID
            (fun _ store => store) demoAuth0 demoParse demoStringify demoNumber
            demoMessage 5 demoSession
            {| fetchedAccessToken := "abc"; fetchedTokenType := "Bearer";
               expiresInSeconds := 3600 |} _ _ _ _ _ _ _ _ _ _ _ _ _).
  - by vm_compute.
  - by vm_compute.
  - by vm_compute.
  - reflexivity.
  - by vm_compute.
  - reflexivity.
  - by vm_compute.
  - reflexivity.
  - exists 200, "granted"%string,
      (JObject [("access_token", JString "abc");
                ("expires_in", JNumber (JsFinite 3600))]%string).
    by vm_compute.
  - by vm_compute.
  - by vm_compute.
  - by vm_compute.
  - reflexivity.
Defined.

Lemma getAuth0M2MAccessToken_failed_refresh_witness :
  exists s1,
    demoRun 5 laterSession
    = (Throw (Error "Auth0 token error 503: unavailable"), s1)
    /\ requestsSent s1 = 2%nat
    /\ lastError s1 = Some "Auth0 token error 503: unavailable"%string
    /\ entries s1 !! "auth0:m2m:access_token"%string = None
    /\ fst <$> lookupLive s1 "auth0:m2m:access_token:lock" <> Some (demoUUID 1).
Proof.
  refine (getAuth0M2MAccessToken_failed_refresh tenantEnv demoUUID
            (fun _ store => store) demoAuth0 demoParse demoStringify demoNumber
            demoMessage 5 laterSession (Error "Auth0 token error 503: unavailable")
            _ _ _ _ _ _ _ _).
  - by vm_compute.
  - by vm_compute.
  - reflexivity.
  - by vm_compute.
  - reflexivity.
  - by vm_compute.
  - reflexivity.
  - reflexivity.
Defined.

(** The example run: two reads, the lock, the read under the lock, the
    request, the write and the release. *)
Lemma demoRun_trace :
  trace (snd (demoRun 5 demoSession))
  = [CacheRead "auth0:m2m:access_token" None (-2);
     CacheRead "auth0:m2m:access_token" None (-2);
     LockTry "auth0:m2m:access_token:lock" "uuid-0" 10000 true;
     CacheRead "auth0:m2m:access_token" None (-2);
     TokenRequest 0
       [("grant_type", "client_credentials"); ("client_id", "client");
        ("client_secret", "secret"); ("audience", "https://api.example")]
       (Responded 200 "granted");
     CacheWrite "auth0:m2m:access_token" "stored" 3600000;
     LockRelease "auth0:m2m:access_token:lock" "uuid-0" true]%string.
Proof. by vm_compute. Qed.

End Auth0M2MToken.

(** * withCache against the clock

    src/services/cache.ts once more, with what [Cache] leaves out. There a
    call runs over a store without expiry and its commands take no time,
    which is enough to say what a call sends and returns along each of its
    paths. Here every wait takes time: a command travels to the server, is
    run there and its reply travels back; a timer fires no earlier than
    asked; [compute] lasts. While the caller waits the other clients of the
    store act on it, the client may lose or regain its connection, and the
    keys written with EX or PX expire. Instants are in milliseconds and are
    read off one clock by the process and by the store. A command that is
    sent is answered. *)

Module CacheClock.

(** The store: for each key its text and the instant it expires at, if
    any. *)
Abbreviation Store := (gmap string (string * option Z)).

(** What a call does not control. The waits of a call are numbered as they
    come. *)
Record Surroundings := {
  (** the command sent as the n-th wait: the time until the server runs it,
      and from then until its reply is back *)
  requestMs : nat -> Z;
  replyMs : nat -> Z;
  (** the timer set as the n-th wait: how late it fires *)
  timerLateMs : nat -> Z;
  (** [compute] called as the n-th wait: how long it lasts *)
  computeMs : nat -> Z;
  (** what the other clients make of the store from one instant to a later
      one *)
  others : Z -> Z -> Store -> Store;
  (** whether the status of the Redis client is ['up'] at an instant *)
  statusUp : Z -> bool
}.

(** Waits take time and never take it back. *)
Definition forward (sur : Surroundings) : Prop :=
  forall n, 0 <= requestMs sur n /\ 0 <= replyMs sur n
            /\ 0 <= timerLateMs sur n /\ 0 <= computeMs sur n.

(** A call in progress: the store, the clock, the number of waits so far,
    the UUIDs drawn, the journal of what was sent and slept with the instant
    of each entry (for a command, the instant the server ran it; for a
    sleep, the instant it began), and what [compute] acts on. *)
Record Call (X : Type) := {
  held : Store;
  nowMs : Z;
  awaited : nat;
  drawn : nat;
  journal : list (Z * Event);
  outside : X
}.

Arguments held {X} c.
Arguments nowMs {X} c.
Arguments awaited {X} c.
Arguments drawn {X} c.
Arguments journal {X} c.
Arguments outside {X} c.

(** A key is gone once the clock has passed its expiry. *)
Definition live (t : Z) (entry : option (string * option Z)) : option string :=
  match entry with
  | Some (text, Some expiry) => if expiry <? t then None else Some text
  | Some (text, None) => Some text
  | None => None
  end.

Definition bulk (found : option string) : RedisReply :=
  match found with
  | Some text => ReplyBulk text
  | None => ReplyNil
  end.

(** What the server makes of a command at instant [t]: the outcome for the
    client, the reply, and the store afterwards. A time to live that is not
    positive is refused. *)
Definition runGet (key : string) (t : Z) (store : Store)
    : Outcome (option string) * RedisReply * Store :=
  let found := live t (store !! key) in
  (Return found, bulk found, store).

Definition runSetEx (key value : string) (ttlSeconds : Z) (t : Z) (store : Store)
    : Outcome unit * RedisReply * Store :=
  if ttlSeconds <=? 0 then (Throw ReplyError, ReplyErr, store)
  else (Return tt, ReplyOK, <[key := (value, Some (t + ttlSeconds * 1000))]> store).

Definition runSetPxNx (key value : string) (ttlMs : Z) (t : Z) (store : Store)
    : Outcome bool * RedisReply * Store :=
  if ttlMs <=? 0 then (Throw ReplyError, ReplyErr, store)
  else
    match live t (store !! key) with
    | None => (Return true, ReplyOK, <[key := (value, Some (t + ttlMs))]> store)
    | Some _ => (Return false, ReplyNil, store)
    end.

(** The script of [releaseLock]:
    [if GET KEYS[1] == ARGV[1] then return DEL KEYS[1] else return 0]. *)
Definition runCompareAndDelete (key token : string) (t : Z) (store : Store)
    : Outcome Z * RedisReply * Store :=
  if decide (live t (store !! key) = Some token)
  then (Return 1, ReplyInteger 1, delete key store)
  else (Return 0, ReplyInteger 0, store).

Section WithCache.

Context {X T : Type}.

Variable env : Env.
Variable sur : Surroundings.

(** [randomUUID()]: the n-th UUID the process draws. *)
Variable randomUUID : nat -> string.

(** [JSON.stringify] and [JSON.parse] at the type of the cached value;
    [None] is a SyntaxError. *)
Variable JSON_stringify : T -> string.
Variable JSON_parse : string -> option T.

Definition Async (A : Type) : Type := Call X -> Outcome A * Call X.

Definition settled {A} (a : A) : Async A := fun c => (Return a, c).

Definition thrown {A} (e : Exn) : Async A := fun c => (Throw e, c).

Definition await {A B} (m : Async A) (k : A -> Async B) : Async B :=
  fun c =>
    match m c with
    | (Return a, c') => k a c'
    | (Throw e, c') => (Throw e, c')
    | (Diverged, c') => (Diverged, c')
    end.

(** [try { m } finally { cleanup }]: the cleanup runs on both exits and, when
    it completes normally, leaves the outcome of [m] as it is. *)
Definition tryFinally {A} (m : Async A) (cleanup : Async unit) : Async A :=
  fun c =>
    match m c with
    | (Diverged, c') => (Diverged, c')
    | (r, c') =>
        match cleanup c' with
        | (Return _, c'') => (r, c'')
        | (Throw e, c'') => (Throw e, c'')
        | (Diverged, c'') => (Diverged, c'')
        end
    end.

(** [p.catch(() => undefined)] *)
Definition orUndefined (m : Async unit) : Async unit :=
  fun c =>
    match m c with
    | (Throw _, c') => (Return tt, c')
    | other => other
    end.

(** The store and the clock after [ms] more milliseconds. *)
Definition later (ms : Z) (c : Call X) : Call X :=
  {| held := others sur (nowMs c) (nowMs c + ms) (held c);
     nowMs := nowMs c + ms;
     awaited := awaited c; drawn := drawn c; journal := journal c;
     outside := outside c |}.

(** A command: it reaches the server, is run there on the store as it is
    then, and the reply comes back. *)
Definition send {A} (command : RedisCommand)
    (run : Z -> Store -> Outcome A * RedisReply * Store) : Async A :=
  fun c =>
    let arrived := later (requestMs sur (awaited c)) c in
    let '(r, reply, store) := run (nowMs arrived) (held arrived) in
    (r,
     later (replyMs sur (awaited c))
       {| held := store;
          nowMs := nowMs arrived;
          awaited := S (awaited c);
          drawn := drawn c;
          journal := journal c ++ [(nowMs arrived, Redis command reply)];
          outside := outside c |}).

Definition redisGet (key : string) : Async (option string) :=
  send (GET key) (runGet key).

Definition redisSetEx (key value : string) (ttlSeconds : Z) : Async unit :=
  send (SET_EX key value ttlSeconds) (runSetEx key value ttlSeconds).

Definition redisSetPxNx (key value : string) (ttlMs : Z) : Async bool :=
  send (SET_PX_NX key value ttlMs) (runSetPxNx key value ttlMs).

Definition redisCompareAndDelete (key token : string) : Async Z :=
  send (EVAL_compare_and_delete key token) (runCompareAndDelete key token).

(** [Date.now()] *)
Definition Date_now : Async Z := fun c => (Return (nowMs c), c).

Definition redisReady (c : Call X) : bool :=
  CACHE_ENABLED env && REDIS_ENABLED env && statusUp sur (nowMs c).

(** Modelled from the spec: utils/sleep.ts is not among the sources. The
    backoff and poll waits suspend the caller for the given number of
    milliseconds: a timer, which fires after that time or later. *)
Definition sleep (ms : Z) : Async unit :=
  fun c =>
    (Return tt,
     later (ms + timerLateMs sur (awaited c))
       {| held := held c; nowMs := nowMs c; awaited := S (awaited c);
          drawn := drawn c; journal := journal c ++ [(nowMs c, Sleep ms)];
          outside := outside c |}).

(** [compute] acts on what is outside the cache, and lasts. *)
Definition runCompute (compute : X -> Outcome T * X) : Async T :=
  fun c =>
    let (r, x) := compute (outside c) in
    (r,
     later (computeMs sur (awaited c))
       {| held := held c; nowMs := nowMs c; awaited := S (awaited c);
          drawn := drawn c; journal := journal c; outside := x |}).

Declare Scope clock_scope.
Notation "'let*' x ':=' m 'in' k" := (await m (fun x => k))
  (at level 10, x name, m at level 100, k at level 200) : clock_scope.

Local Open Scope clock_scope.

(** [Some value] is [{ hit: true, value }], [None] is a miss. *)
Definition cacheGetJson (key : string) : Async (option T) :=
  fun c =>
    if negb (redisReady c) then (Return None, c)
    else
      (let* raw := redisGet key in
       match truthy raw with
       | None => settled None
       | Some s =>
           match JSON_parse s with
           | Some value => settled (Some value)
           | None => thrown SyntaxError
           end
       end) c.

Definition cacheSetJson (key : string) (value : T) (ttlSeconds : Z) : Async unit :=
  fun c =>
    if negb (redisReady c) then (Return tt, c)
    else redisSetEx key (JSON_stringify value) ttlSeconds c.

Definition acquireLock (lockKey : string) (ttlMs : Z) : Async (option string) :=
  fun c =>
    if negb (redisReady c) then (Return None, c)
    else
      let lockValue := randomUUID (drawn c) in
      let c1 :=
        {| held := held c; nowMs := nowMs c; awaited := awaited c;
           drawn := S (drawn c); journal := journal c; outside := outside c |} in
      (let* ok := redisSetPxNx lockKey lockValue ttlMs in
       settled (if ok then Some lockValue else None)) c1.

Definition releaseLock (lockKey lockValue : string) : Async unit :=
  fun c =>
    if negb (redisReady c) then (Return tt, c)
    else (let* _ := redisCompareAndDelete lockKey lockValue in settled tt) c.

(** The [while (Date.now() - start < maxWaitMs)] loop of [withCache]:
    [Some value] when a poll hits, [None] when the loop falls through. *)
Fixpoint pollLoop (fuel : nat) (key : string) (start maxWaitMs delay : Z)
    : Async (option T) :=
  match fuel with
  | O => fun c => (Diverged, c)
  | S fuel' =>
      let* now := Date_now in
      if now - start <? maxWaitMs then
        let* _ := sleep delay in
        let* next := cacheGetJson key in
        match next with
        | Some value => settled (Some value)
        | None => pollLoop fuel' key start maxWaitMs (Z.min 250 (delay * 2))
        end
      else settled None
  end.

(** The critical section, with the lock held under [token]. *)
Definition underLock (key : string) (ttlSeconds : Z)
    (compute : X -> Outcome T * X) (lockKey token : string)
    : Async (T * Cache.CacheStatus) :=
  tryFinally
    (let* value := runCompute compute in
     let* _ := cacheSetJson key value ttlSeconds in
     settled (value, Cache.MISS))
    (orUndefined (releaseLock lockKey token)).

(** What a caller does that did not get the lock. *)
Definition waitForHolder (fuel : nat) (key : string)
    (compute : X -> Outcome T * X) : Async (T * Cache.CacheStatus) :=
  let delay := 50 in
  let maxWaitMs := Z.min 1000 (CACHE_LOCK_TTL_MS env) in
  let* start := Date_now in
  let* polled := pollLoop fuel key start maxWaitMs delay in
  match polled with
  | Some value => settled (value, Cache.WAIT)
  | None => let* value := runCompute compute in settled (value, Cache.BYPASS)
  end.

Definition withCache (fuel : nat) (key : string) (ttlSeconds : Z)
    (compute : X -> Outcome T * X) : Async (T * Cache.CacheStatus) :=
  fun c =>
    if negb (redisReady c) then
      (let* value := runCompute compute in settled (value, Cache.BYPASS)) c
    else
      (let* first := cacheGetJson key in
       match first with
       | Some value => settled (value, Cache.HIT)
       | None =>
           let lockKey := (key ++ ":lock")%string in
           let* lockValue := acquireLock lockKey (CACHE_LOCK_TTL_MS env) in
           match truthy lockValue with
           | Some token => underLock key ttlSeconds compute lockKey token
           | None => waitForHolder fuel key compute
           end
       end) c.

End WithCache.

(** ** Reading the journal *)

Definition sleepsOf (evs : list (Z * Event)) : list Z :=
  flat_map (fun entry => match snd entry with Sleep ms => [ms] | _ => [] end) evs.

Definition readsOf (evs : list (Z * Event)) : list RedisReply :=
  flat_map (fun entry =>
              match snd entry with
              | Redis (GET _) reply => [reply]
              | _ => []
              end) evs.

(** An entry of the journal of a caller that polls [key]: a sleep begun
    before [maxWaitMs] had passed since [start], or a GET of [key]. *)
Definition isPoll (key : string) (start maxWaitMs : Z) (entry : Z * Event) : Prop :=
  match entry with
  | (t, Sleep _) => t - start < maxWaitMs
  | (_, Redis (GET k) _) => k = key
  | _ => False
  end.

(** A reply [cacheGetJson] takes for a miss: no key, or an empty text. *)
Definition missed (reply : RedisReply) : Prop :=
  reply = ReplyNil \/ reply = ReplyBulk "".

Definition sumZ (l : list Z) : Z := foldr Z.add 0 l.

(** The backoff: each delay twice the one before, capped at 250. *)
Fixpoint delays (delay : Z) (n : nat) : list Z :=
  match n with
  | O => []
  | S n' => delay :: delays (Z.min 250 (delay * 2)) n'
  end.

Definition pollSchedule : list Z := [50; 100; 200; 250; 250; 250].

Lemma delays_pollSchedule (m : nat) :
  (m <= 6)%nat -> delays 50 m = take m pollSchedule.
Proof. intros Hm. do 7 (destruct m as [|m]; [reflexivity|]). lia. Qed.

Section Facts.

Context {X T : Type}.
Variable env : Env.
Variable sur : Surroundings.
Variable randomUUID : nat -> string.
Variable JSON_stringify : T -> string.
Variable JSON_parse : string -> option T.

Hypothesis sur_forward : forward sur.

(** ** One command *)

Lemma later_forward (ms : Z) (c : Call X) :
  0 <= ms ->
  nowMs c <= nowMs (later sur ms c)
  /\ journal (later sur ms c) = journal c
  /\ outside (later sur ms c) = outside c
  /\ drawn (later sur ms c) = drawn c.
Proof. intros Hms. simpl. repeat split. lia. Qed.

(** [cacheGetJson]: nothing is sent when the client is not up; otherwise one
    GET, whose reply decides. *)
Lemma cacheGetJson_post (key : string) (c c' : Call X) (r : Outcome (option T)) :
  cacheGetJson env sur JSON_parse key c = (r, c') ->
  nowMs c <= nowMs c' /\ outside c' = outside c /\ drawn c' = drawn c
  /\ ((r = Return None /\ c' = c /\ redisReady env sur c = false)
      \/ exists t reply,
           redisReady env sur c = true
           /\ journal c' = journal c ++ [(t, Redis (GET key) reply)]
           /\ nowMs c <= t <= nowMs c'
           /\ reply = bulk (live t (others sur (nowMs c) t (held c) !! key))
           /\ match r with
              | Return None => missed reply
              | Return (Some value) =>
                  exists raw, reply = ReplyBulk raw /\ raw <> ""%string
                              /\ JSON_parse raw = Some value
              | Throw e =>
                  e = SyntaxError
                  /\ exists raw, reply = ReplyBulk raw /\ raw <> ""%string
                                 /\ JSON_parse raw = None
              | Diverged => False
              end).
Proof using sur_forward.
  unfold cacheGetJson. destruct (redisReady env sur c) eqn:Hready; cbn [negb].
  - unfold await, redisGet, send, runGet. cbn [later nowMs held].
    destruct (sur_forward (awaited c)) as (Hreq & Hrep & _).
    set (t := nowMs c + requestMs sur (awaited c)).
    set (found := live t (others sur (nowMs c) t (held c) !! key)).
    intros Hrun.
    assert (Hcases :
      (truthy found = None /\ missed (bulk found))
      \/ (exists raw, truthy found = Some raw /\ bulk found = ReplyBulk raw
                      /\ raw <> ""%string)).
    { destruct found as [[|a raw]|]; simpl.
      - left. split; [done|]. by right.
      - right. by exists (String a raw).
      - left. split; [done|]. by left. }
    destruct Hcases as [[Ht Hmiss]|(raw & Ht & Hbulk & Hraw)]; rewrite Ht in Hrun.
    + injection Hrun as <- <-. cbn. split; [lia|]. split; [done|]. split; [done|].
      right. exists t, (bulk found). repeat split; try done; lia.
    + destruct (JSON_parse raw) as [value|] eqn:Hparse; injection Hrun as <- <-; cbn;
        (split; [lia|]); (split; [done|]); (split; [done|]);
        right; exists t, (bulk found); repeat split; try done; try lia;
        by exists raw.
  - intros [= <- <-]. split; [lia|]. split; [done|]. split; [done|]. by left.
Qed.

(** ** The polls *)

(** How a round of polls ends, read off its journal: a hit is the last
    entry, a GET answered with a text that is not empty, every GET before it
    having missed; without a hit every GET missed, and when the loop fell
    through the budget was used up. *)
Definition found (key : string) (evs : list (Z * Event)) (raw : string) : Prop :=
  exists before t,
    evs = before ++ [(t, Redis (GET key) (ReplyBulk raw))]
    /\ Forall missed (readsOf before)
    /\ raw <> ""%string.

Definition polled (key : string) (evs : list (Z * Event))
    (r : Outcome (option T)) (waited maxWaitMs : Z) : Prop :=
  match r with
  | Return (Some value) => exists raw, found key evs raw /\ JSON_parse raw = Some value
  | Throw e => e = SyntaxError /\ exists raw, found key evs raw /\ JSON_parse raw = None
  | Return None => Forall missed (readsOf evs) /\ maxWaitMs <= waited
  | Diverged => Forall missed (readsOf evs)
  end.

Lemma found_after (key : string) (entry : Z * Event) (evs : list (Z * Event))
    (raw : string) :
  Forall missed (readsOf [entry]) -> found key evs raw -> found key (entry :: evs) raw.
Proof.
  intros Hentry (before & t & -> & Hbefore & Hraw).
  exists (entry :: before), t. split; [done|]. split; [|done].
  change (entry :: before) with ([entry] ++ before).
  unfold readsOf. rewrite flat_map_app. by apply Forall_app.
Qed.

Lemma polled_after (key : string) (entry : Z * Event) (evs : list (Z * Event))
    (r : Outcome (option T)) (waited maxWaitMs : Z) :
  Forall missed (readsOf [entry]) ->
  polled key evs r waited maxWaitMs -> polled key (entry :: evs) r waited maxWaitMs.
Proof.
  intros Hentry. assert (Hall : forall l, Forall missed (readsOf l) ->
                                 Forall missed (readsOf (entry :: l))).
  { intros l Hl. change (entry :: l) with ([entry] ++ l).
    unfold readsOf. rewrite flat_map_app. by apply Forall_app. }
  destruct r as [[value|]|e|]; simpl.
  - intros (raw & Hfound & Hparse). exists raw. split; [by apply found_after|done].
  - intros [Hl Hw]. split; [by apply Hall|done].
  - intros (-> & raw & Hfound & Hparse). split; [done|]. exists raw.
    split; [by apply found_after|done].
  - apply Hall.
Qed.

Lemma pollLoop_post (key : string) (start maxWaitMs : Z) (fuel : nat) :
  forall (delay : Z) (c c' : Call X) (r : Outcome (option T)),
    pollLoop env sur JSON_parse fuel key start maxWaitMs delay c = (r, c') ->
    exists evs,
      journal c' = journal c ++ evs
      /\ Forall (isPoll key start maxWaitMs) evs
      /\ sleepsOf evs = delays delay (length (sleepsOf evs))
      /\ (length (readsOf evs) <= length (sleepsOf evs))%nat
      /\ outside c' = outside c
      /\ drawn c' = drawn c
      /\ nowMs c + sumZ (sleepsOf evs) <= nowMs c'
      /\ polled key evs r (nowMs c' - start) maxWaitMs
      /\ (forall k, maxWaitMs <= nowMs c - start + sumZ (delays delay k) ->
                    (length (sleepsOf evs) <= k)%nat
                    /\ ((k < fuel)%nat -> r <> Diverged)).
Proof using sur_forward.
  induction fuel as [|fuel IH]; intros delay c c' r; cbn [pollLoop].
  { intros [= <- <-]. exists []. rewrite app_nil_r. simpl.
    repeat split; try done; try lia; constructor. }
  unfold await at 1. unfold Date_now at 1.
  destruct (nowMs c - start <? maxWaitMs) eqn:Hbudget.
  2:{ intros [= <- <-]. exists []. rewrite app_nil_r. simpl.
      apply Z.ltb_ge in Hbudget.
      repeat split; try done; try lia; constructor. }
  apply Z.ltb_lt in Hbudget.
  unfold await at 1. unfold sleep at 1.
  destruct (sur_forward (awaited c)) as (_ & _ & Hlate & _).
  set (c1 := later sur (delay + timerLateMs sur (awaited c)) _).
  assert (Hc1 : nowMs c + delay <= nowMs c1
                /\ journal c1 = journal c ++ [(nowMs c, Sleep delay)]
                /\ outside c1 = outside c /\ drawn c1 = drawn c).
  { subst c1. simpl. repeat split. lia. }
  destruct Hc1 as (Hnow1 & Hj1 & Ho1 & Hd1).
  unfold await at 1.
  destruct (cacheGetJson env sur JSON_parse key c1) as [next c2] eqn:Hget.
  destruct (cacheGetJson_post key c1 c2 next Hget) as (Hnow2 & Ho2 & Hd2 & Hread).
  assert (Hsleep : Forall missed (readsOf [(nowMs c, Sleep delay)])) by constructor.
  assert (Hk : forall k,
            maxWaitMs <= nowMs c - start + sumZ (delays delay k) ->
            exists k', k = S k'
                       /\ maxWaitMs <= nowMs c2 - start
                                       + sumZ (delays (Z.min 250 (delay * 2)) k')).
  { intros [|k'] Hle; simpl in Hle; [lia|]. exists k'. split; [done|]. lia. }
  destruct Hread as [(-> & -> & Hdown)|(t & reply & Hup & Hj2 & Ht & Hreply & Hnext)].
  - (* the client is not up: nothing is sent, the loop goes on *)
    intros Hrest.
    destruct (IH _ _ _ _ Hrest)
      as (evs & Hj & Hpolls & Hdelays & Hreads & Ho & Hd & Hnow & Hout & Hbound).
    exists ((nowMs c, Sleep delay) :: evs).
    split; [by rewrite Hj, Hj1, <- app_assoc|].
    split; [by constructor|].
    split; [simpl; by rewrite <- Hdelays|].
    split; [simpl; lia|].
    split; [congruence|]. split; [congruence|].
    split; [simpl; lia|].
    split; [by apply polled_after|].
    intros k Hle. destruct (Hk k Hle) as (k' & -> & Hle').
    destruct (Hbound k' Hle') as [Hlen Hdiv]. simpl. split; [lia|].
    intros Hfuel. apply Hdiv. lia.
  - assert (Hget_missed : forall rest,
              readsOf ((t, Redis (GET key) reply) :: rest) = reply :: readsOf rest)
      by done.
    destruct next as [[value|]|e|]; [| | |done].
    + (* a hit *)
      intros [= <- <-]. destruct Hnext as (raw & -> & Hraw & Hparse).
      exists [(nowMs c, Sleep delay); (t, Redis (GET key) (ReplyBulk raw))].
      split; [by rewrite Hj2, Hj1, <- app_assoc|].
      split; [by repeat constructor|].
      split; [done|]. split; [simpl; lia|].
      split; [congruence|]. split; [congruence|].
      split; [simpl; lia|].
      split.
      { exists raw. split; [|done]. exists [(nowMs c, Sleep delay)], t.
        split; [done|]. split; [constructor|done]. }
      intros k Hle. destruct (Hk k Hle) as (k' & -> & _). simpl. split; [lia|done].
    + (* a miss: the loop goes on *)
      intros Hrest.
      destruct (IH _ _ _ _ Hrest)
        as (evs & Hj & Hpolls & Hdelays & Hreads & Ho & Hd & Hnow & Hout & Hbound).
      exists ((nowMs c, Sleep delay) :: (t, Redis (GET key) reply) :: evs).
      split; [by rewrite Hj, Hj2, Hj1, <- !app_assoc|].
      split; [by repeat constructor|].
      split; [simpl; by rewrite <- Hdelays|].
      split; [simpl; lia|].
      split; [congruence|]. split; [congruence|].
      split; [simpl; lia|].
      split.
      { apply polled_after; [done|]. apply polled_after; [|done].
        simpl. constructor; [exact Hnext|constructor]. }
      intros k Hle. destruct (Hk k Hle) as (k' & -> & Hle').
      destruct (Hbound k' Hle') as [Hlen Hdiv]. simpl. split; [lia|].
      intros Hfuel. apply Hdiv. lia.
    + (* a text that is not JSON *)
      intros [= <- <-]. destruct Hnext as (-> & raw & -> & Hraw & Hparse).
      exists [(nowMs c, Sleep delay); (t, Redis (GET key) (ReplyBulk raw))].
      split; [by rewrite Hj2, Hj1, <- app_assoc|].
      split; [by repeat constructor|].
      split; [done|]. split; [simpl; lia|].
      split; [congruence|]. split; [congruence|].
      split; [simpl; lia|].
      split.
      { split; [done|]. exists raw. split; [|done].
        exists [(nowMs c, Sleep delay)], t.
        split; [done|]. split; [constructor|done]. }
      intros k Hle. destruct (Hk k Hle) as (k' & -> & _). simpl. split; [lia|done].
Qed.

(** ** The two ways on after a miss *)

Lemma withCache_waits (fuel : nat) (key : string) (ttlSeconds : Z)
    (compute : X -> Outcome T * X) (c c1 c2 : Call X) (lockValue : option string) :
  redisReady env sur c = true ->
  cacheGetJson env sur JSON_parse key c = (Return None, c1) ->
  acquireLock env sur randomUUID (key ++ ":lock") (CACHE_LOCK_TTL_MS env) c1
  = (Return lockValue, c2) ->
  truthy lockValue = None ->
  withCache env sur randomUUID JSON_stringify JSON_parse fuel key ttlSeconds compute c
  = waitForHolder env sur JSON_parse fuel key compute c2.
Proof.
  intros Hready Hget Hlock Hnone. unfold withCache. rewrite Hready. cbn [negb].
  unfold await at 1. rewrite Hget. unfold await at 1. rewrite Hlock.
  by rewrite Hnone.
Qed.

Lemma withCache_holds (fuel : nat) (key : string) (ttlSeconds : Z)
    (compute : X -> Outcome T * X) (c c1 c2 : Call X) (token : string) :
  redisReady env sur c = true ->
  cacheGetJson env sur JSON_parse key c = (Return None, c1) ->
  acquireLock env sur randomUUID (key ++ ":lock") (CACHE_LOCK_TTL_MS env) c1
  = (Return (Some token), c2) ->
  token <> ""%string ->
  withCache env sur randomUUID JSON_stringify JSON_parse fuel key ttlSeconds compute c
  = underLock env sur JSON_stringify key ttlSeconds compute (key ++ ":lock") token c2.
Proof.
  intros Hready Hget Hlock Htoken. unfold withCache. rewrite Hready. cbn [negb].
  unfold await at 1. rewrite Hget. unfold await at 1. rewrite Hlock.
  by rewrite (truthy_nonempty token Htoken).
Qed.

(** The outcome of [compute], as the caller that bypasses the cache returns
    it. *)
Definition bypassed (rc : Outcome T) : Outcome (T * Cache.CacheStatus) :=
  match rc with
  | Return value => Return (value, Cache.BYPASS)
  | Throw e => Throw e
  | Diverged => Diverged
  end.

Lemma runCompute_post (compute : X -> Outcome T * X) (c : Call X) :
  let ended := snd (runCompute sur compute c) in
  fst (runCompute sur compute c) = fst (compute (outside c))
  /\ outside ended = snd (compute (outside c))
  /\ journal ended = journal c
  /\ drawn ended = drawn c
  /\ nowMs ended = nowMs c + computeMs sur (awaited c).
Proof. unfold runCompute. by destruct (compute (outside c)). Qed.

(** A caller that did not get the lock: what it sends, and how it ends. *)
Lemma waitForHolder_post (fuel : nat) (key : string)
    (compute : X -> Outcome T * X) (c : Call X) :
  (6 < fuel)%nat ->
  let start := nowMs c in
  let maxWaitMs := Z.min 1000 (CACHE_LOCK_TTL_MS env) in
  exists (r : Outcome (T * Cache.CacheStatus)) (c' : Call X)
         (evs : list (Z * Event)) (m : nat),
    waitForHolder env sur JSON_parse fuel key compute c = (r, c')
    /\ journal c' = journal c ++ evs
    /\ drawn c' = drawn c
    /\ Forall (isPoll key start maxWaitMs) evs
    /\ sleepsOf evs = take m pollSchedule
    /\ (m <= 6)%nat
    /\ (length (readsOf evs) <= m)%nat
    /\ ((exists raw value,
           found key evs raw /\ JSON_parse raw = Some value
           /\ r = Return (value, Cache.WAIT) /\ outside c' = outside c)
        \/ (exists raw,
              found key evs raw /\ JSON_parse raw = None
              /\ r = Throw SyntaxError /\ outside c' = outside c)
        \/ (Forall missed (readsOf evs)
            /\ exists waited : Call X,
                 maxWaitMs <= nowMs waited - start
                 /\ r = bypassed (fst (compute (outside c)))
                 /\ c' = snd (runCompute sur compute waited)
                 /\ outside c' = snd (compute (outside c)))).
Proof using sur_forward.
  intros Hfuel start maxWaitMs. unfold waitForHolder.
  unfold await at 1. unfold Date_now at 1. fold start. fold maxWaitMs.
  destruct (pollLoop env sur JSON_parse fuel key start maxWaitMs 50 c)
    as [polledValue c1] eqn:Hloop.
  destruct (pollLoop_post key start maxWaitMs fuel 50 c c1 polledValue Hloop)
    as (evs & Hj & Hpolls & Hdelays & Hreads & Ho & Hd & Hnow & Hout & Hbound).
  destruct (Hbound 6%nat) as [Hm Hdiv].
  { subst start maxWaitMs. simpl. lia. }
  specialize (Hdiv Hfuel).
  rewrite delays_pollSchedule in Hdelays by done.
  unfold await at 1. rewrite Hloop.
  destruct polledValue as [[value|]|e|]; [| | |done]; simpl in Hout.
  - destruct Hout as (raw & Hfound & Hparse).
    exists (Return (value, Cache.WAIT)), c1, evs, (length (sleepsOf evs)).
    repeat (split; [done|]). left. by exists raw, value.
  - destruct Hout as [Hmissed Hwaited].
    unfold await at 1.
    pose proof (runCompute_post compute c1) as (Hr & Hx & Hjc & Hdc & Hnc).
    destruct (runCompute sur compute c1) as [rc c2] eqn:Hcompute.
    cbn [fst snd] in Hr, Hx, Hjc, Hdc, Hnc.
    exists (bypassed rc), c2, evs, (length (sleepsOf evs)).
    split; [by destruct rc|]. split; [congruence|]. split; [congruence|].
    split; [done|]. split; [done|]. split; [done|]. split; [done|].
    right. right. split; [done|]. exists c1.
    split; [done|]. split; [by rewrite Hr, Ho|].
    split; [by rewrite Hcompute|]. by rewrite Hx, Ho.
  - destruct Hout as (-> & raw & Hfound & Hparse).
    exists (Throw SyntaxError), c1, evs, (length (sleepsOf evs)).
    repeat (split; [done|]). right. left. by exists raw.
Qed.


(** ** The critical section *)

(** [acquireLock] that returns a token: the client was up, the SET was run
    at an instant at which no lock was alive, and wrote the token with its
    time to live. *)
Lemma acquireLock_post (lockKey : string) (ttlMs : Z) (c c' : Call X) (token : string) :
  acquireLock env sur randomUUID lockKey ttlMs c = (Return (Some token), c') ->
  exists t,
    let seen := others sur (nowMs c) t (held c) in
    redisReady env sur c = true
    /\ 0 < ttlMs
    /\ token = randomUUID (drawn c)
    /\ t = nowMs c + requestMs sur (awaited c)
    /\ live t (seen !! lockKey) = None
    /\ journal c' = journal c ++ [(t, Redis (SET_PX_NX lockKey token ttlMs) ReplyOK)]
    /\ held c' = others sur t (nowMs c') (<[lockKey := (token, Some (t + ttlMs))]> seen)
    /\ outside c' = outside c.
Proof.
  unfold acquireLock. destruct (redisReady env sur c) eqn:Hready; cbn [negb]; [|done].
  unfold await, redisSetPxNx, send, runSetPxNx. cbn [later nowMs held awaited drawn].
  destruct (ttlMs <=? 0) eqn:Httl; [done|]. apply Z.leb_gt in Httl.
  set (t := nowMs c + requestMs sur (awaited c)).
  destruct (live t (others sur (nowMs c) t (held c) !! lockKey)) eqn:Hlive; [done|].
  intros [= <- <-]. exists t. cbn. by rewrite Hlive.
Qed.

(** [releaseLock]: nothing is sent when the client is not up; otherwise the
    script is run once, deletes the lock when it is alive under the token
    and leaves the store alone when it is not. *)
Lemma releaseLock_post (lockKey token : string) (c : Call X) :
  exists c',
    releaseLock env sur lockKey token c = (Return tt, c')
    /\ outside c' = outside c
    /\ if redisReady env sur c then
         let t := nowMs c + requestMs sur (awaited c) in
         let seen := others sur (nowMs c) t (held c) in
         let mine := bool_decide (live t (seen !! lockKey) = Some token) in
         let left := if mine then delete lockKey seen else seen in
         journal c'
         = journal c
           ++ [(t, Redis (EVAL_compare_and_delete lockKey token)
                     (ReplyInteger (if mine then 1 else 0)))]
         /\ held c' = others sur t (nowMs c') left
         /\ live t (left !! lockKey) <> Some token
       else c' = c.
Proof.
  unfold releaseLock. destruct (redisReady env sur c) eqn:Hready; cbn [negb].
  2:{ by exists c. }
  unfold await, redisCompareAndDelete, send, runCompareAndDelete.
  cbn [later nowMs held awaited drawn].
  set (t := nowMs c + requestMs sur (awaited c)).
  set (seen := others sur (nowMs c) t (held c)).
  destruct (decide (live t (seen !! lockKey) = Some token)) as [Hmine|Hother].
  - eexists. split; [reflexivity|]. split; [done|]. cbn.
    rewrite (bool_decide_eq_true_2 _ Hmine). split; [done|]. split; [done|].
    by rewrite lookup_delete_eq.
  - eexists. split; [reflexivity|]. split; [done|]. cbn.
    by rewrite (bool_decide_eq_false_2 _ Hother).
Qed.

(** [cacheSetJson] with a positive time to live: nothing is sent when the
    client is not up; otherwise one SET EX, the entry expiring that long
    after the server ran it. *)
Lemma cacheSetJson_post (key : string) (value : T) (ttlSeconds : Z) (c : Call X) :
  0 < ttlSeconds ->
  exists c',
    cacheSetJson env sur JSON_stringify key value ttlSeconds c = (Return tt, c')
    /\ outside c' = outside c
    /\ if redisReady env sur c then
         let t := nowMs c + requestMs sur (awaited c) in
         let seen := others sur (nowMs c) t (held c) in
         journal c'
         = journal c
           ++ [(t, Redis (SET_EX key (JSON_stringify value) ttlSeconds) ReplyOK)]
         /\ held c'
            = others sur t (nowMs c')
                (<[key := (JSON_stringify value, Some (t + ttlSeconds * 1000))]> seen)
       else c' = c.
Proof.
  intros Httl. unfold cacheSetJson.
  destruct (redisReady env sur c) eqn:Hready; cbn [negb].
  2:{ by exists c. }
  unfold redisSetEx, send, runSetEx. cbn [later nowMs held awaited drawn].
  destruct (ttlSeconds <=? 0) eqn:E; [apply Z.leb_le in E; lia|].
  eexists. split; [reflexivity|]. by cbn.
Qed.

(** The first read of a call that goes on to the lock: one GET, answered
    with nothing or with an empty text. *)
Lemma cacheGetJson_missed (key : string) (c c1 : Call X) :
  redisReady env sur c = true ->
  cacheGetJson env sur JSON_parse key c = (Return None, c1) ->
  exists t reply,
    journal c1 = journal c ++ [(t, Redis (GET key) reply)]
    /\ missed reply
    /\ outside c1 = outside c.
Proof.
  intros Hready. unfold cacheGetJson. rewrite Hready. cbn [negb].
  unfold await, redisGet, send, runGet. cbn [later nowMs held].
  set (t := nowMs c + requestMs sur (awaited c)).
  destruct (live t (others sur (nowMs c) t (held c) !! key)) as [[|a raw]|] eqn:Hlive.
  - intros [= <-]. exists t, (ReplyBulk ""). cbn. split; [done|]. split; [by right|done].
  - change (truthy (Some (String a raw))) with (Some (String a raw)).
    cbv beta iota. by destruct (JSON_parse (String a raw)).
  - intros [= <-]. exists t, ReplyNil. cbn. split; [done|]. split; [by left|done].
Qed.

(** The critical section when [compute] throws: the cleanup runs, nothing
    is written, the error is the one [compute] threw. *)
Lemma underLock_throws (key : string) (ttlSeconds : Z)
    (compute : X -> Outcome T * X) (lockKey token : string) (c : Call X)
    (e : Exn) (x' : X) :
  compute (outside c) = (Throw e, x') ->
  let ended := snd (runCompute sur compute c) in
  exists c',
    underLock env sur JSON_stringify key ttlSeconds compute lockKey token c
    = (Throw e, c')
    /\ releaseLock env sur lockKey token ended = (Return tt, c')
    /\ outside ended = x'
    /\ journal ended = journal c.
Proof.
  intros Hcompute ended.
  assert (Hrun : runCompute sur compute c = (Throw e, ended)).
  { subst ended. unfold runCompute. by rewrite Hcompute. }
  assert (Hended : outside ended = x' /\ journal ended = journal c).
  { subst ended. unfold runCompute. by rewrite Hcompute. }
  destruct (releaseLock_post lockKey token ended) as (c' & Hrelease & _).
  exists c'. unfold underLock, tryFinally. unfold await at 1. rewrite Hrun.
  unfold orUndefined. rewrite Hrelease. by destruct Hended.
Qed.

(** The critical section when [compute] returns: the value is offered to
    the cache, then the cleanup runs. *)
Lemma underLock_returns (key : string) (ttlSeconds : Z)
    (compute : X -> Outcome T * X) (lockKey token : string) (c : Call X)
    (value : T) (x' : X) :
  0 < ttlSeconds ->
  compute (outside c) = (Return value, x') ->
  let ended := snd (runCompute sur compute c) in
  exists written c',
    underLock env sur JSON_stringify key ttlSeconds compute lockKey token c
    = (Return (value, Cache.MISS), c')
    /\ cacheSetJson env sur JSON_stringify key value ttlSeconds ended
       = (Return tt, written)
    /\ releaseLock env sur lockKey token written = (Return tt, c')
    /\ outside ended = x'
    /\ journal ended = journal c.
Proof.
  intros Httl Hcompute ended.
  assert (Hrun : runCompute sur compute c = (Return value, ended)).
  { subst ended. unfold runCompute. by rewrite Hcompute. }
  assert (Hended : outside ended = x' /\ journal ended = journal c).
  { subst ended. unfold runCompute. by rewrite Hcompute. }
  destruct (cacheSetJson_post key value ttlSeconds ended Httl)
    as (written & Hset & _).
  destruct (releaseLock_post lockKey token written) as (c' & Hrelease & _).
  exists written, c'. unfold underLock, tryFinally. unfold await at 1. rewrite Hrun.
  unfold await at 1. rewrite Hset. unfold settled, orUndefined. rewrite Hrelease.
  by destruct Hended.
Qed.

(** C4, as the code has it. When [withCache] has taken the lock and
    [compute] throws inside the critical section, [withCache] throws that
    same error, and all it has sent is the GET of the entry, the SET NX of
    the lock and, last, the compare-and-delete script with its token: the
    entry is not written. The script is sent only if the client is still up
    when [compute] ends. It then deletes the lock (reply 1), or finds that
    the lock has expired or is another caller's by now and leaves the store
    as it is (reply 0); either way the lock is not this caller's once the
    script has run. If the client is not up at that moment nothing is sent:
    the lock stays as it is, until its time to live runs out. *)
Theorem withCache_compute_throws_releases_lock
    (fuel : nat) (key : string) (ttlSeconds : Z) (compute : X -> Outcome T * X)
    (c c1 c2 : Call X) (token : string) (e : Exn) (x' : X) :
  redisReady env sur c = true ->
  cacheGetJson env sur JSON_parse key c = (Return None, c1) ->
  acquireLock env sur randomUUID (key ++ ":lock") (CACHE_LOCK_TTL_MS env) c1
  = (Return (Some token), c2) ->
  token <> ""%string ->
  compute (outside c2) = (Throw e, x') ->
  let lockKey := (key ++ ":lock")%string in
  let ended := snd (runCompute sur compute c2) in
  exists (c' : Call X) (t0 t1 : Z) (reply0 : RedisReply),
    withCache env sur randomUUID JSON_stringify JSON_parse fuel key ttlSeconds
      compute c = (Throw e, c')
    /\ outside c' = x'
    /\ missed reply0
    /\ journal c2
       = journal c
         ++ [(t0, Redis (GET key) reply0);
             (t1, Redis (SET_PX_NX lockKey token (CACHE_LOCK_TTL_MS env)) ReplyOK)]
    /\ if redisReady env sur ended then
         let t := nowMs ended + requestMs sur (awaited ended) in
         let seen := others sur (nowMs ended) t (held ended) in
         let mine := bool_decide (live t (seen !! lockKey) = Some token) in
         let left := if mine then delete lockKey seen else seen in
         journal c'
         = journal c2
           ++ [(t, Redis (EVAL_compare_and_delete lockKey token)
                     (ReplyInteger (if mine then 1 else 0)))]
         /\ held c' = others sur t (nowMs c') left
         /\ live t (left !! lockKey) <> Some token
       else c' = ended /\ journal c' = journal c2.
Proof.
  intros Hready Hget Hlock Htoken Hcompute lockKey ended.
  destruct (cacheGetJson_missed key c c1 Hready Hget)
    as (t0 & reply0 & Hj1 & Hmiss & Ho1).
  destruct (acquireLock_post lockKey (CACHE_LOCK_TTL_MS env) c1 c2 token Hlock)
    as (t1 & _ & _ & _ & _ & _ & Hj2 & _ & _).
  destruct (underLock_throws key ttlSeconds compute lockKey token c2 e x' Hcompute)
    as (c' & Hrun & Hrelease & Hx & Hje).
  destruct (releaseLock_post lockKey token ended) as (c'' & Hrelease' & Ho & Hcases).
  fold ended in Hrelease, Hx, Hje. rewrite Hrelease in Hrelease'.
  injection Hrelease' as <-.
  exists c', t0, t1, reply0.
  rewrite (withCache_holds fuel key ttlSeconds compute c c1 c2 token
             Hready Hget Hlock Htoken).
  split; [done|]. split; [congruence|]. split; [done|].
  split; [by rewrite Hj2, Hj1, <- app_assoc|].
  destruct (redisReady env sur ended).
  - cbv zeta in Hcases |- *. destruct Hcases as (Hj & Hheld & Hgone).
    split; [by rewrite Hj, Hje|]. done.
  - subst c'. done.
Qed.

(** ** A holder and those that wait for it *)

(** The other clients, as a waiting caller sees them: from the instant
    [since] to the instant [till], the entry of [key] is alive and holds
    [raw]. *)
Definition cachedBetween (key raw : string) (since till : Z) : Prop :=
  forall from to store,
    since <= to <= till -> live to (others sur from to store !! key) = Some raw.

Lemma found_last (key : string) (evs : list (Z * Event)) (raw : string) :
  found key evs raw ->
  exists t, last evs = Some (t, Redis (GET key) (ReplyBulk raw))
            /\ ~ Forall missed (readsOf evs).
Proof.
  intros (before & t & -> & _ & Hraw). exists t. split; [by rewrite last_snoc|].
  unfold readsOf. rewrite flat_map_app, Forall_app. simpl.
  intros [_ Hlast]. apply Forall_cons in Hlast as [[Hnil|Hempty] _]; [done|].
  by injection Hempty.
Qed.

Lemma found_agree (key : string) (evs : list (Z * Event)) (raw raw' : string) :
  found key evs raw -> found key evs raw' -> raw = raw'.
Proof.
  intros (t & Hlast & _)%found_last (t' & Hlast' & _)%found_last.
  rewrite Hlast in Hlast'. by injection Hlast'.
Qed.

(** The first poll of a caller for whom the value is there in time. *)
Lemma pollLoop_first_hit (key raw : string) (value : T)
    (start maxWaitMs since till : Z) (fuel : nat) (c : Call X) :
  CACHE_ENABLED env && REDIS_ENABLED env = true ->
  (forall t, statusUp sur t = true) ->
  nowMs c - start < maxWaitMs ->
  cachedBetween key raw since till ->
  since <= nowMs c + 50 ->
  nowMs c + 50 + timerLateMs sur (awaited c) + requestMs sur (S (awaited c)) <= till ->
  raw <> ""%string ->
  JSON_parse raw = Some value ->
  exists c' t,
    pollLoop env sur JSON_parse (S fuel) key start maxWaitMs 50 c
    = (Return (Some value), c')
    /\ journal c' = journal c ++ [(nowMs c, Sleep 50); (t, Redis (GET key) (ReplyBulk raw))]
    /\ outside c' = outside c.
Proof using sur_forward.
  intros Hflags Hup Hbudget Hcached Hsince Htill Hraw Hparse. cbn [pollLoop].
  unfold await at 1. unfold Date_now at 1.
  apply Z.ltb_lt in Hbudget. rewrite Hbudget.
  unfold await at 1. unfold sleep at 1.
  destruct (sur_forward (awaited c)) as (_ & _ & Hlate & _).
  set (c1 := later sur (50 + timerLateMs sur (awaited c)) _).
  assert (Hnow1 : nowMs c + 50 <= nowMs c1) by (subst c1; simpl; lia).
  unfold await at 1. unfold cacheGetJson.
  assert (Hready : redisReady env sur c1 = true).
  { unfold redisReady. by rewrite Hflags, Hup. }
  rewrite Hready. cbn [negb].
  unfold await, redisGet, send, runGet. cbn [later nowMs held].
  destruct (sur_forward (awaited c1)) as (Hreq & _).
  rewrite (Hcached (nowMs c1) (nowMs c1 + requestMs sur (awaited c1)) (held c1))
    by (subst c1; cbn in *; lia).
  rewrite (truthy_nonempty raw Hraw), Hparse.
  eexists _, _. split; [reflexivity|]. cbn. subst c1. cbn.
  by rewrite <- app_assoc.
Qed.

(** The caller that takes the lock, when [compute] returns. *)
Lemma holder_computes (fuel : nat) (key : string) (ttlSeconds : Z)
    (compute : X -> Outcome T * X) (holder holder1 holder2 : Call X)
    (token : string) (value : T) (x' : X) :
  0 < ttlSeconds ->
  redisReady env sur holder = true ->
  cacheGetJson env sur JSON_parse key holder = (Return None, holder1) ->
  acquireLock env sur randomUUID (key ++ ":lock") (CACHE_LOCK_TTL_MS env) holder1
  = (Return (Some token), holder2) ->
  token <> ""%string ->
  compute (outside holder2) = (Return value, x') ->
  let ended := snd (runCompute sur compute holder2) in
  let text := JSON_stringify value in
  exists (holder' written : Call X),
    withCache env sur randomUUID JSON_stringify JSON_parse fuel key ttlSeconds
      compute holder = (Return (value, Cache.MISS), holder')
    /\ outside holder' = x'
    /\ journal ended = journal holder2
    /\ (if redisReady env sur ended then
          let t := nowMs ended + requestMs sur (awaited ended) in
          journal written
          = journal ended ++ [(t, Redis (SET_EX key text ttlSeconds) ReplyOK)]
          /\ held written
             = others sur t (nowMs written)
                 (<[key := (text, Some (t + ttlSeconds * 1000))]>
                    (others sur (nowMs ended) t (held ended)))
        else written = ended)
    /\ releaseLock env sur (key ++ ":lock") token written = (Return tt, holder').
Proof.
  intros Httl HreadyH HgetH HlockH Htoken Hcompute ended text.
  destruct (underLock_returns key ttlSeconds compute (key ++ ":lock")%string token
              holder2 value x' Httl Hcompute)
    as (written & holder' & Hrun & Hset & Hrelease & Hx & Hje).
  fold ended in Hset, Hx, Hje.
  destruct (cacheSetJson_post key value ttlSeconds ended Httl)
    as (written' & Hset' & How & Hcases).
  rewrite Hset in Hset'. injection Hset' as <-.
  destruct (releaseLock_post (key ++ ":lock")%string token written)
    as (holder'' & Hrelease' & Ho & _).
  rewrite Hrelease in Hrelease'. injection Hrelease' as <-.
  exists holder', written.
  rewrite (withCache_holds fuel key ttlSeconds compute holder holder1 holder2 token
             HreadyH HgetH HlockH Htoken).
  split; [done|]. split; [congruence|].
  split; [done|]. split; [|done].
  by destruct (redisReady env sur ended).
Qed.

(** The caller that does not get the lock. *)
Lemma waiter_shares (fuel : nat) (key : string) (ttlSeconds : Z)
    (compute : X -> Outcome T * X) (waiter waiter1 waiter2 : Call X)
    (lockValue : option string) (value : T) :
  redisReady env sur waiter = true ->
  cacheGetJson env sur JSON_parse key waiter = (Return None, waiter1) ->
  acquireLock env sur randomUUID (key ++ ":lock") (CACHE_LOCK_TTL_MS env) waiter1
  = (Return lockValue, waiter2) ->
  truthy lockValue = None ->
  (6 < fuel)%nat ->
  let text := JSON_stringify value in
  exists (r : Outcome (T * Cache.CacheStatus)) (waiter' : Call X)
         (evs : list (Z * Event)),
    withCache env sur randomUUID JSON_stringify JSON_parse fuel key ttlSeconds
      compute waiter = (r, waiter')
    /\ journal waiter' = journal waiter2 ++ evs
    /\ Forall (isPoll key (nowMs waiter2) (Z.min 1000 (CACHE_LOCK_TTL_MS env))) evs
    /\ (length (readsOf evs) <= 6)%nat
    /\ (forall raw found',
          found key evs raw -> JSON_parse raw = Some found' ->
          r = Return (found', Cache.WAIT) /\ outside waiter' = outside waiter2)
    /\ (Forall missed (readsOf evs) ->
        r = bypassed (fst (compute (outside waiter2)))
        /\ outside waiter' = snd (compute (outside waiter2)))
    /\ (forall since till,
          (forall t, statusUp sur t = true) ->
          0 < CACHE_LOCK_TTL_MS env ->
          cachedBetween key text since till ->
          since <= nowMs waiter2 + 50 ->
          nowMs waiter2 + 50 + timerLateMs sur (awaited waiter2)
          + requestMs sur (S (awaited waiter2)) <= till ->
          text <> ""%string ->
          JSON_parse text = Some value ->
          r = Return (value, Cache.WAIT) /\ outside waiter' = outside waiter2).
Proof using sur_forward.
  intros HreadyW HgetW HlockW Hnone Hfuel text.
  rewrite (withCache_waits fuel key ttlSeconds compute waiter waiter1 waiter2
             lockValue HreadyW HgetW HlockW Hnone).
  destruct (waitForHolder_post fuel key compute waiter2 Hfuel)
    as (r & waiter' & evs & m & Hrun & Hj & _ & Hpolls & Hsleeps & Hm & Hreads
        & Hend).
  exists r, waiter', evs. split; [done|]. split; [done|]. split; [done|].
  split; [lia|].
  assert (Hfound : forall raw found',
            found key evs raw -> JSON_parse raw = Some found' ->
            r = Return (found', Cache.WAIT) /\ outside waiter' = outside waiter2).
  { intros raw found' Hraw Hparse.
    destruct Hend as [(raw' & v & Hraw' & Hparse' & -> & Ho)
                     |[(raw' & Hraw' & Hparse' & _)|(Hmissed & _)]].
    - rewrite <- (found_agree key evs raw raw' Hraw Hraw') in Hparse'.
      rewrite Hparse in Hparse'. by injection Hparse' as <-.
    - rewrite <- (found_agree key evs raw raw' Hraw Hraw') in Hparse'. congruence.
    - by destruct (found_last key evs raw Hraw) as (_ & _ & []). }
  split; [done|]. split.
  + intros Hmissed.
    destruct Hend as [(raw & _ & Hraw & _)|[(raw & Hraw & _)
                     |(_ & _ & _ & -> & _ & Ho)]]; [| |done].
    * by destruct (found_last key evs raw Hraw) as (_ & _ & []).
    * by destruct (found_last key evs raw Hraw) as (_ & _ & []).
  + intros since till Hup Hlock Hcached Hsince Htill Htext Hparse.
    assert (Hflags : CACHE_ENABLED env && REDIS_ENABLED env = true).
    { revert HreadyW. unfold redisReady.
      by destruct (CACHE_ENABLED env && REDIS_ENABLED env). }
    destruct fuel as [|fuel']; [lia|].
    destruct (pollLoop_first_hit key text value (nowMs waiter2)
                (Z.min 1000 (CACHE_LOCK_TTL_MS env)) since till fuel' waiter2
                Hflags Hup ltac:(lia) Hcached Hsince Htill Htext Hparse)
      as (c' & t & Hloop & Hjc & Hoc).
    revert Hrun. unfold waitForHolder. unfold await at 1. unfold Date_now at 1.
    unfold await at 1. rewrite Hloop. intros [= <- <-]. done.
Qed.

(** ** An entry is served for its time to live *)

(** A call that does not find the entry never reports HIT. *)
Lemma underLock_not_hit (key : string) (ttlSeconds : Z)
    (compute : X -> Outcome T * X) (lockKey token : string) (c c' : Call X)
    (value : T) :
  underLock env sur JSON_stringify key ttlSeconds compute lockKey token c
  <> (Return (value, Cache.HIT), c').
Proof.
  unfold underLock, tryFinally. unfold await at 1.
  destruct (runCompute sur compute c) as [[v|e|] c1]; [| |done].
  - unfold await at 1.
    destruct (cacheSetJson env sur JSON_stringify key v ttlSeconds c1)
      as [[[]|e|] c2]; unfold settled; [| |done];
      by destruct (orUndefined (releaseLock env sur lockKey token) c2) as [[[]|e'|] c3].
  - by destruct (orUndefined (releaseLock env sur lockKey token) c1) as [[[]|e'|] c3].
Qed.

Lemma waitForHolder_not_hit (fuel : nat) (key : string)
    (compute : X -> Outcome T * X) (c c' : Call X) (value : T) :
  waitForHolder env sur JSON_parse fuel key compute c <> (Return (value, Cache.HIT), c').
Proof.
  unfold waitForHolder. unfold await at 1. unfold Date_now at 1. unfold await at 1.
  destruct (pollLoop env sur JSON_parse fuel key (nowMs c)
              (Z.min 1000 (CACHE_LOCK_TTL_MS env)) 50 c) as [[[v|]|e|] c1]; try done.
  unfold await. by destruct (runCompute sur compute c1) as [[v|e|] c2].
Qed.

End Facts.


(** X10. An entry is served for its time to live and no longer. When a call
    has taken the lock, [compute] has returned and the client is still up, the
    call reports MISS and has sent SET EX with the JSON text of the value;
    the entry expires ttlSeconds after the server ran that command. A later
    call, of this process or another, whose first read finds the entry as
    it was written reports HIT with that value, without calling [compute]
    and sending nothing else, if the read is run no later than the expiry;
    if it is run later, the call does not report HIT. *)
Theorem withCache_miss_then_hit {X T : Type}
    (env : Env) (around aroundLater : Surroundings) (randomUUID : nat -> string)
    (JSON_stringify : T -> string) (JSON_parse : string -> option T)
    (fuel fuel' : nat) (key : string) (ttlSeconds ttlSeconds' : Z)
    (compute compute' : X -> Outcome T * X)
    (c c1 c2 d : Call X) (token : string) (value : T) (x' : X) :
  0 < ttlSeconds ->
  redisReady env around c = true ->
  cacheGetJson env around JSON_parse key c = (Return None, c1) ->
  acquireLock env around randomUUID (key ++ ":lock") (CACHE_LOCK_TTL_MS env) c1
  = (Return (Some token), c2) ->
  token <> ""%string ->
  compute (outside c2) = (Return value, x') ->
  let ended := snd (runCompute around compute c2) in
  let text := JSON_stringify value in
  let writtenAt := nowMs ended + requestMs around (awaited ended) in
  let expiry := writtenAt + ttlSeconds * 1000 in
  let readAt := nowMs d + requestMs aroundLater (awaited d) in
  redisReady env around ended = true ->
  text <> ""%string ->
  JSON_parse text = Some value ->
  redisReady env aroundLater d = true ->
  others aroundLater (nowMs d) readAt (held d) !! key = Some (text, Some expiry) ->
  (exists c' : Call X,
     withCache env around randomUUID JSON_stringify JSON_parse fuel key ttlSeconds
       compute c = (Return (value, Cache.MISS), c')
     /\ (writtenAt, Redis (SET_EX key text ttlSeconds) ReplyOK) ∈ journal c')
  /\ (readAt <= expiry ->
      exists d' : Call X,
        withCache env aroundLater randomUUID JSON_stringify JSON_parse fuel' key
          ttlSeconds' compute' d = (Return (value, Cache.HIT), d')
        /\ outside d' = outside d
        /\ journal d' = journal d ++ [(readAt, Redis (GET key) (ReplyBulk text))])
  /\ (expiry < readAt ->
      forall (found' : T) (d' : Call X),
        withCache env aroundLater randomUUID JSON_stringify JSON_parse fuel' key
          ttlSeconds' compute' d <> (Return (found', Cache.HIT), d')).
Proof.
  intros Httl Hready Hget Hlock Htoken Hcompute ended text writtenAt expiry readAt
    Hended Htext Hparse HreadyD Hentry.
  split; [|split].
  - destruct (holder_computes env around randomUUID JSON_stringify JSON_parse
                fuel key ttlSeconds compute c c1 c2 token value x'
                Httl Hready Hget Hlock Htoken Hcompute)
      as (c' & written & Hrun & _ & _ & Hset & Hrelease).
    fold ended in Hset. rewrite Hended in Hset. cbv zeta in Hset.
    destruct Hset as [Hj _].
    exists c'. split; [done|].
    destruct (releaseLock_post env around (key ++ ":lock")%string token written)
      as (c'' & Hrelease' & _ & Hcases).
    rewrite Hrelease in Hrelease'. injection Hrelease' as <-.
    assert (Hin : (writtenAt, Redis (SET_EX key text ttlSeconds) ReplyOK)
                  ∈ journal written).
    { rewrite Hj. apply elem_of_app. right. by apply list_elem_of_singleton. }
    destruct (redisReady env around written).
    + cbv zeta in Hcases. destruct Hcases as (-> & _).
      apply elem_of_app. by left.
    + by subst c'.
  - intros Halive. unfold withCache. rewrite HreadyD. cbn [negb].
    unfold await at 1. unfold cacheGetJson. rewrite HreadyD. cbn [negb].
    unfold await, redisGet, send, runGet. cbn [later nowMs held].
    fold readAt. rewrite Hentry. cbn [live].
    destruct (expiry <? readAt) eqn:E; [apply Z.ltb_lt in E; lia|].
    rewrite (truthy_nonempty text Htext), Hparse.
    eexists. split; [reflexivity|]. by cbn.
  - intros Hgone found' d'. unfold withCache. rewrite HreadyD. cbn [negb].
    unfold await at 1. unfold cacheGetJson at 1. rewrite HreadyD. cbn [negb].
    unfold await at 1, redisGet, send, runGet. cbn [later nowMs held].
    fold readAt. rewrite Hentry. cbn [live].
    apply Z.ltb_lt in Hgone. rewrite Hgone.
    change (truthy None) with (@None string). cbv beta iota. unfold settled at 1.
    unfold await at 1.
    match goal with
    | |- context [acquireLock env aroundLater randomUUID ?k ?ttl ?w] =>
        destruct (acquireLock env aroundLater randomUUID k ttl w)
          as [[lockValue|e|] w2]; [|done|done]
    end.
    destruct (truthy lockValue) as [tok|].
    + apply underLock_not_hit.
    + apply waitForHolder_not_hit.
Qed.

(** ** A concrete process

    The defaults of config/env.ts; strings cached as they are; a [compute]
    that counts its calls in what is outside the cache; one key. *)

Definition calm : Surroundings :=
  {| requestMs := fun _ => 0; replyMs := fun _ => 0; timerLateMs := fun _ => 0;
     computeMs := fun _ => 0; others := fun _ _ store => store;
     statusUp := fun _ => true |}.

Lemma calm_forward : forward calm.
Proof. intros n. simpl. lia. Qed.

Definition startMs : Z := 1700000000000.

Definition pageKey : string := "products:list:v1:abc".

Definition callAt (store : Store) : Call nat :=
  {| held := store; nowMs := startMs; awaited := 0; drawn := 0; journal := [];
     outside := 0%nat |}.

Definition uuidOf (n : nat) : string := "3f0c6a1e-uuid".

Definition pageCompute (calls : nat) : Outcome string * nat :=
  (Return "page"%string, S calls).

Definition failingCompute (calls : nat) : Outcome string * nat :=
  (Throw (Error "boom"), S calls).

(** The lock in the hands of another caller, for 2000 ms from the start. *)
Definition lockedStore : Store :=
  {[ (pageKey ++ ":lock")%string := ("9b2d44c7-uuid"%string, Some (startMs + 2000)) ]}.

Definition withCacheAt (sur : Surroundings) (compute : nat -> Outcome string * nat)
    (c : Call nat) : Outcome (string * Cache.CacheStatus) * Call nat :=
  withCache Cache.defaultEnv sur uuidOf (fun s => s) Some 7 pageKey 30 compute c.

Definition firstRead (sur : Surroundings) (c : Call nat) : Call nat :=
  snd (cacheGetJson (T := string) Cache.defaultEnv sur Some pageKey c).

Definition lockTried (sur : Surroundings) (c : Call nat) : Call nat :=
  snd (acquireLock Cache.defaultEnv sur uuidOf (pageKey ++ ":lock") 2000
         (firstRead sur c)).

(** Surroundings in which every command takes [ms] to reach the server and
    [ms] to answer. *)
Definition slowReads (ms : Z) : Surroundings :=
  {| requestMs := fun _ => ms; replyMs := fun _ => ms; timerLateMs := fun _ => 0;
     computeMs := fun _ => 0; others := fun _ _ store => store;
     statusUp := fun _ => true |}.

(** Surroundings in which the holder's value is in the cache from [since]
    on, every command taking [ms] each way. *)
Definition holderDone (ms since : Z) : Surroundings :=
  {| requestMs := fun _ => ms; replyMs := fun _ => ms; timerLateMs := fun _ => 0;
     computeMs := fun _ => 0;
     others := fun _ to store =>
       if since <=? to then <[pageKey := ("page"%string, Some (since + 30000))]> store
       else store;
     statusUp := fun _ => true |}.

Lemma holderDone_forward (ms since : Z) : 0 <= ms -> forward (holderDone ms since).
Proof. intros Hms n. simpl. lia. Qed.

Lemma holderDone_cachedBetween (ms since : Z) :
  cachedBetween (holderDone ms since) pageKey "page" since (since + 30000).
Proof.
  intros from to store [Hsince Htill]. simpl.
  apply Z.leb_le in Hsince. rewrite Hsince. rewrite lookup_insert_eq. simpl.
  destruct (since + 30000 <? to) eqn:E; [apply Z.ltb_lt in E; lia|done].
Qed.

(** *** The lock in other hands, and no value ever *)



(** The same caller when every command takes 13 ms each way: the sleeps
    begin 0, 76, 202, 428, 704 and 980 ms after the wait began, and the
    wait ends after 1256 ms. *)
Example withCache_follower_slow_reads :
  let c := callAt lockedStore in
  let run := withCacheAt (slowReads 13) pageCompute c in
  let waitBegan := nowMs (lockTried (slowReads 13) c) in
  fst run = Return ("page"%string, Cache.BYPASS)
  /\ flat_map (fun entry => match snd entry with
                            | Sleep _ => [fst entry - waitBegan]
                            | _ => []
                            end) (journal (snd run))
     = [0; 76; 202; 428; 704; 980]
  /\ nowMs (snd run) - waitBegan = 1256.
Proof. by vm_compute. Qed.

(** *** A holder and a waiter *)

(** The waiter's side of the store while the holder works: the lock under
    the holder's token. *)
Definition heldByHolder : Store :=
  {[ (pageKey ++ ":lock")%string := ("3f0c6a1e-uuid"%string, Some (startMs + 2000)) ]}.


(** With the holder done 40 ms after the waiter began to wait, the waiter's
    first read finds the value. *)
Example withCache_waiter_shares_example :
  let run := withCacheAt (holderDone 0 (startMs + 40)) pageCompute (callAt heldByHolder) in
  fst run = Return ("page"%string, Cache.WAIT)
  /\ outside (snd run) = 0%nat
  /\ map snd (journal (snd run))
     = [Redis (GET pageKey) ReplyNil;
        Redis (SET_PX_NX (pageKey ++ ":lock") "3f0c6a1e-uuid" 2000) ReplyNil;
        Sleep 50;
        Redis (GET pageKey) (ReplyBulk "page")].
Proof. by vm_compute. Qed.

(** Surroundings of a holder whose [compute] lasts [ms]. *)
Definition slowCompute (ms : Z) : Surroundings :=
  {| requestMs := fun _ => 0; replyMs := fun _ => 0; timerLateMs := fun _ => 0;
     computeMs := fun _ => ms; others := fun _ _ store => store;
     statusUp := fun _ => true |}.


(** The value in the cache 990 ms after the waiter began to wait, within
    the budget of 1000 ms, and every command taking 15 ms each way: the
    last read is run after 985 ms and misses, the loop ends at 1000 ms, and
    the waiter computes. *)
Example withCache_value_within_budget_missed :
  let around := holderDone 15 (startMs + 60 + 990) in
  let c := callAt heldByHolder in
  let run := withCacheAt around pageCompute c in
  let waitBegan := nowMs (lockTried around c) in
  waitBegan = startMs + 60
  /\ fst run = Return ("page"%string, Cache.BYPASS)
  /\ outside (snd run) = 1%nat
  /\ flat_map (fun entry => match snd entry with
                            | Redis (GET _) _ => [fst entry - waitBegan]
                            | _ => []
                            end) (journal (snd run))
     = [-45; 65; 195; 425; 705; 985]
  /\ nowMs (snd run) - waitBegan = 1000.
Proof. by vm_compute. Qed.

(** *** A [compute] that throws *)

Lemma withCache_compute_throws_releases_lock_witness :
  let c := callAt ∅ in
  let c2 := lockTried calm c in
  let lockKey := (pageKey ++ ":lock")%string in
  let ended := snd (runCompute calm failingCompute c2) in
  exists (c' : Call nat) (t0 t1 : Z) (reply0 : RedisReply),
    withCacheAt calm failingCompute c = (Throw (Error "boom"), c')
    /\ outside c' = 1%nat
    /\ missed reply0
    /\ journal c2
       = journal c
         ++ [(t0, Redis (GET pageKey) reply0);
             (t1, Redis (SET_PX_NX lockKey "3f0c6a1e-uuid" 2000) ReplyOK)]
    /\ if redisReady Cache.defaultEnv calm ended then
         let t := nowMs ended + requestMs calm (awaited ended) in
         let seen := others calm (nowMs ended) t (held ended) in
         let mine := bool_decide (live t (seen !! lockKey) = Some "3f0c6a1e-uuid"%string) in
         let left := if mine then delete lockKey seen else seen in
         journal c'
         = journal c2
           ++ [(t, Redis (EVAL_compare_and_delete lockKey "3f0c6a1e-uuid")
                     (ReplyInteger (if mine then 1 else 0)))]
         /\ held c' = others calm t (nowMs c') left
         /\ live t (left !! lockKey) <> Some "3f0c6a1e-uuid"%string
       else c' = ended /\ journal c' = journal c2.
Proof.
  intros c c2 lockKey ended.
  refine (withCache_compute_throws_releases_lock Cache.defaultEnv calm uuidOf
            (fun s => s) Some 7 pageKey 30 failingCompute
            c (firstRead calm c) c2 "3f0c6a1e-uuid" (Error "boom") 1%nat _ _ _ _ _).
  - by vm_compute.
  - by vm_compute.
  - by vm_compute.
  - discriminate.
  - by vm_compute.
Defined.

(** What that call has sent: the lock is deleted. *)
Example withCache_compute_throws_example :
  let run := withCacheAt calm failingCompute (callAt ∅) in
  fst run = Throw (Error "boom")
  /\ map snd (journal (snd run))
     = [Redis (GET pageKey) ReplyNil;
        Redis (SET_PX_NX (pageKey ++ ":lock") "3f0c6a1e-uuid" 2000) ReplyOK;
        Redis (EVAL_compare_and_delete (pageKey ++ ":lock") "3f0c6a1e-uuid")
          (ReplyInteger 1)]
  /\ held (snd run) !! (pageKey ++ ":lock")%string = None.
Proof. by vm_compute. Qed.

(** Surroundings of a holder whose [compute] lasts 100 ms and whose client
    loses its connection 50 ms after the call began. *)
Definition connectionLost : Surroundings :=
  {| requestMs := fun _ => 0; replyMs := fun _ => 0; timerLateMs := fun _ => 0;
     computeMs := fun _ => 100; others := fun _ _ store => store;
     statusUp := fun t => t <? startMs + 50 |}.

(** C4 as stated fails when the client is no longer up as [compute] throws:
    the error is thrown on and no entry is written, but no script is sent,
    and the lock is still in the store under the token of the caller, for
    the rest of its 2000 ms. *)
Lemma withCache_compute_throws_lock_left :
  let run := withCacheAt connectionLost failingCompute (callAt ∅) in
  let lockKey := (pageKey ++ ":lock")%string in
  fst run = Throw (Error "boom")
  /\ map snd (journal (snd run))
     = [Redis (GET pageKey) ReplyNil;
        Redis (SET_PX_NX lockKey "3f0c6a1e-uuid" 2000) ReplyOK]
  /\ nowMs (snd run) = startMs + 100
  /\ held (snd run) !! lockKey = Some ("3f0c6a1e-uuid"%string, Some (startMs + 2000))
  /\ live (nowMs (snd run)) (held (snd run) !! lockKey) = Some "3f0c6a1e-uuid"%string
  /\ held (snd run) !! pageKey = None.
Proof. by vm_compute. Qed.

(** A [compute] that throws after 2500 ms, the lock being of 2000 ms: the
    script finds the lock expired and answers 0. *)
Example withCache_compute_outlasts_lock :
  let run := withCacheAt (slowCompute 2500) failingCompute (callAt ∅) in
  fst run = Throw (Error "boom")
  /\ map snd (journal (snd run))
     = [Redis (GET pageKey) ReplyNil;
        Redis (SET_PX_NX (pageKey ++ ":lock") "3f0c6a1e-uuid" 2000) ReplyOK;
        Redis (EVAL_compare_and_delete (pageKey ++ ":lock") "3f0c6a1e-uuid")
          (ReplyInteger 0)]
  /\ live (nowMs (snd run)) (held (snd run) !! (pageKey ++ ":lock")%string) = None.
Proof. by vm_compute. Qed.

(** *** An entry and its time to live *)

(** A later call, 20 s after the start, on the store the first call left. *)
Definition laterCall (store : Store) (afterMs : Z) : Call nat :=
  {| held := store; nowMs := startMs + afterMs; awaited := 0; drawn := 1;
     journal := []; outside := 1%nat |}.

Definition cachedStore : Store :=
  {[ pageKey := ("page"%string, Some (startMs + 30 * 1000)) ]}.

Lemma withCache_miss_then_hit_witness :
  let c := callAt ∅ in
  let d := laterCall cachedStore 20000 in
  (exists c' : Call nat,
     withCacheAt calm pageCompute c = (Return ("page"%string, Cache.MISS), c')
     /\ (startMs, Redis (SET_EX pageKey "page" 30) ReplyOK) ∈ journal c')
  /\ (startMs + 20000 <= startMs + 30 * 1000 ->
      exists d' : Call nat,
        withCacheAt calm failingCompute d = (Return ("page"%string, Cache.HIT), d')
        /\ outside d' = outside d
        /\ journal d'
           = journal d ++ [(startMs + 20000, Redis (GET pageKey) (ReplyBulk "page"))])
  /\ (startMs + 30 * 1000 < startMs + 20000 ->
      forall (found' : string) (d' : Call nat),
        withCacheAt calm failingCompute d <> (Return (found', Cache.HIT), d')).
Proof.
  intros c d.
  refine (withCache_miss_then_hit Cache.defaultEnv calm calm uuidOf (fun s => s) Some
            7 7 pageKey 30 30 pageCompute failingCompute
            c (firstRead calm c) (lockTried calm c) d "3f0c6a1e-uuid" "page"%string
            1%nat _ _ _ _ _ _ _ _ _ _ _).
  - lia.
  - by vm_compute.
  - by vm_compute.
  - by vm_compute.
  - discriminate.
  - by vm_compute.
  - by vm_compute.
  - discriminate.
  - by vm_compute.
  - by vm_compute.
  - by vm_compute.
Defined.

(** The store the first call leaves is the store the later call starts
    from; 31 s after the start the entry is gone and the later call
    computes. *)
Example withCache_after_expiry :
  held (snd (withCacheAt calm pageCompute (callAt ∅))) !! pageKey
  = cachedStore !! pageKey
  /\ fst (withCacheAt calm pageCompute (laterCall cachedStore 20000))
     = Return ("page"%string, Cache.HIT)
  /\ fst (withCacheAt calm pageCompute (laterCall cachedStore 31000))
     = Return ("page"%string, Cache.MISS)
  /\ outside (snd (withCacheAt calm pageCompute (laterCall cachedStore 31000)))
     = 2%nat.
Proof. by vm_compute. Qed.

End CacheClock.
